(** * gapless.js: the track machine and the queue machine

    A shallow embedding of the two XState machines of gapless.js
    ([src/trackMachine.ts] and the queue machine that follows the [Gapless]
    facade in [src/gaplessStateMachine.ts]) together with the facade itself.

    Conventions of the embedding.
    - JavaScript numbers that carry times and volumes are rationals ([Q]);
      a subtraction of two of them gives the exact difference rounded to
      the nearest IEEE-754 double, as the engine does ([Number_sub]); [NaN]
      and the infinities are outside the model.  Indices are integers
      ([Z]), so that [currentTrackIdx - 1] and [length - 1] may be negative
      as they are in the source.
    - Browser objects owned by one track (the [HTMLAudioElement], the gain
      node) are records stored in the track context.  Buffer source nodes
      are referred to by an identifier allotted by the audio context; every
      call made on a node is recorded in the effect list of the step.
    - An XState action is a transformer of a [Run]: the context being
      mutated, the browser world, the effects performed so far and the
      events handed to [self.send].
    - [console.log] lines are not modelled; [console.warn] and
      [console.error] are effects. *)

From Stdlib Require Import ZArith QArith Qabs Qpower Qminmax Lqa Lia String.
From stdpp Require Import base option list.

Local Open Scope Z_scope.

(** ** JavaScript helpers *)

(** [Math.max] and [Math.min] on numbers. *)
Definition Math_max (a b : Q) : Q := if Qle_bool a b then b else a.
Definition Math_min (a b : Q) : Q := if Qle_bool a b then a else b.

(** The nearest integer to [n / d], the even one of two that are equally
    near. *)
Definition round_half_even (n : Z) (d : positive) : Z :=
  let q := n / Zpos d in
  match 2 * (n mod Zpos d) ?= Zpos d with
  | Lt => q
  | Gt => q + 1
  | Eq => if Z.even q then q else q + 1
  end.

(** The [e] with [2 ^ e <= |x| < 2 ^ (e + 1)], for [x] other than 0. *)
Definition binade (x : Q) : Z :=
  let n := Z.abs (Qnum x) in
  let d := Zpos (Qden x) in
  let e := Z.log2 n - Z.log2 d in
  if (if 0 <=? e then d * 2 ^ e <=? n else d <=? n * 2 ^ (- e))
  then e else e - 1.

(** The double nearest to a rational (IEEE-754 binary64, round to nearest,
    ties to even): 53 significant bits, and no bit below [2 ^ -1074].
    Doubles have no exponent above 1023; the model has no [Infinity] and
    leaves the exponent unbounded there. *)
Definition to_double (x : Q) : Q :=
  if Qeq_bool x 0 then 0%Q
  else
    let e := Z.max (binade x - 52) (-1074) in
    if 0 <=? e
    then inject_Z
           (round_half_even (Qnum x) (Qden x * Z.to_pos (2 ^ e)) * 2 ^ e)
    else Qmake (round_half_even (Qnum x * 2 ^ (- e)) (Qden x))
               (Z.to_pos (2 ^ (- e))).

(** [a - b] on numbers. *)
Definition Number_sub (a b : Q) : Q := to_double (a - b).

Arguments to_double : simpl never.
Arguments Number_sub : simpl never.

(** Half the distance between 1 and the next double, and half the least
    positive double: the relative and the absolute error of one rounding. *)
Definition unit_roundoff : Q := 1 # 2 ^ 53.
Definition half_least : Q := 1 # 2 ^ 1075.

(** Truthiness of a number: everything but zero. *)
Definition truthy (x : Q) : bool := negb (Qeq_bool x 0).

(** [a || b] on numbers. *)
Definition or_else (a b : Q) : Q := if truthy a then a else b.

(** [arr[i]] for a JavaScript index: [undefined] out of range. *)
Definition at_index {A} (l : list A) (i : Z) : option A :=
  if 0 <=? i then l !! Z.to_nat i else None.

(** [arr.length] as a JavaScript number. *)
Definition len {A} (l : list A) : Z := Z.of_nat (length l).

(** ** The track machine ([src/trackMachine.ts]) *)

Module Track.

(** A decoded [AudioBuffer]; only its duration is read. *)
Record AudioBuffer := { buffer_duration : Q }.

Definition Metadata := list (string * string).

Inductive PlaybackType := HTML5 | WEBAUDIO.
Inductive LoadingState := NONE | LOADING | LOADED.

Inductive AudioSource := html | loadingWebAudio | webaudio.
Inductive Playback := paused | playing.

(** The value of a snapshot of the parallel machine. *)
Record StateValue := { audioSource : AudioSource; playback : Playback }.

Record GaplessTrackInfo := {
  info_idx : Z;
  info_currentTime : Q;
  info_duration : Q;
  info_metadata : option Metadata;
  info_isPlaying : bool;
  info_isPaused : bool;
  info_volume : Q;
  info_trackUrl : string;
  info_playbackType : PlaybackType;
  info_webAudioLoadingState : LoadingState
}.

Inductive Preload := preload_none | preload_auto.

(** The [HTMLAudioElement] of a track. *)
Record Audio := {
  audio_controls : bool;
  audio_volume : Q;
  audio_preload : Preload;
  audio_src : string;
  audio_currentTime : Q;
  audio_duration : Q;
  audio_paused : bool
}.

(** The [GainNode] of a track. *)
Record Gain := { gain_value : Q }.

Record Context := {
  trackUrl : string;
  idx : Z;
  volume : Q;
  webAudioIsDisabled : bool;
  skipHEAD : option bool;
  metadata : option Metadata;
  (* callbacks: [true] when the function was supplied *)
  onProgress : bool;
  onEnded : bool;
  onTrackLoaded : bool;
  onTrackEnded : bool;

  loadedHEAD : bool;
  currentTime : Q;
  duration : Q;

  audio : option Audio;
  audioContext : bool;  (* the module level [audioContext], or [null] *)
  audioBuffer : option AudioBuffer;
  bufferSourceNode : option nat;
  gainNode : option Gain;

  webAudioStartedPlayingAt : Q;
  webAudioPausedDuration : Q;
  webAudioPausedAt : Q;

  progressAnimationFrame : option nat
}.

Inductive Event :=
| ACTIVATE
| DEACTIVATE
| PLAY
| PAUSE
| ENDED
| SEEK (time : Q)
| SET_VOLUME (volume : Q)
| PRELOAD
| LOAD_WEBAUDIO
| WEBAUDIO_LOADED (buffer : AudioBuffer)
| WEBAUDIO_ERROR (error : string)
| SWITCH_TO_WEBAUDIO
| PROGRESS.

(** What a step does to the world outside the context. *)
Inductive Effect :=
| CreateBufferSource (n : nat)
| NodeSetBuffer (n : nat)
| NodeConnect (n : nat)
| NodeSetOnended (n : nat)
| NodeClearOnended (n : nat)
| NodeStart (n : nat) (offset : Q)
| NodeStop (n : nat)
| NodeDisconnect (n : nat)
| CreateGain
| GainConnect
| AudioPlay
| AudioPause
| Fetch (url : string)
| RequestAnimationFrame (f : nat)
| CancelAnimationFrame (f : nat)
| ConsoleWarn (msg : string)
| ConsoleError (msg : string)
| CallOnProgress (info : GaplessTrackInfo)
| CallOnEnded
| CallOnTrackLoaded (trackIndex : Z)
| CallOnTrackEnded (trackIndex : Z)
| SendSelf (ev : Event).

(** The part of the browser a track reads and allots from. *)
Record World := {
  isBrowser : bool;
  now : Q;            (* [audioContext.currentTime] *)
  next_node : nat;    (* identifier of the next buffer source node *)
  next_frame : nat    (* identifier of the next animation frame request *)
}.

Record Run := {
  ctx : Context;
  world : World;
  effects : list Effect;   (* in the order they happen *)
  snapshot : StateValue    (* [self.getSnapshot()] during the step *)
}.

(** *** Field updates *)

Definition set_volume (v : Q) (c : Context) : Context :=
  {| trackUrl := trackUrl c; idx := idx c; volume := v;
     webAudioIsDisabled := webAudioIsDisabled c; skipHEAD := skipHEAD c;
     metadata := metadata c; onProgress := onProgress c;
     onEnded := onEnded c; onTrackLoaded := onTrackLoaded c;
     onTrackEnded := onTrackEnded c; loadedHEAD := loadedHEAD c;
     currentTime := currentTime c; duration := duration c; audio := audio c;
     audioContext := audioContext c; audioBuffer := audioBuffer c;
     bufferSourceNode := bufferSourceNode c; gainNode := gainNode c;
     webAudioStartedPlayingAt := webAudioStartedPlayingAt c;
     webAudioPausedDuration := webAudioPausedDuration c;
     webAudioPausedAt := webAudioPausedAt c;
     progressAnimationFrame := progressAnimationFrame c |}.
Definition set_currentTime (v : Q) (c : Context) : Context :=
  {| trackUrl := trackUrl c; idx := idx c; volume := volume c;
     webAudioIsDisabled := webAudioIsDisabled c; skipHEAD := skipHEAD c;
     metadata := metadata c; onProgress := onProgress c;
     onEnded := onEnded c; onTrackLoaded := onTrackLoaded c;
     onTrackEnded := onTrackEnded c; loadedHEAD := loadedHEAD c;
     currentTime := v; duration := duration c; audio := audio c;
     audioContext := audioContext c; audioBuffer := audioBuffer c;
     bufferSourceNode := bufferSourceNode c; gainNode := gainNode c;
     webAudioStartedPlayingAt := webAudioStartedPlayingAt c;
     webAudioPausedDuration := webAudioPausedDuration c;
     webAudioPausedAt := webAudioPausedAt c;
     progressAnimationFrame := progressAnimationFrame c |}.
Definition set_duration (v : Q) (c : Context) : Context :=
  {| trackUrl := trackUrl c; idx := idx c; volume := volume c;
     webAudioIsDisabled := webAudioIsDisabled c; skipHEAD := skipHEAD c;
     metadata := metadata c; onProgress := onProgress c;
     onEnded := onEnded c; onTrackLoaded := onTrackLoaded c;
     onTrackEnded := onTrackEnded c; loadedHEAD := loadedHEAD c;
     currentTime := currentTime c; duration := v; audio := audio c;
     audioContext := audioContext c; audioBuffer := audioBuffer c;
     bufferSourceNode := bufferSourceNode c; gainNode := gainNode c;
     webAudioStartedPlayingAt := webAudioStartedPlayingAt c;
     webAudioPausedDuration := webAudioPausedDuration c;
     webAudioPausedAt := webAudioPausedAt c;
     progressAnimationFrame := progressAnimationFrame c |}.
Definition set_audio (v : option Audio) (c : Context) : Context :=
  {| trackUrl := trackUrl c; idx := idx c; volume := volume c;
     webAudioIsDisabled := webAudioIsDisabled c; skipHEAD := skipHEAD c;
     metadata := metadata c; onProgress := onProgress c;
     onEnded := onEnded c; onTrackLoaded := onTrackLoaded c;
     onTrackEnded := onTrackEnded c; loadedHEAD := loadedHEAD c;
     currentTime := currentTime c; duration := duration c; audio := v;
     audioContext := audioContext c; audioBuffer := audioBuffer c;
     bufferSourceNode := bufferSourceNode c; gainNode := gainNode c;
     webAudioStartedPlayingAt := webAudioStartedPlayingAt c;
     webAudioPausedDuration := webAudioPausedDuration c;
     webAudioPausedAt := webAudioPausedAt c;
     progressAnimationFrame := progressAnimationFrame c |}.
Definition set_audioBuffer (v : option AudioBuffer) (c : Context) : Context :=
  {| trackUrl := trackUrl c; idx := idx c; volume := volume c;
     webAudioIsDisabled := webAudioIsDisabled c; skipHEAD := skipHEAD c;
     metadata := metadata c; onProgress := onProgress c;
     onEnded := onEnded c; onTrackLoaded := onTrackLoaded c;
     onTrackEnded := onTrackEnded c; loadedHEAD := loadedHEAD c;
     currentTime := currentTime c; duration := duration c; audio := audio c;
     audioContext := audioContext c; audioBuffer := v;
     bufferSourceNode := bufferSourceNode c; gainNode := gainNode c;
     webAudioStartedPlayingAt := webAudioStartedPlayingAt c;
     webAudioPausedDuration := webAudioPausedDuration c;
     webAudioPausedAt := webAudioPausedAt c;
     progressAnimationFrame := progressAnimationFrame c |}.
Definition set_bufferSourceNode (v : option nat) (c : Context) : Context :=
  {| trackUrl := trackUrl c; idx := idx c; volume := volume c;
     webAudioIsDisabled := webAudioIsDisabled c; skipHEAD := skipHEAD c;
     metadata := metadata c; onProgress := onProgress c;
     onEnded := onEnded c; onTrackLoaded := onTrackLoaded c;
     onTrackEnded := onTrackEnded c; loadedHEAD := loadedHEAD c;
     currentTime := currentTime c; duration := duration c; audio := audio c;
     audioContext := audioContext c; audioBuffer := audioBuffer c;
     bufferSourceNode := v; gainNode := gainNode c;
     webAudioStartedPlayingAt := webAudioStartedPlayingAt c;
     webAudioPausedDuration := webAudioPausedDuration c;
     webAudioPausedAt := webAudioPausedAt c;
     progressAnimationFrame := progressAnimationFrame c |}.
Definition set_gainNode (v : option Gain) (c : Context) : Context :=
  {| trackUrl := trackUrl c; idx := idx c; volume := volume c;
     webAudioIsDisabled := webAudioIsDisabled c; skipHEAD := skipHEAD c;
     metadata := metadata c; onProgress := onProgress c;
     onEnded := onEnded c; onTrackLoaded := onTrackLoaded c;
     onTrackEnded := onTrackEnded c; loadedHEAD := loadedHEAD c;
     currentTime := currentTime c; duration := duration c; audio := audio c;
     audioContext := audioContext c; audioBuffer := audioBuffer c;
     bufferSourceNode := bufferSourceNode c; gainNode := v;
     webAudioStartedPlayingAt := webAudioStartedPlayingAt c;
     webAudioPausedDuration := webAudioPausedDuration c;
     webAudioPausedAt := webAudioPausedAt c;
     progressAnimationFrame := progressAnimationFrame c |}.
Definition set_webAudioStartedPlayingAt (v : Q) (c : Context) : Context :=
  {| trackUrl := trackUrl c; idx := idx c; volume := volume c;
     webAudioIsDisabled := webAudioIsDisabled c; skipHEAD := skipHEAD c;
     metadata := metadata c; onProgress := onProgress c;
     onEnded := onEnded c; onTrackLoaded := onTrackLoaded c;
     onTrackEnded := onTrackEnded c; loadedHEAD := loadedHEAD c;
     currentTime := currentTime c; duration := duration c; audio := audio c;
     audioContext := audioContext c; audioBuffer := audioBuffer c;
     bufferSourceNode := bufferSourceNode c; gainNode := gainNode c;
     webAudioStartedPlayingAt := v;
     webAudioPausedDuration := webAudioPausedDuration c;
     webAudioPausedAt := webAudioPausedAt c;
     progressAnimationFrame := progressAnimationFrame c |}.
Definition set_webAudioPausedDuration (v : Q) (c : Context) : Context :=
  {| trackUrl := trackUrl c; idx := idx c; volume := volume c;
     webAudioIsDisabled := webAudioIsDisabled c; skipHEAD := skipHEAD c;
     metadata := metadata c; onProgress := onProgress c;
     onEnded := onEnded c; onTrackLoaded := onTrackLoaded c;
     onTrackEnded := onTrackEnded c; loadedHEAD := loadedHEAD c;
     currentTime := currentTime c; duration := duration c; audio := audio c;
     audioContext := audioContext c; audioBuffer := audioBuffer c;
     bufferSourceNode := bufferSourceNode c; gainNode := gainNode c;
     webAudioStartedPlayingAt := webAudioStartedPlayingAt c;
     webAudioPausedDuration := v; webAudioPausedAt := webAudioPausedAt c;
     progressAnimationFrame := progressAnimationFrame c |}.
Definition set_webAudioPausedAt (v : Q) (c : Context) : Context :=
  {| trackUrl := trackUrl c; idx := idx c; volume := volume c;
     webAudioIsDisabled := webAudioIsDisabled c; skipHEAD := skipHEAD c;
     metadata := metadata c; onProgress := onProgress c;
     onEnded := onEnded c; onTrackLoaded := onTrackLoaded c;
     onTrackEnded := onTrackEnded c; loadedHEAD := loadedHEAD c;
     currentTime := currentTime c; duration := duration c; audio := audio c;
     audioContext := audioContext c; audioBuffer := audioBuffer c;
     bufferSourceNode := bufferSourceNode c; gainNode := gainNode c;
     webAudioStartedPlayingAt := webAudioStartedPlayingAt c;
     webAudioPausedDuration := webAudioPausedDuration c;
     webAudioPausedAt := v;
     progressAnimationFrame := progressAnimationFrame c |}.
Definition set_progressAnimationFrame (v : option nat) (c : Context) : Context :=
  {| trackUrl := trackUrl c; idx := idx c; volume := volume c;
     webAudioIsDisabled := webAudioIsDisabled c; skipHEAD := skipHEAD c;
     metadata := metadata c; onProgress := onProgress c;
     onEnded := onEnded c; onTrackLoaded := onTrackLoaded c;
     onTrackEnded := onTrackEnded c; loadedHEAD := loadedHEAD c;
     currentTime := currentTime c; duration := duration c; audio := audio c;
     audioContext := audioContext c; audioBuffer := audioBuffer c;
     bufferSourceNode := bufferSourceNode c; gainNode := gainNode c;
     webAudioStartedPlayingAt := webAudioStartedPlayingAt c;
     webAudioPausedDuration := webAudioPausedDuration c;
     webAudioPausedAt := webAudioPausedAt c; progressAnimationFrame := v |}.

Definition with_ctx (f : Context -> Context) (r : Run) : Run :=
  {| ctx := f (ctx r); world := world r; effects := effects r;
     snapshot := snapshot r |}.
Definition emit (e : Effect) (r : Run) : Run :=
  {| ctx := ctx r; world := world r; effects := effects r ++ [e];
     snapshot := snapshot r |}.
Definition with_world (f : World -> World) (r : Run) : Run :=
  {| ctx := ctx r; world := f (world r); effects := effects r;
     snapshot := snapshot r |}.

(** [self.send(ev)]: the event joins the mailbox of the track. *)
Definition self_send (ev : Event) (r : Run) : Run := emit (SendSelf ev) r.

(** The events a list of effects hands to [self.send], in order. *)
Definition sent_of (es : list Effect) : list Event :=
  omap (fun e => match e with SendSelf ev => Some ev | _ => None end) es.

Definition bump_node (w : World) : World :=
  {| isBrowser := isBrowser w; now := now w;
     next_node := S (next_node w); next_frame := next_frame w |}.
Definition bump_frame (w : World) : World :=
  {| isBrowser := isBrowser w; now := now w;
     next_node := next_node w; next_frame := S (next_frame w) |}.

Definition audio_set_volume (v : Q) (a : Audio) : Audio :=
  {| audio_controls := audio_controls a; audio_volume := v;
     audio_preload := audio_preload a; audio_src := audio_src a;
     audio_currentTime := audio_currentTime a;
     audio_duration := audio_duration a; audio_paused := audio_paused a |}.
Definition audio_set_preload (p : Preload) (a : Audio) : Audio :=
  {| audio_controls := audio_controls a; audio_volume := audio_volume a;
     audio_preload := p; audio_src := audio_src a;
     audio_currentTime := audio_currentTime a;
     audio_duration := audio_duration a; audio_paused := audio_paused a |}.
Definition audio_set_currentTime (t : Q) (a : Audio) : Audio :=
  {| audio_controls := audio_controls a; audio_volume := audio_volume a;
     audio_preload := audio_preload a; audio_src := audio_src a;
     audio_currentTime := t;
     audio_duration := audio_duration a; audio_paused := audio_paused a |}.
Definition audio_set_paused (b : bool) (a : Audio) : Audio :=
  {| audio_controls := audio_controls a; audio_volume := audio_volume a;
     audio_preload := audio_preload a; audio_src := audio_src a;
     audio_currentTime := audio_currentTime a;
     audio_duration := audio_duration a; audio_paused := b |}.

(** [new Audio()] as both [createAudioElement] actions configure it. *)
Definition new_audio (c : Context) : Audio :=
  {| audio_controls := false; audio_volume := volume c;
     audio_preload := preload_none; audio_src := trackUrl c;
     audio_currentTime := 0; audio_duration := 0; audio_paused := true |}.

(** *** Actions *)

Definition Action := Event -> Run -> Run.

(** [!!x] on a nullable reference. *)
Definition present {A} (o : option A) : bool :=
  match o with Some _ => true | None => false end.

Definition run_all (acts : list Action) (ev : Event) (r : Run) : Run :=
  fold_left (fun r a => a ev r) acts r.

(** [context.gainNode = context.audioContext.createGain()] followed by
    [gain.value = context.volume]. *)
Definition create_gain (r : Run) : Run :=
  emit CreateGain
    (with_ctx (set_gainNode (Some {| gain_value := volume (ctx r) |})) r).

(** [onended = null; stop(); disconnect()] on a node.  Every node kept in a
    context has been started, so [stop] does not throw and the surrounding
    [try] never reaches its [catch]. *)
Definition stop_node (n : nat) (r : Run) : Run :=
  emit (NodeDisconnect n) (emit (NodeStop n) (emit (NodeClearOnended n) r)).

Definition createAndStartBufferSource (startTime : Q) (r : Run) : Run :=
  if negb (audioContext (ctx r)) || negb (present (audioBuffer (ctx r))) then
    emit (ConsoleWarn
            "🎯 TRACK: Cannot create buffer source - missing audioContext or audioBuffer")
         r
  else
    (* Ensure gain node exists *)
    let r := if present (gainNode (ctx r)) then r else create_gain r in
    let position := Math_max 0 startTime in
    (* Create new buffer source *)
    let n := next_node (world r) in
    let r := emit (CreateBufferSource n) (with_world bump_node r) in
    let r := with_ctx (set_bufferSourceNode (Some n)) r in
    let r := emit (NodeSetBuffer n) r in
    let r := emit (NodeConnect n) r in
    let r := emit (NodeSetOnended n) r in
    (* Connect gain node to destination *)
    let r := emit GainConnect r in
    (* Set timing for the start position *)
    let r := with_ctx
               (set_webAudioStartedPlayingAt
                  (Number_sub (now (world r)) position)) r in
    let r := with_ctx (set_webAudioPausedDuration 0%Q) r in
    let r := with_ctx (set_webAudioPausedAt 0%Q) r in
    (* Start playback from the specified position *)
    emit (NodeStart n position) r.

Definition destroyAudioElement : Action := fun _ r =>
  let context := ctx r in
  let r := match audio context with
           | Some _ => emit AudioPause r
           | None => r
           end in
  let r := match bufferSourceNode context with
           | Some n => stop_node n r
           | None => r
           end in
  let r := match progressAnimationFrame context with
           | Some f => emit (CancelAnimationFrame f) r
           | None => r
           end in
  with_ctx (fun c => set_progressAnimationFrame None
                       (set_bufferSourceNode None (set_audio None c))) r.

Definition startPlayback : Action := fun _ r =>
  let context := ctx r in
  if present (audioBuffer context) && negb (webAudioIsDisabled context) then
    self_send SWITCH_TO_WEBAUDIO r
  else
    match audio context with
    | Some a =>
        let a := audio_set_paused false (audio_set_preload preload_auto a) in
        let r := emit AudioPlay (with_ctx (set_audio (Some a)) r) in
        if negb (webAudioIsDisabled context) then self_send LOAD_WEBAUDIO r
        else r
    | None => r
    end.

Definition createAudioElementIfNeeded : Action := fun _ r =>
  let context := ctx r in
  let new_a :=
    if negb (present (audio context)) && isBrowser (world r)
    then Some (new_audio context) else audio context in
  let create := negb (present (gainNode context)) && audioContext context in
  let new_g :=
    if create then Some {| gain_value := volume context |}
    else gainNode context in
  let r := if create then emit CreateGain r else r in
  with_ctx (fun c => set_gainNode new_g (set_audio new_a c)) r.

Definition resumeWebAudio : Action := fun _ r =>
  (* Use the stored current time from when we paused *)
  let resumePosition := Math_max 0 (or_else (currentTime (ctx r)) 0) in
  createAndStartBufferSource resumePosition r.

Definition pausePlayback : Action := fun _ r =>
  let context := ctx r in
  match bufferSourceNode context, audioContext context with
  | Some n, true =>
      (* Calculate exact current playback position *)
      let currentAudioTime := now (world r) in
      let playbackPosition :=
        Number_sub currentAudioTime (webAudioStartedPlayingAt context) in
      (* Store the exact position where we paused *)
      let r := with_ctx (set_currentTime (Math_max 0 playbackPosition)) r in
      let r := with_ctx (set_webAudioPausedAt currentAudioTime) r in
      (* Stop and disconnect the current buffer source *)
      let r := stop_node n r in
      (* Clear the buffer source node *)
      with_ctx (set_bufferSourceNode None) r
  | _, _ =>
      match audio context with
      | Some a =>
          emit AudioPause
            (with_ctx (set_audio (Some (audio_set_paused true a))) r)
      | None => r
      end
  end.

(** The action requests one animation frame and stores its identifier.
    The callback sends [PROGRESS] and requests the next frame itself,
    writing the new identifier into the context object it was created
    with, which [assign] has replaced by then: [stopProgressTracking]
    cancels the first request only and the callbacks go on.  The model
    records the first request; every [PROGRESS] the callbacks send, before
    or after a stop, is a delivery of [PROGRESS] by the browser, and the
    requests the callbacks make are not recorded.  Outside a browser
    [requestAnimationFrame] does not exist and the action throws; the
    model is of a track in a browser. *)
Definition startProgressTracking : Action := fun _ r =>
  let f := next_frame (world r) in
  let r := emit (RequestAnimationFrame f) (with_world bump_frame r) in
  with_ctx (set_progressAnimationFrame (Some f)) r.

Definition stopProgressTracking : Action := fun _ r =>
  let r := match progressAnimationFrame (ctx r) with
           | Some f => emit (CancelAnimationFrame f) r
           | None => r
           end in
  with_ctx (set_progressAnimationFrame None) r.

Definition updateProgress : Action := fun _ r =>
  let context := ctx r in
  let new_currentTime :=
    match bufferSourceNode context, audioContext context with
    | Some _, true =>
        (* Calculate current time for active WebAudio playback *)
        Math_max 0
          (Number_sub (now (world r)) (webAudioStartedPlayingAt context))
    | _, _ =>
        match audio context with
        | Some a => audio_currentTime a
        | None =>
            if present (audioBuffer context)
               && negb (present (bufferSourceNode context))
            then currentTime context   (* WebAudio available but paused *)
            else 0%Q
        end
    end in
  let new_duration :=
    match audioBuffer context with
    | Some b => buffer_duration b
    | None =>
        match audio context with
        | Some a => audio_duration a
        | None => 0%Q
        end
    end in
  with_ctx (fun c => set_duration new_duration
                       (set_currentTime new_currentTime c)) r.

Definition AudioSource_eqb (a b : AudioSource) : bool :=
  match a, b with
  | html, html | loadingWebAudio, loadingWebAudio | webaudio, webaudio => true
  | _, _ => false
  end.

Definition Playback_eqb (a b : Playback) : bool :=
  match a, b with
  | paused, paused | playing, playing => true
  | _, _ => false
  end.

Definition checkPreloadNext : Action := fun _ r =>
  let context := ctx r in
  if onProgress context then
    let isPlaying := Playback_eqb (playback (snapshot r)) playing in
    let isPaused := Playback_eqb (playback (snapshot r)) paused in
    let isWebAudio := AudioSource_eqb (audioSource (snapshot r)) webaudio in
    let isLoadingWebAudio :=
      AudioSource_eqb (audioSource (snapshot r)) loadingWebAudio in
    let trackInfo :=
      {| info_idx := idx context;
         info_currentTime := currentTime context;
         info_duration := duration context;
         info_metadata := metadata context;
         info_isPlaying := isPlaying;
         info_isPaused := isPaused;
         info_volume := volume context;
         info_trackUrl := trackUrl context;
         info_playbackType := if isWebAudio then WEBAUDIO else HTML5;
         info_webAudioLoadingState :=
           if isLoadingWebAudio then LOADING
           else if present (audioBuffer context) then LOADED else NONE |} in
    emit (CallOnProgress trackInfo) r
  else r.

Definition seekWebAudio : Action := fun event r =>
  match event with
  | SEEK event_time =>
      let time := Math_max 0 event_time in
      if negb (present (audioBuffer (ctx r))) || negb (audioContext (ctx r))
      then
        emit (ConsoleWarn
                "🎯 TRACK: WebAudio seek failed - missing audioBuffer or audioContext")
             r
      else
        (* Ensure gain node exists before seeking *)
        let r := if present (gainNode (ctx r)) then r else create_gain r in
        (* Check if we're currently playing *)
        let wasPlaying := present (bufferSourceNode (ctx r)) in
        (* Stop current buffer source if playing *)
        let r := match bufferSourceNode (ctx r) with
                 | Some n => with_ctx (set_bufferSourceNode None)
                               (stop_node n r)
                 | None => r
                 end in
        (* Update stored position *)
        let r := with_ctx (set_currentTime time) r in
        if wasPlaying then createAndStartBufferSource time r else r
  | _ => r
  end.

Definition seekHTML5 : Action := fun event r =>
  match event with
  | SEEK event_time =>
      let time := Math_max 0 event_time in
      match audio (ctx r) with
      | Some a =>
          let r := with_ctx
                     (set_audio (Some (audio_set_currentTime time a))) r in
          with_ctx (set_currentTime time) r
      | None =>
          emit (ConsoleWarn "🎯 TRACK: HTML5 seek failed - no audio element") r
      end
  | _ => r
  end.

Definition setVolume : Action := fun event r =>
  match event with
  | SET_VOLUME event_volume =>
      let volume := Math_max 0 (Math_min 1 event_volume) in
      let r := with_ctx (set_volume volume) r in
      let r := match audio (ctx r) with
               | Some a =>
                   with_ctx (set_audio (Some (audio_set_volume volume a))) r
               | None => r
               end in
      match gainNode (ctx r) with
      | Some _ => with_ctx (set_gainNode (Some {| gain_value := volume |})) r
      | None => r
      end
  | _ => r
  end.

Definition preload : Action := fun _ r =>
  let r := match audio (ctx r) with
           | Some a =>
               match audio_preload a with
               | preload_auto => r
               | preload_none =>
                   with_ctx
                     (set_audio (Some (audio_set_preload preload_auto a))) r
               end
           | None => r
           end in
  if negb (present (audioBuffer (ctx r)))
     && negb (webAudioIsDisabled (ctx r))
  then self_send LOAD_WEBAUDIO r
  else r.

(** The promise chain [fetch.then.then.then.catch] is started here; it
    settles later, outside the step, see [pipeline_settles]. *)
Definition startLoadingWebAudio : Action := fun _ r =>
  if String.eqb (trackUrl (ctx r)) "" || negb (audioContext (ctx r)) then r
  else emit (Fetch (trackUrl (ctx r))) r.

Definition storeWebAudioBuffer : Action := fun event r =>
  match event with
  | WEBAUDIO_LOADED buffer =>
      (* Notify that this track has finished loading *)
      let r := if onTrackLoaded (ctx r)
               then emit (CallOnTrackLoaded (idx (ctx r))) r else r in
      with_ctx (set_audioBuffer (Some buffer)) r
  | _ => with_ctx (set_audioBuffer None) r
  end.

Definition setupWebAudio : Action := fun _ r =>
  let context := ctx r in
  if negb (audioContext context) || negb (present (audioBuffer context))
     || negb (present (gainNode context))
  then r
  else
    let currentTime :=
      match audio context with
      | Some a =>
          or_else (audio_currentTime a) (or_else (currentTime context) 0)
      | None => or_else (currentTime context) 0
      end in
    let wasPlaying :=
      match audio context with
      | Some a => negb (audio_paused a)
      | None => false
      end in
    (* Store the current position for later use *)
    let r := with_ctx (set_currentTime currentTime) r in
    (* If we're switching during playback, create buffer source and start *)
    let r := if wasPlaying then createAndStartBufferSource currentTime r
             else r in
    (* Destroy HTML5 audio element since we're now using WebAudio *)
    match audio (ctx r) with
    | Some _ => with_ctx (set_audio None) (emit AudioPause r)
    | None => r
    end.

Definition cleanupWebAudio : Action := fun _ r =>
  match bufferSourceNode (ctx r) with
  | Some n => stop_node n r
  | None => r
  end.

Definition handleEnded : Action := fun _ r =>
  (* Stop progress tracking when track ends *)
  let r := match progressAnimationFrame (ctx r) with
           | Some f =>
               with_ctx (set_progressAnimationFrame None)
                 (emit (CancelAnimationFrame f) r)
           | None => r
           end in
  (* Clean up buffer source *)
  let r := with_ctx (set_bufferSourceNode None) r in
  (* Notify queue that this track has ended *)
  let r := if onTrackEnded (ctx r)
           then emit (CallOnTrackEnded (idx (ctx r))) r else r in
  if onEnded (ctx r) then emit CallOnEnded r else r.

Definition logWebAudioError : Action := fun event r =>
  match event with
  | WEBAUDIO_ERROR error =>
      emit (ConsoleError ("WebAudio loading error: " ++ error)) r
  | _ => r
  end.

(** *** Guards *)

Definition canUseWebAudio (context : Context) : bool :=
  negb (webAudioIsDisabled context) && audioContext context
  && negb (present (audioBuffer context)).

Definition hasWebAudioBuffer (context : Context) : bool :=
  present (audioBuffer context).

Definition isUsingWebAudio (context : Context) : bool :=
  present (audioBuffer context) && negb (webAudioIsDisabled context).


(** *** The machine *)

Record Machine := { value : StateValue; context : Context }.

(** The context a spawned track starts from ([context: ({ input }) => ...]);
    [audioContext_available] tells whether the module level [audioContext]
    is an object or [null]. *)
Record Input := {
  input_trackUrl : string;
  input_idx : Z;
  input_volume : Q;
  input_webAudioIsDisabled : bool;
  input_skipHEAD : option bool;
  input_metadata : option Metadata;
  input_onProgress : bool;
  input_onEnded : bool;
  input_onTrackLoaded : bool;
  input_onTrackEnded : bool
}.

Definition initial_context (audioContext_available : bool) (input : Input)
  : Context :=
  {| trackUrl := input_trackUrl input;
     idx := input_idx input;
     volume := or_else (input_volume input) 1;
     webAudioIsDisabled := input_webAudioIsDisabled input;
     skipHEAD := input_skipHEAD input;
     metadata := input_metadata input;
     onProgress := input_onProgress input;
     onEnded := input_onEnded input;
     onTrackLoaded := input_onTrackLoaded input;
     onTrackEnded := input_onTrackEnded input;
     loadedHEAD := false;
     currentTime := 0;
     duration := 0;
     audio := None;
     audioContext := audioContext_available;
     audioBuffer := None;
     bufferSourceNode := None;
     gainNode := None;
     webAudioStartedPlayingAt := 0;
     webAudioPausedDuration := 0;
     webAudioPausedAt := 0;
     progressAnimationFrame := None |}.

Definition initial (audioContext_available : bool) (input : Input) : Machine :=
  {| value := {| audioSource := html; playback := paused |};
     context := initial_context audioContext_available input |}.

(** The transition of the [audioSource] region enabled by an event: its
    target and its actions.  Every transition of this region has a target. *)
Definition audioSource_on (s : AudioSource) (ev : Event) (c : Context)
  : option (AudioSource * list Action) :=
  match s, ev with
  | html, LOAD_WEBAUDIO =>
      if canUseWebAudio c then Some (loadingWebAudio, []) else None
  | html, SWITCH_TO_WEBAUDIO =>
      if hasWebAudioBuffer c then Some (webaudio, []) else None
  | loadingWebAudio, WEBAUDIO_LOADED _ =>
      Some (webaudio, [storeWebAudioBuffer])
  | loadingWebAudio, WEBAUDIO_ERROR _ =>
      Some (html, [logWebAudioError])
  | webaudio, DEACTIVATE => Some (html, [cleanupWebAudio])
  | _, _ => None
  end.

Definition audioSource_entry (s : AudioSource) : list Action :=
  match s with
  | html => []
  | loadingWebAudio => [startLoadingWebAudio]
  | webaudio => [setupWebAudio]
  end.

(** The transition of the [playback] region enabled by an event.  A
    transition without target stays where it is; neither state of this
    region has entry or exit actions. *)
Definition playback_on (s : Playback) (ev : Event) (c : Context)
  : option (Playback * list Action) :=
  match s, ev with
  | paused, ACTIVATE => Some (paused, [createAudioElementIfNeeded])
  | paused, PLAY =>
      if isUsingWebAudio c
      then Some (playing, [resumeWebAudio; startProgressTracking])
      else Some (playing, [createAudioElementIfNeeded; startPlayback;
                           startProgressTracking])
  | paused, DEACTIVATE => Some (paused, [destroyAudioElement])
  | paused, SEEK _ =>
      if isUsingWebAudio c then Some (paused, [seekWebAudio])
      else Some (paused, [seekHTML5])
  | playing, PAUSE => Some (paused, [pausePlayback; stopProgressTracking])
  | playing, ENDED => Some (paused, [handleEnded; stopProgressTracking])
  | playing, DEACTIVATE =>
      Some (paused, [pausePlayback; destroyAudioElement;
                     stopProgressTracking])
  | playing, SEEK _ =>
      if isUsingWebAudio c then Some (playing, [seekWebAudio])
      else Some (playing, [seekHTML5])
  | playing, PROGRESS => Some (playing, [updateProgress; checkPreloadNext])
  | _, _ => None
  end.

(** The handlers on the root of the machine; they are consulted when no
    region handles the event. *)
Definition root_on (ev : Event) : option (list Action) :=
  match ev with
  | SET_VOLUME _ => Some [setVolume]
  | PRELOAD => Some [preload]
  | _ => None
  end.

Record Outcome := {
  machine : Machine;
  out_world : World;
  out_effects : list Effect;
  out_pending : list Event   (* events left in the mailbox *)
}.

(** The transitions an event selects, as the value of the next snapshot
    and the actions to run.  The guards are read on the context the event
    finds; the actions of the selected transitions come in document order
    (the [audioSource] region first), then the entry actions of the state
    the [audioSource] region enters.  When no region handles the event the
    handlers of the root are consulted; an event nobody handles selects
    nothing. *)
Definition select (v : StateValue) (ev : Event) (c : Context)
  : StateValue * list Action :=
  match audioSource_on (audioSource v) ev c, playback_on (playback v) ev c with
  | None, None =>
      (v, match root_on ev with Some acts => acts | None => [] end)
  | Some (s', acts), None =>
      ({| audioSource := s'; playback := playback v |},
       acts ++ audioSource_entry s')
  | None, Some (p', acts) =>
      ({| audioSource := audioSource v; playback := p' |}, acts)
  | Some (s', acts1), Some (p', acts2) =>
      ({| audioSource := s'; playback := p' |},
       acts1 ++ acts2 ++ audioSource_entry s')
  end.

(** One event, run to the end of its microstep. *)
Definition step (w : World) (m : Machine) (ev : Event) : Outcome :=
  let r := run_all (snd (select (value m) ev (context m))) ev
             {| ctx := context m; world := w; effects := [];
                snapshot := value m |} in
  {| machine := {| value := fst (select (value m) ev (context m));
                   context := ctx r |};
     out_world := world r; out_effects := effects r; out_pending := [] |}.

(** The mailbox of the actor: the pending events are taken in order, and
    what a step hands to [self.send] joins the end of the queue. *)
Fixpoint flush (fuel : nat) (w : World) (m : Machine) (mailbox : list Event)
  (done : list Effect) : Outcome :=
  match mailbox with
  | [] => {| machine := m; out_world := w; out_effects := done;
             out_pending := [] |}
  | ev :: rest =>
      match fuel with
      | O => {| machine := m; out_world := w; out_effects := done;
                out_pending := mailbox |}
      | S fuel =>
          let o := step w m ev in
          flush fuel (out_world o) (machine o)
                (rest ++ sent_of (out_effects o)) (done ++ out_effects o)
      end
  end.

(** [actor.send(ev)] to an idle track: the event and whatever the track
    sends to itself while handling it.  An event sends at most one event
    to [self], and those ([LOAD_WEBAUDIO], [SWITCH_TO_WEBAUDIO]) send none,
    so two rounds empty the mailbox, see [send_completes]. *)
Definition send (w : World) (m : Machine) (ev : Event) : Outcome :=
  flush 2 w m [ev] [].

(** How the promise chain started by [startLoadingWebAudio] settles: with
    the decoded buffer, or with the error of any of its stages, which the
    final [catch] logs and turns into an event.  Either way the outcome
    reaches the machine as an event. *)
Definition pipeline_settles (result : AudioBuffer + string)
  : list Effect * Event :=
  match result with
  | inl buffer => ([], WEBAUDIO_LOADED buffer)
  | inr error =>
      ([ConsoleError ("Error loading web audio: " ++ error)],
       WEBAUDIO_ERROR error)
  end.


End Track.

(** ** The queue machine (the second part of [src/gaplessStateMachine.ts]) *)

Module Queue.

Inductive State := playing | paused | ended.

(** A spawned track actor: its identity (what [===] compares), its
    mailbox and the machine it runs.  While the actor handles an event
    ([processing]), events sent to it wait in the mailbox. *)
Record TrackActor := {
  ref : nat;
  processing : bool;
  pending : list Track.Event;
  track : Track.Machine
}.

Inductive Event :=
| PLAY
| PAUSE
| NEXT
| PREVIOUS
| GOTO (index : Z) (playImmediately : option bool)
| TRACK_ENDED
| TRACK_LOADED (trackIndex : Z)
| SEEK (time : Q)
| SET_VOLUME (volume : Q)
| ADD_TRACK (trackUrl : string) (skipHEAD : option bool)
            (metadata : option Track.Metadata)
| REMOVE_TRACK (track : nat)
| INTERNAL_UPDATE_MEDIA_SESSION
| XSTATE_INIT.   (* the event of the initial transition, [xstate.init] *)

Record Context := {
  tracks : list string;
  currentTrackIdx : Z;
  volume : Q;
  webAudioIsDisabled : bool;
  trackActors : list TrackActor;
  (* callbacks: [true] when the function was supplied *)
  onProgress : bool;
  onEnded : bool;
  onPlayNextTrack : bool;
  onPlayPreviousTrack : bool;
  onStartNewTrack : bool;
  trackMetadata : list Track.Metadata
}.

(** What the queue and its tracks do that can be seen from outside, in
    the order it happens.  Callbacks that receive a track actor record its
    identity, or [None] for [undefined]. *)
Inductive Obs :=
| Sent (target : nat) (ev : Track.Event)      (* [actor.send(ev)] *)
| TrackEffect (source : nat) (e : Track.Effect)
| CallOnEnded
| CallOnPlayNextTrack (track : option nat)
| CallOnPlayPreviousTrack (track : option nat)
| CallOnStartNewTrack (track : option nat)
| SetTimeout (ev : Event) (ms : Z).

(** The queue actor and the browser it lives in. *)
Record System := {
  state : State;
  context : Context;
  mailbox : list Event;        (* events waiting for the queue actor *)
  world : Track.World;
  audioContext_available : bool;
  next_ref : nat;              (* identity of the next spawned actor *)
  trace : list Obs
}.

(** *** Field updates *)

Definition set_tracks (v : list string) (c : Context) : Context :=
  {| tracks := v; currentTrackIdx := currentTrackIdx c; volume := volume c;
     webAudioIsDisabled := webAudioIsDisabled c;
     trackActors := trackActors c; onProgress := onProgress c;
     onEnded := onEnded c; onPlayNextTrack := onPlayNextTrack c;
     onPlayPreviousTrack := onPlayPreviousTrack c;
     onStartNewTrack := onStartNewTrack c;
     trackMetadata := trackMetadata c |}.
Definition set_currentTrackIdx (v : Z) (c : Context) : Context :=
  {| tracks := tracks c; currentTrackIdx := v; volume := volume c;
     webAudioIsDisabled := webAudioIsDisabled c;
     trackActors := trackActors c; onProgress := onProgress c;
     onEnded := onEnded c; onPlayNextTrack := onPlayNextTrack c;
     onPlayPreviousTrack := onPlayPreviousTrack c;
     onStartNewTrack := onStartNewTrack c;
     trackMetadata := trackMetadata c |}.
Definition set_volume (v : Q) (c : Context) : Context :=
  {| tracks := tracks c; currentTrackIdx := currentTrackIdx c; volume := v;
     webAudioIsDisabled := webAudioIsDisabled c;
     trackActors := trackActors c; onProgress := onProgress c;
     onEnded := onEnded c; onPlayNextTrack := onPlayNextTrack c;
     onPlayPreviousTrack := onPlayPreviousTrack c;
     onStartNewTrack := onStartNewTrack c;
     trackMetadata := trackMetadata c |}.
Definition set_trackActors (v : list TrackActor) (c : Context) : Context :=
  {| tracks := tracks c; currentTrackIdx := currentTrackIdx c;
     volume := volume c; webAudioIsDisabled := webAudioIsDisabled c;
     trackActors := v; onProgress := onProgress c;
     onEnded := onEnded c; onPlayNextTrack := onPlayNextTrack c;
     onPlayPreviousTrack := onPlayPreviousTrack c;
     onStartNewTrack := onStartNewTrack c;
     trackMetadata := trackMetadata c |}.

Definition with_state (v : State) (s : System) : System :=
  {| state := v; context := context s; mailbox := mailbox s;
     world := world s; audioContext_available := audioContext_available s;
     next_ref := next_ref s; trace := trace s |}.
Definition with_context (f : Context -> Context) (s : System) : System :=
  {| state := state s; context := f (context s); mailbox := mailbox s;
     world := world s; audioContext_available := audioContext_available s;
     next_ref := next_ref s; trace := trace s |}.
Definition with_mailbox (v : list Event) (s : System) : System :=
  {| state := state s; context := context s; mailbox := v;
     world := world s; audioContext_available := audioContext_available s;
     next_ref := next_ref s; trace := trace s |}.
Definition with_world (v : Track.World) (s : System) : System :=
  {| state := state s; context := context s; mailbox := mailbox s;
     world := v; audioContext_available := audioContext_available s;
     next_ref := next_ref s; trace := trace s |}.
Definition with_next_ref (v : nat) (s : System) : System :=
  {| state := state s; context := context s; mailbox := mailbox s;
     world := world s; audioContext_available := audioContext_available s;
     next_ref := v; trace := trace s |}.
Definition observe (os : list Obs) (s : System) : System :=
  {| state := state s; context := context s; mailbox := mailbox s;
     world := world s; audioContext_available := audioContext_available s;
     next_ref := next_ref s; trace := trace s ++ os |}.

(** [self.send(ev)] from inside an action of the queue: the queue is
    handling an event, so [ev] waits in the mailbox. *)
Definition self_send (ev : Event) (s : System) : System :=
  with_mailbox (mailbox s ++ [ev]) s.

Definition set_actor (i : nat) (a : TrackActor) (s : System) : System :=
  with_context (set_trackActors (<[i := a]> (trackActors (context s)))) s.

(** *** Sending to a track actor *)

(** The closures the queue hands to the tracks it spawns:
    [onTrackLoaded] and [onTrackEnded] send to the queue. *)
Definition callback_event (e : Track.Effect) : option Event :=
  match e with
  | Track.CallOnTrackLoaded trackIndex => Some (TRACK_LOADED trackIndex)
  | Track.CallOnTrackEnded _ => Some TRACK_ENDED
  | _ => None
  end.

(** [actor.send(ev)] on the actor at position [i], from an action of the
    queue.  An idle actor handles the event at once and to completion; an
    actor in the middle of an event keeps it for later.  Closures of the
    queue called by the track meanwhile find the queue busy, so what they
    send waits in the mailbox of the queue. *)
Definition send_to (i : nat) (ev : Track.Event) (s : System) : System :=
  match trackActors (context s) !! i with
  | None => s
  | Some a =>
      let s := observe [Sent (ref a) ev] s in
      if processing a then
        set_actor i {| ref := ref a; processing := true;
                       pending := pending a ++ [ev]; track := track a |} s
      else
        let o := Track.send (world s) (track a) ev in
        let s := set_actor i {| ref := ref a; processing := false;
                                pending := pending a;
                                track := Track.machine o |} s in
        let s := with_world (Track.out_world o) s in
        let s := observe (map (TrackEffect (ref a)) (Track.out_effects o)) s in
        with_mailbox (mailbox s ++ omap callback_event (Track.out_effects o)) s
  end.

(** [context.trackActors[i]; if (actor) actor.send(ev)] *)
Definition send_at (i : Z) (ev : Track.Event) (s : System) : System :=
  if 0 <=? i then send_to (Z.to_nat i) ev s else s.

(** [context.trackActors.forEach((actor) => actor.send(ev))] *)
Definition send_all (ev : Track.Event) (s : System) : System :=
  fold_left (fun s i => send_to i ev s)
            (seq 0 (length (trackActors (context s)))) s.

Definition actor_ref_at (c : Context) (i : Z) : option nat :=
  ref <$> at_index (trackActors c) i.

(** *** Actions *)

Definition Action := Event -> System -> System.

Definition run_all (acts : list Action) (ev : Event) (s : System) : System :=
  fold_left (fun s a => a ev s) acts s.

Definition activateCurrentTrack : Action := fun _ s =>
  send_at (currentTrackIdx (context s)) Track.ACTIVATE s.

Definition playCurrentTrack : Action := fun _ s =>
  send_at (currentTrackIdx (context s)) Track.PLAY s.

Definition pauseCurrentTrack : Action := fun _ s =>
  send_at (currentTrackIdx (context s)) Track.PAUSE s.

Definition pauseAllTracks : Action := fun _ s => send_all Track.PAUSE s.

Definition seekCurrentTrackToStart : Action := fun _ s =>
  send_at (currentTrackIdx (context s)) (Track.SEEK 0) s.

Definition seekCurrentTrack : Action := fun event s =>
  match event with
  | SEEK time => send_at (currentTrackIdx (context s)) (Track.SEEK time) s
  | _ => s
  end.

Definition updateCurrentTrackIdx : Action := fun event s =>
  with_context
    (set_currentTrackIdx
       match event with
       | GOTO index _ => index
       | _ => 0
       end) s.

(** Defined among the actions of the machine; no state refers to it. *)
Definition gotoTrackWithPlayOption : Action := fun event s =>
  match event with
  | GOTO index playImmediately =>
      let s := send_all Track.PAUSE s in
      let s :=
        match at_index (trackActors (context s)) index with
        | Some _ =>
            let s := send_at index (Track.SEEK 0) s in
            match playImmediately with
            | Some true =>
                let s := send_at index Track.ACTIVATE s in
                let s := send_at index Track.PLAY s in
                self_send PLAY s
            | _ => s
            end
        | None => s
        end in
      if onStartNewTrack (context s)
      then observe [CallOnStartNewTrack (actor_ref_at (context s) index)] s
      else s
  | _ => s
  end.

Definition playNext : Action := fun _ s =>
  let context := context s in
  let s := send_at (currentTrackIdx context) Track.DEACTIVATE s in
  let nextIdx := currentTrackIdx context + 1 in
  if nextIdx <? len (trackActors context) then
    let s := self_send (GOTO nextIdx None) s in
    let s := self_send PLAY s in
    if onPlayNextTrack context
    then observe [CallOnPlayNextTrack (actor_ref_at context nextIdx)] s
    else s
  else s.

Definition autoAdvanceToNext : Action := fun _ s =>
  let context := context s in
  let s := send_at (currentTrackIdx context) Track.DEACTIVATE s in
  let nextIdx := currentTrackIdx context + 1 in
  if nextIdx <? len (trackActors context) then
    (* Directly activate and play the next track *)
    let s := send_at nextIdx Track.ACTIVATE s in
    let s := send_at nextIdx Track.PLAY s in
    (* Load the track after this one for sequential loading *)
    let trackAfterNext := nextIdx + 1 in
    let s := if trackAfterNext <? len (trackActors context)
             then send_at trackAfterNext Track.PRELOAD s else s in
    let s := if onPlayNextTrack context
             then observe [CallOnPlayNextTrack (actor_ref_at context nextIdx)]
                          s
             else s in
    let s := if onStartNewTrack context
             then observe [CallOnStartNewTrack (actor_ref_at context nextIdx)]
                          s
             else s in
    (* Update MediaSession for new track after state changes *)
    let s := observe [SetTimeout INTERNAL_UPDATE_MEDIA_SESSION 50] s in
    with_context (set_currentTrackIdx nextIdx) s
  else
    with_context (set_currentTrackIdx (currentTrackIdx context)) s.

Definition gotoNext : Action := fun _ s =>
  let context := context s in
  let s := send_at (currentTrackIdx context) Track.DEACTIVATE s in
  let nextIdx := currentTrackIdx context + 1 in
  if nextIdx <? len (trackActors context) then
    let s := self_send (GOTO nextIdx None) s in
    if onPlayNextTrack context
    then observe [CallOnPlayNextTrack (actor_ref_at context nextIdx)] s
    else s
  else s.

(** [snapshot.context?.currentTime || 0] of the current actor, [0] when
    there is none; a spawned actor is [active] until the queue stops. *)
Definition current_position (c : Context) : Q :=
  match at_index (trackActors c) (currentTrackIdx c) with
  | Some a => or_else (Track.currentTime (Track.context (track a))) 0
  | None => 0
  end.

Definition playPrevious : Action := fun _ s =>
  let context := context s in
  let currentTime := current_position context in
  if negb (Qle_bool currentTime 8) then
    send_at (currentTrackIdx context) (Track.SEEK 0) s
  else
    let s := send_at (currentTrackIdx context) Track.DEACTIVATE s in
    let prevIdx := Z.max 0 (currentTrackIdx context - 1) in
    let s := self_send (GOTO prevIdx None) s in
    let s := self_send PLAY s in
    if onPlayPreviousTrack context
    then observe [CallOnPlayPreviousTrack (actor_ref_at context prevIdx)] s
    else s.

Definition gotoPrevious : Action := fun _ s =>
  let context := context s in
  let currentTime := current_position context in
  if negb (Qle_bool currentTime 8) then
    send_at (currentTrackIdx context) (Track.SEEK 0) s
  else
    let s := send_at (currentTrackIdx context) Track.DEACTIVATE s in
    let prevIdx := Z.max 0 (currentTrackIdx context - 1) in
    let s := self_send (GOTO prevIdx None) s in
    if onPlayPreviousTrack context
    then observe [CallOnPlayPreviousTrack (actor_ref_at context prevIdx)] s
    else s.

Definition resetToFirstTrack : Action := fun _ s =>
  with_context (set_currentTrackIdx 0) s.

Definition setVolume : Action := fun event s =>
  with_context
    (set_volume
       match event with
       | SET_VOLUME volume => Math_max 0 (Math_min 1 volume)
       | _ => 1%Q
       end) s.

(** [spawn(createTrackMachine, { input })]: a new actor with an identity of
    its own, at rest in its initial state. *)
Definition spawn (input : Track.Input) (s : System) : TrackActor * System :=
  ({| ref := next_ref s; processing := false; pending := [];
      track := Track.initial (audioContext_available s) input |},
   with_next_ref (S (next_ref s)) s).

Fixpoint spawn_each (context : Context) (urls : list string) (idx : Z)
  (s : System) : list TrackActor * System :=
  match urls with
  | [] => ([], s)
  | trackUrl :: urls =>
      let '(a, s) :=
        spawn {| Track.input_trackUrl := trackUrl;
                 Track.input_idx := idx;
                 Track.input_volume := volume context;
                 Track.input_webAudioIsDisabled := webAudioIsDisabled context;
                 Track.input_skipHEAD := None;
                 Track.input_metadata := None;
                 Track.input_onProgress := onProgress context;
                 Track.input_onEnded := onEnded context;
                 Track.input_onTrackLoaded := true;
                 Track.input_onTrackEnded := true |} s in
      let '(rest, s) := spawn_each context urls (idx + 1) s in
      (a :: rest, s)
  end.

Definition spawnInitialTracks : Action := fun _ s =>
  let '(actors, s) := spawn_each (context s) (tracks (context s)) 0 s in
  with_context (set_trackActors actors) s.

Definition loadCurrentTrack : Action := fun _ s =>
  send_at (currentTrackIdx (context s)) Track.PRELOAD s.

Definition loadNextTrack : Action := fun _ s =>
  let nextIdx := currentTrackIdx (context s) + 1 in
  if nextIdx <? len (trackActors (context s))
  then send_at nextIdx Track.PRELOAD s else s.

Definition handleTrackLoaded : Action := fun event s =>
  match event with
  | TRACK_LOADED trackIndex =>
      (* If the loaded track is the current track, start loading the next *)
      if trackIndex =? currentTrackIdx (context s) then
        let nextIdx := currentTrackIdx (context s) + 1 in
        if nextIdx <? len (trackActors (context s))
        then send_at nextIdx Track.PRELOAD s else s
      else s
  | _ => s
  end.

(** The assigners of one [assign] all read the context of before. *)
Definition addTrack : Action := fun event s =>
  match event with
  | ADD_TRACK trackUrl skipHEAD metadata =>
      let context := context s in
      let '(newTrackActor, s) :=
        spawn {| Track.input_trackUrl := trackUrl;
                 Track.input_idx := len (tracks context);
                 Track.input_volume := volume context;
                 Track.input_webAudioIsDisabled := webAudioIsDisabled context;
                 Track.input_skipHEAD := skipHEAD;
                 Track.input_metadata := metadata;
                 Track.input_onProgress := onProgress context;
                 Track.input_onEnded := onEnded context;
                 Track.input_onTrackLoaded := false;
                 Track.input_onTrackEnded := false |} s in
      with_context
        (fun c => set_trackActors (trackActors context ++ [newTrackActor])
                    (set_tracks (tracks context ++ [trackUrl]) c)) s
  | _ => s
  end.

(** [context.trackActors.findIndex((actor) => actor === event.track)] *)
Definition findIndex (actors : list TrackActor) (r : nat) : option nat :=
  fst <$> list_find (fun a => ref a = r) actors.

Definition removeTrack : Action := fun event s =>
  match event with
  | REMOVE_TRACK r =>
      let context := context s in
      match findIndex (trackActors context) r with
      | None => s
      | Some index =>
          let newTracks := delete index (tracks context) in
          let newActors := delete index (trackActors context) in
          let newLength := len (trackActors context) - 1 in
          let newIdx :=
            if (newLength <=? currentTrackIdx context)
               && (0 <? currentTrackIdx context)
            then newLength - 1
            else currentTrackIdx context in
          with_context
            (fun c => set_currentTrackIdx newIdx
                        (set_trackActors newActors (set_tracks newTracks c)))
            s
      end
  | _ => s
  end.

Definition notifyStartNewTrack : Action := fun _ s =>
  if onStartNewTrack (context s)
  then observe [CallOnStartNewTrack
                  (actor_ref_at (context s) (currentTrackIdx (context s)))] s
  else s.

Definition notifyEnded : Action := fun _ s =>
  if onEnded (context s) then observe [CallOnEnded] s else s.

(** The three media session actions only write to [navigator.mediaSession]
    (handlers, metadata, playback state) and log; the handlers they
    install send [PLAY], [PAUSE], [PREVIOUS], [NEXT] and [SEEK] to the queue
    like any other caller.  They leave the queue and its tracks as they
    are. *)
Definition setupMediaSession : Action := fun _ s => s.
Definition updateMediaSessionMetadata : Action := fun _ s => s.
Definition updateMediaSessionPlaybackState : Action := fun _ s => s.

(** *** Guards *)

Definition isLastTrack (context : Context) : bool :=
  len (trackActors context) - 1 <=? currentTrackIdx context.

(** *** The machine *)

(** The transition a state takes on an event: its target, if it names
    one, and its actions.  [None] when the state has no handler whose
    guard holds. *)
Definition on (st : State) (ev : Event) (c : Context)
  : option (option State * list Action) :=
  match st, ev with
  | playing, PAUSE =>
      Some (Some paused, [pauseCurrentTrack; updateMediaSessionPlaybackState])
  | playing, TRACK_ENDED =>
      if isLastTrack c then Some (Some ended, [notifyEnded])
      else Some (None, [autoAdvanceToNext])
  | playing, NEXT => Some (None, [playNext])
  | playing, PREVIOUS => Some (None, [playPrevious])
  | playing, GOTO _ _ =>
      Some (None, [pauseAllTracks; updateCurrentTrackIdx;
                   seekCurrentTrackToStart; playCurrentTrack;
                   notifyStartNewTrack; loadCurrentTrack;
                   updateMediaSessionMetadata;
                   updateMediaSessionPlaybackState])
  | playing, SEEK _ => Some (None, [seekCurrentTrack])
  | playing, SET_VOLUME _ => Some (None, [setVolume])
  | playing, ADD_TRACK _ _ _ => Some (None, [addTrack])
  | playing, REMOVE_TRACK _ => Some (None, [removeTrack])
  | playing, TRACK_LOADED _ => Some (None, [handleTrackLoaded])

  | paused, PLAY =>
      Some (Some playing, [playCurrentTrack; updateMediaSessionPlaybackState])
  | paused, NEXT => Some (None, [gotoNext])
  | paused, PREVIOUS => Some (None, [gotoPrevious])
  | paused, GOTO _ _ =>
      Some (None, [pauseAllTracks; updateCurrentTrackIdx;
                   seekCurrentTrackToStart; loadCurrentTrack;
                   updateMediaSessionMetadata])
  | paused, SEEK _ => Some (None, [seekCurrentTrack])
  | paused, SET_VOLUME _ => Some (None, [setVolume])
  | paused, ADD_TRACK _ _ _ => Some (None, [addTrack])
  | paused, REMOVE_TRACK _ => Some (None, [removeTrack])
  | paused, TRACK_LOADED _ => Some (None, [handleTrackLoaded])

  | ended, PLAY =>
      Some (Some playing, [resetToFirstTrack; activateCurrentTrack;
                           playCurrentTrack; notifyStartNewTrack;
                           updateMediaSessionMetadata;
                           updateMediaSessionPlaybackState])
  | ended, GOTO _ _ =>
      Some (Some paused, [pauseAllTracks; updateCurrentTrackIdx;
                          seekCurrentTrackToStart; playCurrentTrack;
                          notifyStartNewTrack; loadCurrentTrack;
                          updateMediaSessionMetadata;
                          updateMediaSessionPlaybackState])
  | ended, SET_VOLUME _ => Some (None, [setVolume])
  | ended, ADD_TRACK _ _ _ => Some (None, [addTrack])
  | ended, REMOVE_TRACK _ => Some (None, [removeTrack])
  | ended, TRACK_LOADED _ => Some (None, [handleTrackLoaded])

  | _, _ => None
  end.

(** The handlers on the root of the machine. *)
Definition root_on (ev : Event) : option (list Action) :=
  match ev with
  | INTERNAL_UPDATE_MEDIA_SESSION =>
      Some [updateMediaSessionMetadata; updateMediaSessionPlaybackState]
  | _ => None
  end.

(** One event handled by the queue actor.  No state of the queue has
    entry or exit actions, so a transition is its actions followed by the
    change of state.  An event without handler is dropped. *)
Definition step (s : System) (ev : Event) : System :=
  match on (state s) ev (context s) with
  | Some (target, acts) =>
      let s' := run_all acts ev s in
      match target with
      | Some st => with_state st s'
      | None => s'
      end
  | None =>
      match root_on ev with
      | Some acts => run_all acts ev s
      | None => s
      end
  end.

(** The mailbox of the queue actor, emptied in order. *)
Fixpoint flush (fuel : nat) (s : System) : System :=
  match fuel with
  | O => s
  | S fuel =>
      match mailbox s with
      | [] => s
      | ev :: rest => flush fuel (step (with_mailbox rest s) ev)
      end
  end.

(** [queueActor.send(ev)] while the queue is idle: the event is handled
    at once, then whatever the handling left in the mailbox.  What an
    action sends to the queue ([GOTO], [PLAY]) sends nothing further, so a
    mailbox of [n] events is empty after at most [n + 2] further steps;
    [queue_fuel] is far above what any event needs, see [send_settles]. *)
Definition queue_fuel : nat := 8.

Definition send (ev : Event) (s : System) : System :=
  flush queue_fuel (with_mailbox (mailbox s ++ [ev]) s).

(** The machine when its actor starts: the initial context and the entry
    actions of the root. *)
Record GaplessOptions := {
  opt_tracks : list string;
  opt_onProgress : bool;
  opt_onEnded : bool;
  opt_onPlayNextTrack : bool;
  opt_onPlayPreviousTrack : bool;
  opt_onStartNewTrack : bool;
  opt_webAudioIsDisabled : bool;
  opt_trackMetadata : list Track.Metadata
}.

Definition initial_context (input : GaplessOptions) : Context :=
  {| tracks := opt_tracks input;
     currentTrackIdx := 0;
     volume := 1;
     webAudioIsDisabled := opt_webAudioIsDisabled input;
     trackActors := [];
     onProgress := opt_onProgress input;
     onEnded := opt_onEnded input;
     onPlayNextTrack := opt_onPlayNextTrack input;
     onPlayPreviousTrack := opt_onPlayPreviousTrack input;
     onStartNewTrack := opt_onStartNewTrack input;
     trackMetadata := opt_trackMetadata input |}.

Definition start (w : Track.World) (audioContext_available : bool)
  (input : GaplessOptions) : System :=
  let s := {| state := paused; context := initial_context input;
              mailbox := []; world := w;
              audioContext_available := audioContext_available;
              next_ref := 0; trace := [] |} in
  flush queue_fuel
    (run_all [spawnInitialTracks; loadCurrentTrack; setupMediaSession;
              updateMediaSessionMetadata] XSTATE_INIT s).


(** *** Events that reach a track from the browser

    The [ended] listeners, the animation frames and the settled promise
    chain send to a track actor while the queue is idle.  The track then
    runs first; a closure of the queue it calls ([onTrackEnded],
    [onTrackLoaded]) makes the queue handle its event at once, inside the
    action of the track, and what the queue sends back to that track waits
    in the mailbox of the track. *)

Definition find_actor (r : nat) (s : System) : option (nat * TrackActor) :=
  list_find (fun a => ref a = r) (trackActors (context s)).

Definition enqueue_for (r : nat) (ev : Track.Event) (s : System) : System :=
  match find_actor r s with
  | Some (i, a) =>
      set_actor i {| ref := ref a; processing := processing a;
                     pending := pending a ++ [ev]; track := track a |} s
  | None => s
  end.

(** One effect of the running track [r], in its turn. *)
Definition absorb (r : nat) (s : System) (e : Track.Effect) : System :=
  let s := observe [TrackEffect r e] s in
  match e with
  | Track.SendSelf ev => enqueue_for r ev s
  | _ =>
      match callback_event e with
      | Some ev => send ev s
      | None => s
      end
  end.

Fixpoint run_track (fuel : nat) (r : nat) (s : System) : System :=
  match fuel with
  | O => s
  | S fuel =>
      match find_actor r s with
      | None => s
      | Some (i, a) =>
          match pending a with
          | [] => set_actor i {| ref := ref a; processing := false;
                                 pending := []; track := track a |} s
          | ev :: rest =>
              let o := Track.step (world s) (track a) ev in
              let s := set_actor i {| ref := ref a; processing := true;
                                      pending := rest;
                                      track := Track.machine o |} s in
              let s := with_world (Track.out_world o) s in
              run_track fuel r (fold_left (absorb r) (Track.out_effects o) s)
          end
      end
  end.

Definition track_fuel : nat := 8.

(** The browser sends [ev] to the track actor [r] of the queue.  The
    queue does not stop an actor it removes: the actor goes on, out of
    [trackActors], and the model keeps no record of it.  All it can still
    do to the queue is call its closures, that is send [TRACK_ENDED] or
    [TRACK_LOADED]: those reach the queue as events sent to it ([send]),
    not through [signal]. *)
Definition signal (r : nat) (ev : Track.Event) (s : System) : System :=
  match find_actor r s with
  | Some (i, a) =>
      run_track track_fuel r
        (set_actor i {| ref := ref a; processing := true;
                        pending := pending a ++ [ev]; track := track a |} s)
  | None => s
  end.


End Queue.

(** ** The facade ([class Gapless]) *)

Module Gapless.

Definition create := Queue.start.

Definition play : Queue.System -> Queue.System := Queue.send Queue.PLAY.
Definition pause : Queue.System -> Queue.System := Queue.send Queue.PAUSE.
Definition next : Queue.System -> Queue.System := Queue.send Queue.NEXT.

Definition togglePlayPause (s : Queue.System) : Queue.System :=
  match Queue.state s with
  | Queue.playing => pause s
  | _ => play s
  end.

Definition gotoTrack (index : Z) (playImmediately : bool)
  : Queue.System -> Queue.System :=
  Queue.send (Queue.GOTO index (Some playImmediately)).

Definition seek (time : Q) : Queue.System -> Queue.System :=
  Queue.send (Queue.SEEK time).

Definition setVolume (volume : Q) : Queue.System -> Queue.System :=
  Queue.send (Queue.SET_VOLUME volume).

Definition addTrack (trackUrl : string) (skipHEAD : option bool)
  (metadata : option Track.Metadata) : Queue.System -> Queue.System :=
  Queue.send (Queue.ADD_TRACK trackUrl skipHEAD metadata).

Definition removeTrack (trackIndex : Z) (s : Queue.System) : Queue.System :=
  match at_index (Queue.trackActors (Queue.context s)) trackIndex with
  | Some track => Queue.send (Queue.REMOVE_TRACK (Queue.ref track)) s
  | None => s
  end.

(** [context?.trackActors?.[context?.currentTrackIdx || 0]] *)
Definition currentTrack (s : Queue.System) : option Queue.TrackActor :=
  at_index (Queue.trackActors (Queue.context s))
           (Queue.currentTrackIdx (Queue.context s)).

Definition currentTrackIndex (s : Queue.System) : Z :=
  Queue.currentTrackIdx (Queue.context s).

Definition tracks (s : Queue.System) : list Queue.TrackActor :=
  Queue.trackActors (Queue.context s).

Definition isPlaying (s : Queue.System) : bool :=
  match Queue.state s with Queue.playing => true | _ => false end.

Definition isPaused (s : Queue.System) : bool :=
  match Queue.state s with Queue.paused => true | _ => false end.

Definition volume (s : Queue.System) : Q :=
  or_else (Queue.volume (Queue.context s)) 1.

End Gapless.

(** ** Vocabulary of the statements *)

Module Spec.

(** *** Tracks *)

(** The events on which a track calls a closure of the queue: only
    [handleEnded] and [storeWebAudioBuffer] do. *)
Definition quiet (ev : Track.Event) : bool :=
  match ev with
  | Track.ENDED | Track.WEBAUDIO_LOADED _ => false
  | _ => true
  end.

Definition calls_queue (e : Track.Effect) : bool :=
  match e with
  | Track.CallOnTrackLoaded _ | Track.CallOnTrackEnded _ => true
  | _ => false
  end.

(** The events a track sends to itself. *)
Definition internal (ev : Track.Event) : bool :=
  match ev with
  | Track.LOAD_WEBAUDIO | Track.SWITCH_TO_WEBAUDIO => true
  | _ => false
  end.

(** The buffer source node an effect is a call on. *)
Definition node_of (e : Track.Effect) : option nat :=
  match e with
  | Track.CreateBufferSource n | Track.NodeSetBuffer n | Track.NodeConnect n
  | Track.NodeSetOnended n | Track.NodeClearOnended n | Track.NodeStart n _
  | Track.NodeStop n | Track.NodeDisconnect n => Some n
  | _ => None
  end.

(** The nodes [start] was called on, in order. *)
Definition started (es : list Track.Effect) : list nat :=
  omap (fun e => match e with Track.NodeStart n _ => Some n | _ => None end)
       es.

(** The shape of every trace of node calls a track produces, from a
    moment when the audio context has handed out the nodes below [k0]:
    calls that concern no node, the disposal of a node that exists, and
    the creation of the next node followed by its single [start]. *)
Inductive Disciplined (k0 : nat) : list Track.Effect -> nat -> Prop :=
| D_nil : Disciplined k0 [] k0
| D_other es k e :
    Disciplined k0 es k -> node_of e = None -> Disciplined k0 (es ++ [e]) k
| D_stop es k n :
    Disciplined k0 es k -> (n < k)%nat ->
    Disciplined k0 (es ++ [Track.NodeClearOnended n; Track.NodeStop n;
                           Track.NodeDisconnect n]) k
| D_start es k position :
    Disciplined k0 es k ->
    Disciplined k0 (es ++ [Track.CreateBufferSource k; Track.NodeSetBuffer k;
                           Track.NodeConnect k; Track.NodeSetOnended k;
                           Track.GainConnect; Track.NodeStart k position])
                (S k).

(** The actions an event can select, whatever the state and the guards. *)
Definition actions_for (ev : Track.Event) : list Track.Action :=
  match ev with
  | Track.ACTIVATE => [Track.createAudioElementIfNeeded]
  | Track.DEACTIVATE =>
      [Track.cleanupWebAudio; Track.destroyAudioElement; Track.pausePlayback;
       Track.stopProgressTracking]
  | Track.PLAY =>
      [Track.resumeWebAudio; Track.startProgressTracking;
       Track.createAudioElementIfNeeded; Track.startPlayback]
  | Track.PAUSE => [Track.pausePlayback; Track.stopProgressTracking]
  | Track.ENDED => [Track.handleEnded; Track.stopProgressTracking]
  | Track.SEEK _ => [Track.seekWebAudio; Track.seekHTML5]
  | Track.SET_VOLUME _ => [Track.setVolume]
  | Track.PRELOAD => [Track.preload]
  | Track.LOAD_WEBAUDIO => [Track.startLoadingWebAudio]
  | Track.WEBAUDIO_LOADED _ =>
      [Track.storeWebAudioBuffer; Track.setupWebAudio]
  | Track.WEBAUDIO_ERROR _ => [Track.logWebAudioError]
  | Track.SWITCH_TO_WEBAUDIO => [Track.setupWebAudio]
  | Track.PROGRESS => [Track.updateProgress; Track.checkPreloadNext]
  end.

(** A run that has called no closure of the queue and has sent itself
    internal events only. *)
Definition silent (r : Track.Run) : Prop :=
  Forall (fun e => calls_queue e = false) (Track.effects r) /\
  Forall (fun ev => internal ev = true) (Track.sent_of (Track.effects r)).

(** The node kept in the context was handed out by the audio context. *)
Definition node_bound (c : Track.Context) (w : Track.World) : Prop :=
  forall n, Track.bufferSourceNode c = Some n -> (n < Track.next_node w)%nat.

Definition Disc (k0 : nat) (r : Track.Run) : Prop :=
  Disciplined k0 (Track.effects r) (Track.next_node (Track.world r)) /\
  node_bound (Track.ctx r) (Track.world r).

(** What decides whether a track may load its buffer. *)
Definition eligibility (c : Track.Context) : bool * bool * option Track.AudioBuffer :=
  (Track.webAudioIsDisabled c, Track.audioContext c, Track.audioBuffer c).


(** A track is loading only if the guard let it, and a decoded buffer
    exists only where the precise backend may be used. *)
Definition loadable (m : Track.Machine) : Prop :=
  (Track.audioSource (Track.value m) = Track.loadingWebAudio ->
   Track.canUseWebAudio (Track.context m) = true) /\
  (Track.present (Track.audioBuffer (Track.context m)) = true ->
   Track.audioContext (Track.context m) = true /\
   Track.webAudioIsDisabled (Track.context m) = false).

(** What happens to a track between two events it handles: it is sent an
    event, the clock of the audio context moves, or the media element
    reports a new position, duration or paused flag. *)
Inductive Stimulus :=
| Deliver (ev : Track.Event)
| Clock (now : Q)
| Media (position duration : Q) (is_paused : bool).

Record Life := {
  life_world : Track.World;
  life_machine : Track.Machine;
  life_effects : list Track.Effect
}.

Definition set_now (t : Q) (w : Track.World) : Track.World :=
  {| Track.isBrowser := Track.isBrowser w; Track.now := t;
     Track.next_node := Track.next_node w;
     Track.next_frame := Track.next_frame w |}.

Definition report_media (position duration : Q) (is_paused : bool)
  (m : Track.Machine) : Track.Machine :=
  {| Track.value := Track.value m;
     Track.context :=
       Track.set_audio
         ((fun a =>
             {| Track.audio_controls := Track.audio_controls a;
                Track.audio_volume := Track.audio_volume a;
                Track.audio_preload := Track.audio_preload a;
                Track.audio_src := Track.audio_src a;
                Track.audio_currentTime := position;
                Track.audio_duration := duration;
                Track.audio_paused := is_paused |})
            <$> Track.audio (Track.context m))
         (Track.context m) |}.

Definition stimulate (l : Life) (x : Stimulus) : Life :=
  match x with
  | Deliver ev =>
      let o := Track.send (life_world l) (life_machine l) ev in
      {| life_world := Track.out_world o; life_machine := Track.machine o;
         life_effects := life_effects l ++ Track.out_effects o |}
  | Clock t =>
      {| life_world := set_now t (life_world l);
         life_machine := life_machine l; life_effects := life_effects l |}
  | Media position duration is_paused =>
      {| life_world := life_world l;
         life_machine :=
           report_media position duration is_paused (life_machine l);
         life_effects := life_effects l |}
  end.

(** The life of a track from the state it is spawned in. *)
Definition live (w : Track.World) (audioContext_available : bool)
  (input : Track.Input) (xs : list Stimulus) : Life :=
  fold_left stimulate xs
    {| life_world := w;
       life_machine := Track.initial audioContext_available input;
       life_effects := [] |}.

(** *** Queue *)

(** The events the queue sent to its tracks, with the identity of the
    track, in order. *)
Definition sends_of (t : list Queue.Obs) : list (nat * Track.Event) :=
  omap (fun o => match o with
                 | Queue.Sent r ev => Some (r, ev)
                 | _ => None
                 end) t.

(** The identities of the tracks of the queue, in order. *)
Definition refs (s : Queue.System) : list nat :=
  Queue.ref <$> Queue.trackActors (Queue.context s).

(** [refs[i]] for a JavaScript index. *)
Definition ref_at (s : Queue.System) (i : Z) : option nat :=
  at_index (refs s) i.

(** The calls of the [onEnded] function of the options: the queue calls
    it in [notifyEnded], and every track was handed the same function and
    calls it in [handleEnded]. *)
Definition is_onEnded_call (o : Queue.Obs) : bool :=
  match o with
  | Queue.CallOnEnded | Queue.TrackEffect _ Track.CallOnEnded => true
  | _ => false
  end.

Definition onEnded_calls (t : list Queue.Obs) : nat :=
  length (List.filter is_onEnded_call t).

(** What happened since an earlier moment of the same run. *)
Definition since (before after : Queue.System) : list Queue.Obs :=
  drop (length (Queue.trace before)) (Queue.trace after).

(** The invariant of the current index. *)
Definition index_in_bounds (c : Queue.Context) : Prop :=
  0 <= Queue.currentTrackIdx c < len (Queue.trackActors c).

(** What an action of the queue does to the fields the statements speak
    of: the state and the identities stay, the mailbox grows by [mb], the
    current index becomes [i], and [sent] is sent to the tracks. *)
Definition step_spec (s s' : Queue.System) (mb : list Queue.Event) (i : Z)
  (sent : list (nat * Track.Event)) : Prop :=
  Queue.state s' = Queue.state s /\ refs s' = refs s /\
  Queue.mailbox s' = Queue.mailbox s ++ mb /\
  Queue.currentTrackIdx (Queue.context s') = i /\
  sends_of (Queue.trace s') = sends_of (Queue.trace s) ++ sent.

(** An action that only talks to tracks and callbacks. *)
Definition calm (a : Queue.Action) (ev : Queue.Event) : Prop :=
  forall s, exists sent,
    step_spec s (a ev s) [] (Queue.currentTrackIdx (Queue.context s)) sent.

(** What [send_at] sends: the event, to the track at the index if there
    is one. *)
Definition sent_at (s : Queue.System) (i : Z) (ev : Track.Event)
  : list (nat * Track.Event) :=
  match ref_at s i with Some r => [(r, ev)] | None => [] end.

(** *** Concrete players *)

Definition w0 : Track.World :=
  {| Track.isBrowser := true; Track.now := 0; Track.next_node := 0%nat;
     Track.next_frame := 0%nat |}.

Definition input_a : Track.Input :=
  {| Track.input_trackUrl := "a.mp3"; Track.input_idx := 0;
     Track.input_volume := 1; Track.input_webAudioIsDisabled := false;
     Track.input_skipHEAD := None; Track.input_metadata := None;
     Track.input_onProgress := false; Track.input_onEnded := true;
     Track.input_onTrackLoaded := true; Track.input_onTrackEnded := true |}.

Definition buffer100 : Track.AudioBuffer := {| Track.buffer_duration := 100 |}.

(** A track that plays, was handed over to the precise backend when its
    buffer of 100 seconds was decoded, and has reported progress since. *)
Definition precise_playing : list Stimulus :=
  [Deliver Track.ACTIVATE; Deliver Track.PLAY;
   Deliver (Track.WEBAUDIO_LOADED buffer100); Clock 10;
   Deliver Track.PROGRESS].

(** A track on the streaming backend alone, ten seconds into a file of
    100 seconds. *)
Definition input_streaming : Track.Input :=
  {| Track.input_trackUrl := "a.mp3"; Track.input_idx := 0;
     Track.input_volume := 1; Track.input_webAudioIsDisabled := true;
     Track.input_skipHEAD := None; Track.input_metadata := None;
     Track.input_onProgress := false; Track.input_onEnded := true;
     Track.input_onTrackLoaded := true; Track.input_onTrackEnded := true |}.

Definition streaming_playing : list Stimulus :=
  [Deliver Track.ACTIVATE; Deliver Track.PLAY; Media 10 100 false;
   Deliver Track.PROGRESS].

Definition options (urls : list string) : Queue.GaplessOptions :=
  {| Queue.opt_tracks := urls; Queue.opt_onProgress := false;
     Queue.opt_onEnded := true; Queue.opt_onPlayNextTrack := false;
     Queue.opt_onPlayPreviousTrack := false;
     Queue.opt_onStartNewTrack := false;
     Queue.opt_webAudioIsDisabled := false; Queue.opt_trackMetadata := [] |}.

(** [new Gapless({ tracks: [a, b, c], onEnded })] in a browser with an
    audio context. *)
Definition player3 : Queue.System :=
  Gapless.create w0 true (options ["a.mp3"; "b.mp3"; "c.mp3"]%string).

(** The same player, playing its last track. *)
Definition player3_on_last : Queue.System :=
  Gapless.gotoTrack 2 true (Gapless.play player3).

(** The same player after its last track has ended. *)
Definition player3_ended : Queue.System :=
  Queue.signal 2 Track.ENDED player3_on_last.

(** The mailbox of the queue after one event taken from an empty mailbox:
    the actions enqueue nothing, or a [GOTO], or a [GOTO] and a [PLAY]. *)
Definition short (mb : list Queue.Event) : Prop :=
  mb = [] \/ (exists i b, mb = [Queue.GOTO i b]) \/
  (exists i b, mb = [Queue.GOTO i b; Queue.PLAY]).

End Spec.

(** ** Vocabulary of the further properties *)

Module Props.

(** The volume of the track is the volume of its media element and the
    value of its gain node, where it has them. *)
Definition volume_applied (c : Track.Context) : Prop :=
  (forall a, Track.audio c = Some a ->
             Track.audio_volume a = Track.volume c) /\
  (forall g, Track.gainNode c = Some g ->
             Track.gain_value g = Track.volume c).

(** [Math.max(0, Math.min(1, v))] *)
Definition clamp01 (v : Q) : Q := Math_max 0 (Math_min 1 v).

(** The closures an event may lead a track to call. *)
Definition may_call (ev : Track.Event) (e : Track.Effect) : bool :=
  match e with
  | Track.CallOnTrackEnded _ | Track.CallOnEnded =>
      match ev with Track.ENDED => true | _ => false end
  | Track.CallOnTrackLoaded _ =>
      match ev with Track.WEBAUDIO_LOADED _ => true | _ => false end
  | Track.CallOnProgress _ =>
      match ev with Track.PROGRESS => true | _ => false end
  | _ => true
  end.

Definition is_callback (e : Track.Effect) : bool :=
  match e with
  | Track.CallOnTrackEnded _ | Track.CallOnEnded
  | Track.CallOnTrackLoaded _ | Track.CallOnProgress _ => true
  | _ => false
  end.

(** The outcome of an event nobody handles. *)
Definition at_rest (w : Track.World) (m : Track.Machine) : Track.Outcome :=
  {| Track.machine := m; Track.out_world := w; Track.out_effects := [];
     Track.out_pending := [] |}.

(** A track that cannot use the precise backend: Web Audio is disabled
    for it or the browser has no audio context, it is on the streaming
    backend and holds neither a decoded buffer nor a buffer source node. *)
Definition streaming_only (m : Track.Machine) : Prop :=
  (Track.webAudioIsDisabled (Track.context m) = true \/
   Track.audioContext (Track.context m) = false) /\
  Track.audioSource (Track.value m) = Track.html /\
  Track.audioBuffer (Track.context m) = None /\
  Track.bufferSourceNode (Track.context m) = None.

(** The effects of the streaming backend: no download of the file for
    decoding and no call on a buffer source node. *)
Definition streams (e : Track.Effect) : bool :=
  match e with
  | Track.Fetch _ => false
  | _ => match Spec.node_of e with Some _ => false | None => true end
  end.

Definition is_fetch (e : Track.Effect) : bool :=
  match e with Track.Fetch _ => true | _ => false end.

(** A life continued. *)
Definition continue (l : Spec.Life) (xs : list Spec.Stimulus) : Spec.Life :=
  fold_left Spec.stimulate xs l.

(** What a track is spawned with and never changes. *)
Definition constants (c : Track.Context)
  : string * Z * bool * (bool * bool * bool * bool) * bool :=
  (Track.trackUrl c, Track.idx c, Track.webAudioIsDisabled c,
   (Track.onProgress c, Track.onEnded c, Track.onTrackLoaded c,
    Track.onTrackEnded c),
   Track.audioContext c).

(** The tracks of the queue: who they are and what they were spawned
    with. *)
Definition cast (s : Queue.System)
  : list (nat * (string * Z * bool * (bool * bool * bool * bool) * bool)) :=
  (fun a => (Queue.ref a, constants (Track.context (Queue.track a))))
    <$> Queue.trackActors (Queue.context s).

(** The URLs of the track actors, in order. *)
Definition urls (s : Queue.System) : list string :=
  (fun a => Track.trackUrl (Track.context (Queue.track a)))
    <$> Queue.trackActors (Queue.context s).

Definition same_cast (s s' : Queue.System) : Prop :=
  cast s' = cast s /\
  Queue.tracks (Queue.context s') = Queue.tracks (Queue.context s) /\
  Queue.next_ref s' = Queue.next_ref s /\
  Queue.audioContext_available s' = Queue.audioContext_available s.

(** An action that neither adds nor removes a track. *)
Definition steady (a : Queue.Action) : Prop :=
  forall ev s, same_cast s (a ev s).

(** [context.tracks] lists the URLs of the track actors, no actor is in
    the queue twice, and the identity of the next actor is fresh. *)
Definition well_cast (s : Queue.System) : Prop :=
  Queue.tracks (Queue.context s) = urls s /\
  NoDup (Spec.refs s) /\
  Forall (fun r => (r < Queue.next_ref s)%nat) (Spec.refs s).

(** What happens to a player: a command reaches the queue (from the
    facade, a media key or a timer), the browser sends an event to a
    track, the clock of the audio context moves, or a media element
    reports its position, duration and paused flag. *)
Inductive Happening :=
| Command (ev : Queue.Event)
| Signal (r : nat) (ev : Track.Event)
| Tick (now : Q)
| Report (r : nat) (position duration : Q) (is_paused : bool).

Definition happen (s : Queue.System) (h : Happening) : Queue.System :=
  match h with
  | Command ev => Queue.send ev s
  | Signal r ev => Queue.signal r ev s
  | Tick t => Queue.with_world (Spec.set_now t (Queue.world s)) s
  | Report r position duration is_paused =>
      match Queue.find_actor r s with
      | Some (i, a) =>
          Queue.set_actor i
            {| Queue.ref := Queue.ref a;
               Queue.processing := Queue.processing a;
               Queue.pending := Queue.pending a;
               Queue.track :=
                 Spec.report_media position duration is_paused
                                   (Queue.track a) |} s
      | None => s
      end
  end.

(** [new Gapless(options)] and what happened to it since. *)
Definition player (w : Track.World) (audioContext_available : bool)
  (options : Queue.GaplessOptions) (hs : list Happening) : Queue.System :=
  fold_left happen hs (Gapless.create w audioContext_available options).

(** A track spawned without the closures of the queue, as [addTrack]
    spawns it. *)
Definition unwired (c : Track.Context) : Prop :=
  Track.onTrackEnded c = false /\ Track.onTrackLoaded c = false.

(** The transitions a track needs to empty its mailbox: one for an event
    it sent to itself, two for any other, which may make it send itself
    one more. *)
Definition rounds (evs : list Track.Event) : nat :=
  sum_list_with (fun ev => if Spec.internal ev then 1%nat else 2%nat) evs.

(** A track actor between two events. *)
Definition idle (a : Queue.TrackActor) : Prop :=
  Queue.processing a = false /\ Queue.pending a = [].

(** An index that is on one of [n] tracks, or is 0 when there is none. *)
Definition within (n i : Z) : Prop := 0 <= i < Z.max 1 n.

(** The current index of the queue is on one of its tracks. *)
Definition on_a_track (s : Queue.System) : Prop :=
  within (len (Queue.trackActors (Queue.context s)))
         (Queue.currentTrackIdx (Queue.context s)).

(** A happening that does not send the queue to a track it does not
    have: a [GOTO] names the index of a track. *)
Definition in_range (s : Queue.System) (h : Happening) : Prop :=
  match h with
  | Command (Queue.GOTO i _) =>
      within (len (Queue.trackActors (Queue.context s))) i
  | _ => True
  end.

Fixpoint all_in_range (s : Queue.System) (hs : list Happening) : Prop :=
  match hs with
  | [] => True
  | h :: hs => in_range s h /\ all_in_range (happen s h) hs
  end.

(** The [GOTO]s among the events the queue has sent itself name tracks
    of the queue. *)
Definition goto_within (s : Queue.System) (ev : Queue.Event) : Prop :=
  match ev with
  | Queue.GOTO i _ => within (len (Queue.trackActors (Queue.context s))) i
  | _ => True
  end.

End Props.

(** * Facts about the track machine *)

(** * Facts about numbers *)

Module NumberFacts.

(** ** Rounding *)

Lemma round_half_even_near n d :
  Z.abs (2 * (round_half_even n d * Zpos d - n)) <= Zpos d.
Proof.
  unfold round_half_even.
  pose proof (Z.div_mod n (Zpos d) ltac:(lia)) as E.
  pose proof (Z.mod_pos_bound n (Zpos d) ltac:(lia)) as B.
  destruct (Z.compare_spec (2 * (n mod Zpos d)) (Zpos d)) as [H|H|H];
    [destruct (Z.even (n / Zpos d))| |]; nia.
Qed.

Lemma round_half_even_Q n d :
  (Qabs (inject_Z (round_half_even n d) - (n # d)) <= 1 # 2)%Q.
Proof.
  pose proof (round_half_even_near n d) as H.
  set (m := round_half_even n d) in *.
  apply Qabs_Qle_condition. unfold Qle, Qminus, Qplus, Qopp, inject_Z. simpl.
  split; lia.
Qed.

Lemma pow2_pos e : (0 < 2 ^ e)%Q.
Proof. apply Qpower_0_lt. reflexivity. Qed.

Lemma pow2_add a b : (2 ^ (a + b) == 2 ^ a * 2 ^ b)%Q.
Proof. apply Qpower_plus. discriminate. Qed.

Lemma pow2_Z e : 0 <= e -> (inject_Z (2 ^ e) == 2 ^ e)%Q.
Proof. intros H. rewrite Zpower_Qpower by exact H. reflexivity. Qed.

Lemma pow2_inv e : 0 <= e -> (1 # Z.to_pos (2 ^ e) == 2 ^ (- e))%Q.
Proof.
  intros H. rewrite Qpower_opp, <- pow2_Z by exact H.
  assert (0 < 2 ^ e) by (apply Z.pow_pos_nonneg; lia).
  unfold Qeq, Qinv, inject_Z. simpl.
  destruct (2 ^ e) eqn:E; try lia. simpl. lia.
Qed.

(** [2 ^ binade x <= |x|] *)
Lemma binade_le x : ~ (x == 0)%Q -> (2 ^ binade x <= Qabs x)%Q.
Proof.
  intros Hx. destruct x as [n d].
  assert (Hn : 0 < Z.abs n).
  { unfold Qeq in Hx. simpl in Hx. lia. }
  unfold binade. cbn [Qnum Qden].
  pose proof (Z.log2_spec (Z.abs n) Hn) as [N1 N2].
  pose proof (Z.log2_spec (Zpos d) ltac:(lia)) as [D1 D2].
  pose proof (Z.log2_nonneg (Z.abs n)) as N0.
  pose proof (Z.log2_nonneg (Zpos d)) as D0.
  set (ln := Z.log2 (Z.abs n)) in *. set (ld := Z.log2 (Zpos d)) in *.
  assert (Habs : (Qabs (n # d) == inject_Z (Z.abs n) / inject_Z (Zpos d))%Q).
  { unfold Qabs. rewrite (Qmake_Qdiv (Z.abs n) d). reflexivity. }
  rewrite Habs.
  assert (Hd : (0 < inject_Z (Zpos d))%Q) by (unfold Qlt; simpl; lia).
  apply Qle_shift_div_l; [exact Hd|].
  (* goal: 2^e * d <= |n| *)
  assert (Hgoal : forall e,
            (if 0 <=? e then Zpos d * 2 ^ e <=? Z.abs n
             else Zpos d <=? Z.abs n * 2 ^ (- e)) = true ->
            (2 ^ e * inject_Z (Zpos d) <= inject_Z (Z.abs n))%Q).
  { intros e H. destruct (0 <=? e) eqn:E.
    - apply Z.leb_le in E, H. rewrite <- pow2_Z by exact E.
      rewrite <- inject_Z_mult, <- Zle_Qle. lia.
    - apply Z.leb_gt in E. apply Z.leb_le in H.
      assert (He : (2 ^ e == / inject_Z (2 ^ (- e)))%Q).
      { rewrite pow2_Z by lia. rewrite <- Qpower_opp. by rewrite Z.opp_involutive. }
      rewrite He.
      assert (Hp : (0 < inject_Z (2 ^ (- e)))%Q).
      { rewrite pow2_Z by lia. apply pow2_pos. }
      rewrite Qmult_comm. apply Qle_shift_div_r; [exact Hp|].
      rewrite <- inject_Z_mult, <- Zle_Qle. lia. }
  set (e0 := ln - ld) in *.
  destruct (if 0 <=? e0 then Zpos d * 2 ^ e0 <=? Z.abs n
            else Zpos d <=? Z.abs n * 2 ^ (- e0)) eqn:T.
  - by apply Hgoal.
  - apply Hgoal. destruct (0 <=? e0 - 1) eqn:E.
    + apply Z.leb_le in E. apply Z.leb_le.
      assert (2 ^ (Z.succ ld) * 2 ^ (e0 - 1) = 2 ^ ln).
      { rewrite <- Z.pow_add_r by lia. f_equal. lia. }
      assert (0 < 2 ^ (e0 - 1)) by (apply Z.pow_pos_nonneg; lia).
      nia.
    + apply Z.leb_gt in E. apply Z.leb_le.
      assert (2 ^ ln * 2 ^ (- (e0 - 1)) = 2 ^ (Z.succ ld)).
      { rewrite <- Z.pow_add_r by lia. f_equal. lia. }
      assert (0 < 2 ^ (- (e0 - 1))) by (apply Z.pow_pos_nonneg; lia).
      nia.
Qed.

Lemma unit_roundoff_pow : (unit_roundoff == 2 ^ (-53))%Q.
Proof. vm_compute. reflexivity. Qed.

Lemma half_least_pow : (half_least == 2 ^ (-1075))%Q.
Proof. vm_compute. reflexivity. Qed.

Lemma unit_roundoff_pos : (0 < unit_roundoff)%Q.
Proof. reflexivity. Qed.

Lemma half_least_pos : (0 < half_least)%Q.
Proof. reflexivity. Qed.

(** A double is the nearest multiple of [2 ^ e], where [e] is 52 below
    the binade of the number or -1074. *)
Lemma to_double_multiple x :
  ~ (x == 0)%Q ->
  let e := Z.max (binade x - 52) (-1074) in
  exists m,
    (to_double x == inject_Z m * 2 ^ e)%Q /\
    (Qabs (inject_Z m - x * 2 ^ (- e)) <= 1 # 2)%Q.
Proof.
  intros Hx e. unfold to_double.
  destruct (Qeq_bool x 0) eqn:E0; [by apply Qeq_bool_iff in E0|].
  fold e. destruct x as [n d]. cbn [Qnum Qden].
  destruct (0 <=? e) eqn:E.
  - apply Z.leb_le in E.
    assert (Hp : 0 < 2 ^ e) by (apply Z.pow_pos_nonneg; lia).
    exists (round_half_even n (d * Z.to_pos (2 ^ e))). split.
    + rewrite inject_Z_mult, pow2_Z by exact E. reflexivity.
    + pose proof (round_half_even_Q n (d * Z.to_pos (2 ^ e))) as H.
      assert (Hx' : (n # d * Z.to_pos (2 ^ e) == (n # d) * 2 ^ (- e))%Q).
      { rewrite <- pow2_inv by exact E. unfold Qeq, Qmult. simpl. lia. }
      by rewrite <- Hx'.
  - apply Z.leb_gt in E.
    assert (Hp : 0 < 2 ^ (- e)) by (apply Z.pow_pos_nonneg; lia).
    exists (round_half_even (n * 2 ^ (- e)) d). split.
    + pose proof (pow2_inv (- e) ltac:(lia)) as H.
      rewrite Z.opp_involutive in H. rewrite <- H.
      unfold Qeq, Qmult, inject_Z. simpl. lia.
    + pose proof (round_half_even_Q (n * 2 ^ (- e)) d) as H.
      assert (Hx' : (n * 2 ^ (- e) # d == (n # d) * 2 ^ (- e))%Q).
      { rewrite <- pow2_Z by lia. unfold Qeq, Qmult, inject_Z. simpl. lia. }
      by rewrite <- Hx'.
Qed.

(** The error of a rounding: at most half a unit in the last place. *)
Lemma to_double_error x :
  (Qabs (to_double x - x) <= Qabs x * unit_roundoff + half_least)%Q.
Proof.
  destruct (Qeq_dec x 0) as [Hx|Hx].
  - assert (E : to_double x = 0%Q).
    { unfold to_double. apply Qeq_bool_iff in Hx. by rewrite Hx. }
    rewrite E, Hx. pose proof half_least_pos.
    change (Qabs (0 - 0)) with 0%Q. change (Qabs 0) with 0%Q. lra.
  - destruct (to_double_multiple x Hx) as (m & E & H).
    set (e := Z.max (binade x - 52) (-1074)) in *.
    pose proof (pow2_pos e) as He.
    pose proof (pow2_add e (- e)) as Hinv.
    replace (e + - e) with 0 in Hinv by lia.
    change (2 ^ 0)%Q with 1%Q in Hinv.
    assert (Hnear : (Qabs (to_double x - x) <= 2 ^ e * (1 # 2))%Q).
    { assert (Ed : (to_double x - x ==
                    2 ^ e * (inject_Z m - x * 2 ^ (- e)))%Q).
      { rewrite E. set (A := (2 ^ e)%Q) in *. set (B := (2 ^ (- e))%Q) in *.
        assert (Hx1 : (x == x * (A * B))%Q) by (rewrite <- Hinv; ring).
        rewrite Hx1 at 1. ring. }
      rewrite Ed, Qabs_Qmult, (Qabs_pos (2 ^ e)) by lra.
      apply Qmult_le_l; [exact He | exact H]. }
    apply (Qle_trans _ _ _ Hnear).
    pose proof (Qabs_nonneg x) as Hax.
    pose proof unit_roundoff_pos. pose proof half_least_pos.
    destruct (Z.max_spec (binade x - 52) (-1074)) as [[Hlt Hm]|[Hle Hm]];
      fold e in Hm.
    + (* underflow: the least bit of the format *)
      assert (Ee : (2 ^ e * (1 # 2) == half_least)%Q).
      { rewrite Hm. vm_compute. reflexivity. }
      rewrite Ee.
      assert (0 <= Qabs x * unit_roundoff)%Q by (apply Qmult_le_0_compat; lra).
      lra.
    + assert (Ee : (2 ^ e * (1 # 2) == 2 ^ binade x * unit_roundoff)%Q).
      { rewrite Hm, unit_roundoff_pow.
        replace (binade x - 52) with (binade x + -53 + 1) by lia.
        rewrite !pow2_add. change (2 ^ 1)%Q with 2%Q. field. }
      rewrite Ee.
      pose proof (binade_le x Hx) as Hb.
      assert ((2 ^ binade x) * unit_roundoff <= Qabs x * unit_roundoff)%Q
        by (apply Qmult_le_compat_r; lra).
      lra.
Qed.

(** The digits a subtraction loses: a node started at second 100000 of
    the clock from position 0.3 is reported at once at 0.3000000000029104,
    as by the engine. *)
Lemma Number_sub_loses_digits :
  (Number_sub 100000 (Number_sub 100000 (to_double (3 # 10)))
   == 20615843021 # 68719476736)%Q /\
  ~ (Number_sub 100000 (Number_sub 100000 (to_double (3 # 10)))
     == to_double (3 # 10))%Q.
Proof. split; [vm_compute; reflexivity | vm_compute; discriminate]. Qed.

Lemma Number_sub_error a b :
  (Qabs (Number_sub a b - (a - b))
   <= Qabs (a - b) * unit_roundoff + half_least)%Q.
Proof. apply to_double_error. Qed.

Lemma Math_max_0_near y E :
  (0 <= E)%Q -> (Qabs (Math_max 0 y - E) <= Qabs (y - E))%Q.
Proof.
  intros HE. unfold Math_max. destruct (Qle_bool 0 y) eqn:H; [lra|].
  assert (Hy : (y < 0)%Q).
  { apply Qnot_le_lt. intros Hle. apply Qle_bool_iff in Hle. congruence. }
  rewrite (Qabs_neg (0 - E)) by lra. rewrite (Qabs_neg (y - E)) by lra. lra.
Qed.

(** The position a progress report computes at [later] for a node
    started at [resume] from [p], against the exact sum. *)
Lemma progress_error later resume p :
  (0 <= p + (later - resume))%Q ->
  (Qabs (Math_max 0 (Number_sub later (Number_sub resume p))
         - (p + (later - resume)))
   <= (Qabs (resume - p) + Qabs (p + (later - resume)))
      * (2 * unit_roundoff) + 4 * half_least)%Q.
Proof.
  intros HE.
  apply (Qle_trans _ _ _ (Math_max_0_near _ _ HE)).
  pose proof (Number_sub_error resume p) as H1.
  pose proof (Number_sub_error later (Number_sub resume p)) as H2.
  set (f := Number_sub resume p) in *.
  set (y := Number_sub later f) in *.
  set (E := (p + (later - resume))%Q) in *.
  pose proof half_least_pos as Hh. set (h := half_least) in *.
  pose proof (Qabs_nonneg (resume - p)) as HA.
  set (A := Qabs (resume - p)) in *.
  rewrite (Qabs_pos E) by exact HE.
  assert (H3 : (Qabs (later - f) <= E + Qabs (f - (resume - p)))%Q).
  { assert (Eq : (later - f == E + - (f - (resume - p)))%Q)
      by (subst E; ring).
    rewrite Eq.
    apply (Qle_trans _ _ _ (Qabs_triangle _ _)).
    rewrite Qabs_opp, (Qabs_pos E) by exact HE. lra. }
  assert (H4 : (Qabs (y - E) <=
                Qabs (y - (later - f)) + Qabs (f - (resume - p)))%Q).
  { assert (Eq : (y - E == (y - (later - f)) + - (f - (resume - p)))%Q)
      by (subst E; ring).
    rewrite Eq.
    apply (Qle_trans _ _ _ (Qabs_triangle _ _)).
    rewrite Qabs_opp. lra. }
  pose proof (Qabs_nonneg (f - (resume - p))) as N1.
  pose proof (Qabs_nonneg (y - (later - f))) as N2.
  pose proof (Qabs_nonneg (later - f)) as N3.
  set (d1 := Qabs (f - (resume - p))) in *.
  set (d2 := Qabs (y - (later - f))) in *.
  set (b := Qabs (later - f)) in *.
  unfold unit_roundoff in *.
  change (1 # 2 ^ 53)%Q with (1 # 9007199254740992)%Q in *.
  lra.
Qed.

End NumberFacts.

Module TrackFacts.
Import Track Spec.

Ltac unfold_actions :=
  unfold destroyAudioElement, startPlayback, createAudioElementIfNeeded,
    resumeWebAudio, pausePlayback, startProgressTracking, stopProgressTracking,
    updateProgress, checkPreloadNext, seekWebAudio, seekHTML5, setVolume,
    preload, startLoadingWebAudio, storeWebAudioBuffer, setupWebAudio,
    cleanupWebAudio, handleEnded, logWebAudioError,
    createAndStartBufferSource, stop_node, create_gain, self_send.

Ltac in_list :=
  repeat first [ apply list_elem_of_here | apply list_elem_of_further ].

Ltac members H :=
  repeat (apply elem_of_cons in H as [->|H]); [..| by apply elem_of_nil in H].

Ltac split_guards H :=
  repeat match type of H with
         | context [if ?g then _ else _] => destruct g
         end.

Lemma run_all_preserves (P : Run -> Prop) acts ev r :
  (forall a, a ∈ acts -> forall r, P r -> P (a ev r)) ->
  P r -> P (run_all acts ev r).
Proof.
  unfold run_all. revert r. induction acts as [|a acts IH]; intros r Ha Hr.
  - exact Hr.
  - simpl. apply IH.
    + intros b Hb. apply Ha. by apply list_elem_of_further.
    + apply Ha; [apply list_elem_of_here | exact Hr].
Qed.

(** Whatever the state, an event selects actions among those listed for
    it. *)
Lemma select_members v ev c a :
  a ∈ snd (select v ev c) -> a ∈ actions_for ev.
Proof.
  intros Ha. destruct v as [s p].
  destruct ev, s, p;
    unfold select, audioSource_on, playback_on, root_on in Ha; simpl in Ha;
    split_guards Ha; simpl in Ha; members Ha; unfold actions_for; in_list.
Qed.

Lemma step_preserves (P : Run -> Prop) w m ev :
  (forall a r, a ∈ actions_for ev -> P r -> P (a ev r)) ->
  P {| ctx := context m; world := w; effects := []; snapshot := value m |} ->
  P (run_all (snd (select (value m) ev (context m))) ev
       {| ctx := context m; world := w; effects := []; snapshot := value m |}).
Proof.
  intros Ha H0. apply run_all_preserves; [|exact H0].
  intros a Hin r Hr. apply Ha; [|exact Hr]. eapply select_members, Hin.
Qed.

(** ** Closures of the queue and events sent to oneself *)

Lemma silent_action ev a r :
  quiet ev = true -> a ∈ actions_for ev -> silent r -> silent (a ev r).
Proof.
  intros Hq Ha [H1 H2].
  destruct ev; try discriminate Hq; unfold actions_for in Ha; members Ha.
  all: unfold silent, sent_of in *; unfold_actions;
    repeat case_match; simpl;
    rewrite ?omap_app, ?Forall_app; simpl; repeat split; auto;
    repeat constructor.
Qed.

Lemma step_silent w m ev :
  quiet ev = true ->
  Forall (fun e => calls_queue e = false) (out_effects (step w m ev)) /\
  Forall (fun ev => internal ev = true) (sent_of (out_effects (step w m ev))).
Proof.
  intros Hq. unfold step. simpl.
  apply (step_preserves silent).
  - intros a r Ha Hr. by apply silent_action.
  - split; constructor.
Qed.

Lemma internal_quiet ev : internal ev = true -> quiet ev = true.
Proof. by destruct ev. Qed.

(** Only [startPlayback] and [preload] send to [self]. *)
Lemma mute_action ev a r :
  ev <> PLAY -> ev <> PRELOAD -> a ∈ actions_for ev ->
  sent_of (effects (a ev r)) = sent_of (effects r).
Proof.
  intros H1 H2 Ha.
  destruct ev; try congruence; unfold actions_for in Ha; members Ha.
  all: unfold sent_of; unfold_actions; repeat case_match; simpl;
    rewrite ?omap_app; simpl; rewrite ?app_nil_r; reflexivity.
Qed.

Lemma step_mute w m ev :
  ev <> PLAY -> ev <> PRELOAD -> sent_of (out_effects (step w m ev)) = [].
Proof.
  intros H1 H2. unfold step. simpl.
  apply (step_preserves (fun r => sent_of (effects r) = [])).
  - intros a r Ha Hr. by rewrite mute_action.
  - reflexivity.
Qed.

Lemma step_sends_at_most_one w m ev :
  (length (sent_of (out_effects (step w m ev))) <= 1)%nat.
Proof.
  assert (Hmute : ev <> PLAY -> ev <> PRELOAD ->
                  (length (sent_of (out_effects (step w m ev))) <= 1)%nat).
  { intros H1 H2. rewrite step_mute by done. simpl. lia. }
  destruct ev; try (apply Hmute; discriminate); clear Hmute.
  - destruct m as [[s p] c]. unfold step, select, audioSource_on, playback_on.
    destruct s, p; simpl; try destruct (isUsingWebAudio c); simpl;
      unfold sent_of; unfold_actions; repeat case_match; simpl;
      rewrite ?omap_app; simpl; lia.
  - destruct m as [[s p] c]. unfold step, select, audioSource_on, playback_on.
    destruct s, p; simpl;
      unfold sent_of; unfold_actions; repeat case_match; simpl;
      rewrite ?omap_app; simpl; lia.
Qed.

Lemma send_unfold w m ev :
  send w m ev =
  flush 1 (out_world (step w m ev)) (machine (step w m ev))
        (sent_of (out_effects (step w m ev))) (out_effects (step w m ev)).
Proof. reflexivity. Qed.

Lemma flush_nil fuel w m done :
  flush fuel w m [] done =
  {| machine := m; out_world := w; out_effects := done; out_pending := [] |}.
Proof. by destruct fuel. Qed.

Lemma flush_one w m e l done :
  flush 1 w m (e :: l) done =
  flush 0 (out_world (step w m e)) (machine (step w m e))
        (l ++ sent_of (out_effects (step w m e)))
        (done ++ out_effects (step w m e)).
Proof. reflexivity. Qed.

Lemma flush_zero_effects w m mb done :
  out_effects (flush 0 w m mb done) = done.
Proof. by destruct mb. Qed.

(** Two rounds empty the mailbox of a track that was sent one event. *)
Lemma send_completes w m ev : out_pending (send w m ev) = [].
Proof.
  rewrite send_unfold.
  pose proof (step_sends_at_most_one w m ev) as Hle.
  destruct (sent_of (out_effects (step w m ev))) as [|e [|e' l]] eqn:Hs;
    simpl in Hle; [by rewrite flush_nil | | lia].
  assert (He : internal e = true).
  { assert (Hmute : ev <> PLAY -> ev <> PRELOAD -> internal e = true).
    { intros H1 H2. rewrite step_mute in Hs by done. discriminate. }
    destruct ev; try (apply Hmute; discriminate); clear Hmute.
    - pose proof (proj2 (step_silent w m PLAY eq_refl)) as Hi.
      rewrite Hs in Hi. by inversion Hi.
    - pose proof (proj2 (step_silent w m PRELOAD eq_refl)) as Hi.
      rewrite Hs in Hi. by inversion Hi. }
  rewrite flush_one. rewrite step_mute;
    [reflexivity | |]; intros ->; discriminate.
Qed.

Lemma silent_no_callbacks es :
  Forall (fun e => calls_queue e = false) es ->
  omap Queue.callback_event es = [].
Proof.
  induction es as [|e es IH]; intros H; [reflexivity|].
  inversion H as [|? ? He Hes]; subst.
  destruct e; simpl in *; try discriminate; by apply IH.
Qed.

(** A track that is sent a quiet event calls no closure of the queue. *)
Lemma send_silent w m ev :
  quiet ev = true ->
  omap Queue.callback_event (out_effects (send w m ev)) = [].
Proof.
  intros Hq. apply silent_no_callbacks.
  destruct (step_silent w m ev Hq) as [H1 H2].
  rewrite send_unfold.
  destruct (sent_of (out_effects (step w m ev))) as [|e l] eqn:Hs.
  - by rewrite flush_nil.
  - inversion H2 as [|? ? He _]; subst.
    destruct (step_silent (out_world (step w m ev)) (machine (step w m ev)) e
                (internal_quiet _ He)) as [H3 _].
    rewrite flush_one, flush_zero_effects. apply Forall_app; by split.
Qed.

End TrackFacts.

Module NodeFacts.
Import Track Spec TrackFacts.

(** ** The discipline of buffer source nodes *)

Lemma Disc_emit k0 e r : Disc k0 r -> node_of e = None -> Disc k0 (emit e r).
Proof. intros [H1 H2] He. split; [by apply D_other | exact H2]. Qed.

Lemma Disc_with_ctx k0 f r :
  Disc k0 r ->
  bufferSourceNode (f (ctx r)) = bufferSourceNode (ctx r) \/
  bufferSourceNode (f (ctx r)) = None ->
  Disc k0 (with_ctx f r).
Proof.
  intros [H1 H2] Hf. split; [exact H1|].
  intros n Hn. simpl in Hn. destruct Hf as [Hf|Hf]; rewrite Hf in Hn;
    [by apply H2 | discriminate].
Qed.

Lemma Disc_stop_node k0 n r :
  Disc k0 r -> bufferSourceNode (ctx r) = Some n -> Disc k0 (stop_node n r).
Proof.
  intros [H1 H2] Hn. split; [|exact H2].
  unfold stop_node. simpl. rewrite <- !app_assoc. simpl.
  apply D_stop; [exact H1 | by apply H2].
Qed.

Lemma Disc_create_gain k0 r : Disc k0 r -> Disc k0 (create_gain r).
Proof.
  intros H. unfold create_gain.
  apply Disc_emit; [|reflexivity]. apply Disc_with_ctx; [exact H | by left].
Qed.

Lemma Disc_createAndStartBufferSource k0 t r :
  Disc k0 r -> Disc k0 (createAndStartBufferSource t r).
Proof.
  intros H. unfold createAndStartBufferSource.
  destruct (negb (audioContext (ctx r)) || negb (present (audioBuffer (ctx r)))).
  { by apply Disc_emit. }
  assert (Disc k0 (if present (gainNode (ctx r)) then r else create_gain r))
    as [H1 H2] by (destruct (present _); [exact H | by apply Disc_create_gain]).
  set (r1 := if present (gainNode (ctx r)) then r else create_gain r) in *.
  clearbody r1. split.
  - simpl. rewrite <- !app_assoc. simpl. by apply D_start.
  - intros n Hn. simpl in Hn. injection Hn as <-. simpl. lia.
Qed.

Ltac disc :=
  repeat first
    [ assumption
    | apply Disc_createAndStartBufferSource
    | apply Disc_create_gain
    | apply Disc_stop_node; [| simpl; assumption]
    | apply Disc_emit; [| reflexivity]
    | apply Disc_with_ctx; [| simpl; auto] ].

Lemma Disc_action k0 ev a r :
  a ∈ actions_for ev -> Disc k0 r -> Disc k0 (a ev r).
Proof.
  intros Ha H. destruct ev; unfold actions_for in Ha; members Ha.
  all: unfold destroyAudioElement, startPlayback, createAudioElementIfNeeded,
    resumeWebAudio, pausePlayback, startProgressTracking, stopProgressTracking,
    updateProgress, checkPreloadNext, seekWebAudio, seekHTML5, setVolume,
    preload, startLoadingWebAudio, storeWebAudioBuffer, setupWebAudio,
    cleanupWebAudio, handleEnded, logWebAudioError, self_send;
    repeat case_match; disc.
Qed.
Lemma Disciplined_app k0 es k es' k' :
  Disciplined k0 es k -> Disciplined k es' k' -> Disciplined k0 (es ++ es') k'.
Proof.
  intros H1 H2. induction H2 as [|es' k' e H2 IH He|es' k' n H2 IH Hn|es' k' p H2 IH].
  - by rewrite app_nil_r.
  - rewrite app_assoc. by apply D_other.
  - rewrite app_assoc. by apply D_stop.
  - rewrite app_assoc. by apply D_start.
Qed.

Lemma step_disciplined w m ev :
  node_bound (context m) w ->
  Disciplined (next_node w) (out_effects (step w m ev))
              (next_node (out_world (step w m ev))) /\
  node_bound (context (machine (step w m ev))) (out_world (step w m ev)).
Proof.
  intros Hb. unfold step. simpl.
  apply (step_preserves (Disc (next_node w))).
  - intros a r Ha Hr. by apply Disc_action.
  - split; [apply D_nil | exact Hb].
Qed.

Lemma flush_disciplined fuel k0 w m mb done :
  Disciplined k0 done (next_node w) -> node_bound (context m) w ->
  Disciplined k0 (out_effects (flush fuel w m mb done))
              (next_node (out_world (flush fuel w m mb done))) /\
  node_bound (context (machine (flush fuel w m mb done)))
             (out_world (flush fuel w m mb done)).
Proof.
  revert w m mb done.
  induction fuel as [|fuel IH]; intros w m mb done Hd Hb.
  - destruct mb; simpl; by split.
  - destruct mb as [|ev rest]; [simpl; by split|].
    destruct (step_disciplined w m ev Hb) as [H1 H2].
    cbn [flush]. apply IH; [|exact H2].
    eapply Disciplined_app; eauto.
Qed.

(** The invariant of the life of a track. *)
Lemma live_disciplined w avail input xs :
  Disciplined (next_node w) (life_effects (live w avail input xs))
              (next_node (life_world (live w avail input xs))) /\
  node_bound (context (life_machine (live w avail input xs)))
             (life_world (live w avail input xs)).
Proof.
  unfold live.
  set (l0 := {| life_world := w; life_machine := initial avail input;
                life_effects := [] |}).
  assert (H0 : Disciplined (next_node w) (life_effects l0)
                 (next_node (life_world l0)) /\
               node_bound (context (life_machine l0)) (life_world l0)).
  { split; [apply D_nil | intros n Hn; discriminate Hn]. }
  clearbody l0. revert l0 H0.
  induction xs as [|x xs IH]; intros l0 [H1 H2]; [by split|].
  simpl. apply IH. destruct x as [ev|t|p d b]; simpl.
  - destruct (flush_disciplined 2 (next_node (life_world l0)) (life_world l0)
                (life_machine l0) [ev] []) as [H3 H4];
      [apply D_nil | exact H2 |].
    split; [|exact H4]. eapply Disciplined_app; [exact H1 | exact H3].
  - by split.
  - split; [exact H1 | exact H2].
Qed.

(** *** What the discipline gives *)

Lemma Disciplined_bound k0 es k :
  Disciplined k0 es k ->
  (k0 <= k)%nat /\
  forall e n, e ∈ es -> node_of e = Some n -> (n < k)%nat.
Proof.
  induction 1 as [|es k e H [IH1 IH2] He|es k n H [IH1 IH2] Hn|es k p H [IH1 IH2]].
  - split; [lia|]. intros e n He. by apply elem_of_nil in He.
  - split; [exact IH1|]. intros e' n He' Hn.
    apply elem_of_app in He' as [He'|He']; [by eapply IH2|].
    apply list_elem_of_singleton in He' as ->. congruence.
  - split; [exact IH1|]. intros e' n' He' Hn'.
    apply elem_of_app in He' as [He'|He']; [by eapply IH2|].
    members He'; simpl in Hn'; injection Hn' as <-; exact Hn.
  - split; [lia|]. intros e' n' He' Hn'.
    apply elem_of_app in He' as [He'|He'];
      [specialize (IH2 _ _ He' Hn'); lia|].
    members He'; simpl in Hn'; try discriminate; injection Hn' as <-; lia.
Qed.

Lemma split_snoc {A} (es blk pre post : list A) x :
  es ++ blk = pre ++ x :: post ->
  (exists post', es = pre ++ x :: post' /\ post = post' ++ blk) \/
  (exists pre', pre = es ++ pre' /\ blk = pre' ++ x :: post).
Proof.
  revert pre. induction es as [|y es IH]; intros pre H.
  - right. exists pre. by split.
  - destruct pre as [|z pre]; simpl in H.
    + left. injection H as -> <-. by exists es.
    + injection H as -> H. destruct (IH _ H) as [(post' & -> & ->)|(pre' & -> & ->)].
      * left. by exists post'.
      * right. by exists pre'.
Qed.

(** Every [start] is the last call of the block that creates its node,
    and nothing touched that node before. *)
Lemma Disciplined_start_fresh k0 es k :
  Disciplined k0 es k ->
  forall pre n o post,
    es = pre ++ NodeStart n o :: post ->
    exists pre',
      pre = pre' ++ [CreateBufferSource n; NodeSetBuffer n; NodeConnect n;
                     NodeSetOnended n; GainConnect] /\
      forall e, e ∈ pre' -> node_of e <> Some n.
Proof.
  induction 1 as [|es k e H IH He|es k n' H IH Hn|es k p H IH];
    intros pre n o post Heq.
  - by destruct pre.
  - apply split_snoc in Heq as [(post' & -> & ->)|(pre' & -> & Hb)].
    + by eapply IH.
    + destruct pre' as [|? [|]]; simplify_eq/=.
  - apply split_snoc in Heq as [(post' & -> & ->)|(pre' & -> & Hb)].
    + by eapply IH.
    + destruct pre' as [|? [|? [|? [|]]]]; simplify_eq/=.
  - apply split_snoc in Heq as [(post' & -> & ->)|(pre' & -> & Hb)].
    + by eapply IH.
    + destruct pre' as [|? [|? [|? [|? [|? [|? [|]]]]]]]; simplify_eq/=.
      exists es. split; [reflexivity|].
      intros e He Hn. destruct (Disciplined_bound _ _ _ H) as [_ Hlt].
      specialize (Hlt _ _ He Hn). lia.
Qed.

(** A node that was stopped is not started afterwards. *)
Lemma Disciplined_never_restarted k0 es k :
  Disciplined k0 es k ->
  forall pre n o post,
    es = pre ++ NodeStart n o :: post -> NodeStop n ∉ pre.
Proof.
  intros H pre n o post Heq Hin.
  destruct (Disciplined_start_fresh _ _ _ H _ _ _ _ Heq) as (pre' & -> & Hf).
  apply elem_of_app in Hin as [Hin|Hin].
  - by apply (Hf _ Hin).
  - repeat (apply elem_of_cons in Hin as [Hin|Hin]; [discriminate Hin|]).
    by apply elem_of_nil in Hin.
Qed.

(** No node is started twice. *)
Lemma Disciplined_started_once k0 es k :
  Disciplined k0 es k ->
  NoDup (started es) /\ forall n, n ∈ started es -> (n < k)%nat.
Proof.
  induction 1 as [|es k e H [IH1 IH2] He|es k n H [IH1 IH2] Hn|es k p H [IH1 IH2]].
  - split; [constructor|]. intros n Hn. by apply elem_of_nil in Hn.
  - unfold started in *. rewrite omap_app.
    destruct e; try discriminate He; simpl; rewrite app_nil_r; by split.
  - unfold started in *. rewrite omap_app. simpl. rewrite app_nil_r. by split.
  - unfold started in *. rewrite omap_app. simpl. split.
    + apply NoDup_app. split; [exact IH1|]. split; [|apply NoDup_singleton].
      intros n Hn Hk. apply list_elem_of_singleton in Hk as ->.
      specialize (IH2 _ Hn). lia.
    + intros n Hn. apply elem_of_app in Hn as [Hn|Hn].
      * specialize (IH2 _ Hn). lia.
      * apply list_elem_of_singleton in Hn as ->. lia.
Qed.

(** The listener of a node is removed right before the node is stopped. *)
Lemma Disciplined_detached_before_stop k0 es k :
  Disciplined k0 es k ->
  forall pre n post,
    es = pre ++ NodeStop n :: post ->
    exists pre', pre = pre' ++ [NodeClearOnended n].
Proof.
  induction 1 as [|es k e H IH He|es k n' H IH Hn|es k p H IH];
    intros pre n post Heq.
  - by destruct pre.
  - apply split_snoc in Heq as [(post' & -> & ->)|(pre' & -> & Hb)].
    + by eapply IH.
    + destruct pre' as [|? [|]]; simplify_eq/=.
  - apply split_snoc in Heq as [(post' & -> & ->)|(pre' & -> & Hb)].
    + by eapply IH.
    + destruct pre' as [|? [|? [|? [|]]]]; simplify_eq/=.
      exists es. reflexivity.
  - apply split_snoc in Heq as [(post' & -> & ->)|(pre' & -> & Hb)].
    + by eapply IH.
    + destruct pre' as [|? [|? [|? [|? [|? [|? [|]]]]]]]; simplify_eq/=.
Qed.

End NodeFacts.

Module LoadFacts.
Import Track Spec TrackFacts.

(** ** Eligibility for the precise backend *)

(** Only [storeWebAudioBuffer] changes what decides the guards. *)
Lemma eligibility_action ev a r :
  (forall b, ev <> WEBAUDIO_LOADED b) -> a ∈ actions_for ev ->
  eligibility (ctx (a ev r)) = eligibility (ctx r).
Proof.
  intros Hne Ha.
  destruct ev; try (by exfalso; eapply Hne); unfold actions_for in Ha;
    members Ha.
  all: unfold eligibility; unfold_actions; repeat case_match; simpl;
    congruence.
Qed.

Lemma step_eligibility w m ev :
  (forall b, ev <> WEBAUDIO_LOADED b) ->
  eligibility (context (machine (step w m ev))) = eligibility (context m).
Proof.
  intros Hne. unfold step. simpl.
  apply (step_preserves
           (fun r => eligibility (ctx r) = eligibility (context m))).
  - intros a r Ha Hr. by rewrite eligibility_action.
  - reflexivity.
Qed.

Lemma canUseWebAudio_eligibility c c' :
  eligibility c' = eligibility c -> canUseWebAudio c' = canUseWebAudio c.
Proof. unfold eligibility, canUseWebAudio. by intros [= -> -> ->]. Qed.

Lemma eligibility_fields c c' :
  eligibility c' = eligibility c ->
  webAudioIsDisabled c' = webAudioIsDisabled c /\
  audioContext c' = audioContext c /\ audioBuffer c' = audioBuffer c.
Proof. unfold eligibility. by intros [= -> -> ->]. Qed.

Lemma enters_loading v ev c :
  audioSource (fst (select v ev c)) = loadingWebAudio ->
  audioSource v = loadingWebAudio \/ canUseWebAudio c = true.
Proof.
  destruct v as [s p].
  destruct ev, s, p; unfold select, audioSource_on, playback_on; simpl;
    try destruct (canUseWebAudio c) eqn:?;
    try destruct (hasWebAudioBuffer c); try destruct (isUsingWebAudio c);
    simpl; auto; discriminate.
Qed.

Lemma step_loadable w m ev : loadable m -> loadable (machine (step w m ev)).
Proof.
  intros [J1 J2].
  assert (Hother : (forall b, ev <> WEBAUDIO_LOADED b) ->
                   loadable (machine (step w m ev))).
  { intros Hne. pose proof (step_eligibility w m ev Hne) as He.
    split.
    - intros Hl. rewrite (canUseWebAudio_eligibility _ _ He).
      simpl in Hl. apply enters_loading in Hl as [Hl|Hl]; auto.
    - apply eligibility_fields in He as (-> & -> & ->). exact J2. }
  destruct ev; try (apply Hother; discriminate); clear Hother.
  destruct m as [[s p] c]. simpl in *.
  destruct s.
  - (* not loading: the event is dropped *)
    unfold step, select, audioSource_on, playback_on; destruct p; simpl;
      split; simpl; auto; discriminate.
  - specialize (J1 eq_refl). unfold canUseWebAudio in J1.
    apply andb_prop in J1 as [J1 J3]. apply andb_prop in J1 as [J1 J4].
    apply negb_true_iff in J1.
    unfold step, select, audioSource_on, playback_on; destruct p; simpl;
      (split; simpl; [discriminate|]); intros _;
      unfold_actions; repeat case_match; simpl; auto.
  - unfold step, select, audioSource_on, playback_on; destruct p; simpl;
      split; simpl; auto; discriminate.
Qed.

Lemma flush_loadable fuel w m mb done :
  loadable m -> loadable (machine (flush fuel w m mb done)).
Proof.
  revert w m mb done. induction fuel as [|fuel IH]; intros w m mb done H.
  - by destruct mb.
  - destruct mb as [|ev rest]; [exact H|]. cbn [flush].
    apply IH. by apply step_loadable.
Qed.

Lemma live_loadable w avail input xs :
  loadable (life_machine (live w avail input xs)).
Proof.
  unfold live.
  set (l0 := {| life_world := w; life_machine := initial avail input;
                life_effects := [] |}).
  assert (H0 : loadable (life_machine l0)) by (split; simpl; discriminate).
  clearbody l0. revert l0 H0.
  induction xs as [|x xs IH]; intros l0 H0; [exact H0|].
  simpl. apply IH. destruct x as [ev|t|p d b]; simpl.
  - by apply flush_loadable.
  - exact H0.
  - destruct H0 as [J1 J2]. split; simpl; [exact J1 | exact J2].
Qed.

End LoadFacts.
(** * What single commands do to a track *)

Module CommandFacts.
Import Track Spec TrackFacts.

Lemma flush_zero_machine w m mb done : machine (flush 0 w m mb done) = m.
Proof. by destruct mb. Qed.

Lemma internal_keeps_playback v ev c :
  internal ev = true -> playback (fst (select v ev c)) = playback v.
Proof.
  destruct v as [s p].
  destruct ev; try discriminate; intros _;
    destruct s, p; unfold select, audioSource_on, playback_on; simpl;
    try destruct (canUseWebAudio c); try destruct (hasWebAudioBuffer c);
    reflexivity.
Qed.

(** The state a track is in after it was sent an event: what the event
    selects, then what the event it sent itself selects. *)
Lemma send_playback w m ev :
  playback (value (machine (send w m ev))) =
  playback (fst (select (value m) ev (context m))).
Proof.
  rewrite send_unfold.
  pose proof (step_sends_at_most_one w m ev) as Hle.
  destruct (sent_of (out_effects (step w m ev))) as [|e [|e' l]] eqn:Hs;
    simpl in Hle; [by rewrite TrackFacts.flush_nil | | lia].
  assert (He : internal e = true).
  { assert (Hmute : ev <> PLAY -> ev <> PRELOAD -> internal e = true).
    { intros H1 H2. rewrite step_mute in Hs by done. discriminate. }
    destruct ev; try (apply Hmute; discriminate); clear Hmute.
    - pose proof (proj2 (step_silent w m PLAY eq_refl)) as Hi.
      rewrite Hs in Hi. by inversion Hi.
    - pose proof (proj2 (step_silent w m PRELOAD eq_refl)) as Hi.
      rewrite Hs in Hi. by inversion Hi. }
  rewrite flush_one, flush_zero_machine.
  change (value (machine (step (out_world (step w m ev))
                               (machine (step w m ev)) e)))
    with (fst (select (value (machine (step w m ev))) e
                      (context (machine (step w m ev))))).
  by rewrite internal_keeps_playback.
Qed.

(** A track that was sent [PLAY] is playing. *)
Lemma send_PLAY_plays w m :
  playback (value (machine (send w m PLAY))) = playing.
Proof.
  rewrite send_playback. destruct m as [[s p] c].
  destruct s, p; unfold select, audioSource_on, playback_on; simpl;
    try destruct (isUsingWebAudio c); reflexivity.
Qed.

(** A track that was sent [DEACTIVATE] is paused and has let go of its
    media element, its buffer source node and its frame request. *)
Lemma send_DEACTIVATE_releases w m :
  let m' := machine (send w m DEACTIVATE) in
  playback (value m') = paused /\
  audio (context m') = None /\
  bufferSourceNode (context m') = None /\
  progressAnimationFrame (context m') = None.
Proof.
  intros m'. subst m'. rewrite send_unfold.
  rewrite step_mute by discriminate. rewrite TrackFacts.flush_nil. simpl.
  destruct m as [[s p] c].
  destruct s, p; unfold select, audioSource_on, playback_on; simpl;
    unfold_actions; repeat case_match; simpl; auto.
Qed.

End CommandFacts.

(** * Claims about the track machine *)

Module TrackClaims.
Import Track Spec TrackFacts NodeFacts LoadFacts.

Lemma Math_max_idem t : Math_max 0 (Math_max 0 t) = Math_max 0 t.
Proof. unfold Math_max. destruct (Qle_bool 0 t) eqn:E; [by rewrite E | reflexivity]. Qed.

Lemma isUsingWebAudio_fields c :
  isUsingWebAudio c = true ->
  (exists b, audioBuffer c = Some b) /\ webAudioIsDisabled c = false.
Proof.
  unfold isUsingWebAudio. intros H. apply andb_prop in H as [H1 H2].
  split; [|by apply negb_true_iff]. destruct (audioBuffer c); [eauto | discriminate].
Qed.

(** C8: when the fetch-then-decode pipeline of a track fails, the failure
    reaches the machine as the event [WEBAUDIO_ERROR] (the [catch] of the
    promise chain logs it and sends it; nothing is thrown into a
    transition), the backend region goes from [loadingWebAudio] back to
    [html], the handling only logs the error (context and world are as
    before, nothing is sent), and the track can load again: a later
    [LOAD_WEBAUDIO] takes it to [loadingWebAudio] and fetches its URL. *)
Theorem C8_load_failure_falls_back_to_streaming :
  forall w avail input xs error,
    let l := live w avail input xs in
    let m := life_machine l in
    audioSource (value m) = loadingWebAudio ->
    let o := send (life_world l) m (WEBAUDIO_ERROR error) in
    let retry := send (out_world o) (machine o) LOAD_WEBAUDIO in
    pipeline_settles (inr error) =
      ([ConsoleError ("Error loading web audio: " ++ error)],
       WEBAUDIO_ERROR error) /\
    value (machine o) =
      {| audioSource := html; playback := playback (value m) |} /\
    context (machine o) = context m /\
    out_world o = life_world l /\
    out_effects o = [ConsoleError ("WebAudio loading error: " ++ error)] /\
    out_pending o = [] /\
    audioSource (value (machine retry)) = loadingWebAudio /\
    out_effects retry =
      (if String.eqb (trackUrl (context m)) "" then []
       else [Fetch (trackUrl (context m))]) /\
    out_pending retry = [].
Proof.
  intros w avail input xs error. cbv zeta.
  generalize (live_loadable w avail input xs).
  generalize (live w avail input xs). intros [w1 m es] [J1 _] Hl.
  simpl in *. specialize (J1 Hl).
  destruct m as [[s p] c]. simpl in *. subst s.
  assert (Hctx : audioContext c = true).
  { unfold canUseWebAudio in J1. apply andb_prop in J1 as [J1 _].
    by apply andb_prop in J1 as [_ J1]. }
  split; [reflexivity|].
  destruct p; cbv [send flush step select audioSource_on playback_on root_on
                   audioSource_entry run_all fold_left fst snd value context
                   machine out_world out_effects out_pending app
                   logWebAudioError emit ctx world effects sent_of omap
                   list_omap audioSource playback];
    rewrite J1;
    cbv [send flush step select audioSource_on playback_on root_on
         audioSource_entry run_all fold_left fst snd value context
         machine out_world out_effects out_pending app
         startLoadingWebAudio emit ctx world effects sent_of omap
         list_omap audioSource playback];
    rewrite Hctx; simpl; destruct (String.eqb (trackUrl c) ""); simpl;
    repeat split; reflexivity.
Qed.

Lemma C8_witness :
  audioSource (value (life_machine (live w0 true input_a [Deliver PRELOAD])))
    = loadingWebAudio /\
  audioSource
    (value (machine (send (life_world (live w0 true input_a [Deliver PRELOAD]))
                          (life_machine (live w0 true input_a [Deliver PRELOAD]))
                          (WEBAUDIO_ERROR "network error")))) = html.
Proof.
  split; [reflexivity|].
  destruct (C8_load_failure_falls_back_to_streaming
              w0 true input_a [Deliver PRELOAD] "network error" eq_refl)
    as (_ & H & _).
  exact (f_equal audioSource H).
Defined.

(** What a seek stores, whatever the duration of the track. *)
Lemma seek_stores_the_target_floored_at_zero w m t :
  (isUsingWebAudio (context m) = true /\ audioContext (context m) = true) \/
  (isUsingWebAudio (context m) = false /\
   present (audio (context m)) = true) ->
  currentTime (context (machine (send w m (SEEK t)))) = Math_max 0 t.
Proof.
  destruct m as [[s p] c]. simpl. intros [[Hu Hc]|[Hu Ha]].
  - destruct (isUsingWebAudio_fields _ Hu) as [[b Hb] Hd].
    destruct c; simpl in *; subst.
    destruct s, p, bufferSourceNode0, gainNode0; reflexivity.
  - destruct c; simpl in *. destruct audio0 as [a|]; [|discriminate].
    unfold send, flush, step, select, audioSource_on, playback_on.
    destruct s, p; simpl; rewrite Hu; reflexivity.
Qed.

(** C4 (what the code does): a seek beyond the duration is stored as it
    is.  On the precise backend, playing or paused, a seek to 150 in a
    track of 100 seconds leaves [currentTime] at 150, and while playing the
    new node is started at offset 150; on the streaming backend 150 is
    stored and written to the media element.  A negative target is floored
    at 0. *)
Theorem C4_seek_beyond_the_duration_is_not_clamped :
  let precise xs :=
    live w0 true input_a (precise_playing ++ xs) in
  let streaming xs :=
    live w0 true input_streaming (streaming_playing ++ xs) in
  let stored l := currentTime (context (life_machine l)) in
  let known l := duration (context (life_machine l)) in
  value (life_machine (precise [])) =
    {| audioSource := webaudio; playback := playing |} /\
  known (precise []) = 100%Q /\
  stored (precise [Deliver (SEEK 150)]) = 150%Q /\
  known (precise [Deliver (SEEK 150)]) = 100%Q /\
  last (life_effects (precise [Deliver (SEEK 150)])) = Some (NodeStart 1 150) /\
  stored (precise [Deliver PAUSE; Deliver (SEEK 150)]) = 150%Q /\
  known (precise [Deliver PAUSE; Deliver (SEEK 150)]) = 100%Q /\
  stored (precise [Deliver (SEEK (-5))]) = 0%Q /\
  value (life_machine (streaming [])) =
    {| audioSource := html; playback := playing |} /\
  known (streaming []) = 100%Q /\
  stored (streaming [Deliver (SEEK 150)]) = 150%Q /\
  audio_currentTime <$> audio (context (life_machine
                                          (streaming [Deliver (SEEK 150)])))
    = Some 150%Q.
Proof. vm_compute. repeat split; reflexivity. Qed.

End TrackClaims.

(** * Facts about the queue machine *)

Module QueueFacts.
Import Queue Spec CommandFacts.

Lemma sends_of_app t1 t2 : sends_of (t1 ++ t2) = sends_of t1 ++ sends_of t2.
Proof. apply omap_app. Qed.

Lemma sends_of_effects r es : sends_of (map (TrackEffect r) es) = [].
Proof. induction es; simpl; auto. Qed.


Lemma at_index_Some {A} (l : list A) i x :
  at_index l i = Some x -> 0 <= i < len l.
Proof.
  unfold at_index, len. destruct (0 <=? i) eqn:E; [|discriminate].
  intros H. apply lookup_lt_Some in H. lia.
Qed.

Lemma len_refs s : len (refs s) = len (trackActors (context s)).
Proof. unfold len, refs. by rewrite length_fmap. Qed.

(** ** Sending to one track *)
Section SendTo.

Variables (i : nat) (ev : Track.Event) (s : System).

Lemma send_to_state : state (send_to i ev s) = state s.
Proof. unfold send_to. repeat case_match; reflexivity. Qed.

Lemma send_to_refs : refs (send_to i ev s) = refs s.
Proof.
  unfold send_to, refs.
  destruct (trackActors (context s) !! i) as [a|] eqn:Ha; [|done].
  destruct (processing a); simpl; rewrite list_fmap_insert; simpl;
    apply list_insert_id; rewrite list_lookup_fmap, Ha; done.
Qed.

Lemma send_to_currentTrackIdx :
  currentTrackIdx (context (send_to i ev s)) = currentTrackIdx (context s).
Proof. unfold send_to. repeat case_match; reflexivity. Qed.

Lemma send_to_volume :
  volume (context (send_to i ev s)) = volume (context s).
Proof. unfold send_to. repeat case_match; reflexivity. Qed.

Lemma send_to_onStartNewTrack :
  onStartNewTrack (context (send_to i ev s)) = onStartNewTrack (context s).
Proof. unfold send_to. repeat case_match; reflexivity. Qed.

Lemma send_to_onEnded :
  onEnded (context (send_to i ev s)) = onEnded (context s).
Proof. unfold send_to. repeat case_match; reflexivity. Qed.

Lemma send_to_mailbox :
  quiet ev = true -> mailbox (send_to i ev s) = mailbox s.
Proof.
  intros Hq. unfold send_to. repeat case_match; try reflexivity.
  simpl. rewrite TrackFacts.send_silent by done. apply app_nil_r.
Qed.

Lemma send_to_sends :
  sends_of (trace (send_to i ev s)) =
  sends_of (trace s) ++
  match refs s !! i with Some r => [(r, ev)] | None => [] end.
Proof.
  unfold send_to, refs. rewrite list_lookup_fmap.
  destruct (trackActors (context s) !! i) as [a|] eqn:Ha; simpl;
    [|by rewrite app_nil_r].
  destruct (processing a); simpl;
    rewrite ?sends_of_app, ?sends_of_effects; simpl;
    rewrite ?app_nil_r; done.
Qed.

End SendTo.

Lemma len_trackActors_refs s s' :
refs s' = refs s ->
len (trackActors (context s')) = len (trackActors (context s)).
Proof. intros H. by rewrite <- !len_refs, H. Qed.

(** ** Sending to the track at an index *)
Section SendAt.

Variables (i : Z) (ev : Track.Event) (s : System).

Lemma send_at_state : state (send_at i ev s) = state s.
Proof. unfold send_at. case_match; [apply send_to_state | done]. Qed.

Lemma send_at_refs : refs (send_at i ev s) = refs s.
Proof. unfold send_at. case_match; [apply send_to_refs | done]. Qed.

Lemma send_at_currentTrackIdx :
  currentTrackIdx (context (send_at i ev s)) = currentTrackIdx (context s).
Proof.
  unfold send_at. case_match; [apply send_to_currentTrackIdx | done].
Qed.

Lemma send_at_volume :
  volume (context (send_at i ev s)) = volume (context s).
Proof. unfold send_at. case_match; [apply send_to_volume | done]. Qed.

Lemma send_at_onStartNewTrack :
  onStartNewTrack (context (send_at i ev s)) = onStartNewTrack (context s).
Proof.
  unfold send_at. case_match; [apply send_to_onStartNewTrack | done].
Qed.

Lemma send_at_onEnded :
  onEnded (context (send_at i ev s)) = onEnded (context s).
Proof. unfold send_at. case_match; [apply send_to_onEnded | done]. Qed.

Lemma send_at_mailbox :
  quiet ev = true -> mailbox (send_at i ev s) = mailbox s.
Proof.
  intros H. unfold send_at. case_match; [by apply send_to_mailbox | done].
Qed.

Lemma send_at_sends :
  sends_of (trace (send_at i ev s)) =
  sends_of (trace s) ++
  match ref_at s i with Some r => [(r, ev)] | None => [] end.
Proof.
  unfold send_at, ref_at, at_index.
  case_match; [apply send_to_sends | by rewrite app_nil_r].
Qed.

Lemma send_at_len :
  len (trackActors (context (send_at i ev s))) =
  len (trackActors (context s)).
Proof. apply len_trackActors_refs, send_at_refs. Qed.

End SendAt.

Lemma ref_at_refs s s' i : refs s' = refs s -> ref_at s' i = ref_at s i.
Proof. unfold ref_at. by intros ->. Qed.

(** ** Sending to every track *)
Lemma send_fold_frame ev (js : list nat) s :
  let s' := fold_left (fun s i => send_to i ev s) js s in
  state s' = state s /\ refs s' = refs s /\
  currentTrackIdx (context s') = currentTrackIdx (context s) /\
  volume (context s') = volume (context s) /\
  onStartNewTrack (context s') = onStartNewTrack (context s) /\
  (quiet ev = true -> mailbox s' = mailbox s) /\
  sends_of (trace s') =
    sends_of (trace s) ++
    omap (fun i => (fun r => (r, ev)) <$> refs s !! i) js.
Proof.
  revert s. induction js as [|j js IH]; intros s; simpl.
  - rewrite app_nil_r. repeat split; reflexivity.
  - destruct (IH (send_to j ev s)) as (H1 & H2 & H3 & H4 & H5 & H6 & H7).
    rewrite H1, H2, H3, H4, H5, H7.
    rewrite send_to_state, send_to_refs, send_to_currentTrackIdx,
      send_to_volume, send_to_onStartNewTrack, send_to_sends.
    repeat split; try reflexivity.
    + intros Hq. rewrite H6, send_to_mailbox; done.
    + rewrite <- app_assoc. f_equal. by destruct (refs s !! j).
Qed.

(** ** What an action leaves alone *)
Lemma spec_refl s : step_spec s s [] (currentTrackIdx (context s)) [].
Proof. unfold step_spec. by rewrite !app_nil_r. Qed.

Lemma spec_trans s s1 s2 mb1 mb2 i1 i2 sent1 sent2 :
  step_spec s s1 mb1 i1 sent1 -> step_spec s1 s2 mb2 i2 sent2 ->
  step_spec s s2 (mb1 ++ mb2) i2 (sent1 ++ sent2).
Proof.
  intros (A1 & A2 & A3 & A4 & A5) (B1 & B2 & B3 & B4 & B5).
  unfold step_spec. rewrite B1, B2, B3, B4, B5, A1, A2, A3, A5.
  by rewrite !app_assoc.
Qed.

Lemma spec_send_at i ev s :
  quiet ev = true ->
  step_spec s (send_at i ev s) [] (currentTrackIdx (context s))
            (match ref_at s i with Some r => [(r, ev)] | None => [] end).
Proof.
  intros Hq. unfold step_spec.
  rewrite send_at_state, send_at_refs, send_at_mailbox, send_at_sends,
    send_at_currentTrackIdx, app_nil_r by done. done.
Qed.

Lemma spec_send_all ev s :
  quiet ev = true ->
  exists sent,
    step_spec s (send_all ev s) [] (currentTrackIdx (context s)) sent.
Proof.
  intros Hq. unfold send_all.
  destruct (send_fold_frame ev (seq 0 (length (trackActors (context s)))) s)
    as (H1 & H2 & H3 & H4 & H5 & H6 & H7).
  eexists. unfold step_spec. rewrite H1, H2, H3, H6, H7, app_nil_r by done.
  done.
Qed.

Lemma spec_observe s os :
  sends_of os = [] ->
  step_spec s (observe os s) [] (currentTrackIdx (context s)) [].
Proof.
  intros H. unfold step_spec. simpl.
  by rewrite sends_of_app, H, !app_nil_r.
Qed.

Lemma spec_self_send s ev :
  step_spec s (self_send ev s) [ev] (currentTrackIdx (context s)) [].
Proof. unfold step_spec. simpl. by rewrite app_nil_r. Qed.

Lemma spec_set_idx s i :
  step_spec s (with_context (set_currentTrackIdx i) s) [] i [].
Proof. unfold step_spec. simpl. by rewrite !app_nil_r. Qed.

Lemma calm_send_at (f : System -> Z) tev ev :
  quiet tev = true -> calm (fun _ s => send_at (f s) tev s) ev.
Proof. intros Hq s. eexists. by apply spec_send_at. Qed.

Lemma calm_activateCurrentTrack ev : calm activateCurrentTrack ev.
Proof. by apply (calm_send_at (fun s => currentTrackIdx (context s))). Qed.

Lemma calm_playCurrentTrack ev : calm playCurrentTrack ev.
Proof. by apply (calm_send_at (fun s => currentTrackIdx (context s))). Qed.

Lemma calm_pauseCurrentTrack ev : calm pauseCurrentTrack ev.
Proof. by apply (calm_send_at (fun s => currentTrackIdx (context s))). Qed.

Lemma calm_seekCurrentTrackToStart ev : calm seekCurrentTrackToStart ev.
Proof. by apply (calm_send_at (fun s => currentTrackIdx (context s))). Qed.

Lemma calm_loadCurrentTrack ev : calm loadCurrentTrack ev.
Proof. by apply (calm_send_at (fun s => currentTrackIdx (context s))). Qed.

Lemma calm_pauseAllTracks ev : calm pauseAllTracks ev.
Proof. intros s. by apply spec_send_all. Qed.

Lemma calm_seekCurrentTrack ev : calm seekCurrentTrack ev.
Proof.
  intros s. unfold seekCurrentTrack. destruct ev;
    first [ eexists; by apply spec_send_at | eexists; apply spec_refl ].
Qed.

Lemma calm_notifyStartNewTrack ev : calm notifyStartNewTrack ev.
Proof.
  intros s. unfold notifyStartNewTrack. eexists.
  destruct (onStartNewTrack (context s));
    [by apply spec_observe | apply spec_refl].
Qed.

Lemma calm_notifyEnded ev : calm notifyEnded ev.
Proof.
  intros s. unfold notifyEnded. eexists.
  destruct (onEnded (context s)); [by apply spec_observe | apply spec_refl].
Qed.

Lemma calm_setupMediaSession ev : calm setupMediaSession ev.
Proof. intros s. eexists. apply spec_refl. Qed.

Lemma calm_updateMediaSessionMetadata ev : calm updateMediaSessionMetadata ev.
Proof. intros s. eexists. apply spec_refl. Qed.

Lemma calm_updateMediaSessionPlaybackState ev :
  calm updateMediaSessionPlaybackState ev.
Proof. intros s. eexists. apply spec_refl. Qed.

Lemma calm_handleTrackLoaded ev : calm handleTrackLoaded ev.
Proof.
  intros s. unfold handleTrackLoaded. destruct ev;
    try (eexists; apply spec_refl).
  repeat case_match; eexists;
    first [ by apply spec_send_at | apply spec_refl ].
Qed.

Lemma calm_run_all acts ev :
  Forall (fun a => calm a ev) acts ->
  forall s, exists sent,
    step_spec s (run_all acts ev s) [] (currentTrackIdx (context s)) sent.
Proof.
  unfold run_all. induction 1 as [|a acts Ha _ IH]; intros s; simpl.
  - eexists. apply spec_refl.
  - destruct (Ha s) as (sent1 & H1). destruct (IH (a ev s)) as (sent2 & H2).
    exists (sent1 ++ sent2).
    destruct H1 as (A1 & A2 & A3 & A4 & A5). rewrite A4 in H2.
    pose proof (spec_trans _ _ _ _ _ _ _ _ _
                  (conj A1 (conj A2 (conj A3 (conj A4 A5)))) H2) as H.
    exact H.
Qed.

Lemma step_state_calm target acts ev s :
  on (state s) ev (context s) = Some (target, acts) ->
  Forall (fun a => calm a ev) acts ->
  state (step s ev) = default (state s) target /\
  mailbox (step s ev) = mailbox s /\
  refs (step s ev) = refs s /\
  currentTrackIdx (context (step s ev)) = currentTrackIdx (context s).
Proof.
  intros Hon Hc. unfold step. rewrite Hon.
  destruct (calm_run_all acts ev Hc s) as (sent & H1 & H2 & H3 & H4 & H5).
  rewrite app_nil_r in H3.
  destruct target; simpl; auto.
Qed.

Lemma queue_flush_nil fuel s : mailbox s = [] -> flush fuel s = s.
Proof. intros H. destruct fuel; simpl; [done | by rewrite H]. Qed.

Lemma queue_flush_cons fuel s ev rest :
  mailbox s = ev :: rest ->
  flush (S fuel) s = flush fuel (step (with_mailbox rest s) ev).
Proof. intros H. simpl. by rewrite H. Qed.

Lemma send_idle ev s :
  mailbox s = [] -> send ev s = flush 7 (step s ev).
Proof.
  intros H. destruct s. simpl in H. subst. reflexivity.
Qed.

(** *** GOTO and PLAY *)
Lemma goto_step s index playImmediately :
  let s' := step s (GOTO index playImmediately) in
  state s' = match state s with playing => playing | _ => paused end /\
  mailbox s' = mailbox s /\
  refs s' = refs s /\
  currentTrackIdx (context s') = index /\
  exists sent, sends_of (trace s') = sends_of (trace s) ++ sent.
Proof.
  set (ev := GOTO index playImmediately).
  assert (Hpre : exists sent1,
             step_spec s (updateCurrentTrackIdx ev (pauseAllTracks ev s))
                       [] index sent1).
  { destruct (calm_pauseAllTracks ev s) as (sent1 & H1).
    exists (sent1 ++ []).
    refine (spec_trans _ _ _ _ _ _ _ _ _ H1 _). apply spec_set_idx. }
  destruct Hpre as (sent1 & H1).
  assert (Hpost : forall acts, Forall (fun a => calm a ev) acts ->
            let s' := run_all (pauseAllTracks :: updateCurrentTrackIdx :: acts)
                              ev s in
            state s' = state s /\ mailbox s' = mailbox s /\
            refs s' = refs s /\ currentTrackIdx (context s') = index /\
            exists sent, sends_of (trace s') = sends_of (trace s) ++ sent).
  { intros acts Hc.
    destruct (calm_run_all acts ev Hc
                (updateCurrentTrackIdx ev (pauseAllTracks ev s)))
      as (sent2 & H2).
    pose proof (spec_trans _ _ _ _ _ _ _ _ _ H1 H2)
      as (A1 & A2 & A3 & A4 & A5).
    rewrite app_nil_r in A3. destruct H1 as (_ & _ & _ & B4 & _).
    rewrite B4 in A4. repeat split; eauto. }
  unfold step. destruct (state s) eqn:E; simpl on; cbv iota beta.
  - destruct (Hpost [seekCurrentTrackToStart; playCurrentTrack;
                     notifyStartNewTrack; loadCurrentTrack;
                     updateMediaSessionMetadata;
                     updateMediaSessionPlaybackState])
      as (A1 & A2 & A3 & A4 & A5);
      [repeat constructor; auto using calm_seekCurrentTrackToStart,
         calm_playCurrentTrack, calm_notifyStartNewTrack,
         calm_loadCurrentTrack, calm_updateMediaSessionMetadata,
         calm_updateMediaSessionPlaybackState|].
    repeat split; auto.
  - destruct (Hpost [seekCurrentTrackToStart; loadCurrentTrack;
                     updateMediaSessionMetadata])
      as (A1 & A2 & A3 & A4 & A5);
      [repeat constructor; auto using calm_seekCurrentTrackToStart,
         calm_loadCurrentTrack, calm_updateMediaSessionMetadata|].
    repeat split; auto.
  - destruct (Hpost [seekCurrentTrackToStart; playCurrentTrack;
                     notifyStartNewTrack; loadCurrentTrack;
                     updateMediaSessionMetadata;
                     updateMediaSessionPlaybackState])
      as (A1 & A2 & A3 & A4 & A5);
      [repeat constructor; auto using calm_seekCurrentTrackToStart,
         calm_playCurrentTrack, calm_notifyStartNewTrack,
         calm_loadCurrentTrack, calm_updateMediaSessionMetadata,
         calm_updateMediaSessionPlaybackState|].
    simpl. repeat split; auto.
Qed.

(** What [gotoTrack] does from an idle queue, whatever [playImmediately]
    says. *)
Lemma gotoTrack_spec s index playImmediately :
  mailbox s = [] ->
  let s' := Gapless.gotoTrack index playImmediately s in
  state s' = match state s with playing => playing | _ => paused end /\
  currentTrackIdx (context s') = index /\
  mailbox s' = [].
Proof.
  intros Hm. unfold Gapless.gotoTrack. rewrite send_idle by done.
  destruct (goto_step s index (Some playImmediately))
    as (A1 & A2 & A3 & A4 & A5).
  rewrite Hm in A2. rewrite queue_flush_nil by done. auto.
Qed.

(** *** Auto-advance *)
Lemma sent_at_refs s s' i ev : refs s' = refs s -> sent_at s' i ev = sent_at s i ev.
Proof. unfold sent_at. intros H. by rewrite (ref_at_refs _ _ _ H). Qed.

Lemma ref_at_beyond s i : len (trackActors (context s)) <= i -> ref_at s i = None.
Proof.
  intros H. unfold ref_at, at_index. destruct (0 <=? i) eqn:E; [|done].
  apply lookup_ge_None. rewrite <- len_refs in H. unfold len in H. lia.
Qed.

Lemma autoAdvanceToNext_spec ev s :
  let cur := currentTrackIdx (context s) in
  cur + 1 < len (trackActors (context s)) ->
  step_spec s (autoAdvanceToNext ev s) [] (cur + 1)
    (sent_at s cur Track.DEACTIVATE ++ sent_at s (cur + 1) Track.ACTIVATE ++
     sent_at s (cur + 1) Track.PLAY ++ sent_at s (cur + 1 + 1) Track.PRELOAD).
Proof.
  intros cur Hlt. unfold autoAdvanceToNext. fold cur.
  apply Z.ltb_lt in Hlt. rewrite Hlt.
  set (s1 := send_at cur Track.DEACTIVATE s).
  set (s2 := send_at (cur + 1) Track.ACTIVATE s1).
  set (s3 := send_at (cur + 1) Track.PLAY s2).
  set (s4 := if cur + 1 + 1 <? len (trackActors (context s))
             then send_at (cur + 1 + 1) Track.PRELOAD s3 else s3).
  pose proof (spec_send_at cur Track.DEACTIVATE s eq_refl) as H1. fold s1 in H1.
  pose proof (spec_send_at (cur + 1) Track.ACTIVATE s1 eq_refl) as H2.
  fold s2 in H2.
  pose proof (spec_send_at (cur + 1) Track.PLAY s2 eq_refl) as H3.
  fold s3 in H3.
  assert (R1 : refs s1 = refs s) by apply H1.
  assert (R2 : refs s2 = refs s) by (destruct H2 as (_ & -> & _); exact R1).
  assert (R3 : refs s3 = refs s) by (destruct H3 as (_ & -> & _); exact R2).
  assert (H4 : step_spec s3 s4 [] (currentTrackIdx (context s3))
                 (sent_at s (cur + 1 + 1) Track.PRELOAD)).
  { subst s4. destruct (cur + 1 + 1 <? len (trackActors (context s))) eqn:E.
    - pose proof (spec_send_at (cur + 1 + 1) Track.PRELOAD s3 eq_refl) as H4.
      fold (sent_at s3 (cur + 1 + 1) Track.PRELOAD) in H4.
      by rewrite (sent_at_refs _ _ _ _ R3) in H4.
    - apply Z.ltb_ge in E. unfold sent_at. rewrite ref_at_beyond by done.
      apply spec_refl. }
  fold (sent_at s cur Track.DEACTIVATE) in H1.
  fold (sent_at s1 (cur + 1) Track.ACTIVATE) in H2.
  fold (sent_at s2 (cur + 1) Track.PLAY) in H3.
  rewrite (sent_at_refs _ _ _ _ R1) in H2.
  rewrite (sent_at_refs _ _ _ _ R2) in H3.
  pose proof (spec_trans _ _ _ _ _ _ _ _ _
                (spec_trans _ _ _ _ _ _ _ _ _
                   (spec_trans _ _ _ _ _ _ _ _ _ H1 H2) H3) H4) as H.
  simpl in H. rewrite <- !app_assoc in H.
  clearbody s4. clear - H.
  assert (Hobs : forall (b : bool) os s0 mb i sent,
             sends_of os = [] -> step_spec s s0 mb i sent ->
             step_spec s (if b then observe os s0 else s0) mb i sent).
  { intros b os s0 mb i sent Hos (A1 & A2 & A3 & A4 & A5).
    destruct b; [|done]. unfold step_spec. simpl.
    by rewrite sends_of_app, Hos, app_nil_r. }
  set (s5 := if onPlayNextTrack (context s) then _ else s4).
  assert (H5 : step_spec s s5 [] (currentTrackIdx (context s3))
                 (sent_at s cur Track.DEACTIVATE ++
                  sent_at s (cur + 1) Track.ACTIVATE ++
                  sent_at s (cur + 1) Track.PLAY ++
                  sent_at s (cur + 1 + 1) Track.PRELOAD))
    by (by apply Hobs).
  clearbody s5.
  set (s6 := if onStartNewTrack (context s) then _ else s5).
  assert (H6 : step_spec s s6 [] (currentTrackIdx (context s3))
                 (sent_at s cur Track.DEACTIVATE ++
                  sent_at s (cur + 1) Track.ACTIVATE ++
                  sent_at s (cur + 1) Track.PLAY ++
                  sent_at s (cur + 1 + 1) Track.PRELOAD))
    by (by apply Hobs).
  clearbody s6. destruct H6 as (A1 & A2 & A3 & A4 & A5).
  rewrite app_nil_r in A3.
  unfold step_spec. repeat split; simpl; rewrite ?app_nil_r; try done.
  rewrite sends_of_app. simpl. by rewrite app_nil_r.
Qed.

(** ** The actor at a position *)
Lemma send_to_actor_ne i j ev s :
  i <> j ->
  trackActors (context (send_to i ev s)) !! j = trackActors (context s) !! j.
Proof.
  intros Hne. unfold send_to.
  destruct (trackActors (context s) !! i) as [a|] eqn:Ha; [|done].
  destruct (processing a); simpl; by rewrite list_lookup_insert_ne.
Qed.

Lemma send_to_actor_idle i ev s a :
  trackActors (context s) !! i = Some a -> processing a = false ->
  trackActors (context (send_to i ev s)) !! i =
  Some {| ref := ref a; processing := false; pending := pending a;
          track := Track.machine (Track.send (world s) (track a) ev) |}.
Proof.
  intros Ha Hp. unfold send_to. rewrite Ha, Hp. simpl.
  apply list_lookup_insert_eq. by eapply lookup_lt_Some.
Qed.

Lemma send_to_actor_busy i ev s a :
  trackActors (context s) !! i = Some a -> processing a = true ->
  trackActors (context (send_to i ev s)) !! i =
  Some {| ref := ref a; processing := true; pending := pending a ++ [ev];
          track := track a |}.
Proof.
  intros Ha Hp. unfold send_to. rewrite Ha, Hp. simpl.
  apply list_lookup_insert_eq. by eapply lookup_lt_Some.
Qed.

Lemma send_at_actor_ne i j ev s :
  i <> j ->
  at_index (trackActors (context (send_at i ev s))) j =
  at_index (trackActors (context s)) j.
Proof.
  intros Hne. unfold send_at, at_index.
  destruct (0 <=? i) eqn:Ei; [|done]. destruct (0 <=? j) eqn:Ej; [|done].
  apply send_to_actor_ne. lia.
Qed.

Lemma send_at_actor_idle i ev s a :
  at_index (trackActors (context s)) i = Some a -> processing a = false ->
  at_index (trackActors (context (send_at i ev s))) i =
  Some {| ref := ref a; processing := false; pending := pending a;
          track := Track.machine (Track.send (world s) (track a) ev) |}.
Proof.
  unfold send_at, at_index. destruct (0 <=? i); [|discriminate].
  apply send_to_actor_idle.
Qed.

Lemma send_at_actor_busy i ev s a :
  at_index (trackActors (context s)) i = Some a -> processing a = true ->
  at_index (trackActors (context (send_at i ev s))) i =
  Some {| ref := ref a; processing := true; pending := pending a ++ [ev];
          track := track a |}.
Proof.
  unfold send_at, at_index. destruct (0 <=? i); [|discriminate].
  apply send_to_actor_busy.
Qed.

(** What auto-advance does to the actors themselves. *)
Lemma autoAdvanceToNext_actors ev s a_cur a_next :
  let cur := currentTrackIdx (context s) in
  at_index (trackActors (context s)) cur = Some a_cur ->
  at_index (trackActors (context s)) (cur + 1) = Some a_next ->
  let s' := autoAdvanceToNext ev s in
  (exists a',
      at_index (trackActors (context s')) cur = Some a' /\
      ref a' = ref a_cur /\
      if processing a_cur
      then pending a' = pending a_cur ++ [Track.DEACTIVATE]
      else (Track.playback (Track.value (track a')) = Track.paused /\
            Track.audio (Track.context (track a')) = None /\
            Track.bufferSourceNode (Track.context (track a')) = None)) /\
  (processing a_next = false ->
   exists a',
     at_index (trackActors (context s')) (cur + 1) = Some a' /\
     ref a' = ref a_next /\
     Track.playback (Track.value (track a')) = Track.playing).
Proof.
  intros cur Hcur Hnext s'. subst s'. unfold autoAdvanceToNext. fold cur.
  assert (Hlt : (cur + 1 <? len (trackActors (context s))) = true).
  { apply Z.ltb_lt. apply at_index_Some in Hnext. lia. }
  rewrite Hlt.
  set (s1 := send_at cur Track.DEACTIVATE s).
  set (s2 := send_at (cur + 1) Track.ACTIVATE s1).
  set (s3 := send_at (cur + 1) Track.PLAY s2).
  assert (Hcur3 : exists a',
    at_index (trackActors (context s3)) cur = Some a' /\
    ref a' = ref a_cur /\
    if processing a_cur
    then pending a' = pending a_cur ++ [Track.DEACTIVATE]
    else (Track.playback (Track.value (track a')) = Track.paused /\
          Track.audio (Track.context (track a')) = None /\
          Track.bufferSourceNode (Track.context (track a')) = None)).
  { unfold s3, s2. rewrite !send_at_actor_ne by lia. unfold s1.
    destruct (processing a_cur) eqn:Hp.
    - rewrite (send_at_actor_busy _ _ _ _ Hcur Hp). eexists. split; [done|].
      simpl. auto.
    - rewrite (send_at_actor_idle _ _ _ _ Hcur Hp). eexists. split; [done|].
      simpl. split; [done|].
      destruct (send_DEACTIVATE_releases (world s) (track a_cur))
        as (H1 & H2 & H3 & _). auto. }
  assert (Hnext3 : processing a_next = false -> exists a',
    at_index (trackActors (context s3)) (cur + 1) = Some a' /\
    ref a' = ref a_next /\
    Track.playback (Track.value (track a')) = Track.playing).
  { intros Hp.
    assert (H1 : at_index (trackActors (context s1)) (cur + 1) = Some a_next).
    { unfold s1. rewrite send_at_actor_ne by lia. exact Hnext. }
    pose proof (send_at_actor_idle _ Track.ACTIVATE _ _ H1 Hp) as H2.
    fold s2 in H2.
    pose proof (send_at_actor_idle _ Track.PLAY _ _ H2 eq_refl) as H3.
    fold s3 in H3. rewrite H3. eexists. split; [done|]. simpl.
    split; [done|]. apply send_PLAY_plays. }
  clearbody s3.
  destruct (onPlayNextTrack (context s)), (onStartNewTrack (context s)),
    (cur + 1 + 1 <? len (trackActors (context s)));
    cbn [trackActors context with_context observe set_currentTrackIdx];
    rewrite ?send_at_actor_ne by lia; auto.
Qed.

(** *** Previous *)
Lemma previous_restart_spec s :
  Qle_bool (current_position (context s)) 8 = false ->
  let cur := currentTrackIdx (context s) in
  step_spec s (playPrevious PREVIOUS s) [] cur (sent_at s cur (Track.SEEK 0)) /\
  step_spec s (gotoPrevious PREVIOUS s) [] cur (sent_at s cur (Track.SEEK 0)).
Proof.
  intros H cur. unfold playPrevious, gotoPrevious. rewrite H. simpl.
  split; by apply spec_send_at.
Qed.

Lemma previous_move_spec s :
  Qle_bool (current_position (context s)) 8 = true ->
  let cur := currentTrackIdx (context s) in
  let prevIdx := Z.max 0 (cur - 1) in
  step_spec s (playPrevious PREVIOUS s) [GOTO prevIdx None; PLAY] cur
            (sent_at s cur Track.DEACTIVATE) /\
  step_spec s (gotoPrevious PREVIOUS s) [GOTO prevIdx None] cur
            (sent_at s cur Track.DEACTIVATE).
Proof.
  intros H cur prevIdx. unfold playPrevious, gotoPrevious. rewrite H. simpl.
  fold cur. fold prevIdx.
  pose proof (spec_send_at cur Track.DEACTIVATE s eq_refl)
    as (A1 & A2 & A3 & A4 & A5).
  rewrite app_nil_r in A3. fold (sent_at s cur Track.DEACTIVATE) in A5.
  split; destruct (onPlayPreviousTrack (context s)); unfold step_spec; simpl;
    rewrite ?sends_of_app, A3, A5; simpl; rewrite <- ?app_assoc, ?app_nil_r;
    auto.
Qed.

(** *** Removing a track *)
Lemma findIndex_Some actors r index :
  findIndex actors r = Some index ->
  (exists a, actors !! index = Some a /\ ref a = r) /\
  forall j a, (j < index)%nat -> actors !! j = Some a -> ref a <> r.
Proof.
  unfold findIndex. intros H.
  destruct (list_find (fun a => ref a = r) actors) as [[i a]|] eqn:E;
    [|discriminate].
  simpl in H. injection H as <-.
  apply list_find_Some in E as (H1 & H2 & H3). split; [eauto|].
  intros j b Hj Hb. by eapply H3.
Qed.

(** *** The mailbox empties *)
Ltac calm_list :=
  repeat constructor;
  auto using calm_activateCurrentTrack, calm_playCurrentTrack,
    calm_pauseCurrentTrack, calm_seekCurrentTrackToStart,
    calm_loadCurrentTrack, calm_pauseAllTracks, calm_seekCurrentTrack,
    calm_notifyStartNewTrack, calm_notifyEnded, calm_setupMediaSession,
    calm_updateMediaSessionMetadata, calm_updateMediaSessionPlaybackState,
    calm_handleTrackLoaded.

Lemma next_mailbox s :
  (mailbox (playNext NEXT s) = mailbox s \/
   exists i, mailbox (playNext NEXT s) = mailbox s ++ [GOTO i None; PLAY]) /\
  (mailbox (gotoNext NEXT s) = mailbox s \/
   exists i, mailbox (gotoNext NEXT s) = mailbox s ++ [GOTO i None]).
Proof.
  unfold playNext, gotoNext.
  destruct (_ <? _), (onPlayNextTrack (context s)); simpl;
    rewrite ?send_at_mailbox by done; rewrite <- ?app_assoc; simpl;
    split; eauto.
Qed.

Lemma play_step_mailbox s : mailbox (step s PLAY) = mailbox s.
Proof.
  destruct (state s) eqn:E.
  - unfold step. by rewrite E.
  - eapply (step_state_calm (Some playing)); [by rewrite E | calm_list].
  - unfold step. rewrite E. simpl on. cbv iota beta.
    assert (Hc : Forall (fun a => calm a PLAY)
              [activateCurrentTrack; playCurrentTrack; notifyStartNewTrack;
               updateMediaSessionMetadata; updateMediaSessionPlaybackState])
      by calm_list.
    destruct (calm_run_all _ PLAY Hc (resetToFirstTrack PLAY s))
      as (sent & _ & _ & A3 & _).
    rewrite app_nil_r in A3. exact A3.
Qed.

Lemma step_mailbox s ev : mailbox s = [] -> short (mailbox (step s ev)).
Proof.
  intros Hm.
  assert (Hcalm : forall target acts,
            on (state s) ev (context s) = Some (target, acts) ->
            Forall (fun a => calm a ev) acts -> short (mailbox (step s ev))).
  { intros target acts Hon Hc.
    destruct (step_state_calm target acts ev s Hon Hc) as (_ & -> & _).
    left. exact Hm. }
  assert (Hplain : step s ev = s -> short (mailbox (step s ev))).
  { intros ->. by left. }
  destruct ev.
  - (* PLAY *) left. by rewrite play_step_mailbox.
  - (* PAUSE *)
    destruct (state s) eqn:E;
      [eapply Hcalm; [reflexivity | calm_list] | | ];
      apply Hplain; unfold step; by rewrite E.
  - (* NEXT *)
    destruct (next_mailbox s) as [H1 H2]. rewrite Hm in H1, H2.
    destruct (state s) eqn:E; unfold step; rewrite E; simpl on;
      cbn [run_all fold_left root_on].
    + destruct H1 as [->|(i & ->)]; [by left|]. right; right; eauto.
    + destruct H2 as [->|(i & ->)]; [by left|]. right; left; eauto.
    + by left.
  - (* PREVIOUS *)
    destruct (state s) eqn:E; unfold step; rewrite E; simpl on;
      cbn [run_all fold_left root_on]; [| |by left];
      destruct (Qle_bool (current_position (context s)) 8) eqn:Hq.
    + destruct (previous_move_spec s Hq) as [(_ & _ & H & _) _].
      rewrite H, Hm. right; right; eauto.
    + destruct (previous_restart_spec s Hq) as [(_ & _ & H & _) _].
      rewrite H, Hm. by left.
    + destruct (previous_move_spec s Hq) as [_ (_ & _ & H & _)].
      rewrite H, Hm. right; left; eauto.
    + destruct (previous_restart_spec s Hq) as [_ (_ & _ & H & _)].
      rewrite H, Hm. by left.
  - (* GOTO *)
    destruct (goto_step s index playImmediately) as (_ & H & _).
    left. by rewrite H.
  - (* TRACK_ENDED *)
    destruct (state s) eqn:E; [| apply Hplain; unfold step; by rewrite E ..].
    destruct (isLastTrack (context s)) eqn:Hl.
    + eapply Hcalm; [simpl; rewrite Hl; reflexivity | calm_list].
    + unfold step. rewrite E. simpl on. rewrite Hl.
      cbn [run_all fold_left].
      destruct (autoAdvanceToNext_spec TRACK_ENDED s) as (_ & _ & H & _).
      { unfold isLastTrack in Hl. apply Z.leb_gt in Hl. lia. }
      rewrite H, Hm. by left.
  - (* TRACK_LOADED *)
    destruct (state s) eqn:E; eapply Hcalm; first [reflexivity | calm_list].
  - (* SEEK *)
    destruct (state s) eqn:E;
      [eapply Hcalm; [reflexivity | calm_list] ..
      | apply Hplain; unfold step; by rewrite E ].
  - (* SET_VOLUME *)
    left. unfold step. destruct (state s); simpl; exact Hm.
  - (* ADD_TRACK *)
    left. unfold step. destruct (state s); simpl; exact Hm.
  - (* REMOVE_TRACK *)
    left. unfold step, removeTrack.
    destruct (state s); simpl; repeat case_match; simpl; exact Hm.
  - (* INTERNAL_UPDATE_MEDIA_SESSION *)
    left. unfold step. destruct (state s); simpl; exact Hm.
  - (* XSTATE_INIT *)
    left. unfold step. destruct (state s); simpl; exact Hm.
Qed.

(** An idle queue that is sent an event is idle again when [send]
    returns: the fuel of [flush] is never used up. *)
Lemma send_settles ev s : mailbox s = [] -> mailbox (send ev s) = [].
Proof.
  intros Hm. rewrite send_idle by done.
  destruct (step_mailbox s ev Hm) as [H|[(i & b & H)|(i & b & H)]].
  - by rewrite queue_flush_nil.
  - rewrite (queue_flush_cons _ _ _ _ H).
    destruct (goto_step (with_mailbox [] (step s ev)) i b) as (_ & H2 & _).
    by rewrite queue_flush_nil.
  - rewrite (queue_flush_cons _ _ _ _ H).
    destruct (goto_step (with_mailbox [PLAY] (step s ev)) i b)
      as (_ & H2 & _).
    simpl in H2. rewrite (queue_flush_cons _ _ _ _ H2).
    rewrite queue_flush_nil; rewrite play_step_mailbox; reflexivity.
Qed.

(** *** The end of the queue *)
(** What the queue itself does when the current track is the last one. *)
Lemma track_end_on_the_last_track s :
  state s = playing -> isLastTrack (context s) = true ->
  let s' := step s TRACK_ENDED in
  state s' = ended /\
  context s' = context s /\
  trace s' = trace s ++ (if onEnded (context s) then [CallOnEnded] else []).
Proof.
  intros Hst Hlast. unfold step. rewrite Hst. simpl on. rewrite Hlast.
  cbn [run_all fold_left]. unfold notifyEnded.
  destruct (onEnded (context s)); simpl; rewrite ?app_nil_r; auto.
Qed.

Lemma play_after_the_end s :
  mailbox s = [] -> state s = ended ->
  state (Gapless.play s) = playing /\
  currentTrackIdx (context (Gapless.play s)) = 0.
Proof.
  intros Hm Hst. unfold Gapless.play. rewrite send_idle by done.
  assert (Hcalm : Forall (fun a => calm a PLAY)
            [activateCurrentTrack; playCurrentTrack; notifyStartNewTrack;
             updateMediaSessionMetadata; updateMediaSessionPlaybackState]).
  { repeat constructor; auto using calm_activateCurrentTrack,
      calm_playCurrentTrack, calm_notifyStartNewTrack,
      calm_updateMediaSessionMetadata, calm_updateMediaSessionPlaybackState. }
  destruct (calm_run_all _ PLAY Hcalm (resetToFirstTrack PLAY s))
    as (sent & A1 & A2 & A3 & A4 & A5).
  rewrite app_nil_r in A3. simpl in A3, A4. rewrite Hm in A3.
  assert (Hstep : step s PLAY =
            with_state playing
              (run_all [activateCurrentTrack; playCurrentTrack;
                        notifyStartNewTrack; updateMediaSessionMetadata;
                        updateMediaSessionPlaybackState] PLAY
                 (resetToFirstTrack PLAY s))).
  { unfold step. rewrite Hst. reflexivity. }
  rewrite Hstep, queue_flush_nil by exact A3. simpl. auto.
Qed.

End QueueFacts.

(** * Claims about the queue machine *)

Module QueueClaims.
Import Queue Spec QueueFacts.

(** C1 (what the code does): [gotoTrack(1, true)] on a player that is
    paused leaves the queue [paused]; on a player whose queue has ended
    it takes the queue to [paused]; only a queue that is playing is
    playing afterwards.  The index is 1 in the three cases. *)
Theorem C1_gotoTrack_ignores_playImmediately :
  state player3 = paused /\
  state (Gapless.gotoTrack 1 true player3) = paused /\
  currentTrackIdx (context (Gapless.gotoTrack 1 true player3)) = 1 /\
  state player3_ended = ended /\
  state (Gapless.gotoTrack 1 true player3_ended) = paused /\
  currentTrackIdx (context (Gapless.gotoTrack 1 true player3_ended)) = 1 /\
  state (Gapless.play player3) = playing /\
  state (Gapless.gotoTrack 1 true (Gapless.play player3)) = playing /\
  currentTrackIdx (context (Gapless.gotoTrack 1 true (Gapless.play player3)))
    = 1.
Proof. vm_compute. repeat split; reflexivity. Qed.

(** C2 (what the code does): when the last track of a playing queue
    ends, the queue goes to [ended], and the [onEnded] function of the
    options is called twice: by the queue in [notifyEnded], and by the
    track itself in [handleEnded], which was handed the same function.  A
    [play()] after that takes the queue back to [playing] at index 0. *)
Theorem C2_last_track_end_calls_onEnded_twice :
  state player3_on_last = playing /\
  currentTrackIdx (context player3_on_last) = 2 /\
  state player3_ended = ended /\
  since player3_on_last player3_ended =
    [TrackEffect 2 (Track.CancelAnimationFrame 1);
     TrackEffect 2 (Track.CallOnTrackEnded 2);
     CallOnEnded;
     TrackEffect 2 Track.CallOnEnded] /\
  onEnded_calls (since player3_on_last player3_ended) = 2%nat /\
  state (Gapless.play player3_ended) = playing /\
  currentTrackIdx (context (Gapless.play player3_ended)) = 0.
Proof. vm_compute. repeat split; reflexivity. Qed.

(** C5 (what the code does): in every state the queue clamps the volume
    to [0,1] and stores it in its own context, and that is all: no track
    actor changes, nothing is sent to any track, nothing happens in the
    browser. *)
Theorem C5_queue_volume_is_not_propagated :
  forall s v,
    let s' := step s (SET_VOLUME v) in
    volume (context s') = Math_max 0 (Math_min 1 v) /\
    trackActors (context s') = trackActors (context s) /\
    trace s' = trace s /\ world s' = world s /\ mailbox s' = mailbox s.
Proof.
  intros s v. unfold step. destruct (state s); simpl; repeat split.
Qed.

(** C6 (amended): removing a track from a queue whose index is in bounds
    finds the actor by identity and splices it and its URL out; the index
    becomes [length - 2] exactly when it pointed at the last track and was
    positive, that is it is decremented by one then, and stays as it is
    otherwise; it never goes below 0 and is within the remaining tracks
    whenever some remain; the playback state is untouched. *)
Theorem C6_remove_keeps_the_index_in_bounds :
  forall s track index,
    let cur := currentTrackIdx (context s) in
    let n := len (trackActors (context s)) in
    let s' := step s (REMOVE_TRACK track) in
    let cur' := currentTrackIdx (context s') in
    findIndex (trackActors (context s)) track = Some index ->
    index_in_bounds (context s) ->
    (exists a, trackActors (context s) !! index = Some a /\ ref a = track) /\
    trackActors (context s') = delete index (trackActors (context s)) /\
    tracks (context s') = delete index (tracks (context s)) /\
    len (trackActors (context s')) = n - 1 /\
    cur' = (if (n - 1 <=? cur) && (0 <? cur) then n - 2 else cur) /\
    (cur = n - 1 /\ 0 < cur -> cur' = cur - 1) /\
    (cur < n - 1 \/ cur = 0 -> cur' = cur) /\
    0 <= cur' /\
    (0 < len (trackActors (context s')) ->
     cur' < len (trackActors (context s'))) /\
    state s' = state s.
Proof.
  intros s track index cur n s' cur' Hfind [Hlo Hhi].
  destruct (findIndex_Some _ _ _ Hfind) as [(a & Ha & Hr) _].
  assert (Hlen : len (delete index (trackActors (context s))) = n - 1).
  { unfold len. rewrite length_delete by eauto.
    apply lookup_lt_Some in Ha. subst n. unfold len. lia. }
  assert (Hs' : s' = with_context
                  (fun c => set_currentTrackIdx
                     (if (n - 1 <=? cur) && (0 <? cur) then n - 1 - 1 else cur)
                     (set_trackActors (delete index (trackActors (context s)))
                        (set_tracks (delete index (tracks (context s))) c)))
                  s).
  { subst s'. unfold step. destruct (state s) eqn:E; simpl on;
      cbn [run_all fold_left]; unfold removeTrack; rewrite Hfind;
      fold n; fold cur; destruct s; simpl in *; subst; reflexivity. }
  subst cur'. rewrite Hs'. simpl. fold n in Hhi. fold cur in Hlo, Hhi.
  split; [eauto|]. split; [reflexivity|]. split; [reflexivity|].
  split; [exact Hlen|].
  destruct (n - 1 <=? cur) eqn:E1; destruct (0 <? cur) eqn:E2; simpl;
    try apply Z.leb_le in E1; try apply Z.leb_gt in E1;
    try apply Z.ltb_lt in E2; try apply Z.ltb_ge in E2;
    rewrite ?Hlen; repeat split; intros; lia.
Qed.

Lemma C6_witness :
  findIndex (trackActors (context (Gapless.gotoTrack 2 false player3))) 0
    = Some 0%nat /\
  index_in_bounds (context (Gapless.gotoTrack 2 false player3)) /\
  currentTrackIdx
    (context (step (Gapless.gotoTrack 2 false player3) (REMOVE_TRACK 0))) = 1.
Proof.
  assert (H1 : findIndex
                 (trackActors (context (Gapless.gotoTrack 2 false player3))) 0
               = Some 0%nat) by (vm_compute; reflexivity).
  assert (H2 : index_in_bounds (context (Gapless.gotoTrack 2 false player3)))
    by (vm_compute; split; [discriminate | reflexivity]).
  split; [exact H1|]. split; [exact H2|].
  destruct (C6_remove_keeps_the_index_in_bounds _ _ _ H1 H2)
    as (_ & _ & _ & _ & H & _).
  rewrite H. vm_compute. reflexivity.
Defined.

(** The claim as stated fails on the scenario of the specification: in
    [[A; B; C]] with the index on [B], removing [B] (an index at or before
    the current one) leaves the index at 1, now on [C]; removing [A]
    instead leaves it at 1 as well. *)
Lemma C6_index_is_not_decremented :
  let s := Gapless.gotoTrack 1 false player3 in
  refs s = [0; 1; 2]%nat /\
  currentTrackIdx (context s) = 1 /\
  refs (Gapless.removeTrack 1 s) = [0; 2]%nat /\
  currentTrackIdx (context (Gapless.removeTrack 1 s)) = 1 /\
  refs (Gapless.removeTrack 0 s) = [1; 2]%nat /\
  currentTrackIdx (context (Gapless.removeTrack 0 s)) = 1 /\
  currentTrackIdx (context (Gapless.removeTrack 1 s))
    <> currentTrackIdx (context s) - 1.
Proof. vm_compute. repeat split; try reflexivity; discriminate. Qed.




(** C10: in every state of the queue ([playing], [paused], [ended]) the
    events [SET_VOLUME], [ADD_TRACK], [REMOVE_TRACK] and [TRACK_LOADED]
    are handled by transitions without target, and handling one leaves the
    playback state of the queue as it was. *)
Theorem C10_bookkeeping_events_keep_the_playback_state :
  forall s,
    (forall volume, state (step s (SET_VOLUME volume)) = state s) /\
    (forall trackUrl skipHEAD metadata,
        state (step s (ADD_TRACK trackUrl skipHEAD metadata)) = state s) /\
    (forall track, state (step s (REMOVE_TRACK track)) = state s) /\
    (forall trackIndex, state (step s (TRACK_LOADED trackIndex)) = state s) /\
    (forall st c volume trackUrl skipHEAD metadata track trackIndex,
        fst <$> on st (SET_VOLUME volume) c = Some None /\
        fst <$> on st (ADD_TRACK trackUrl skipHEAD metadata) c = Some None /\
        fst <$> on st (REMOVE_TRACK track) c = Some None /\
        fst <$> on st (TRACK_LOADED trackIndex) c = Some None).
Proof.
  intros s. repeat split.
  - intros v. unfold step. destruct (state s) eqn:E; simpl; exact E.
  - intros u k md. unfold step. destruct (state s) eqn:E; simpl; exact E.
  - intros r. unfold step, removeTrack.
    destruct (state s) eqn:E; simpl; repeat case_match; simpl; exact E.
  - intros i. unfold step.
    destruct (state s) eqn:E; simpl; unfold handleTrackLoaded;
      repeat case_match; rewrite ?send_at_state; exact E.
  - by destruct st.
  - by destruct st.
  - by destruct st.
  - by destruct st.
Qed.

End QueueClaims.

(** * Further properties of the track machine *)

Module TrackProps.
Import Track Spec Props TrackFacts NodeFacts LoadFacts CommandFacts.

Lemma clamp01_bounds v : (0 <= clamp01 v <= 1)%Q.
Proof.
  unfold clamp01, Math_max, Math_min.
  destruct (Qle_bool 1 v) eqn:E1.
  - destruct (Qle_bool 0 1) eqn:E2; [lra | discriminate].
  - destruct (Qle_bool 0 v) eqn:E2.
    + apply Qle_bool_iff in E2.
      assert (~ (1 <= v)%Q) by (rewrite <- Qle_bool_iff; congruence). lra.
    + lra.
Qed.

(** X1: [SET_VOLUME v] sent to a track, whatever its state: the
    volume is clamped to [0,1] and the clamped value is stored in the
    context, written to the media element if there is one and to the gain
    node if there is one; the state, the position, the buffer and the
    buffer source node stay as they are and nothing else happens. *)
Theorem set_volume_clamps_and_reaches_both_backends w m v :
  let o := send w m (SET_VOLUME v) in
  let c := context m in
  let c' := context (machine o) in
  (0 <= clamp01 v <= 1)%Q /\
  volume c' = clamp01 v /\
  audio_volume <$> audio c' = (fun _ => clamp01 v) <$> audio c /\
  gain_value <$> gainNode c' = (fun _ => clamp01 v) <$> gainNode c /\
  value (machine o) = value m /\
  currentTime c' = currentTime c /\
  bufferSourceNode c' = bufferSourceNode c /\
  audioBuffer c' = audioBuffer c /\
  out_effects o = [] /\ out_world o = w /\ out_pending o = [].
Proof.
  cbv zeta. split; [apply clamp01_bounds|].
  destruct m as [[s p] c]. destruct c. simpl.
  destruct s, p, audio0, gainNode0; simpl; repeat split; reflexivity.
Qed.


(** Invariants of the context along the life of a track. *)
Lemma flush_invariant (P : Machine -> Prop) :
  (forall w m ev, P m -> P (machine (step w m ev))) ->
  forall fuel w m mb done, P m -> P (machine (flush fuel w m mb done)).
Proof.
  intros Hstep fuel. induction fuel as [|fuel IH]; intros w m mb done Hm.
  - by destruct mb.
  - destruct mb as [|ev rest]; [exact Hm|]. simpl. apply IH, Hstep, Hm.
Qed.

Lemma live_invariant (P : Machine -> Prop) w avail input xs :
  P (initial avail input) ->
  (forall w m ev, P m -> P (machine (step w m ev))) ->
  (forall m p d b, P m -> P (report_media p d b m)) ->
  P (life_machine (live w avail input xs)).
Proof.
  intros H0 Hstep Hmedia. unfold live.
  set (l0 := {| life_world := w; life_machine := initial avail input;
                life_effects := [] |}).
  assert (Hl0 : P (life_machine l0)) by exact H0.
  clearbody l0. revert l0 Hl0.
  induction xs as [|x xs IH]; intros l0 Hl0; [exact Hl0|].
  simpl. apply IH. destruct x; simpl; auto.
  unfold send. by apply flush_invariant.
Qed.

Lemma volume_applied_action ev a r :
  a ∈ actions_for ev ->
  volume_applied (ctx r) -> volume_applied (ctx (a ev r)).
Proof.
  intros Ha. destruct r as [c w es sn]. destruct c.
  unfold volume_applied. simpl. intros [H1 H2].
  destruct ev; unfold actions_for in Ha; members Ha.
  all: unfold_actions; simpl; repeat case_match; simpl;
    split; intros x Hx; simplify_eq/=; eauto.
Qed.

Lemma volume_applied_step w m ev :
  volume_applied (context m) ->
  volume_applied (context (machine (step w m ev))).
Proof.
  intros H. unfold step. simpl.
  apply (step_preserves (fun r => volume_applied (ctx r))); [|exact H].
  intros a r Ha Hr. by apply volume_applied_action.
Qed.

(** X2: at every moment of the life of a track, the media element
    it holds and the gain node it holds carry the volume stored in its
    context. *)
Theorem the_volume_reaches_the_element_and_the_gain_node :
  forall w avail input xs,
    let c := context (life_machine (live w avail input xs)) in
    (forall a, audio c = Some a -> audio_volume a = volume c) /\
    (forall g, gainNode c = Some g -> gain_value g = volume c).
Proof.
  intros w avail input xs. cbv zeta.
  apply (live_invariant (fun m => volume_applied (context m))).
  - split; intros x Hx; discriminate Hx.
  - intros w' m ev. apply volume_applied_step.
  - intros m p d b [H1 H2]. split; simpl.
    + intros a Ha. destruct (audio (context m)) as [a0|] eqn:E;
        [|discriminate]. simpl in Ha. injection Ha as <-. simpl. by apply H1.
    + exact H2.
Qed.

Lemma step_sends_internal w m ev :
  Forall (fun e => internal e = true) (sent_of (out_effects (step w m ev))).
Proof.
  destruct (quiet ev) eqn:Hq; [by apply step_silent|].
  rewrite step_mute; [constructor| |]; intros ->; discriminate.
Qed.

(** X3: a track sends itself at most one event per transition,
    always [LOAD_WEBAUDIO] or [SWITCH_TO_WEBAUDIO], and handling one of
    those sends nothing: an event sent to an idle track is over after two
    transitions at most, with nothing left in the mailbox. *)
Theorem a_track_settles_after_two_transitions :
  forall w m ev,
    (length (sent_of (out_effects (step w m ev))) <= 1)%nat /\
    Forall (fun e => internal e = true)
           (sent_of (out_effects (step w m ev))) /\
    (internal ev = true -> sent_of (out_effects (step w m ev)) = []) /\
    out_pending (send w m ev) = [].
Proof.
  intros w m ev. split; [apply step_sends_at_most_one|].
  split; [apply step_sends_internal|].
  split; [|apply send_completes].
  intros Hi. apply step_mute; intros ->; discriminate.
Qed.

Lemma may_call_action ev a r :
  a ∈ actions_for ev ->
  Forall (fun e => may_call ev e = true) (effects r) ->
  Forall (fun e => may_call ev e = true) (effects (a ev r)).
Proof.
  intros Ha H.
  destruct ev; unfold actions_for in Ha; members Ha.
  all: unfold_actions; repeat case_match; simpl;
    rewrite ?Forall_app; repeat split; auto; repeat constructor.
Qed.

Lemma may_call_step w m ev :
  Forall (fun e => may_call ev e = true) (out_effects (step w m ev)).
Proof.
  unfold step. simpl.
  apply (step_preserves
           (fun r => Forall (fun e => may_call ev e = true) (effects r))).
  - intros a r Ha Hr. by apply may_call_action.
  - constructor.
Qed.

Lemma may_call_internal e ev x :
  internal e = true -> may_call e x = true -> may_call ev x = true.
Proof. destruct e; try discriminate; intros _; destruct x; simpl; congruence. Qed.

(** X4: a track calls [onTrackEnded] and [onEnded] only while
    handling [ENDED], [onTrackLoaded] only while handling
    [WEBAUDIO_LOADED] and [onProgress] only while handling [PROGRESS]; a
    paused track ignores [ENDED] and [PROGRESS] altogether, and a track
    that is not loading ignores [WEBAUDIO_LOADED]. *)
Theorem a_track_calls_back_only_on_the_matching_event :
  forall w m ev,
    Forall (fun e => may_call ev e = true) (out_effects (send w m ev)) /\
    (playback (value m) = paused ->
     send w m ENDED = at_rest w m /\ send w m PROGRESS = at_rest w m) /\
    (audioSource (value m) <> loadingWebAudio ->
     forall b, send w m (WEBAUDIO_LOADED b) = at_rest w m).
Proof.
  intros w m ev. split; [|split].
  - rewrite send_unfold.
    pose proof (may_call_step w m ev) as H1.
    pose proof (step_sends_internal w m ev) as Hi.
    destruct (sent_of (out_effects (step w m ev))) as [|e l];
      [by rewrite TrackFacts.flush_nil|].
    inversion Hi as [|? ? He _]; subst.
    rewrite flush_one, flush_zero_effects. apply Forall_app. split; [exact H1|].
    eapply Forall_impl; [apply may_call_step|].
    intros x Hx. by eapply may_call_internal.
  - intros Hp. destruct m as [[s p] c]. simpl in Hp. subst p.
    split; destruct s; reflexivity.
  - intros Hs b. destruct m as [[s p] c]. simpl in Hs.
    destruct s, p; try reflexivity; congruence.
Qed.

Ltac has_block :=
  first [ by eexists [], _ | by eexists [_], _ | by eexists [_; _], _
        | by eexists [_; _; _], _ | by eexists [_; _; _; _], _
        | by eexists [_; _; _; _; _], _ ].

(** X5: [DEACTIVATE] sent to a track, whatever its state: the
    track ends paused, on the streaming side unless it was loading, with
    no media element, no buffer source node and no frame request; the
    node it held is detached, stopped and disconnected in that order, the
    element it held is paused and the frame request it held is cancelled;
    the decoded buffer, the gain node and the volume are kept, no node is
    started and no callback is called. *)
Theorem deactivate_releases_the_backends_and_keeps_the_buffer :
  forall w m,
    let o := send w m DEACTIVATE in
    let c := context m in
    let c' := context (machine o) in
    playback (value (machine o)) = paused /\
    audioSource (value (machine o)) =
      match audioSource (value m) with webaudio => html | s => s end /\
    audio c' = None /\
    bufferSourceNode c' = None /\
    progressAnimationFrame c' = None /\
    audioBuffer c' = audioBuffer c /\
    gainNode c' = gainNode c /\
    volume c' = volume c /\
    (forall n, bufferSourceNode c = Some n ->
               exists pre post,
                 out_effects o =
                   pre ++ [NodeClearOnended n; NodeStop n; NodeDisconnect n]
                       ++ post) /\
    (forall a, audio c = Some a -> AudioPause ∈ out_effects o) /\
    (forall f, progressAnimationFrame c = Some f ->
               CancelAnimationFrame f ∈ out_effects o) /\
    started (out_effects o) = [] /\
    Forall (fun e => is_callback e = false) (out_effects o) /\
    out_pending o = [].
Proof.
  intros w m. cbv zeta.
  destruct m as [[s p] c]. destruct c. simpl.
  destruct s, p, audio0 as [a0|], bufferSourceNode0 as [n0|],
    progressAnimationFrame0 as [f0|], audioContext0; simpl.
  all: repeat split; try reflexivity; try (intros x Hx; simplify_eq/=);
    try (repeat constructor).
  all: has_block.
Qed.

(** X6: [PLAY] sent to a paused track on the streaming side that
    can use Web Audio and has no buffer yet (in a browser, or with a media
    element already there): the track is playing and loading, its media
    element plays with [preload = auto], a gain node is created if there
    was none, a frame is requested, and the download for decoding starts
    (unless the URL is empty); the effects are exactly those listed, in
    that order. *)
Theorem play_without_a_buffer_streams_and_starts_the_load :
  forall w m,
    playback (value m) = paused ->
    audioSource (value m) = html ->
    canUseWebAudio (context m) = true ->
    (isBrowser w = true \/ present (audio (context m)) = true) ->
    let o := send w m PLAY in
    let c := context m in
    let c' := context (machine o) in
    value (machine o) =
      {| audioSource := loadingWebAudio; playback := playing |} /\
    (exists a, audio c' = Some a /\ audio_paused a = false /\
               audio_preload a = preload_auto) /\
    bufferSourceNode c' = bufferSourceNode c /\
    progressAnimationFrame c' = Some (next_frame w) /\
    out_effects o =
      (if present (gainNode c) then [] else [CreateGain]) ++
      [AudioPlay; SendSelf LOAD_WEBAUDIO;
       RequestAnimationFrame (next_frame w)] ++
      (if String.eqb (trackUrl c) "" then [] else [Fetch (trackUrl c)]) /\
    out_pending o = [].
Proof.
  intros w m Hp Hs Hc Hb. cbv zeta.
  destruct m as [[s p] c]. destruct c, w. simpl in *. subst s p.
  unfold canUseWebAudio in Hc. simpl in Hc.
  destruct webAudioIsDisabled0, audioContext0, audioBuffer0;
    try discriminate Hc.
  destruct audio0 as [a0|], gainNode0 as [g0|], isBrowser0,
    trackUrl0 as [|ch url];
    try (destruct Hb as [Hb|Hb]; discriminate Hb);
    repeat split; try reflexivity; eexists; repeat split; reflexivity.
Qed.

Lemma play_without_a_buffer_witness :
  playback (value (initial true input_a)) = paused /\
  audioSource (value (initial true input_a)) = html /\
  canUseWebAudio (context (initial true input_a)) = true /\
  isBrowser w0 = true /\
  value (machine (send w0 (initial true input_a) PLAY)) =
    {| audioSource := loadingWebAudio; playback := playing |}.
Proof.
  repeat (split; [reflexivity|]).
  pose proof (play_without_a_buffer_streams_and_starts_the_load
                w0 (initial true input_a) eq_refl eq_refl eq_refl
                (or_introl eq_refl)) as H.
  cbv zeta in H. exact (proj1 H).
Defined.

(** ** Positions *)

Lemma Math_max_0_nonneg x : (0 <= Math_max 0 x)%Q.
Proof.
  unfold Math_max. destruct (Qle_bool 0 x) eqn:E; [|lra].
  by apply Qle_bool_iff.
Qed.

Lemma Math_max_0_of_nonneg x : (0 <= x)%Q -> Math_max 0 x = x.
Proof.
  intros H. unfold Math_max.
  destruct (Qle_bool 0 x) eqn:E; [reflexivity|].
  apply Qle_bool_iff in H. congruence.
Qed.

Lemma or_else_0 x : (or_else x 0 == x)%Q.
Proof.
  unfold or_else, truthy. destruct (Qeq_bool x 0) eqn:E; simpl; [|reflexivity].
  apply Qeq_bool_iff in E. by symmetry.
Qed.

(** The position [resumeWebAudio] starts from is the stored one. *)
Lemma resume_position x :
  (Math_max 0 (Math_max 0 (or_else (Math_max 0 x) 0)) == Math_max 0 x)%Q.
Proof.
  pose proof (Math_max_0_nonneg x) as H.
  pose proof (or_else_0 (Math_max 0 x)) as E.
  rewrite (Math_max_0_of_nonneg (or_else _ _)) by lra.
  rewrite Math_max_0_of_nonneg; [exact E | lra].
Qed.

(** X7: a track playing from its decoded buffer that is paused
    stores the position it had reached, [max(0, now - startedAt)], and
    lets go of its buffer source node; [PLAY] then starts a fresh node at
    that position, whatever the clock says by then, and leaves the stored
    position as it is.  The node is taken to have started at
    [resume - position], so a progress report made at [later] stores
    [max(0, later - (resume - position))], each difference rounded to a
    double: the position at the pause plus the time played since the
    resume, up to the rounding of the two subtractions. *)
Theorem pause_and_resume_keep_the_position :
  forall w m n t_resume t_later,
    playback (value m) = playing ->
    bufferSourceNode (context m) = Some n ->
    audioContext (context m) = true ->
    isUsingWebAudio (context m) = true ->
    let position :=
      Math_max 0 (Number_sub (now w) (webAudioStartedPlayingAt (context m)))
    in
    let o1 := send w m PAUSE in
    let o2 := send (set_now t_resume (out_world o1)) (machine o1) PLAY in
    let o3 := send (set_now t_later (out_world o2)) (machine o2) PROGRESS in
    (playback (value (machine o1)) = paused /\
     currentTime (context (machine o1)) = position /\
     bufferSourceNode (context (machine o1)) = None) /\
    (playback (value (machine o2)) = playing /\
     bufferSourceNode (context (machine o2)) = Some (next_node w) /\
     exists p,
       (p == position)%Q /\
       started (out_effects o2) = [next_node w] /\
       NodeStart (next_node w) p ∈ out_effects o2) /\
    (currentTime (context (machine o2)) = position /\
     exists p,
       (p == position)%Q /\
       webAudioStartedPlayingAt (context (machine o2)) =
         Number_sub t_resume p /\
       currentTime (context (machine o3)) =
         Math_max 0 (Number_sub t_later (Number_sub t_resume p)) /\
       ((0 <= p + (t_later - t_resume))%Q ->
        (Qabs (currentTime (context (machine o3))
               - (p + (t_later - t_resume)))
         <= (Qabs (t_resume - p) + Qabs (p + (t_later - t_resume)))
            * (2 * unit_roundoff) + 4 * half_least)%Q)).
Proof.
  intros w m n t_resume t_later Hp Hn Hctx Hu position o1 o2 o3.
  destruct m as [[s p] c]. destruct c, w. simpl in Hp, Hn, Hctx, Hu.
  unfold isUsingWebAudio in Hu. simpl in Hu.
  destruct audioBuffer0 as [b|]; [|discriminate Hu].
  destruct webAudioIsDisabled0; [discriminate Hu|]. subst p bufferSourceNode0.
  subst audioContext0. simpl in position.
  set (x := Number_sub now0 webAudioStartedPlayingAt0) in *.
  set (P := Math_max 0 (Math_max 0 (or_else (Math_max 0 x) 0))).
  assert (E1 : playback (value (machine o1)) = paused /\
               currentTime (context (machine o1)) = position /\
               bufferSourceNode (context (machine o1)) = None).
  { subst o1 position. by destruct s, progressAnimationFrame0. }
  assert (E2 : playback (value (machine o2)) = playing /\
               bufferSourceNode (context (machine o2)) = Some next_node0 /\
               started (out_effects o2) = [next_node0] /\
               NodeStart next_node0 P ∈ out_effects o2).
  { subst o2 o1 P x.
    destruct s, progressAnimationFrame0, gainNode0; simpl;
      repeat split; repeat constructor. }
  assert (E3 : currentTime (context (machine o2)) = position /\
               webAudioStartedPlayingAt (context (machine o2)) =
                 Number_sub t_resume P /\
               currentTime (context (machine o3)) =
                 Math_max 0 (Number_sub t_later (Number_sub t_resume P))).
  { subst o3 o2 o1 P x position.
    by destruct s, progressAnimationFrame0, gainNode0, onProgress0. }
  pose proof (resume_position x) as R. fold P in R.
  split; [exact E1|]. split.
  - destruct E2 as (A & B & C & D). split; [exact A|]. split; [exact B|].
    exists P. simpl. auto.
  - destruct E3 as (A & B & C). split; [exact A|].
    exists P. split; [exact R|]. split; [exact B|]. split; [exact C|].
    intros Hpos. rewrite C. by apply NumberFacts.progress_error.
Qed.

Lemma pause_and_resume_witness :
  playback (value (life_machine (live w0 true input_a precise_playing)))
    = playing /\
  bufferSourceNode
    (context (life_machine (live w0 true input_a precise_playing)))
    = Some 0%nat /\
  audioContext (context (life_machine (live w0 true input_a precise_playing)))
    = true /\
  isUsingWebAudio
    (context (life_machine (live w0 true input_a precise_playing))) = true /\
  playback
    (value (machine (send (life_world (live w0 true input_a precise_playing))
                          (life_machine (live w0 true input_a precise_playing))
                          PAUSE))) = paused.
Proof.
  assert (H1 : playback
                 (value (life_machine (live w0 true input_a precise_playing)))
               = playing) by (vm_compute; reflexivity).
  assert (H2 : bufferSourceNode
                 (context (life_machine
                             (live w0 true input_a precise_playing)))
               = Some 0%nat) by (vm_compute; reflexivity).
  assert (H3 : audioContext
                 (context (life_machine
                             (live w0 true input_a precise_playing)))
               = true) by (vm_compute; reflexivity).
  assert (H4 : isUsingWebAudio
                 (context (life_machine
                             (live w0 true input_a precise_playing)))
               = true) by (vm_compute; reflexivity).
  split; [exact H1|]. split; [exact H2|]. split; [exact H3|].
  split; [exact H4|].
  pose proof (pause_and_resume_keep_the_position
                (life_world (live w0 true input_a precise_playing))
                (life_machine (live w0 true input_a precise_playing))
                0%nat 20%Q 30%Q H1 H2 H3 H4) as H.
  cbv zeta in H. exact (proj1 (proj1 H)).
Defined.

(** X8: when the decoded buffer arrives at a loading track that
    holds a media element and a gain node, the track moves to the precise
    backend: [onTrackLoaded] is called first, the buffer is stored, the
    position of the element becomes the stored position, a buffer source
    node is created and started at that position if the element was
    playing (and none if it was paused), and the element is paused and
    dropped.  The node is taken to have started at [now - position], so
    a progress report made at [t] on a playing track stores
    [max(0, t - (now - position))], each difference rounded to a double:
    that position plus the time elapsed, up to the rounding of the two
    subtractions. *)
Theorem the_hand_over_starts_the_node_where_the_element_is :
  forall w m a g b t,
    audioSource (value m) = loadingWebAudio ->
    audio (context m) = Some a ->
    gainNode (context m) = Some g ->
    audioContext (context m) = true ->
    let c := context m in
    let position :=
      or_else (audio_currentTime a) (or_else (currentTime c) 0) in
    let k := next_node w in
    let o := send w m (WEBAUDIO_LOADED b) in
    let c' := context (machine o) in
    let o' := send (set_now t (out_world o)) (machine o) PROGRESS in
    value (machine o) =
      {| audioSource := webaudio; playback := playback (value m) |} /\
    audioBuffer c' = Some b /\
    audio c' = None /\
    currentTime c' = position /\
    bufferSourceNode c' =
      (if audio_paused a then bufferSourceNode c else Some k) /\
    out_effects o =
      (if onTrackLoaded c then [CallOnTrackLoaded (idx c)] else []) ++
      (if audio_paused a then []
       else [CreateBufferSource k; NodeSetBuffer k; NodeConnect k;
             NodeSetOnended k; GainConnect;
             NodeStart k (Math_max 0 position)]) ++
      [AudioPause] /\
    out_pending o = [] /\
    (audio_paused a = false -> playback (value m) = playing ->
     currentTime (context (machine o')) =
       Math_max 0
         (Number_sub t (Number_sub (now w) (Math_max 0 position))) /\
     ((0 <= position)%Q -> (now w <= t)%Q ->
      (Qabs (currentTime (context (machine o')) - (position + (t - now w)))
       <= (Qabs (now w - position) + Qabs (position + (t - now w)))
          * (2 * unit_roundoff) + 4 * half_least)%Q)).
Proof.
  intros w m a g b t Hs Ha Hg Hctx c position k o c' o'.
  destruct m as [[s p] c0]. destruct c0, w, a. simpl in Hs, Ha, Hg, Hctx.
  subst s audio0 gainNode0 audioContext0. simpl in position, k.
  assert (E : currentTime c' = position /\
              (audio_paused0 = false -> p = playing ->
               currentTime (context (machine o')) =
               Math_max 0
                 (Number_sub t (Number_sub now0 (Math_max 0 position))))).
  { subst o' c' o position c.
    destruct p, audio_paused0, onTrackLoaded0, onProgress0; simpl;
      split; try reflexivity; intros; discriminate. }
  destruct E as [E1 E2].
  split; [by destruct p, audio_paused0, onTrackLoaded0|].
  split; [by destruct p, audio_paused0, onTrackLoaded0|].
  split; [by destruct p, audio_paused0, onTrackLoaded0|].
  split; [exact E1|].
  split; [by destruct p, audio_paused0, onTrackLoaded0|].
  split; [by destruct p, audio_paused0, onTrackLoaded0|].
  split; [by destruct p, audio_paused0, onTrackLoaded0|].
  intros Hpa Hpl. specialize (E2 Hpa Hpl). split; [exact E2|].
  intros Hpos Hle. cbn [now] in Hle. rewrite E2.
  rewrite (Math_max_0_of_nonneg position) by exact Hpos.
  apply NumberFacts.progress_error. cbn [now]. lra.
Qed.

Lemma the_hand_over_witness :
  audioSource
    (value (life_machine
              (live w0 true input_a [Deliver ACTIVATE; Deliver PLAY])))
    = loadingWebAudio /\
  audio (context (life_machine
                    (live w0 true input_a [Deliver ACTIVATE; Deliver PLAY])))
    = Some {| audio_controls := false; audio_volume := 1;
              audio_preload := preload_auto; audio_src := "a.mp3";
              audio_currentTime := 0; audio_duration := 0;
              audio_paused := false |} /\
  gainNode (context (life_machine
                       (live w0 true input_a [Deliver ACTIVATE; Deliver PLAY])))
    = Some {| gain_value := 1 |} /\
  audioContext
    (context (life_machine
                (live w0 true input_a [Deliver ACTIVATE; Deliver PLAY])))
    = true /\
  audioBuffer
    (context
       (machine
          (send (life_world
                   (live w0 true input_a [Deliver ACTIVATE; Deliver PLAY]))
                (life_machine
                   (live w0 true input_a [Deliver ACTIVATE; Deliver PLAY]))
                (WEBAUDIO_LOADED buffer100))))
    = Some buffer100.
Proof.
  assert (H1 : audioSource
                 (value (life_machine
                           (live w0 true input_a
                                 [Deliver ACTIVATE; Deliver PLAY])))
               = loadingWebAudio) by (vm_compute; reflexivity).
  assert (H2 : audio
                 (context (life_machine
                             (live w0 true input_a
                                   [Deliver ACTIVATE; Deliver PLAY])))
               = Some {| audio_controls := false; audio_volume := 1;
                         audio_preload := preload_auto; audio_src := "a.mp3";
                         audio_currentTime := 0; audio_duration := 0;
                         audio_paused := false |})
    by (vm_compute; reflexivity).
  assert (H3 : gainNode
                 (context (life_machine
                             (live w0 true input_a
                                   [Deliver ACTIVATE; Deliver PLAY])))
               = Some {| gain_value := 1 |}) by (vm_compute; reflexivity).
  assert (H4 : audioContext
                 (context (life_machine
                             (live w0 true input_a
                                   [Deliver ACTIVATE; Deliver PLAY])))
               = true) by (vm_compute; reflexivity).
  split; [exact H1|]. split; [exact H2|]. split; [exact H3|].
  split; [exact H4|].
  pose proof (the_hand_over_starts_the_node_where_the_element_is
                (life_world
                   (live w0 true input_a [Deliver ACTIVATE; Deliver PLAY]))
                (life_machine
                   (live w0 true input_a [Deliver ACTIVATE; Deliver PLAY]))
                _ _ buffer100 12%Q H1 H2 H3 H4) as H.
  cbv zeta in H. exact (proj1 (proj2 H)).
Defined.

(** ** Invariants with effects *)

Lemma flush_both (P : Machine -> Prop) (Q : Effect -> Prop) :
  (forall w m ev, P m -> P (machine (step w m ev)) /\
                         Forall Q (out_effects (step w m ev))) ->
  forall fuel w m mb done,
    P m -> Forall Q done ->
    P (machine (flush fuel w m mb done)) /\
    Forall Q (out_effects (flush fuel w m mb done)).
Proof.
  intros Hstep fuel. induction fuel as [|fuel IH]; intros w m mb done Hm Hd.
  - by destruct mb.
  - destruct mb as [|ev rest]; [by split|]. simpl.
    destruct (Hstep w m ev Hm) as [H1 H2].
    apply IH; [exact H1|]. apply Forall_app. by split.
Qed.

Lemma continue_both (P : Machine -> Prop) (Q : Effect -> Prop) :
  (forall w m ev, P m -> P (machine (step w m ev)) /\
                         Forall Q (out_effects (step w m ev))) ->
  (forall m p d b, P m -> P (report_media p d b m)) ->
  forall xs l,
    P (life_machine l) -> Forall Q (life_effects l) ->
    P (life_machine (continue l xs)) /\
    Forall Q (life_effects (continue l xs)).
Proof.
  intros Hstep Hmedia xs. unfold continue.
  induction xs as [|x xs IH]; intros l Hm He; [by split|].
  simpl. destruct x; simpl.
  - destruct (flush_both P Q Hstep 2 (life_world l) (life_machine l) [ev] []
                Hm (Forall_nil_2 _)) as [H1 H2].
    apply IH; simpl; [exact H1|]. apply Forall_app. by split.
  - by apply IH.
  - apply IH; simpl; [by apply Hmedia | exact He].
Qed.

Lemma streaming_only_step w m ev :
  streaming_only m ->
  streaming_only (machine (step w m ev)) /\
  Forall (fun e => streams e = true) (out_effects (step w m ev)).
Proof.
  intros (Hd & Hs & Hb & Hn).
  destruct m as [[s p] c]. destruct c, w. simpl in Hd, Hs, Hb, Hn. subst.
  unfold streaming_only, step, select, audioSource_on, playback_on, root_on,
    canUseWebAudio, hasWebAudioBuffer, isUsingWebAudio.
  destruct Hd as [Hd|Hd]; simpl in Hd; subst;
    [|destruct webAudioIsDisabled0];
    destruct ev, p; simpl; unfold_actions; simpl;
    repeat case_match; simpl; simplify_eq/=;
    (split; [repeat split; auto | repeat constructor]).
Qed.

(** X9: a track spawned with [webAudioIsDisabled], or in a browser
    without audio context, stays on the streaming backend all its life:
    it never holds a decoded buffer or a buffer source node, never
    downloads its file for decoding and never calls a buffer source
    node. *)
Theorem a_track_without_web_audio_only_streams :
  forall w avail input xs,
    input_webAudioIsDisabled input = true \/ avail = false ->
    let l := live w avail input xs in
    audioSource (value (life_machine l)) = html /\
    audioBuffer (context (life_machine l)) = None /\
    bufferSourceNode (context (life_machine l)) = None /\
    Forall (fun e => streams e = true) (life_effects l).
Proof.
  intros w avail input xs H l.
  destruct (continue_both streaming_only (fun e => streams e = true)
              streaming_only_step) with
    (xs := xs)
    (l := {| life_world := w; life_machine := initial avail input;
             life_effects := [] |}) as [(_ & H1 & H2 & H3) H4].
  - intros m p d b (A & B & C & D). repeat split; auto.
  - repeat split; auto.
  - constructor.
  - auto.
Qed.

Lemma a_track_without_web_audio_witness :
  input_webAudioIsDisabled input_streaming = true /\
  audioSource
    (value (life_machine (live w0 true input_streaming streaming_playing)))
    = html.
Proof.
  split; [reflexivity|].
  pose proof (a_track_without_web_audio_only_streams
                w0 true input_streaming streaming_playing
                (or_introl eq_refl)) as H.
  cbv zeta in H. exact (proj1 H).
Defined.

Lemma keeps_buffer_step b w m ev :
  audioBuffer (context m) = Some b /\
  audioSource (value m) <> loadingWebAudio ->
  (audioBuffer (context (machine (step w m ev))) = Some b /\
   audioSource (value (machine (step w m ev))) <> loadingWebAudio) /\
  Forall (fun e => is_fetch e = false) (out_effects (step w m ev)).
Proof.
  intros [Hb Hs].
  destruct m as [[s p] c]. destruct c, w. simpl in Hb, Hs. subst.
  unfold step, select, audioSource_on, playback_on, root_on,
    canUseWebAudio, hasWebAudioBuffer, isUsingWebAudio.
  destruct s; try congruence;
    destruct ev, p, audioContext0, webAudioIsDisabled0;
    simpl; unfold_actions; simpl;
    repeat (case_match; simpl; simplify_eq/=);
    (split; [split; [reflexivity | discriminate] | repeat constructor]).
Qed.

Lemma filter_fetch_none es :
  Forall (fun e => is_fetch e = false) es -> List.filter is_fetch es = [].
Proof.
  induction 1 as [|e es He _ IH]; [reflexivity|]. simpl. by rewrite He.
Qed.

Lemma stimulate_keeps_buffer b l x :
  audioBuffer (context (life_machine l)) = Some b ->
  audioSource (value (life_machine l)) <> loadingWebAudio ->
  audioBuffer (context (life_machine (stimulate l x))) = Some b /\
  audioSource (value (life_machine (stimulate l x))) <> loadingWebAudio /\
  List.filter is_fetch (life_effects (stimulate l x)) =
  List.filter is_fetch (life_effects l).
Proof.
  intros Hb Hs. destruct x; simpl; [|by repeat split..].
  destruct (flush_both
              (fun m => audioBuffer (context m) = Some b /\
                        audioSource (value m) <> loadingWebAudio)
              (fun e => is_fetch e = false)
              (keeps_buffer_step b) 2 (life_world l) (life_machine l)
              [ev] [] (conj Hb Hs) (Forall_nil_2 _)) as [[H1 H2] H3].
  split; [exact H1|]. split; [exact H2|].
  rewrite List.filter_app.
  unfold send. by rewrite (filter_fetch_none _ H3), app_nil_r.
Qed.

Lemma continue_keeps_buffer b xs l :
  audioBuffer (context (life_machine l)) = Some b ->
  audioSource (value (life_machine l)) <> loadingWebAudio ->
  audioBuffer (context (life_machine (continue l xs))) = Some b /\
  audioSource (value (life_machine (continue l xs))) <> loadingWebAudio /\
  List.filter is_fetch (life_effects (continue l xs)) =
  List.filter is_fetch (life_effects l).
Proof.
  unfold continue. revert l.
  induction xs as [|x xs IH]; intros l Hb Hs; [by repeat split|].
  destruct (stimulate_keeps_buffer b l x Hb Hs) as (A & B & C).
  destruct (IH (stimulate l x) A B) as (A' & B' & C').
  simpl. rewrite <- C. auto.
Qed.

(** X10: once a track holds a decoded buffer it keeps that very
    buffer whatever happens next, it is never in the loading state again,
    and it never downloads its file again. *)
Theorem a_decoded_buffer_is_kept_and_never_fetched_again :
  forall w avail input xs xs' b,
    let l := live w avail input xs in
    let l' := live w avail input (xs ++ xs') in
    audioBuffer (context (life_machine l)) = Some b ->
    audioBuffer (context (life_machine l')) = Some b /\
    audioSource (value (life_machine l')) <> loadingWebAudio /\
    List.filter is_fetch (life_effects l') =
    List.filter is_fetch (life_effects l).
Proof.
  intros w avail input xs xs' b l l' Hb.
  assert (Hs : audioSource (value (life_machine l)) <> loadingWebAudio).
  { intros Hl. destruct (live_loadable w avail input xs) as [J _].
    specialize (J Hl). unfold canUseWebAudio in J. fold l in J.
    rewrite Hb in J. simpl in J. by rewrite andb_false_r in J. }
  subst l'. unfold live. rewrite fold_left_app.
  apply (continue_keeps_buffer b xs' l Hb Hs).
Qed.

Lemma a_decoded_buffer_witness :
  audioBuffer (context (life_machine (live w0 true input_a precise_playing)))
    = Some buffer100 /\
  audioBuffer
    (context (life_machine
                (live w0 true input_a
                      (precise_playing ++
                       [Deliver DEACTIVATE; Deliver PRELOAD; Deliver PLAY]))))
    = Some buffer100.
Proof.
  assert (H1 : audioBuffer
                 (context (life_machine
                             (live w0 true input_a precise_playing)))
               = Some buffer100) by (vm_compute; reflexivity).
  split; [exact H1|].
  pose proof (a_decoded_buffer_is_kept_and_never_fetched_again
                w0 true input_a precise_playing
                [Deliver DEACTIVATE; Deliver PRELOAD; Deliver PLAY]
                buffer100 H1) as H.
  cbv zeta in H. exact (proj1 H).
Defined.

(** X11: [ENDED] sent to a playing track: the track is paused on
    the backend it was on, its frame request is cancelled, its buffer
    source node is forgotten, [onTrackEnded] is called with its index and
    then [onEnded], where it has them, and that is all: the position is
    not reset, the media element and the decoded buffer are kept and the
    browser is left alone. *)
Theorem the_end_of_a_playing_track :
  forall w m,
    playback (value m) = playing ->
    let c := context m in
    let o := send w m ENDED in
    let c' := context (machine o) in
    value (machine o) =
      {| audioSource := audioSource (value m); playback := paused |} /\
    out_effects o =
      match progressAnimationFrame c with
      | Some f => [CancelAnimationFrame f]
      | None => []
      end ++
      (if onTrackEnded c then [CallOnTrackEnded (idx c)] else []) ++
      (if onEnded c then [CallOnEnded] else []) /\
    bufferSourceNode c' = None /\
    progressAnimationFrame c' = None /\
    currentTime c' = currentTime c /\
    audio c' = audio c /\
    audioBuffer c' = audioBuffer c /\
    out_world o = w /\
    out_pending o = [].
Proof.
  intros w m Hp. cbv zeta.
  destruct m as [[s p] c]. destruct c. simpl in Hp. subst p.
  destruct s, progressAnimationFrame0, onTrackEnded0, onEnded0;
    repeat split; reflexivity.
Qed.

Lemma the_end_of_a_playing_track_witness :
  playback
    (value (life_machine
              (live w0 true input_a [Deliver ACTIVATE; Deliver PLAY])))
    = playing /\
  audio
    (context
       (machine
          (send (life_world
                   (live w0 true input_a [Deliver ACTIVATE; Deliver PLAY]))
                (life_machine
                   (live w0 true input_a [Deliver ACTIVATE; Deliver PLAY]))
                ENDED)))
    = audio (context (life_machine
                        (live w0 true input_a
                              [Deliver ACTIVATE; Deliver PLAY]))).
Proof.
  assert (H1 : playback
                 (value (life_machine
                           (live w0 true input_a
                                 [Deliver ACTIVATE; Deliver PLAY])))
               = playing) by (vm_compute; reflexivity).
  split; [exact H1|].
  pose proof (the_end_of_a_playing_track
                (life_world
                   (live w0 true input_a [Deliver ACTIVATE; Deliver PLAY]))
                (life_machine
                   (live w0 true input_a [Deliver ACTIVATE; Deliver PLAY]))
                H1) as H.
  cbv zeta in H. destruct H as (_ & _ & _ & _ & _ & H & _). exact H.
Defined.

(** X12: [SEEK t] sent to a track never changes its state and
    calls no callback.  On the precise backend with an audio context, and
    on the streaming backend with a media element, the stored position
    becomes [max(0, t)] (and so does the position of the element); without
    audio context, or without media element, the seek only logs the
    warning of the source, word for word, and the context stays as it
    is. *)
Theorem a_seek_moves_the_position_or_warns :
  forall w m t,
    let c := context m in
    let o := send w m (SEEK t) in
    let c' := context (machine o) in
    value (machine o) = value m /\
    out_pending o = [] /\
    Forall (fun e => is_callback e = false) (out_effects o) /\
    (isUsingWebAudio c = true -> audioContext c = true ->
     currentTime c' = Math_max 0 t /\ audio c' = audio c) /\
    (isUsingWebAudio c = true -> audioContext c = false ->
     c' = c /\
     out_effects o =
       [ConsoleWarn
          "🎯 TRACK: WebAudio seek failed - missing audioBuffer or audioContext"]) /\
    (isUsingWebAudio c = false ->
     forall a, audio c = Some a ->
       currentTime c' = Math_max 0 t /\
       audio c' = Some (audio_set_currentTime (Math_max 0 t) a) /\
       out_effects o = []) /\
    (isUsingWebAudio c = false -> audio c = None ->
     c' = c /\
     out_effects o =
       [ConsoleWarn "🎯 TRACK: HTML5 seek failed - no audio element"]).
Proof.
  intros w m t. cbv zeta.
  destruct m as [[s p] c]. destruct c. unfold isUsingWebAudio. simpl.
  destruct audioBuffer0 as [b|], webAudioIsDisabled0, audioContext0,
    audio0 as [a0|], s, p, bufferSourceNode0 as [n0|], gainNode0 as [g0|];
    simpl.
  all: repeat split; try reflexivity; try discriminate;
    try (intros; simplify_eq/=; reflexivity); repeat constructor.
Qed.

(** ** What a track never changes *)

Lemma constants_action ev a r :
  a ∈ actions_for ev -> constants (ctx (a ev r)) = constants (ctx r).
Proof.
  intros Ha. destruct ev; unfold actions_for in Ha; members Ha.
  all: unfold_actions; repeat case_match; reflexivity.
Qed.

Lemma constants_step w m ev :
  constants (context (machine (step w m ev))) = constants (context m).
Proof.
  unfold step. simpl.
  apply (step_preserves
           (fun r => constants (ctx r) = constants (context m)));
    [|reflexivity].
  intros a r Ha Hr. by rewrite constants_action.
Qed.

Lemma constants_send w m ev :
  constants (context (machine (send w m ev))) = constants (context m).
Proof.
  unfold send.
  apply (flush_invariant
           (fun m' => constants (context m') = constants (context m)));
    [|reflexivity].
  intros w' m' ev' H. by rewrite constants_step.
Qed.

(** X13: the URL of a track, its index, its [webAudioIsDisabled]
    flag, its audio context and its four callbacks are those it was
    spawned with, at every moment of its life: no event changes them (in
    particular the index does not follow the position of the track in the
    queue). *)
Theorem a_track_keeps_what_it_was_spawned_with :
  forall w avail input xs,
    let c := context (life_machine (live w avail input xs)) in
    trackUrl c = input_trackUrl input /\
    idx c = input_idx input /\
    webAudioIsDisabled c = input_webAudioIsDisabled input /\
    audioContext c = avail /\
    onProgress c = input_onProgress input /\
    onEnded c = input_onEnded input /\
    onTrackLoaded c = input_onTrackLoaded input /\
    onTrackEnded c = input_onTrackEnded input.
Proof.
  intros w avail input xs c.
  assert (H : constants c = constants (initial_context avail input)).
  { subst c.
    apply (live_invariant
             (fun m => constants (context m) =
                       constants (initial_context avail input)));
      [reflexivity | |].
    - intros w' m ev Hm. by rewrite constants_step.
    - intros m p d b Hm. exact Hm. }
  unfold constants in H. simpl in H. by simplify_eq.
Qed.

(** ** The closures of the queue *)

Lemma unwired_action ev a r :
  a ∈ actions_for ev ->
  unwired (ctx r) ->
  Forall (fun e => calls_queue e = false) (effects r) ->
  Forall (fun e => calls_queue e = false) (effects (a ev r)).
Proof.
  intros Ha. destruct r as [c w es sn]. destruct c.
  unfold unwired. simpl. intros [-> ->] H.
  destruct ev; unfold actions_for in Ha; members Ha.
  all: unfold_actions; simpl; repeat case_match; simpl;
    rewrite ?Forall_app; repeat split; auto; repeat constructor.
Qed.

Lemma unwired_constants c c' :
  constants c' = constants c -> unwired c -> unwired c'.
Proof.
  unfold constants, unwired. intros H [H1 H2]. simplify_eq. split; congruence.
Qed.

(** A track without the closures of the queue calls none. *)
Lemma unwired_step w m ev :
  unwired (context m) ->
  Forall (fun e => calls_queue e = false) (out_effects (step w m ev)).
Proof.
  intros Hu. unfold step. simpl.
  apply (step_preserves
           (fun r => unwired (ctx r) /\
                     Forall (fun e => calls_queue e = false) (effects r)));
    [|split; [exact Hu | constructor]].
  intros a r Ha [H1 H2]. split; [|by apply unwired_action].
  eapply unwired_constants; [|exact H1]. by apply constants_action.
Qed.

(** The effects of the step that stores the decoded buffer: the call of
    [onTrackLoaded] comes first, and is the only call of a closure of the
    queue. *)
Lemma loaded_step_effects w m b :
  audioSource (value m) = loadingWebAudio ->
  exists rest,
    out_effects (step w m (WEBAUDIO_LOADED b)) =
      (if onTrackLoaded (context m)
       then [CallOnTrackLoaded (idx (context m))] else []) ++ rest /\
    Forall (fun e => calls_queue e = false) rest /\
    sent_of rest = [] /\
    audioSource (value (machine (step w m (WEBAUDIO_LOADED b)))) = webaudio /\
    playback (value (machine (step w m (WEBAUDIO_LOADED b)))) =
      playback (value m) /\
    audioBuffer (context (machine (step w m (WEBAUDIO_LOADED b)))) = Some b.
Proof.
  destruct m as [[s p] c]. simpl. intros ->. destruct c.
  destruct p, onTrackLoaded0, audioContext0, gainNode0,
    audio0 as [[? ? ? ? ? ? []]|];
    unfold step, select, run_all; simpl; unfold_actions; simpl;
    eexists; (split; [reflexivity|]); repeat split; repeat constructor.
Qed.

(** The effects of the step that handles the end of a playing track. *)
Lemma ended_step_effects w m :
  playback (value m) = playing ->
  out_effects (step w m ENDED) =
    match progressAnimationFrame (context m) with
    | Some f => [CancelAnimationFrame f]
    | None => []
    end ++
    (if onTrackEnded (context m)
     then [CallOnTrackEnded (idx (context m))] else []) ++
    (if onEnded (context m) then [CallOnEnded] else []) /\
  playback (value (machine (step w m ENDED))) = paused /\
  audioSource (value (machine (step w m ENDED))) = audioSource (value m) /\
  bufferSourceNode (context (machine (step w m ENDED))) = None /\
  progressAnimationFrame (context (machine (step w m ENDED))) = None /\
  audio (context (machine (step w m ENDED))) = audio (context m) /\
  currentTime (context (machine (step w m ENDED))) =
    currentTime (context m) /\
  out_world (step w m ENDED) = w.
Proof.
  destruct m as [[s p] c]. simpl. intros ->. destruct c.
  destruct s, progressAnimationFrame0, onTrackEnded0, onEnded0;
    unfold step, select, run_all; simpl; repeat split; reflexivity.
Qed.

End TrackProps.

(** * The buffer source nodes of a track *)

Module BufferSourceClaims.
Import Track Spec Props TrackFacts NodeFacts LoadFacts CommandFacts
  TrackClaims TrackProps.

(** A buffer source node is only ever created from a decoded buffer, and
    the buffer is never taken away. *)
Lemma node_needs_buffer_action ev a r :
  a ∈ actions_for ev ->
  (bufferSourceNode (ctx r) = None \/ present (audioBuffer (ctx r)) = true) ->
  bufferSourceNode (ctx (a ev r)) = None \/
  present (audioBuffer (ctx (a ev r))) = true.
Proof.
  intros Ha. destruct r as [c w es sn]. destruct c.
  destruct audioBuffer0 as [b0|], audioContext0; simpl.
  all: destruct ev; unfold actions_for in Ha; members Ha.
  all: unfold_actions; simpl; repeat case_match; simpl; intros [Hn|Hn];
    simplify_eq/=; auto.
Qed.

Lemma live_node_needs_buffer w avail input xs :
  bufferSourceNode (context (life_machine (live w avail input xs))) = None \/
  present (audioBuffer (context (life_machine (live w avail input xs))))
  = true.
Proof.
  apply (live_invariant
           (fun m => bufferSourceNode (context m) = None \/
                     present (audioBuffer (context m)) = true)).
  - by left.
  - intros w' m ev H. unfold step. simpl.
    apply (step_preserves
             (fun r => bufferSourceNode (ctx r) = None \/
                       present (audioBuffer (ctx r)) = true));
      [|exact H].
    intros a r Ha Hr. by apply node_needs_buffer_action.
  - intros m p d b H. exact H.
Qed.

(** C9 (amended): over the whole life of a track, whatever it is sent and
    whatever the browser reports meanwhile: [start] is called at most once
    on each buffer source node; no node is started after it was stopped;
    every [start] closes the block that creates its node, which nothing
    touched before; the [ended] listener of a node is removed right before
    every [stop]; and the node the audio context hands out next has not
    been touched yet.  At every moment of that life:
    - a seek on the precise backend that finds a node stops it (listener
      first) and starts a new one at the target; a seek that finds none
      (the track is paused) stores the target and creates no node;
    - a pause on the precise backend stops the node and forgets it;
    - [PLAY] on a paused track with a decoded buffer (the start on the
      precise backend of a preloaded track, and the resume after a pause)
      creates the next node and starts it at the stored position, and
      stops nothing;
    - a track that is loading holds no node, and when its buffer arrives
      while its media element plays (the start by hand-over) it creates
      the next node and starts it at the position of the element. *)
Theorem C9_buffer_source_is_started_once_and_never_restarted :
  forall w avail input xs,
    let l := live w avail input xs in
    let es := life_effects l in
    let m := life_machine l in
    let c := context m in
    let k := next_node (life_world l) in
    let create_and_start position :=
      [CreateBufferSource k; NodeSetBuffer k; NodeConnect k;
       NodeSetOnended k; GainConnect; NodeStart k position] in
    NoDup (started es) /\
    (forall pre n o post,
        es = pre ++ NodeStart n o :: post -> NodeStop n ∉ pre) /\
    (forall pre n o post,
        es = pre ++ NodeStart n o :: post ->
        exists pre',
          pre = pre' ++ [CreateBufferSource n; NodeSetBuffer n; NodeConnect n;
                         NodeSetOnended n; GainConnect] /\
          forall e, e ∈ pre' -> node_of e <> Some n) /\
    (forall pre n post,
        es = pre ++ NodeStop n :: post ->
        exists pre', pre = pre' ++ [NodeClearOnended n]) /\
    (forall e, e ∈ es -> node_of e <> Some k) /\
    (forall n t,
        bufferSourceNode c = Some n ->
        isUsingWebAudio c = true ->
        let o := send (life_world l) m (SEEK t) in
        n <> k /\
        bufferSourceNode (context (machine o)) = Some k /\
        exists gain,
          out_effects o =
            gain ++ [NodeClearOnended n; NodeStop n; NodeDisconnect n] ++
            create_and_start (Math_max 0 t)) /\
    (forall t,
        bufferSourceNode c = None ->
        isUsingWebAudio c = true ->
        let o := send (life_world l) m (SEEK t) in
        bufferSourceNode (context (machine o)) = None /\
        currentTime (context (machine o)) = Math_max 0 t /\
        (out_effects o = [] \/ out_effects o = [CreateGain])) /\
    (forall n,
        bufferSourceNode c = Some n ->
        isUsingWebAudio c = true ->
        playback (value m) = playing ->
        let o := send (life_world l) m PAUSE in
        bufferSourceNode (context (machine o)) = None /\
        exists rest,
          out_effects o =
            [NodeClearOnended n; NodeStop n; NodeDisconnect n] ++ rest) /\
    (isUsingWebAudio c = true ->
     playback (value m) = paused ->
     let o := send (life_world l) m PLAY in
     playback (value (machine o)) = playing /\
     bufferSourceNode (context (machine o)) = Some k /\
     currentTime (context (machine o)) = currentTime c /\
     exists gain,
       (gain = [] \/ gain = [CreateGain]) /\
       out_effects o =
         gain ++
         create_and_start (Math_max 0 (or_else (currentTime c) 0)) ++
         [RequestAnimationFrame (next_frame (life_world l))]) /\
    (audioSource (value m) = loadingWebAudio ->
     bufferSourceNode c = None /\
     forall a g b,
       audio c = Some a -> gainNode c = Some g -> audio_paused a = false ->
       let o := send (life_world l) m (WEBAUDIO_LOADED b) in
       let position :=
         or_else (audio_currentTime a) (or_else (currentTime c) 0) in
       audioSource (value (machine o)) = webaudio /\
       bufferSourceNode (context (machine o)) = Some k /\
       out_effects o =
         (if onTrackLoaded c then [CallOnTrackLoaded (idx c)] else []) ++
         create_and_start (Math_max 0 position) ++ [AudioPause]).
Proof.
  intros w avail input xs. cbv zeta.
  destruct (live_disciplined w avail input xs) as [HD HB].
  pose proof (live_loadable w avail input xs) as [J1 J2].
  pose proof (live_node_needs_buffer w avail input xs) as HN.
  revert HD HB J1 J2 HN. generalize (live w avail input xs).
  intros [w1 m es] HD HB J1 J2 HN. simpl in *.
  split; [by eapply Disciplined_started_once|].
  split; [by eapply Disciplined_never_restarted|].
  split; [by eapply Disciplined_start_fresh|].
  split; [by eapply Disciplined_detached_before_stop|].
  split.
  { intros e He Hk.
    pose proof (proj2 (Disciplined_bound _ _ _ HD) e _ He Hk). lia. }
  split.
  { intros n t Hn Hu. specialize (HB n Hn).
    destruct (isUsingWebAudio_fields _ Hu) as [[b Hb] Hd].
    destruct J2 as [Hctx _]; [by rewrite Hb|].
    split; [lia|].
    destruct m as [[s p] c]. simpl in *.
    destruct c; simpl in *; subst.
    rewrite <- (Math_max_idem t).
    destruct s, p, gainNode0 as [g|];
      (split; [reflexivity|]);
      first [ by exists [] | by exists [CreateGain] ]. }
  split.
  { intros t Hn Hu.
    destruct (isUsingWebAudio_fields _ Hu) as [[b Hb] Hd].
    destruct J2 as [Hctx _]; [by rewrite Hb|].
    destruct m as [[s p] c]. simpl in *.
    destruct c; simpl in *; subst.
    destruct s, p, gainNode0 as [g|]; auto. }
  split.
  { intros n Hn Hu Hp.
    destruct (isUsingWebAudio_fields _ Hu) as [[b Hb] Hd].
    destruct J2 as [Hctx _]; [by rewrite Hb|].
    destruct m as [[s p] c]. simpl in *.
    destruct c; simpl in *; subst.
    destruct s, progressAnimationFrame0 as [f|];
      (split; [reflexivity|]); eexists; reflexivity. }
  split.
  { intros Hu Hp.
    destruct (isUsingWebAudio_fields _ Hu) as [[b Hb] Hd].
    destruct J2 as [Hctx _]; [by rewrite Hb|].
    destruct m as [[s p] c]. simpl in *.
    destruct c, w1; simpl in *; subst.
    rewrite <- (Math_max_idem (or_else currentTime0 0)).
    destruct s, gainNode0 as [g|];
      (split; [reflexivity|]); (split; [reflexivity|]);
      (split; [reflexivity|]);
      first [ exists []; split; [by left | reflexivity]
            | exists [CreateGain]; split; [by right | reflexivity] ]. }
  intros Hl. specialize (J1 Hl).
  assert (Hb : audioBuffer (context m) = None).
  { unfold canUseWebAudio in J1. apply andb_prop in J1 as [_ J1].
    destruct (audioBuffer (context m)); [discriminate J1 | reflexivity]. }
  assert (Hctx : audioContext (context m) = true).
  { unfold canUseWebAudio in J1. apply andb_prop in J1 as [J1 _].
    by apply andb_prop in J1 as [_ J1]. }
  split.
  { destruct HN as [HN|HN]; [exact HN|]. by rewrite Hb in HN. }
  intros a g b Ha Hg Hpa.
  destruct m as [[s p] c]. simpl in *.
  destruct c, a; simpl in *; subst.
  destruct HN as [HN|HN]; [|discriminate HN]. subst.
  destruct p, onTrackLoaded0; repeat split; reflexivity.
Qed.

(** The claim as stated fails for a seek on a paused track: the track
    plays from its buffer and is paused, which stops the node of the
    hand-over and forgets it; the seek then finds no node, stores the
    target and creates none, so that the only node ever started is the
    first. *)
Lemma C9_a_seek_on_a_paused_track_creates_no_node :
  let l := live w0 true input_a (precise_playing ++ [Deliver PAUSE]) in
  let o := send (life_world l) (life_machine l) (SEEK 5) in
  value (life_machine l) = {| audioSource := webaudio; playback := paused |} /\
  isUsingWebAudio (context (life_machine l)) = true /\
  bufferSourceNode (context (life_machine l)) = None /\
  out_effects o = [] /\
  bufferSourceNode (context (machine o)) = None /\
  currentTime (context (machine o)) = 5%Q /\
  started (life_effects l ++ out_effects o) = [0%nat].
Proof. vm_compute. repeat split; reflexivity. Qed.

End BufferSourceClaims.

(** * Further properties of the queue machine and of the player *)

Module QueueProps.
Import Queue Spec Props QueueFacts CommandFacts TrackProps.

(** ** The cast of the queue *)

Lemma same_cast_refl s : same_cast s s.
Proof. by repeat split. Qed.

Lemma same_cast_trans s1 s2 s3 :
  same_cast s1 s2 -> same_cast s2 s3 -> same_cast s1 s3.
Proof.
  intros (A1 & A2 & A3 & A4) (B1 & B2 & B3 & B4).
  repeat split; congruence.
Qed.

Lemma cast_set_actor i a a' s :
  trackActors (context s) !! i = Some a ->
  ref a' = ref a ->
  constants (Track.context (track a')) = constants (Track.context (track a)) ->
  same_cast s (set_actor i a' s).
Proof.
  intros Ha Hr Hc. unfold same_cast, cast, set_actor. simpl.
  repeat split. rewrite list_fmap_insert. apply list_insert_id.
  rewrite list_lookup_fmap, Ha. simpl. by rewrite Hr, Hc.
Qed.

Lemma cast_send_to i ev s : same_cast s (send_to i ev s).
Proof.
  unfold send_to.
  destruct (trackActors (context s) !! i) as [a|] eqn:Ha;
    [|apply same_cast_refl].
  destruct (processing a).
  - apply (cast_set_actor i a _ (observe [Sent (ref a) ev] s));
      [exact Ha | reflexivity | reflexivity].
  - pose proof (cast_set_actor i a
                  {| ref := ref a; processing := false; pending := pending a;
                     track := Track.machine
                                (Track.send (world s) (track a) ev) |}
                  (observe [Sent (ref a) ev] s) Ha eq_refl
                  (constants_send _ _ _)) as H.
    exact H.
Qed.

Lemma cast_send_at i ev s : same_cast s (send_at i ev s).
Proof.
  unfold send_at. destruct (0 <=? i); [apply cast_send_to|].
  apply same_cast_refl.
Qed.

Lemma cast_send_fold ev js s :
  same_cast s (fold_left (fun s i => send_to i ev s) js s).
Proof.
  revert s. induction js as [|j js IH]; intros s; [apply same_cast_refl|].
  simpl. eapply same_cast_trans; [apply cast_send_to | apply IH].
Qed.

Lemma cast_send_all ev s : same_cast s (send_all ev s).
Proof. apply cast_send_fold. Qed.

Lemma cast_observe os s : same_cast s (observe os s).
Proof. by repeat split. Qed.

Lemma cast_self_send ev s : same_cast s (self_send ev s).
Proof. by repeat split. Qed.

Lemma cast_set_idx i s :
  same_cast s (with_context (set_currentTrackIdx i) s).
Proof. by repeat split. Qed.

Lemma cast_set_volume v s : same_cast s (with_context (set_volume v) s).
Proof. by repeat split. Qed.

Lemma cast_with_state st s : same_cast s (with_state st s).
Proof. by repeat split. Qed.

Lemma cast_with_mailbox mb s : same_cast s (with_mailbox mb s).
Proof. by repeat split. Qed.

Lemma cast_with_world w s : same_cast s (with_world w s).
Proof. by repeat split. Qed.

Ltac cast_step :=
  first
    [ apply same_cast_refl
    | eapply same_cast_trans; [|apply cast_send_at]
    | eapply same_cast_trans; [|apply cast_send_all]
    | eapply same_cast_trans; [|apply cast_observe]
    | eapply same_cast_trans; [|apply cast_self_send]
    | eapply same_cast_trans; [|apply cast_set_idx]
    | eapply same_cast_trans; [|apply cast_set_volume]
    | eapply same_cast_trans; [|apply cast_with_state] ].

Ltac cast_tac := repeat case_match; repeat cast_step.

Lemma steady_actions :
  Forall steady
    [activateCurrentTrack; playCurrentTrack; pauseCurrentTrack;
     pauseAllTracks; seekCurrentTrackToStart; seekCurrentTrack;
     updateCurrentTrackIdx; gotoTrackWithPlayOption; playNext;
     autoAdvanceToNext; gotoNext; playPrevious; gotoPrevious;
     resetToFirstTrack; setVolume; loadCurrentTrack; loadNextTrack;
     handleTrackLoaded; notifyStartNewTrack; notifyEnded;
     setupMediaSession; updateMediaSessionMetadata;
     updateMediaSessionPlaybackState].
Proof.
  apply Forall_forall. intros a Ha.
  repeat (apply elem_of_cons in Ha as [->|Ha]);
    [..| by apply elem_of_nil in Ha];
    intros ev s;
    unfold activateCurrentTrack, playCurrentTrack, pauseCurrentTrack,
      pauseAllTracks, seekCurrentTrackToStart, seekCurrentTrack,
      updateCurrentTrackIdx, gotoTrackWithPlayOption, playNext,
      autoAdvanceToNext, gotoNext, playPrevious, gotoPrevious,
      resetToFirstTrack, setVolume, loadCurrentTrack, loadNextTrack,
      handleTrackLoaded, notifyStartNewTrack, notifyEnded,
      setupMediaSession, updateMediaSessionMetadata,
      updateMediaSessionPlaybackState;
    cast_tac.
Qed.

Lemma steady_run_all acts ev s :
  Forall steady acts -> same_cast s (run_all acts ev s).
Proof.
  unfold run_all. revert s.
  induction acts as [|a acts IH]; intros s H; [apply same_cast_refl|].
  inversion H as [|? ? Ha Hacts]; subst. simpl.
  eapply same_cast_trans; [apply Ha | by apply IH].
Qed.

Lemma steady_of a :
  a ∈ [activateCurrentTrack; playCurrentTrack; pauseCurrentTrack;
       pauseAllTracks; seekCurrentTrackToStart; seekCurrentTrack;
       updateCurrentTrackIdx; gotoTrackWithPlayOption; playNext;
       autoAdvanceToNext; gotoNext; playPrevious; gotoPrevious;
       resetToFirstTrack; setVolume; loadCurrentTrack; loadNextTrack;
       handleTrackLoaded; notifyStartNewTrack; notifyEnded;
       setupMediaSession; updateMediaSessionMetadata;
       updateMediaSessionPlaybackState] ->
  steady a.
Proof.
  pose proof steady_actions as HF. rewrite Forall_forall in HF. apply HF.
Qed.

Ltac steady_list :=
  repeat first
    [ apply Forall_nil_2
    | apply Forall_cons_2;
      [ apply steady_of;
        repeat first [ apply list_elem_of_here | apply list_elem_of_further ]
      | ] ].

(** Every event but [ADD_TRACK] and [REMOVE_TRACK] leaves the cast as it
    is. *)
Lemma step_cast s ev :
  (forall u k md, ev <> ADD_TRACK u k md) ->
  (forall r, ev <> REMOVE_TRACK r) ->
  same_cast s (step s ev).
Proof.
  intros Hadd Hrem. unfold step.
  destruct (state s), ev; cbn [on root_on];
    try (exfalso; by eapply Hadd); try (exfalso; by eapply Hrem);
    try destruct (isLastTrack (context s));
    try apply same_cast_refl;
    try (eapply same_cast_trans; [|apply cast_with_state]);
    apply steady_run_all; steady_list.
Qed.

(** ** The invariant of the cast *)

Lemma refs_cast s : refs s = fst <$> cast s.
Proof. unfold refs, cast. rewrite <- list_fmap_compose. reflexivity. Qed.

Lemma urls_cast s :
  urls s = (fun p => fst (fst (fst (fst (snd p))))) <$> cast s.
Proof. unfold urls, cast. rewrite <- list_fmap_compose. reflexivity. Qed.

Lemma well_cast_same s s' : same_cast s s' -> well_cast s -> well_cast s'.
Proof.
  intros (A1 & A2 & A3 & A4) (B1 & B2 & B3). unfold well_cast.
  rewrite urls_cast, refs_cast, A1, A2, A3, <- urls_cast, <- refs_cast.
  auto.
Qed.

Lemma well_cast_addTrack s u k md :
  well_cast s -> well_cast (addTrack (ADD_TRACK u k md) s).
Proof.
  intros (B1 & B2 & B3). unfold well_cast, addTrack, spawn, urls, refs.
  simpl. rewrite !fmap_app. simpl. fold (refs s). fold (urls s).
  split; [by rewrite B1|]. split.
  - apply NoDup_app. split; [exact B2|]. split; [|apply NoDup_singleton].
    intros r Hr Hin. apply list_elem_of_singleton in Hin. subst r.
    rewrite Forall_forall in B3. specialize (B3 _ Hr). lia.
  - apply Forall_app. split.
    + eapply Forall_impl; [exact B3|]. simpl. intros; lia.
    + repeat constructor.
Qed.

Lemma well_cast_removeTrack s r :
  well_cast s -> well_cast (removeTrack (REMOVE_TRACK r) s).
Proof.
  intros (B1 & B2 & B3). unfold removeTrack.
  destruct (findIndex (trackActors (context s)) r) as [index|];
    [|by repeat split].
  unfold well_cast, urls, refs. simpl.
  rewrite !list_fmap_delete. fold (refs s). fold (urls s).
  split; [by rewrite B1|]. split.
  - eapply sublist_NoDup; [exact B2 | apply sublist_delete].
  - rewrite Forall_forall in B3. apply Forall_forall. intros x Hx.
    by eapply B3, list_elem_of_delete_inv.
Qed.

Lemma well_cast_step s ev : well_cast s -> well_cast (step s ev).
Proof.
  intros H.
  destruct ev;
    try (eapply well_cast_same; [apply step_cast; discriminate | exact H]).
  - unfold step. destruct (state s); cbn [on]; cbv [run_all fold_left];
      by apply well_cast_addTrack.
  - unfold step. destruct (state s); cbn [on]; cbv [run_all fold_left];
      by apply well_cast_removeTrack.
Qed.

Lemma well_cast_with_mailbox mb s :
  well_cast s -> well_cast (with_mailbox mb s).
Proof. apply well_cast_same, cast_with_mailbox. Qed.

Lemma well_cast_flush fuel s : well_cast s -> well_cast (flush fuel s).
Proof.
  revert s. induction fuel as [|fuel IH]; intros s H; [exact H|].
  simpl. destruct (mailbox s) as [|ev rest]; [exact H|].
  by apply IH, well_cast_step, well_cast_with_mailbox.
Qed.

Lemma well_cast_send ev s : well_cast s -> well_cast (send ev s).
Proof. intros H. by apply well_cast_flush, well_cast_with_mailbox. Qed.

(** ** Invariants of a player *)

Lemma find_actor_Some r s i a :
  find_actor r s = Some (i, a) ->
  trackActors (context s) !! i = Some a /\ ref a = r.
Proof.
  unfold find_actor. intros H. apply list_find_Some in H as (H1 & H2 & _).
  by split.
Qed.

(** A property of the queue that survives what a track actor does to
    itself, and what the queue does when a track calls one of its
    closures, survives every event the browser sends to a track. *)
Section Signal.
Variable P : System -> Prop.
Hypothesis P_set_actor :
  forall s i a a',
    trackActors (context s) !! i = Some a -> ref a' = ref a ->
    constants (Track.context (track a')) =
    constants (Track.context (track a)) ->
    P s -> P (set_actor i a' s).
Hypothesis P_observe : forall s os, P s -> P (observe os s).
Hypothesis P_with_world : forall s w, P s -> P (with_world w s).
Hypothesis P_callback :
  forall s e ev, callback_event e = Some ev -> P s -> P (send ev s).

Lemma P_enqueue_for r ev s : P s -> P (enqueue_for r ev s).
Proof.
  intros H. unfold enqueue_for.
  destruct (find_actor r s) as [[i a]|] eqn:E; [|exact H].
  apply find_actor_Some in E as [E _].
  by apply (P_set_actor s i a).
Qed.

Lemma P_absorb r s e : P s -> P (absorb r s e).
Proof.
  intros H. unfold absorb.
  destruct e; simpl; auto using P_observe, P_enqueue_for.
  - apply (P_callback _ (Track.CallOnTrackLoaded trackIndex));
      [reflexivity | by apply P_observe].
  - apply (P_callback _ (Track.CallOnTrackEnded trackIndex));
      [reflexivity | by apply P_observe].
Qed.

Lemma P_absorb_all r es s : P s -> P (fold_left (absorb r) es s).
Proof.
  revert s. induction es as [|e es IH]; intros s H; [exact H|].
  simpl. by apply IH, P_absorb.
Qed.

Lemma P_run_track fuel r s : P s -> P (run_track fuel r s).
Proof.
  revert s. induction fuel as [|fuel IH]; intros s H; [exact H|].
  simpl. destruct (find_actor r s) as [[i a]|] eqn:E; [|exact H].
  apply find_actor_Some in E as [E _].
  destruct (pending a) as [|ev rest].
  - by apply (P_set_actor s i a).
  - apply IH, P_absorb_all, P_with_world.
    apply (P_set_actor s i a); [exact E | reflexivity | | exact H].
    simpl. apply constants_step.
Qed.

Lemma P_signal r ev s : P s -> P (signal r ev s).
Proof.
  intros H. unfold signal.
  destruct (find_actor r s) as [[i a]|] eqn:E; [|exact H].
  apply find_actor_Some in E as [E _].
  by apply P_run_track, (P_set_actor s i a).
Qed.

(** The same for what is not a command. *)
Lemma P_browser s h :
  match h with Command _ => False | _ => True end -> P s -> P (happen s h).
Proof.
  intros Hh H. destruct h; simpl; [done | | |].
  - by apply P_signal.
  - by apply P_with_world.
  - destruct (find_actor r s) as [[i a]|] eqn:E; [|exact H].
    apply find_actor_Some in E as [E _].
    by apply (P_set_actor s i a).
Qed.
End Signal.

(** A property that moreover survives every event sent to the queue is
    an invariant of the player. *)
Section Happenings.
Variable P : System -> Prop.
Hypothesis P_set_actor :
  forall s i a a',
    trackActors (context s) !! i = Some a -> ref a' = ref a ->
    constants (Track.context (track a')) =
    constants (Track.context (track a)) ->
    P s -> P (set_actor i a' s).
Hypothesis P_observe : forall s os, P s -> P (observe os s).
Hypothesis P_with_world : forall s w, P s -> P (with_world w s).
Hypothesis P_send : forall s ev, P s -> P (send ev s).

Lemma P_happen s h : P s -> P (happen s h).
Proof.
  intros H. destruct h as [ev| | |] eqn:Hh; [by apply P_send| | |];
    rewrite <- Hh; apply P_browser; subst h; auto.
Qed.

Lemma P_player w avail options hs :
  P (Gapless.create w avail options) -> P (player w avail options hs).
Proof.
  unfold player. generalize (Gapless.create w avail options).
  induction hs as [|h hs IH]; intros s H; [exact H|].
  simpl. by apply IH, P_happen.
Qed.
End Happenings.

(** The actors [spawnInitialTracks] creates. *)
Lemma spawn_each_spec c us i s :
  let '(actors, s') := spawn_each c us i s in
  ref <$> actors = seq (next_ref s) (length us) /\
  (fun a => Track.trackUrl (Track.context (track a))) <$> actors = us /\
  next_ref s' = (next_ref s + length us)%nat /\
  context s' = context s /\ mailbox s' = mailbox s /\ state s' = state s /\
  trace s' = trace s /\ world s' = world s.
Proof.
  revert i s. induction us as [|u us IH]; intros i s; simpl.
  - repeat split. lia.
  - unfold spawn. specialize (IH (i + 1) (with_next_ref (S (next_ref s)) s)).
    destruct (spawn_each c us (i + 1) (with_next_ref (S (next_ref s)) s))
      as [rest s'].
    destruct IH as (A1 & A2 & A3 & A4 & A5 & A6 & A7 & A8).
    rewrite !fmap_cons, A1, A2, A3. simpl. repeat split; auto; lia.
Qed.

Lemma start_spawned w avail options :
  let s0 := {| state := paused; context := initial_context options;
               mailbox := []; world := w; audioContext_available := avail;
               next_ref := 0; trace := [] |} in
  let s1 := spawnInitialTracks XSTATE_INIT s0 in
  well_cast s1 /\ mailbox s1 = [] /\ state s1 = paused /\
  currentTrackIdx (context s1) = 0 /\
  refs s1 = seq 0 (length (opt_tracks options)) /\
  tracks (context s1) = opt_tracks options /\
  volume (context s1) = 1%Q.
Proof.
  intros s0 s1. subst s1. unfold spawnInitialTracks.
  pose proof (spawn_each_spec (context s0) (tracks (context s0)) 0 s0) as H.
  destruct (spawn_each (context s0) (tracks (context s0)) 0 s0)
    as [actors s'].
  destruct H as (A1 & A2 & A3 & A4 & A5 & A6 & A7 & A8).
  unfold well_cast, urls, refs. simpl. rewrite A1, A2, A3, A4, A5, A6.
  simpl. repeat split.
  - apply NoDup_seq.
  - apply Forall_forall. intros r Hr. apply elem_of_seq in Hr. lia.
Qed.

Lemma start_unfold w avail options :
  Gapless.create w avail options =
  loadCurrentTrack XSTATE_INIT
    (spawnInitialTracks XSTATE_INIT
       {| state := paused; context := initial_context options;
          mailbox := []; world := w; audioContext_available := avail;
          next_ref := 0; trace := [] |}).
Proof.
  unfold Gapless.create, start. cbn [run_all fold_left].
  unfold setupMediaSession, updateMediaSessionMetadata.
  apply queue_flush_nil.
  destruct (start_spawned w avail options) as (_ & H & _).
  destruct (calm_loadCurrentTrack XSTATE_INIT
              (spawnInitialTracks XSTATE_INIT
                 {| state := paused; context := initial_context options;
                    mailbox := []; world := w;
                    audioContext_available := avail;
                    next_ref := 0; trace := [] |}))
    as (sent & _ & _ & Hm & _).
  rewrite Hm, H. reflexivity.
Qed.

Lemma start_well_cast w avail options :
  well_cast (Gapless.create w avail options) /\
  mailbox (Gapless.create w avail options) = [].
Proof.
  rewrite start_unfold.
  destruct (start_spawned w avail options) as (H1 & H2 & _).
  split.
  - eapply well_cast_same; [|exact H1]. apply cast_send_at.
  - destruct (calm_loadCurrentTrack XSTATE_INIT
                (spawnInitialTracks XSTATE_INIT
                   {| state := paused; context := initial_context options;
                      mailbox := []; world := w;
                      audioContext_available := avail;
                      next_ref := 0; trace := [] |}))
      as (sent & _ & _ & Hm & _).
    rewrite Hm, H2. reflexivity.
Qed.

Lemma player_well_cast w avail options hs :
  well_cast (player w avail options hs) /\
  mailbox (player w avail options hs) = [].
Proof.
  apply (P_player (fun s => well_cast s /\ mailbox s = [])).
  - intros s i a a' Ha Hr Hc [H1 H2]. split; [|exact H2].
    eapply well_cast_same; [|exact H1]. by eapply cast_set_actor.
  - intros s os [H1 H2]. split; [|exact H2].
    eapply well_cast_same; [|exact H1]. apply cast_observe.
  - intros s w' [H1 H2]. split; [|exact H2].
    eapply well_cast_same; [|exact H1]. apply cast_with_world.
  - intros s ev [H1 H2]. split; [by apply well_cast_send|].
    by apply send_settles.
  - apply start_well_cast.
Qed.

(** X14: whatever has happened to a player (commands, events of
    the browser, additions and removals), [context.tracks] lists the URLs
    of the track actors in order, no actor is in the queue twice, and the
    mailbox of the queue is empty between two happenings. *)
Theorem the_url_list_follows_the_actors :
  forall w avail options hs,
    let s := player w avail options hs in
    tracks (context s) = urls s /\
    NoDup (refs s) /\
    mailbox s = [].
Proof.
  intros w avail options hs s.
  destruct (player_well_cast w avail options hs) as [(H1 & H2 & _) H3].
  auto.
Qed.

(** ** What a command sends, exactly *)

Lemma omap_lookup_seq {A B} (f : A -> B) (pre l : list A) :
  omap (fun i => f <$> (pre ++ l) !! i) (seq (length pre) (length l))
  = f <$> l.
Proof.
  revert pre. induction l as [|x l IH]; intros pre; [reflexivity|].
  simpl. rewrite list_lookup_middle by reflexivity. simpl. f_equal.
  specialize (IH (pre ++ [x])).
  rewrite <- app_assoc, length_app in IH. simpl in IH.
  by rewrite Nat.add_1_r in IH.
Qed.

Lemma spec_then_send_at s s1 mb i sent j ev :
  quiet ev = true ->
  step_spec s s1 mb i sent ->
  step_spec s (send_at j ev s1) mb i (sent ++ sent_at s j ev).
Proof.
  intros Hq H.
  pose proof (spec_send_at j ev s1 Hq) as H1.
  fold (sent_at s1 j ev) in H1.
  assert (R : refs s1 = refs s) by apply H.
  rewrite (sent_at_refs _ _ _ _ R) in H1.
  pose proof (spec_trans _ _ _ _ _ _ _ _ _ H H1) as H2.
  rewrite app_nil_r in H2.
  destruct H as (_ & _ & _ & Hi & _). by rewrite Hi in H2.
Qed.

Lemma spec_then_send_cur s s1 mb i sent ev :
  quiet ev = true ->
  step_spec s s1 mb i sent ->
  step_spec s (send_at (currentTrackIdx (context s1)) ev s1) mb i
            (sent ++ sent_at s i ev).
Proof.
  intros Hq H. pose proof H as (_ & _ & _ & Hi & _). rewrite Hi.
  by apply spec_then_send_at.
Qed.

Lemma spec_then_send_all s s1 mb i sent ev :
  quiet ev = true ->
  step_spec s s1 mb i sent ->
  step_spec s (send_all ev s1) mb i
            (sent ++ ((fun r => (r, ev)) <$> refs s)).
Proof.
  intros Hq H. unfold send_all.
  destruct (send_fold_frame ev (seq 0 (length (trackActors (context s1)))) s1)
    as (H1 & H2 & H3 & H4 & H5 & H6 & H7).
  destruct H as (A1 & A2 & A3 & A4 & A5).
  unfold step_spec. rewrite H1, H2, H3, H6, H7, A1, A2, A3, A4, A5 by done.
  repeat split. rewrite <- app_assoc. do 2 f_equal.
  replace (length (trackActors (context s1))) with (length (refs s))
    by (rewrite <- A2; unfold refs; by rewrite length_fmap).
  apply (omap_lookup_seq (fun r => (r, ev)) [] (refs s)).
Qed.

Lemma spec_then_observe s s1 mb i sent os :
  sends_of os = [] ->
  step_spec s s1 mb i sent -> step_spec s (observe os s1) mb i sent.
Proof.
  intros Ho H. pose proof (spec_observe s1 os Ho) as H1.
  pose proof (spec_trans _ _ _ _ _ _ _ _ _ H H1) as H2.
  rewrite !app_nil_r in H2.
  destruct H as (_ & _ & _ & Hi & _). by rewrite Hi in H2.
Qed.

Lemma spec_then_self_send s s1 mb i sent ev :
  step_spec s s1 mb i sent ->
  step_spec s (self_send ev s1) (mb ++ [ev]) i sent.
Proof.
  intros H. pose proof (spec_self_send s1 ev) as H1.
  pose proof (spec_trans _ _ _ _ _ _ _ _ _ H H1) as H2.
  rewrite !app_nil_r in H2.
  destruct H as (_ & _ & _ & Hi & _). by rewrite Hi in H2.
Qed.

Lemma spec_then_set_idx s s1 mb i sent j :
  step_spec s s1 mb i sent ->
  step_spec s (with_context (set_currentTrackIdx j) s1) mb j sent.
Proof.
  intros H. pose proof (spec_set_idx s1 j) as H1.
  pose proof (spec_trans _ _ _ _ _ _ _ _ _ H H1) as H2.
  by rewrite !app_nil_r in H2.
Qed.

Lemma spec_then_notify s s1 mb i sent ev :
  step_spec s s1 mb i sent ->
  step_spec s (notifyStartNewTrack ev s1) mb i sent.
Proof.
  intros H. unfold notifyStartNewTrack.
  destruct (onStartNewTrack (context s1)); [|exact H].
  by apply spec_then_observe.
Qed.

(** [GOTO], whatever the state: every track is sent [PAUSE], the index
    is stored as it comes, and the track at that index, if there is one,
    is sent [SEEK 0], [PLAY] unless the queue was paused, and
    [PRELOAD]. *)
Lemma goto_step_exact s i b :
  let s' := step s (GOTO i b) in
  state s' = match state s with playing => playing | _ => paused end /\
  step_spec s (with_state (state s) s') [] i
    (((fun r => (r, Track.PAUSE)) <$> refs s) ++
     sent_at s i (Track.SEEK 0) ++
     match state s with
     | paused => []
     | _ => sent_at s i Track.PLAY
     end ++
     sent_at s i Track.PRELOAD).
Proof.
  set (ev := GOTO i b).
  pose proof (spec_then_send_all s s [] _ [] Track.PAUSE eq_refl (spec_refl s))
    as H1.
  pose proof (spec_then_set_idx _ _ _ _ _ i H1) as H2.
  pose proof (spec_then_send_cur _ _ _ _ _ (Track.SEEK 0) eq_refl H2) as H3.
  simpl in H3.
  assert (Hplay :
    step_spec s
      (loadCurrentTrack ev
         (notifyStartNewTrack ev
            (playCurrentTrack ev
               (seekCurrentTrackToStart ev
                  (updateCurrentTrackIdx ev (pauseAllTracks ev s))))))
      [] i
      (((fun r => (r, Track.PAUSE)) <$> refs s) ++
       sent_at s i (Track.SEEK 0) ++ sent_at s i Track.PLAY ++
       sent_at s i Track.PRELOAD)).
  { pose proof (spec_then_send_cur _ _ _ _ _ Track.PLAY eq_refl H3) as H4.
    pose proof (spec_then_notify _ _ _ _ _ ev H4) as H5.
    pose proof (spec_then_send_cur _ _ _ _ _ Track.PRELOAD eq_refl H5) as H6.
    rewrite <- !app_assoc in H6. exact H6. }
  assert (Hquiet :
    step_spec s
      (loadCurrentTrack ev
         (seekCurrentTrackToStart ev
            (updateCurrentTrackIdx ev (pauseAllTracks ev s))))
      [] i
      (((fun r => (r, Track.PAUSE)) <$> refs s) ++
       sent_at s i (Track.SEEK 0) ++ sent_at s i Track.PRELOAD)).
  { pose proof (spec_then_send_cur _ _ _ _ _ Track.PRELOAD eq_refl H3) as H6.
    rewrite <- !app_assoc in H6. exact H6. }
  subst ev. unfold step.
  destruct (state s) eqn:E; cbn [on run_all fold_left];
    unfold updateMediaSessionMetadata, updateMediaSessionPlaybackState.
  - split; [etrans; [exact (proj1 Hplay) | exact E]|].
    destruct Hplay as (A1 & A2 & A3 & A4 & A5). by repeat split.
  - split; [etrans; [exact (proj1 Hquiet) | exact E]|].
    destruct Hquiet as (A1 & A2 & A3 & A4 & A5). by repeat split.
  - split; [reflexivity|].
    destruct Hplay as (A1 & A2 & A3 & A4 & A5). by repeat split.
Qed.

(** ** Commands on an idle queue *)

Lemma settle_goto fuel s1 i b :
  mailbox s1 = [GOTO i b] ->
  flush (S fuel) s1 = step (with_mailbox [] s1) (GOTO i b).
Proof.
  intros H. rewrite (queue_flush_cons _ _ _ _ H).
  apply queue_flush_nil.
  by destruct (goto_step (with_mailbox [] s1) i b) as (_ & -> & _).
Qed.

Lemma settle_goto_play fuel s1 i b :
  state s1 = playing ->
  mailbox s1 = [GOTO i b; PLAY] ->
  flush (S (S fuel)) s1 =
  with_mailbox [] (step (with_mailbox [PLAY] s1) (GOTO i b)).
Proof.
  intros Hst H. rewrite (queue_flush_cons _ _ _ _ H).
  destruct (goto_step (with_mailbox [PLAY] s1) i b) as (A1 & A2 & _).
  simpl in A1, A2. rewrite Hst in A1.
  rewrite (queue_flush_cons _ _ _ _ A2).
  set (s2 := step (with_mailbox [PLAY] s1) (GOTO i b)) in *.
  assert (Hdrop : step (with_mailbox [] s2) PLAY = with_mailbox [] s2).
  { unfold step. simpl state. rewrite A1. reflexivity. }
  rewrite Hdrop. by apply queue_flush_nil.
Qed.

Lemma at_index_None {A} (l : list A) i :
  i < 0 \/ len l <= i -> at_index l i = None.
Proof.
  unfold at_index, len. intros [H|H].
  - destruct (0 <=? i) eqn:E; [lia | reflexivity].
  - destruct (0 <=? i); [|reflexivity]. apply lookup_ge_None. lia.
Qed.

Lemma sent_at_None s i ev :
  i < 0 \/ len (trackActors (context s)) <= i -> sent_at s i ev = [].
Proof.
  intros H. unfold sent_at, ref_at.
  rewrite at_index_None; [reflexivity|]. by rewrite len_refs.
Qed.

(** X15: [gotoTrack(i, b)] on an idle queue stores the index [i]
    as it comes, in range or not; every track is sent [PAUSE], and the
    track at [i], if there is one, is sent [SEEK 0], [PLAY] unless the
    queue was paused, and [PRELOAD]; the queue stays playing if it was and
    is paused otherwise.  With an index out of range only the [PAUSE]s are
    sent and the player has no current track afterwards. *)
Theorem gotoTrack_takes_any_index :
  forall s i b,
    mailbox s = [] ->
    let s' := Gapless.gotoTrack i b s in
    currentTrackIdx (context s') = i /\
    state s' = match state s with playing => playing | _ => paused end /\
    mailbox s' = [] /\
    refs s' = refs s /\
    sends_of (trace s') =
      sends_of (trace s) ++
      ((fun r => (r, Track.PAUSE)) <$> refs s) ++
      sent_at s i (Track.SEEK 0) ++
      match state s with
      | paused => []
      | _ => sent_at s i Track.PLAY
      end ++
      sent_at s i Track.PRELOAD /\
    (i < 0 \/ len (trackActors (context s)) <= i ->
     Gapless.currentTrack s' = None /\
     sends_of (trace s') =
       sends_of (trace s) ++ ((fun r => (r, Track.PAUSE)) <$> refs s)).
Proof.
  intros s i b Hm s'. subst s'. unfold Gapless.gotoTrack.
  rewrite send_idle by done.
  destruct (goto_step_exact s i (Some b)) as (A0 & A1 & A2 & A3 & A4 & A5).
  simpl in A3, A4, A5. rewrite Hm in A3. simpl in A3.
  assert (R : refs (step s (GOTO i (Some b))) = refs s) by exact A2.
  rewrite queue_flush_nil by exact A3.
  split; [exact A4|]. split; [exact A0|]. split; [exact A3|].
  split; [exact R|]. split; [exact A5|].
  intros Hout. split.
  - unfold Gapless.currentTrack. rewrite A4. apply at_index_None.
    by rewrite (len_trackActors_refs _ _ R).
  - rewrite A5, !sent_at_None by exact Hout.
    destruct (state s); by rewrite !app_nil_r.
Qed.

Lemma gotoTrack_takes_any_index_witness :
  mailbox player3 = [] /\
  currentTrackIdx (context (Gapless.gotoTrack 7 true player3)) = 7 /\
  Gapless.currentTrack (Gapless.gotoTrack 7 true player3) = None.
Proof.
  assert (Hm : mailbox player3 = []) by (vm_compute; reflexivity).
  split; [exact Hm|].
  pose proof (gotoTrack_takes_any_index player3 7 true Hm) as H.
  cbv zeta in H. destruct H as (H1 & _ & _ & _ & _ & H6).
  split; [exact H1|]. apply H6. right. vm_compute. intros H. discriminate H.
Defined.

Lemma next_step_spec s :
  let cur := currentTrackIdx (context s) in
  let n := len (trackActors (context s)) in
  (state s = playing ->
   step_spec s (step s NEXT)
     (if cur + 1 <? n then [GOTO (cur + 1) None; PLAY] else []) cur
     (sent_at s cur Track.DEACTIVATE)) /\
  (state s = paused ->
   step_spec s (step s NEXT)
     (if cur + 1 <? n then [GOTO (cur + 1) None] else []) cur
     (sent_at s cur Track.DEACTIVATE)).
Proof.
  intros cur n.
  pose proof (spec_then_send_at s s [] _ [] cur Track.DEACTIVATE eq_refl
                (spec_refl s)) as H1.
  simpl in H1. fold cur in H1.
  split; intros Hst; unfold step; rewrite Hst; cbn [on run_all fold_left];
    unfold playNext, gotoNext; fold cur; fold n;
    destruct (cur + 1 <? n); try exact H1.
  - pose proof (spec_then_self_send _ _ _ _ _ (GOTO (cur + 1) None) H1) as H2.
    pose proof (spec_then_self_send _ _ _ _ _ PLAY H2) as H3.
    simpl in H3.
    destruct (onPlayNextTrack (context s)); [|exact H3].
    by apply spec_then_observe.
  - pose proof (spec_then_self_send _ _ _ _ _ (GOTO (cur + 1) None) H1) as H2.
    simpl in H2.
    destruct (onPlayNextTrack (context s)); [|exact H2].
    by apply spec_then_observe.
Qed.

(** What [next()] does to an idle queue that has not ended. *)
Lemma next_spec s :
  mailbox s = [] -> state s <> ended ->
  let cur := currentTrackIdx (context s) in
  let n := len (trackActors (context s)) in
  let s' := Gapless.next s in
  state s' = state s /\ mailbox s' = [] /\ refs s' = refs s /\
  currentTrackIdx (context s') = (if cur + 1 <? n then cur + 1 else cur) /\
  sends_of (trace s') =
    sends_of (trace s) ++
    sent_at s cur Track.DEACTIVATE ++
    (if cur + 1 <? n
     then ((fun r => (r, Track.PAUSE)) <$> refs s) ++
          sent_at s (cur + 1) (Track.SEEK 0) ++
          match state s with
          | paused => []
          | _ => sent_at s (cur + 1) Track.PLAY
          end ++
          sent_at s (cur + 1) Track.PRELOAD
     else []).
Proof.
  intros Hm Hst cur n s'. subst s'. unfold Gapless.next.
  rewrite send_idle by done.
  destruct (next_step_spec s) as [Hplay Hgoto]. fold cur n in Hplay, Hgoto.
  destruct (state s) eqn:E; [| |congruence].
  - destruct (Hplay eq_refl) as (A1 & A2 & A3 & A4 & A5).
    rewrite E in A1. rewrite Hm in A3. simpl in A3.
    destruct (cur + 1 <? n) eqn:Hlt.
    + rewrite (settle_goto_play _ _ _ _ A1 A3).
      destruct (goto_step_exact (with_mailbox [PLAY] (step s NEXT))
                  (cur + 1) None) as (B0 & B1 & B2 & B3 & B4 & B5).
      simpl in B0, B1, B2, B3, B4, B5. rewrite A1 in B0, B5.
      fold (refs (step s NEXT)) in B5.
      assert (R : refs (with_mailbox [PLAY] (step s NEXT)) = refs s)
        by exact A2.
      rewrite !(sent_at_refs _ _ _ _ R) in B5.
      change (refs (with_mailbox [PLAY] (step s NEXT)))
        with (refs (step s NEXT)) in B5.
      rewrite A2 in B5. simpl.
      split; [exact B0|]. split; [reflexivity|].
      split; [etrans; [exact B2 | exact A2]|]. split; [exact B4|].
      rewrite B5, A5, <- !app_assoc. reflexivity.
    + rewrite queue_flush_nil by exact A3.
      rewrite app_nil_r. repeat split; assumption.
  - destruct (Hgoto eq_refl) as (A1 & A2 & A3 & A4 & A5).
    rewrite E in A1. rewrite Hm in A3. simpl in A3.
    destruct (cur + 1 <? n) eqn:Hlt.
    + rewrite (settle_goto _ _ _ _ A3).
      destruct (goto_step_exact (with_mailbox [] (step s NEXT))
                  (cur + 1) None) as (B0 & B1 & B2 & B3 & B4 & B5).
      simpl in B0, B1, B2, B3, B4, B5. rewrite A1 in B0, B5.
      assert (R : refs (with_mailbox [] (step s NEXT)) = refs s)
        by exact A2.
      rewrite !(sent_at_refs _ _ _ _ R) in B5.
      change (refs (with_mailbox [] (step s NEXT)))
        with (refs (step s NEXT)) in B5.
      rewrite A2 in B5. simpl in B5.
      split; [exact B0|]. split; [exact B3|].
      split; [etrans; [exact B2 | exact A2]|]. split; [exact B4|].
      rewrite B5, A5, <- !app_assoc. reflexivity.
    + rewrite queue_flush_nil by exact A3.
      rewrite app_nil_r. repeat split; assumption.
Qed.

(** X16: [next()] on an idle queue that has ended does nothing.
    Otherwise the current track is sent [DEACTIVATE]; if it has a
    successor the queue then goes to it as [gotoTrack] does (every track
    is sent [PAUSE], the successor [SEEK 0], [PLAY] if the queue is
    playing, and [PRELOAD]); on the last track that is all: the index
    stays, and the track that was deactivated is sent nothing more.  The
    state of the queue is unchanged in both cases. *)
Theorem next_moves_on_except_from_the_last_track :
  forall s,
    mailbox s = [] ->
    let cur := currentTrackIdx (context s) in
    let n := len (trackActors (context s)) in
    let s' := Gapless.next s in
    (state s = ended -> s' = s) /\
    (state s <> ended ->
     state s' = state s /\ mailbox s' = [] /\ refs s' = refs s /\
     (cur + 1 < n ->
      currentTrackIdx (context s') = cur + 1 /\
      sends_of (trace s') =
        sends_of (trace s) ++
        sent_at s cur Track.DEACTIVATE ++
        ((fun r => (r, Track.PAUSE)) <$> refs s) ++
        sent_at s (cur + 1) (Track.SEEK 0) ++
        match state s with
        | paused => []
        | _ => sent_at s (cur + 1) Track.PLAY
        end ++
        sent_at s (cur + 1) Track.PRELOAD) /\
     (n <= cur + 1 ->
      currentTrackIdx (context s') = cur /\
      sends_of (trace s') =
        sends_of (trace s) ++ sent_at s cur Track.DEACTIVATE)).
Proof.
  intros s Hm cur n s'. split.
  - intros Hst. subst s'. unfold Gapless.next. rewrite send_idle by done.
    assert (Hs : step s NEXT = s) by (unfold step; by rewrite Hst).
    rewrite Hs. by apply queue_flush_nil.
  - intros Hst.
    destruct (next_spec s Hm Hst) as (A1 & A2 & A3 & A4 & A5).
    fold cur n s' in A1, A2, A3, A4, A5.
    split; [exact A1|]. split; [exact A2|]. split; [exact A3|]. split.
    + intros Hlt. apply Z.ltb_lt in Hlt. rewrite Hlt in A4, A5. by split.
    + intros Hge. apply Z.ltb_ge in Hge. rewrite Hge in A4, A5.
      rewrite app_nil_r in A5. by split.
Qed.

Lemma next_moves_on_witness :
  mailbox player3 = [] /\
  state player3 <> ended /\
  currentTrackIdx (context player3) + 1 < len (trackActors (context player3))
  /\
  currentTrackIdx (context (Gapless.next player3))
    = currentTrackIdx (context player3) + 1.
Proof.
  assert (Hm : mailbox player3 = []) by (vm_compute; reflexivity).
  assert (Hst : state player3 <> ended)
    by (vm_compute; intros H; discriminate H).
  assert (Hlt : currentTrackIdx (context player3) + 1
                < len (trackActors (context player3)))
    by (vm_compute; reflexivity).
  split; [exact Hm|]. split; [exact Hst|]. split; [exact Hlt|].
  pose proof (next_moves_on_except_from_the_last_track player3 Hm) as H.
  cbv zeta in H. destruct H as (_ & H).
  destruct (H Hst) as (_ & _ & _ & H1 & _).
  exact (proj1 (H1 Hlt)).
Defined.

Lemma dropped s ev :
  mailbox s = [] -> step s ev = s -> send ev s = s.
Proof.
  intros Hm Hs. rewrite send_idle by done. rewrite Hs.
  by apply queue_flush_nil.
Qed.

(** What [play()] does to an idle queue. *)
Lemma play_spec s :
  mailbox s = [] ->
  let cur := currentTrackIdx (context s) in
  let s' := Gapless.play s in
  state s' = playing /\ mailbox s' = [] /\ refs s' = refs s /\
  currentTrackIdx (context s') =
    match state s with ended => 0 | _ => cur end /\
  sends_of (trace s') =
    sends_of (trace s) ++
    match state s with
    | playing => []
    | paused => sent_at s cur Track.PLAY
    | ended => sent_at s 0 Track.ACTIVATE ++ sent_at s 0 Track.PLAY
    end.
Proof.
  intros Hm cur s'. subst s'. unfold Gapless.play.
  destruct (state s) eqn:E.
  - rewrite dropped; [|done|unfold step; by rewrite E].
    rewrite app_nil_r. by repeat split.
  - rewrite send_idle by done.
    pose proof (spec_then_send_cur s s [] _ [] Track.PLAY eq_refl
                  (spec_refl s)) as (A1 & A2 & A3 & A4 & A5).
    rewrite Hm in A3. simpl in A3, A5.
    assert (Hs : step s PLAY =
                 with_state playing
                   (send_at (currentTrackIdx (context s)) Track.PLAY s)).
    { unfold step. rewrite E. reflexivity. }
    rewrite Hs, queue_flush_nil by exact A3. simpl. by repeat split.
  - rewrite send_idle by done.
    pose proof (spec_then_set_idx s s [] _ [] 0 (spec_refl s)) as H1.
    pose proof (spec_then_send_cur _ _ _ _ _ Track.ACTIVATE eq_refl H1) as H2.
    pose proof (spec_then_send_cur _ _ _ _ _ Track.PLAY eq_refl H2) as H3.
    pose proof (spec_then_notify _ _ _ _ _ PLAY H3)
      as (A1 & A2 & A3 & A4 & A5).
    rewrite Hm in A3. simpl in A3, A5.
    assert (Hs : step s PLAY =
                 with_state playing
                   (notifyStartNewTrack PLAY
                      (playCurrentTrack PLAY
                         (activateCurrentTrack PLAY
                            (resetToFirstTrack PLAY s))))).
    { unfold step. rewrite E. reflexivity. }
    rewrite Hs, queue_flush_nil by exact A3. simpl. by repeat split.
Qed.

(** What [pause()] does to an idle queue. *)
Lemma pause_spec s :
  mailbox s = [] ->
  let cur := currentTrackIdx (context s) in
  let s' := Gapless.pause s in
  (state s = playing ->
   state s' = paused /\ mailbox s' = [] /\ refs s' = refs s /\
   currentTrackIdx (context s') = cur /\
   sends_of (trace s') = sends_of (trace s) ++ sent_at s cur Track.PAUSE) /\
  (state s <> playing -> s' = s).
Proof.
  intros Hm cur s'. subst s'. unfold Gapless.pause. split.
  - intros E. rewrite send_idle by done.
    pose proof (spec_then_send_cur s s [] _ [] Track.PAUSE eq_refl
                  (spec_refl s)) as (A1 & A2 & A3 & A4 & A5).
    rewrite Hm in A3. simpl in A3, A5.
    assert (Hs : step s PAUSE =
                 with_state paused
                   (send_at (currentTrackIdx (context s)) Track.PAUSE s)).
    { unfold step. rewrite E. reflexivity. }
    rewrite Hs, queue_flush_nil by exact A3. simpl. by repeat split.
  - intros E. apply dropped; [done|]. unfold step.
    destruct (state s); [congruence | reflexivity | reflexivity].
Qed.

(** X17: [togglePlayPause()] on an idle queue pauses a playing
    queue (the current track is sent [PAUSE]) and plays any other: a
    paused queue sends [PLAY] to its current track, a queue that has
    ended goes back to its first track, which is sent [ACTIVATE] and
    [PLAY]. *)
Theorem togglePlayPause_follows_the_state_of_the_queue :
  forall s,
    mailbox s = [] ->
    let cur := currentTrackIdx (context s) in
    let s' := Gapless.togglePlayPause s in
    state s' = match state s with playing => paused | _ => playing end /\
    currentTrackIdx (context s') =
      match state s with ended => 0 | _ => cur end /\
    mailbox s' = [] /\ refs s' = refs s /\
    sends_of (trace s') =
      sends_of (trace s) ++
      match state s with
      | playing => sent_at s cur Track.PAUSE
      | paused => sent_at s cur Track.PLAY
      | ended => sent_at s 0 Track.ACTIVATE ++ sent_at s 0 Track.PLAY
      end.
Proof.
  intros s Hm cur s'. subst s'. unfold Gapless.togglePlayPause.
  destruct (state s) eqn:E.
  - destruct (pause_spec s Hm) as [H _].
    destruct (H E) as (A1 & A2 & A3 & A4 & A5). by repeat split.
  - destruct (play_spec s Hm) as (A1 & A2 & A3 & A4 & A5).
    rewrite E in A4, A5. by repeat split.
  - destruct (play_spec s Hm) as (A1 & A2 & A3 & A4 & A5).
    rewrite E in A4, A5. by repeat split.
Qed.

Lemma togglePlayPause_witness :
  mailbox player3 = [] /\
  state (Gapless.togglePlayPause player3) =
    match state player3 with playing => paused | _ => playing end.
Proof.
  assert (Hm : mailbox player3 = []) by (vm_compute; reflexivity).
  split; [exact Hm|].
  pose proof (togglePlayPause_follows_the_state_of_the_queue player3 Hm) as H.
  cbv zeta in H. exact (proj1 H).
Defined.

(** X18: after [setVolume(v)] the queue stores [v] clamped to
    [0,1], and the [volume] getter of the player, which reads
    [context.volume || 1], gives [v] back for [0 < v <= 1] and 1 for
    [v >= 1], but also 1 for [v <= 0]: a muted player reads as one at full
    volume. *)
Theorem the_volume_getter_reads_a_muted_queue_as_full_volume :
  forall s v,
    mailbox s = [] ->
    let s' := Gapless.setVolume v s in
    ((v <= 0)%Q -> Gapless.volume s' = 1%Q) /\
    ((0 < v)%Q -> (v <= 1)%Q -> (Gapless.volume s' == v)%Q) /\
    ((1 <= v)%Q -> Gapless.volume s' = 1%Q) /\
    (0 <= volume (context s') <= 1)%Q /\
    state s' = state s /\
    trackActors (context s') = trackActors (context s) /\
    trace s' = trace s /\
    mailbox s' = [].
Proof.
  intros s v Hm s'. subst s'. unfold Gapless.setVolume, Gapless.volume.
  rewrite send_idle by done.
  assert (Hs : step s (SET_VOLUME v) =
               with_context (set_volume (clamp01 v)) s).
  { unfold step. by destruct (state s). }
  rewrite Hs, queue_flush_nil by exact Hm. simpl.
  pose proof (clamp01_bounds v) as Hb.
  split; [|split; [|split; [|destruct Hb; by repeat split]]].
  - intros Hv. unfold clamp01, Math_max, Math_min, or_else, truthy.
    destruct (Qle_bool 1 v) eqn:E1;
      [apply Qle_bool_iff in E1; lra|].
    destruct (Qle_bool 0 v) eqn:E2; [|reflexivity].
    apply Qle_bool_iff in E2.
    assert (Hz : Qeq_bool v 0 = true) by (apply Qeq_bool_iff; lra).
    by rewrite Hz.
  - intros H0 H1. unfold clamp01, Math_max, Math_min, or_else, truthy.
    destruct (Qle_bool 1 v) eqn:E1.
    + apply Qle_bool_iff in E1. simpl. lra.
    + destruct (Qle_bool 0 v) eqn:E2.
      * destruct (Qeq_bool v 0) eqn:E3; simpl; [|reflexivity].
        apply Qeq_bool_iff in E3. lra.
      * assert (~ (0 <= v)%Q) by (rewrite <- Qle_bool_iff; congruence). lra.
  - intros Hv. unfold clamp01, Math_max, Math_min, or_else, truthy.
    apply Qle_bool_iff in Hv. by rewrite Hv.
Qed.

Lemma the_volume_getter_witness :
  mailbox player3 = [] /\
  (0 <= 0)%Q /\
  Gapless.volume (Gapless.setVolume 0 player3) = 1%Q.
Proof.
  assert (Hm : mailbox player3 = []) by (vm_compute; reflexivity).
  assert (H0 : (0 <= 0)%Q) by (vm_compute; intros H; discriminate H).
  split; [exact Hm|]. split; [exact H0|].
  pose proof (the_volume_getter_reads_a_muted_queue_as_full_volume
                player3 0%Q Hm) as H.
  cbv zeta in H. exact (proj1 H H0).
Defined.

(** ** Adding and removing tracks *)

Lemma findIndex_NoDup actors i a :
  NoDup (ref <$> actors) -> actors !! i = Some a ->
  findIndex actors (ref a) = Some i.
Proof.
  intros Hnd Ha. unfold findIndex.
  destruct (list_find (fun b => ref b = ref a) actors) as [[j b]|] eqn:E.
  - apply list_find_Some in E as (Hb & Hr & _). simpl. f_equal.
    eapply NoDup_lookup; [exact Hnd | |].
    + rewrite list_lookup_fmap, Hb. simpl. by rewrite Hr.
    + by rewrite list_lookup_fmap, Ha.
  - apply list_find_None in E. rewrite Forall_forall in E.
    exfalso. eapply E; [|reflexivity]. by eapply list_elem_of_lookup_2.
Qed.

Lemma at_index_lookup {A} (l : list A) i x :
  at_index l i = Some x -> l !! Z.to_nat i = Some x.
Proof. unfold at_index. by destruct (0 <=? i). Qed.

(** What [REMOVE_TRACK] does when the actor is found. *)
Lemma remove_step s r index :
  findIndex (trackActors (context s)) r = Some index ->
  step s (REMOVE_TRACK r) =
  with_context
    (fun c =>
       set_currentTrackIdx
         (if (len (trackActors (context s)) - 1 <=? currentTrackIdx (context s))
             && (0 <? currentTrackIdx (context s))
          then len (trackActors (context s)) - 1 - 1
          else currentTrackIdx (context s))
         (set_trackActors (delete index (trackActors (context s)))
            (set_tracks (delete index (tracks (context s))) c))) s.
Proof.
  intros H. unfold step.
  destruct (state s); cbn [on run_all fold_left]; unfold removeTrack;
    by rewrite H.
Qed.

(** X19: [removeTrack(i)] on an idle queue whose actors are
    distinct removes exactly the actor at position [i] and the URL at
    position [i]; the state of the queue is unchanged and nothing is sent
    to any track, so the removed track is not told to stop.  With an index
    out of range the call does nothing at all. *)
Theorem removeTrack_removes_the_track_at_the_index_and_tells_nobody :
  forall s i,
    mailbox s = [] ->
    NoDup (refs s) ->
    let s' := Gapless.removeTrack i s in
    (0 <= i < len (trackActors (context s)) ->
     trackActors (context s') =
       delete (Z.to_nat i) (trackActors (context s)) /\
     tracks (context s') = delete (Z.to_nat i) (tracks (context s)) /\
     state s' = state s /\
     trace s' = trace s /\
     world s' = world s /\
     mailbox s' = []) /\
    (i < 0 \/ len (trackActors (context s)) <= i -> s' = s).
Proof.
  intros s i Hm Hnd s'. subst s'. unfold Gapless.removeTrack. split.
  - intros [H0 Hi].
    destruct (at_index (trackActors (context s)) i) as [a|] eqn:Ha.
    + apply at_index_lookup in Ha.
      pose proof (findIndex_NoDup _ _ _ Hnd Ha) as Hf.
      rewrite send_idle by done. rewrite (remove_step _ _ _ Hf).
      rewrite queue_flush_nil by exact Hm. by repeat split.
    + exfalso. unfold at_index in Ha.
      destruct (0 <=? i) eqn:E; [|lia].
      apply lookup_ge_None in Ha. unfold len in Hi. lia.
  - intros Hout. by rewrite at_index_None.
Qed.

Lemma removeTrack_witness :
  mailbox player3 = [] /\
  NoDup (refs player3) /\
  0 <= 1 < len (trackActors (context player3)) /\
  trackActors (context (Gapless.removeTrack 1 player3)) =
    delete (Z.to_nat 1) (trackActors (context player3)).
Proof.
  assert (Hm : mailbox player3 = []) by (vm_compute; reflexivity).
  assert (Hnd : NoDup (refs player3))
    by (vm_compute; apply (bool_decide_unpack _); vm_compute; exact I).
  assert (Hi : 0 <= 1 < len (trackActors (context player3)))
    by (vm_compute; split; [intros H; discriminate H | reflexivity]).
  split; [exact Hm|]. split; [exact Hnd|]. split; [exact Hi|].
  pose proof (removeTrack_removes_the_track_at_the_index_and_tells_nobody
                player3 1 Hm Hnd) as H.
  cbv zeta in H. exact (proj1 (proj1 H Hi)).
Defined.

(** What [ADD_TRACK] does. *)
Lemma add_step s u k md :
  step s (ADD_TRACK u k md) = addTrack (ADD_TRACK u k md) s.
Proof. unfold step. by destruct (state s). Qed.

(** X20: [addTrack(url)] on an idle queue appends the URL and a
    new, idle, paused track actor with a fresh identity; the track gets
    the length of the list as index, the volume of the queue (1 if that
    is 0) and the [onEnded] of the options, but neither [onTrackEnded] nor
    [onTrackLoaded]: the queue will not hear of its end or of its load.
    The state, the index and the other tracks stay, and nothing is sent. *)
Theorem addTrack_appends_a_track_the_queue_does_not_listen_to :
  forall s u k md,
    mailbox s = [] ->
    let s' := Gapless.addTrack u k md s in
    exists a,
      trackActors (context s') = trackActors (context s) ++ [a] /\
      tracks (context s') = tracks (context s) ++ [u] /\
      ref a = next_ref s /\
      processing a = false /\ pending a = [] /\
      Track.value (track a) =
        {| Track.audioSource := Track.html;
           Track.playback := Track.paused |} /\
      Track.trackUrl (Track.context (track a)) = u /\
      Track.idx (Track.context (track a)) = len (tracks (context s)) /\
      Track.volume (Track.context (track a)) =
        or_else (volume (context s)) 1 /\
      Track.onTrackEnded (Track.context (track a)) = false /\
      Track.onTrackLoaded (Track.context (track a)) = false /\
      Track.onEnded (Track.context (track a)) = onEnded (context s) /\
      state s' = state s /\
      currentTrackIdx (context s') = currentTrackIdx (context s) /\
      trace s' = trace s /\
      mailbox s' = [].
Proof.
  intros s u k md Hm s'. subst s'. unfold Gapless.addTrack.
  rewrite send_idle by done. rewrite add_step.
  rewrite queue_flush_nil by exact Hm.
  eexists. unfold addTrack, spawn. simpl. repeat split; try reflexivity.
  exact Hm.
Qed.

Lemma addTrack_witness :
  mailbox player3 = [] /\
  tracks (context (Gapless.addTrack "d.mp3" None None player3)) =
    tracks (context player3) ++ ["d.mp3"%string].
Proof.
  assert (Hm : mailbox player3 = []) by (vm_compute; reflexivity).
  split; [exact Hm|].
  pose proof (addTrack_appends_a_track_the_queue_does_not_listen_to
                player3 "d.mp3"%string None None Hm) as H.
  cbv zeta in H. destruct H as (a & _ & H & _). exact H.
Defined.

(** X21: on a player, whatever has happened to it, adding a track
    and removing it again (at the index it got, the former length) gives
    back the context of the queue exactly (the URLs, the actors, the
    index) provided the index was within the tracks or at 0; nothing is
    sent and nothing is observed meanwhile. *)
Theorem removing_the_track_just_added_restores_the_queue :
  forall w avail options hs u k md,
    let s := player w avail options hs in
    let n := len (trackActors (context s)) in
    let s' := Gapless.removeTrack n (Gapless.addTrack u k md s) in
    currentTrackIdx (context s) < n \/ currentTrackIdx (context s) <= 0 ->
    context s' = context s /\ state s' = state s /\ trace s' = trace s /\
    mailbox s' = [] /\ world s' = world s.
Proof.
  intros w avail options hs u k md s n s' Hcur.
  destruct (player_well_cast w avail options hs) as [(W1 & W2 & W3) Hm].
  fold s in W1, W2, W3, Hm.
  assert (Hadd : Gapless.addTrack u k md s = addTrack (ADD_TRACK u k md) s).
  { unfold Gapless.addTrack. rewrite send_idle by done. rewrite add_step.
    by apply queue_flush_nil. }
  set (a := {| ref := next_ref s; processing := false; pending := [];
               track := Track.initial (audioContext_available s)
                 {| Track.input_trackUrl := u;
                    Track.input_idx := len (tracks (context s));
                    Track.input_volume := volume (context s);
                    Track.input_webAudioIsDisabled :=
                      webAudioIsDisabled (context s);
                    Track.input_skipHEAD := k;
                    Track.input_metadata := md;
                    Track.input_onProgress := onProgress (context s);
                    Track.input_onEnded := onEnded (context s);
                    Track.input_onTrackLoaded := false;
                    Track.input_onTrackEnded := false |} |}).
  set (s1 := addTrack (ADD_TRACK u k md) s) in *.
  assert (Hactors : trackActors (context s1) = trackActors (context s) ++ [a])
    by reflexivity.
  assert (Htracks : tracks (context s1) = tracks (context s) ++ [u])
    by reflexivity.
  assert (Hlen : length (tracks (context s)) = length (trackActors (context s))).
  { rewrite W1. unfold urls. by rewrite length_fmap. }
  assert (Hat : at_index (trackActors (context s1)) n = Some a).
  { unfold at_index, n, len. rewrite Hactors.
    destruct (0 <=? Z.of_nat (length (trackActors (context s)))) eqn:E; [|lia].
    rewrite Nat2Z.id. by apply list_lookup_middle. }
  assert (Hfind : findIndex (trackActors (context s1)) (ref a) =
                  Some (length (trackActors (context s)))).
  { apply findIndex_NoDup.
    - rewrite Hactors, fmap_app. simpl. fold (refs s).
      apply NoDup_app. split; [exact W2|]. split; [|apply NoDup_singleton].
      intros r Hr Hin. apply list_elem_of_singleton in Hin. subst r.
      rewrite Forall_forall in W3. specialize (W3 _ Hr). lia.
    - rewrite Hactors. by apply list_lookup_middle. }
  subst s'. rewrite Hadd. fold s1. unfold Gapless.removeTrack. rewrite Hat.
  rewrite send_idle by exact Hm.
  rewrite (remove_step _ _ _ Hfind).
  rewrite queue_flush_nil by exact Hm.
  assert (Hidx :
    (if (len (trackActors (context s1)) - 1 <=? currentTrackIdx (context s1))
        && (0 <? currentTrackIdx (context s1))
     then len (trackActors (context s1)) - 1 - 1
     else currentTrackIdx (context s1)) = currentTrackIdx (context s)).
  { change (currentTrackIdx (context s1)) with (currentTrackIdx (context s)).
    rewrite Hactors. unfold len. rewrite length_app. simpl.
    fold n in Hcur. unfold n, len in Hcur.
    destruct (_ <=? _) eqn:E1; destruct (0 <? _) eqn:E2; simpl;
      try reflexivity.
    apply Z.leb_le in E1. apply Z.ltb_lt in E2. lia. }
  rewrite Hidx, Hactors, Htracks.
  replace (delete (length (trackActors (context s)))
                  (trackActors (context s) ++ [a]))
    with (trackActors (context s)).
  2:{ rewrite delete_middle. by rewrite app_nil_r. }
  replace (delete (length (trackActors (context s)))
                  (tracks (context s) ++ [u]))
    with (tracks (context s)).
  2:{ rewrite <- Hlen, delete_middle. by rewrite app_nil_r. }
  simpl. split; [by destruct (context s)|]. by repeat split.
Qed.

Lemma removing_the_track_just_added_witness :
  currentTrackIdx
    (context (player w0 true (options ["a.mp3"; "b.mp3"]%string)
                     [Command PLAY; Command NEXT]))
  < len (trackActors
           (context (player w0 true (options ["a.mp3"; "b.mp3"]%string)
                            [Command PLAY; Command NEXT]))) /\
  context
    (Gapless.removeTrack
       (len (trackActors
               (context (player w0 true (options ["a.mp3"; "b.mp3"]%string)
                                [Command PLAY; Command NEXT]))))
       (Gapless.addTrack "c.mp3" None None
          (player w0 true (options ["a.mp3"; "b.mp3"]%string)
                  [Command PLAY; Command NEXT])))
  = context (player w0 true (options ["a.mp3"; "b.mp3"]%string)
                    [Command PLAY; Command NEXT]).
Proof.
  assert (H1 : currentTrackIdx
                 (context (player w0 true (options ["a.mp3"; "b.mp3"]%string)
                                  [Command PLAY; Command NEXT]))
               < len (trackActors
                        (context (player w0 true
                                         (options ["a.mp3"; "b.mp3"]%string)
                                         [Command PLAY; Command NEXT]))))
    by (vm_compute; reflexivity).
  split; [exact H1|].
  pose proof (removing_the_track_just_added_restores_the_queue
                w0 true (options ["a.mp3"; "b.mp3"]%string)
                [Command PLAY; Command NEXT] "c.mp3"%string None None) as H.
  cbv zeta in H. exact (proj1 (H (or_introl H1))).
Defined.

(** ** A track at work *)

Lemma find_actor_NoDup s i a :
  NoDup (refs s) -> trackActors (context s) !! i = Some a ->
  find_actor (ref a) s = Some (i, a).
Proof.
  intros Hnd Ha. unfold find_actor. apply list_find_Some.
  split; [exact Ha|]. split; [reflexivity|].
  intros j y Hy Hlt Hr.
  assert (j = i); [|lia].
  eapply NoDup_lookup; [exact Hnd | |]; unfold refs; rewrite list_lookup_fmap.
  - rewrite Hy. simpl. by rewrite Hr.
  - by rewrite Ha.
Qed.

Lemma list_find_insert_ref r (l : list TrackActor) i a j b b0 :
  list_find (fun x => ref x = r) l = Some (i, a) ->
  l !! j = Some b0 -> ref b = ref b0 ->
  list_find (fun x => ref x = r) (<[j:=b]> l) =
  Some (i, if decide (j = i) then b else a).
Proof.
  intros H Hj Hr.
  apply list_find_Some in H as (H1 & H2 & H3).
  apply list_find_Some. split; [|split].
  - destruct (decide (j = i)) as [->|Hne].
    + apply list_lookup_insert_eq. by eapply lookup_lt_Some.
    + by rewrite list_lookup_insert_ne.
  - destruct (decide (j = i)) as [->|Hne]; [|exact H2].
    rewrite Hr. congruence.
  - intros k y Hk Hlt. destruct (decide (j = k)) as [->|Hne].
    + rewrite list_lookup_insert_eq in Hk by (by eapply lookup_lt_Some).
      simplify_eq. rewrite Hr. by eapply H3.
    + rewrite list_lookup_insert_ne in Hk by done. by eapply H3.
Qed.

Lemma find_actor_set_actor r s i a b :
  find_actor r s = Some (i, a) -> ref b = ref a ->
  find_actor r (set_actor i b s) = Some (i, b).
Proof.
  intros H Hr. pose proof (find_actor_Some _ _ _ _ H) as [Ha _].
  unfold find_actor, set_actor. simpl.
  rewrite (list_find_insert_ref r _ i a i b a H Ha Hr).
  by rewrite decide_True.
Qed.

Lemma spec_set_actor s i a b :
  trackActors (context s) !! i = Some a -> ref b = ref a ->
  step_spec s (set_actor i b s) [] (currentTrackIdx (context s)) [].
Proof.
  intros Ha Hr. unfold step_spec, refs. simpl.
  rewrite list_fmap_insert, list_insert_id, !app_nil_r; [done|].
  rewrite list_lookup_fmap, Ha. simpl. by rewrite Hr.
Qed.

Lemma observe_set_actor_id s i a :
  trackActors (context s) !! i = Some a -> observe [] (set_actor i a s) = s.
Proof.
  intros Ha. destruct s as [st c mb w av nr tr]. destruct c. simpl in Ha.
  unfold observe, set_actor, with_context, set_trackActors. simpl.
  by rewrite app_nil_r, list_insert_id.
Qed.

Lemma observe_set_actor_twice s i a1 a2 os1 os2 :
  observe os2 (set_actor i a2 (observe os1 (set_actor i a1 s))) =
  observe (os1 ++ os2) (set_actor i a2 s).
Proof.
  unfold observe, set_actor, with_context, set_trackActors. simpl.
  by rewrite list_insert_insert_eq, app_assoc.
Qed.

Lemma observe_set_actor_after s i a os1 os2 :
  observe os2 (set_actor i a (observe os1 s)) =
  observe (os1 ++ os2) (set_actor i a s).
Proof.
  unfold observe, set_actor, with_context, set_trackActors. simpl.
  by rewrite app_assoc.
Qed.

(** The effects of a transition that calls no closure of the queue:
    they are observed, and what the track sends itself joins its
    mailbox. *)
Lemma absorb_all_quiet r es :
  forall s i a,
    find_actor r s = Some (i, a) ->
    Forall (fun e => calls_queue e = false) es ->
    fold_left (absorb r) es s =
    observe (TrackEffect r <$> es)
      (set_actor i {| ref := ref a; processing := processing a;
                      pending := pending a ++ Track.sent_of es;
                      track := track a |} s).
Proof.
  induction es as [|e es IH]; intros s i a Hf Hes.
  - simpl. rewrite app_nil_r. symmetry.
    replace {| ref := ref a; processing := processing a;
               pending := pending a; track := track a |} with a
      by by destruct a.
    apply observe_set_actor_id. by apply find_actor_Some in Hf as [? _].
  - inversion Hes as [|? ? He Hes']; subst.
    assert (Hother :
      Track.sent_of (e :: es) = Track.sent_of es ->
      absorb r s e = observe [TrackEffect r e] s ->
      fold_left (absorb r) (e :: es) s =
      observe (TrackEffect r <$> e :: es)
        (set_actor i {| ref := ref a; processing := processing a;
                        pending := pending a ++ Track.sent_of (e :: es);
                        track := track a |} s)).
    { intros Hs Ha. cbn [fold_left]. rewrite Ha, Hs.
      rewrite (IH (observe [TrackEffect r e] s) i a Hf Hes').
      by rewrite observe_set_actor_after. }
    destruct e; try discriminate He; try (apply Hother; reflexivity).
    cbn [fold_left].
    change (absorb r s (Track.SendSelf ev))
      with (enqueue_for r ev (observe [TrackEffect r (Track.SendSelf ev)] s)).
    unfold enqueue_for.
    change (find_actor r (observe [TrackEffect r (Track.SendSelf ev)] s))
      with (find_actor r s).
    rewrite Hf. cbv beta iota.
    set (a1 := {| ref := ref a; processing := processing a;
                  pending := pending a ++ [ev]; track := track a |}).
    assert (Hf1 : find_actor r
                    (set_actor i a1
                       (observe [TrackEffect r (Track.SendSelf ev)] s))
                  = Some (i, a1)).
    { apply (find_actor_set_actor r
               (observe [TrackEffect r (Track.SendSelf ev)] s) i a a1);
        [exact Hf | reflexivity]. }
    rewrite (IH _ i a1 Hf1 Hes').
    change (set_actor i a1 (observe [TrackEffect r (Track.SendSelf ev)] s))
      with (observe [TrackEffect r (Track.SendSelf ev)] (set_actor i a1 s)).
    rewrite observe_set_actor_twice. subst a1. simpl.
    by rewrite <- app_assoc.
Qed.

Lemma run_track_done fuel r s i a :
  find_actor r s = Some (i, a) -> pending a = [] ->
  run_track (S fuel) r s =
  set_actor i {| ref := ref a; processing := false; pending := [];
                 track := track a |} s.
Proof. intros Hf Hp. simpl. by rewrite Hf, Hp. Qed.

Lemma run_track_next fuel r s i a ev rest :
  find_actor r s = Some (i, a) -> pending a = ev :: rest ->
  run_track (S fuel) r s =
  run_track fuel r
    (fold_left (absorb r)
       (Track.out_effects (Track.step (world s) (track a) ev))
       (with_world (Track.out_world (Track.step (world s) (track a) ev))
          (set_actor i {| ref := ref a; processing := true; pending := rest;
                          track := Track.machine
                                     (Track.step (world s) (track a) ev) |}
             s))).
Proof. intros Hf Hp. simpl. by rewrite Hf, Hp. Qed.

Lemma rounds_app l1 l2 : rounds (l1 ++ l2) = (rounds l1 + rounds l2)%nat.
Proof. apply sum_list_with_app. Qed.

Lemma rounds_sent w m ev :
  (rounds (Track.sent_of (Track.out_effects (Track.step w m ev))) + 1
   <= rounds [ev])%nat.
Proof.
  pose proof (TrackFacts.step_sends_at_most_one w m ev) as Hle.
  pose proof (step_sends_internal w m ev) as Hall.
  assert (Hi : internal ev = true ->
               Track.sent_of (Track.out_effects (Track.step w m ev)) = []).
  { intros Hi. apply TrackFacts.step_mute; intros ->; discriminate. }
  destruct (Track.sent_of (Track.out_effects (Track.step w m ev)))
    as [|e [|e' l]]; simpl in Hle; [| |lia].
  - unfold rounds. simpl. destruct (internal ev); lia.
  - inversion Hall as [|? ? He _]; subst. unfold rounds. simpl. rewrite He.
    destruct (internal ev); [specialize (Hi eq_refl); discriminate | lia].
Qed.

Lemma flush_done fuel :
  forall w m mb done,
    Track.flush fuel w m mb done =
    {| Track.machine := Track.machine (Track.flush fuel w m mb []);
       Track.out_world := Track.out_world (Track.flush fuel w m mb []);
       Track.out_effects :=
         done ++ Track.out_effects (Track.flush fuel w m mb []);
       Track.out_pending := Track.out_pending (Track.flush fuel w m mb []) |}.
Proof.
  induction fuel as [|fuel IH]; intros w m mb done.
  - destruct mb; simpl; by rewrite app_nil_r.
  - destruct mb as [|ev rest]; simpl; [by rewrite app_nil_r|].
    rewrite IH.
    rewrite (IH _ _ _ (Track.out_effects (Track.step w m ev))).
    simpl. by rewrite app_assoc.
Qed.

(** More fuel changes nothing once the mailbox is empty. *)
Lemma flush_enough k fuel :
  forall w m mb done,
    Track.out_pending (Track.flush fuel w m mb done) = [] ->
    Track.flush (fuel + k) w m mb done = Track.flush fuel w m mb done.
Proof.
  induction fuel as [|fuel IH]; intros w m mb done H.
  - destruct mb; [|discriminate H]. by destruct k.
  - destruct mb as [|ev rest]; [reflexivity|]. simpl. by apply IH.
Qed.

Lemma collapse_round s i a1 a2 af w1 w2 os1 os2 :
  observe os2
    (with_world w2
       (set_actor i af
          (observe os1 (set_actor i a2 (with_world w1 (set_actor i a1 s))))))
  = observe (os1 ++ os2) (with_world w2 (set_actor i af s)).
Proof.
  destruct s as [st c mb w av nr tr]. destruct c.
  cbv [observe with_world set_actor with_context set_trackActors
       state context mailbox world audioContext_available next_ref trace
       tracks currentTrackIdx volume webAudioIsDisabled trackActors
       onProgress onEnded onPlayNextTrack onPlayPreviousTrack
       onStartNewTrack trackMetadata].
  by rewrite !list_insert_insert_eq, app_assoc.
Qed.

Lemma settle_actor s i b :
  observe [] (with_world (world s) (set_actor i b s)) = set_actor i b s.
Proof.
  unfold observe, with_world, set_actor, with_context. simpl.
  by rewrite app_nil_r.
Qed.

(** A track whose pending events call no closure of the queue, because
    it has none or because the events are not the ones that do, empties
    its mailbox as [Track.flush] does, and the queue only watches. *)
Lemma run_track_quiet fuel :
  forall r s i a,
    find_actor r s = Some (i, a) ->
    unwired (Track.context (track a)) \/
    Forall (fun ev => quiet ev = true) (pending a) ->
    (rounds (pending a) < fuel)%nat ->
    run_track fuel r s =
    observe
      (TrackEffect r <$>
         Track.out_effects
           (Track.flush fuel (world s) (track a) (pending a) []))
      (with_world
         (Track.out_world
            (Track.flush fuel (world s) (track a) (pending a) []))
         (set_actor i
            {| ref := ref a; processing := false; pending := [];
               track := Track.machine
                          (Track.flush fuel (world s) (track a) (pending a)
                                       []) |} s)) /\
    Track.out_pending (Track.flush fuel (world s) (track a) (pending a) [])
    = [].
Proof.
  induction fuel as [|fuel IH]; intros r s i a Hf Hc Hlt; [lia|].
  pose proof (find_actor_Some _ _ _ _ Hf) as [Ha Hr].
  destruct (pending a) as [|ev rest] eqn:Hp.
  - rewrite (run_track_done _ _ _ _ _ Hf Hp). simpl.
    split; [|reflexivity]. symmetry. apply settle_actor.
  - rewrite (run_track_next _ _ _ _ _ _ _ Hf Hp).
    assert (Hes : Forall (fun e => calls_queue e = false)
                    (Track.out_effects (Track.step (world s) (track a) ev))).
    { destruct Hc as [Hu|Hq]; [by apply unwired_step|].
      inversion Hq; subst. by apply TrackFacts.step_silent. }
    set (o := Track.step (world s) (track a) ev) in *.
    set (a1 := {| ref := ref a; processing := true; pending := rest;
                  track := Track.machine o |}).
    set (a2 := {| ref := ref a; processing := true;
                  pending := rest ++ Track.sent_of (Track.out_effects o);
                  track := Track.machine o |}).
    assert (Hf1 : find_actor r (with_world (Track.out_world o)
                                  (set_actor i a1 s)) = Some (i, a1))
      by by apply (find_actor_set_actor r s i a a1).
    rewrite (absorb_all_quiet r _ _ i a1 Hf1 Hes).
    change {| ref := ref a1; processing := processing a1;
              pending := pending a1 ++ Track.sent_of (Track.out_effects o);
              track := track a1 |} with a2.
    set (s2 := observe (TrackEffect r <$> Track.out_effects o)
                 (set_actor i a2
                    (with_world (Track.out_world o) (set_actor i a1 s)))).
    assert (Hf2 : find_actor r s2 = Some (i, a2)).
    { change (find_actor r (set_actor i a2 (set_actor i a1 s))
              = Some (i, a2)).
      apply (find_actor_set_actor r (set_actor i a1 s) i a1 a2);
        [|reflexivity].
      by apply (find_actor_set_actor r s i a a1). }
    destruct (IH r s2 i a2 Hf2) as [E1 E2].
    + cbn [track pending a2]. destruct Hc as [Hu|Hq]; [left|right].
      * eapply unwired_constants; [|exact Hu]. apply constants_step.
      * inversion Hq; subst. apply Forall_app. split; [done|].
        eapply Forall_impl; [apply step_sends_internal|].
        intros x. apply TrackFacts.internal_quiet.
    + cbn [pending a2]. rewrite rounds_app.
      pose proof (rounds_sent (world s) (track a) ev) as Hw. fold o in Hw.
      pose proof (rounds_app [ev] rest) as Hsum. simpl app in Hsum.
      lia.
    + cbn [Track.flush]. fold o.
      rewrite (flush_done fuel _ _ _ ([] ++ Track.out_effects o)).
      cbn [Track.machine Track.out_world Track.out_effects Track.out_pending
           app].
      split; [|exact E2]. rewrite E1.
      cbn [track pending a2 ref]. unfold s2.
      change (world (observe (TrackEffect r <$> Track.out_effects o)
                (set_actor i a2
                   (with_world (Track.out_world o) (set_actor i a1 s)))))
        with (Track.out_world o).
      rewrite collapse_round. by rewrite fmap_app.
Qed.

(** X22: an event of the browser that reaches an idle track which
    has no closure of the queue (a track added with [addTrack]), or an
    event other than [ENDED] and [WEBAUDIO_LOADED] that reaches any idle
    track, is handled by the track exactly as an event the queue sends
    it, and the queue does not notice: its state, its index, its mailbox
    and its other tracks stay as they are and it sends nothing.  In
    particular the end of an added track does not make the queue
    advance. *)
Theorem a_track_reaches_the_queue_only_through_its_closures :
  forall s r i a ev,
    find_actor r s = Some (i, a) ->
    pending a = [] ->
    unwired (Track.context (track a)) \/ quiet ev = true ->
    let o := Track.send (world s) (track a) ev in
    let s' := signal r ev s in
    state s' = state s /\
    currentTrackIdx (context s') = currentTrackIdx (context s) /\
    mailbox s' = mailbox s /\
    refs s' = refs s /\
    sends_of (trace s') = sends_of (trace s) /\
    trace s' = trace s ++ (TrackEffect r <$> Track.out_effects o) /\
    world s' = Track.out_world o /\
    find_actor r s' =
      Some (i, {| ref := ref a; processing := false; pending := [];
                  track := Track.machine o |}) /\
    (forall j, j <> i ->
               trackActors (context s') !! j = trackActors (context s) !! j).
Proof.
  intros s r i a ev Hf Hp Hc o s'. subst s'. unfold signal. rewrite Hf.
  pose proof (find_actor_Some _ _ _ _ Hf) as [Ha Hr].
  set (a0 := {| ref := ref a; processing := true; pending := pending a ++ [ev];
                track := track a |}).
  assert (Hf0 : find_actor r (set_actor i a0 s) = Some (i, a0))
    by by apply (find_actor_set_actor r s i a).
  destruct (run_track_quiet track_fuel r (set_actor i a0 s) i a0 Hf0)
    as [E _].
  - cbn [track pending a0]. rewrite Hp.
    destruct Hc as [Hu|Hq]; [by left | right; by repeat constructor].
  - cbn [pending a0]. rewrite Hp. unfold rounds, track_fuel. simpl.
    destruct (internal ev); lia.
  - rewrite E. cbn [track pending a0 ref]. rewrite Hp.
    change (world (set_actor i a0 s)) with (world s).
    change (pending a ++ [ev]) with (pending a ++ [ev]).
    assert (Ho : Track.flush track_fuel (world s) (track a) ([] ++ [ev]) []
                 = o).
    { apply (flush_enough 6 2). apply TrackFacts.send_completes. }
    rewrite Ho.
    set (af := {| ref := ref a; processing := false; pending := [];
                  track := Track.machine o |}).
    assert (Hins : <[i:=af]> (<[i:=a0]> (trackActors (context s)))
                   = <[i:=af]> (trackActors (context s)))
      by apply list_insert_insert_eq.
    unfold refs. simpl. rewrite Hins.
    split; [reflexivity|]. split; [reflexivity|]. split; [reflexivity|].
    split.
    { rewrite list_fmap_insert. apply list_insert_id.
      rewrite list_lookup_fmap, Ha. reflexivity. }
    split; [by rewrite sends_of_app, sends_of_effects, app_nil_r|].
    split; [reflexivity|]. split; [reflexivity|]. split.
    + unfold find_actor. simpl. rewrite Hins.
      exact (find_actor_set_actor r s i a af Hf eq_refl).
    + intros j Hj. by rewrite list_lookup_insert_ne.
Qed.

Lemma a_track_reaches_the_queue_witness :
  exists i a,
    find_actor 3
      (Gapless.gotoTrack 3 true
         (Gapless.play (Gapless.addTrack "d.mp3" None None player3)))
    = Some (i, a) /\
    pending a = [] /\
    unwired (Track.context (track a)) /\
    Track.playback (Track.value (track a)) = Track.playing /\
    state
      (signal 3 Track.ENDED
         (Gapless.gotoTrack 3 true
            (Gapless.play (Gapless.addTrack "d.mp3" None None player3))))
    = state
        (Gapless.gotoTrack 3 true
           (Gapless.play (Gapless.addTrack "d.mp3" None None player3))).
Proof.
  let v := eval vm_compute in
    (find_actor 3
       (Gapless.gotoTrack 3 true
          (Gapless.play (Gapless.addTrack "d.mp3" None None player3)))) in
  lazymatch v with
  | Some (?i, ?a) =>
      exists i, a;
      assert (Hf : find_actor 3
                     (Gapless.gotoTrack 3 true
                        (Gapless.play
                           (Gapless.addTrack "d.mp3" None None player3)))
                   = Some (i, a)) by (vm_compute; reflexivity);
      assert (Hp : pending a = []) by reflexivity;
      assert (Hu : unwired (Track.context (track a)))
        by (split; reflexivity);
      split; [exact Hf|]; split; [exact Hp|]; split; [exact Hu|];
      split; [reflexivity|];
      exact (proj1 (a_track_reaches_the_queue_only_through_its_closures
                      _ 3%nat i a Track.ENDED Hf Hp (or_introl Hu)))
  end.
Defined.

(** ** A track that calls the queue *)

Ltac open_system s :=
  let st := fresh "st" in let c := fresh "c" in let mb := fresh "mb" in
  let w := fresh "w" in let av := fresh "av" in let nr := fresh "nr" in
  let tr := fresh "tr" in
  destruct s as [st c mb w av nr tr]; destruct c;
  cbv [observe with_world with_mailbox with_state set_actor with_context
       set_trackActors set_currentTrackIdx
       state context mailbox world audioContext_available next_ref trace
       tracks currentTrackIdx volume webAudioIsDisabled trackActors
       onProgress onEnded onPlayNextTrack onPlayPreviousTrack
       onStartNewTrack trackMetadata] in *.

Lemma set_actor_twice s i a b :
  set_actor i b (set_actor i a s) = set_actor i b s.
Proof. open_system s. by rewrite list_insert_insert_eq. Qed.

Lemma set_actor_id s i a :
  trackActors (context s) !! i = Some a -> set_actor i a s = s.
Proof. intros Ha. open_system s. by rewrite list_insert_id. Qed.

Lemma find_actor_set_actor_ne r s i a j b b0 :
  find_actor r s = Some (i, a) ->
  trackActors (context s) !! j = Some b0 -> ref b = ref b0 -> j <> i ->
  find_actor r (set_actor j b s) = Some (i, a).
Proof.
  intros Hf Hj Hr Hne. unfold find_actor, set_actor. simpl.
  rewrite (list_find_insert_ref r _ i a j b b0 Hf Hj Hr).
  by rewrite decide_False.
Qed.

(** The browser sends [ev] to an idle track: the first transition. *)
Lemma signal_unfold r ev s i a :
  find_actor r s = Some (i, a) -> pending a = [] ->
  signal r ev s =
  run_track 7 r
    (fold_left (absorb r)
       (Track.out_effects (Track.step (world s) (track a) ev))
       (with_world (Track.out_world (Track.step (world s) (track a) ev))
          (set_actor i {| ref := ref a; processing := true; pending := [];
                          track := Track.machine
                                     (Track.step (world s) (track a) ev) |}
             s))).
Proof.
  intros Hf Hp. unfold signal. rewrite Hf, Hp.
  set (a0 := {| ref := ref a; processing := true; pending := [] ++ [ev];
                track := track a |}).
  assert (Hf0 : find_actor r (set_actor i a0 s) = Some (i, a0))
    by by apply (find_actor_set_actor r s i a).
  change track_fuel with 8%nat.
  rewrite (run_track_next 7 r (set_actor i a0 s) i a0 ev [] Hf0 eq_refl).
  by rewrite set_actor_twice.
Qed.

(** Effects that neither call the queue nor send to the track. *)
Lemma absorb_mute r es s i a :
  find_actor r s = Some (i, a) ->
  Forall (fun e => calls_queue e = false) es ->
  Track.sent_of es = [] ->
  fold_left (absorb r) es s = observe (TrackEffect r <$> es) s.
Proof.
  intros Hf H1 H2. rewrite (absorb_all_quiet r es s i a Hf H1), H2, app_nil_r.
  replace {| ref := ref a; processing := processing a;
             pending := pending a; track := track a |} with a
    by by destruct a.
  rewrite set_actor_id; [done|]. by apply find_actor_Some in Hf as [? _].
Qed.

(** What the queue sends reaches a track in the middle of an event as
    one more pending event. *)
Lemma find_actor_send_to r s j ev i a :
  find_actor r s = Some (i, a) -> processing a = true ->
  find_actor r (send_to j ev s) =
  Some (i, {| ref := ref a; processing := true;
              pending := pending a ++ (if decide (j = i) then [ev] else []);
              track := track a |}).
Proof.
  intros Hf Hp. pose proof (find_actor_Some _ _ _ _ Hf) as [Ha Hr].
  assert (Hsame : {| ref := ref a; processing := true;
                     pending := pending a ++ []; track := track a |} = a).
  { rewrite app_nil_r, <- Hp. by destruct a. }
  unfold send_to. destruct (trackActors (context s) !! j) as [b0|] eqn:Hj.
  - destruct (decide (j = i)) as [->|Hne].
    + assert (b0 = a) by congruence. subst b0. rewrite Hp.
      apply (find_actor_set_actor r (observe [Sent (ref a) ev] s) i a);
        [exact Hf | reflexivity].
    + rewrite Hsame. destruct (processing b0).
      * apply (find_actor_set_actor_ne r (observe [Sent (ref b0) ev] s)
                 i a j _ b0); done.
      * change (find_actor r
                  (set_actor j
                     {| ref := ref b0; processing := false;
                        pending := pending b0;
                        track := Track.machine
                                   (Track.send (world s) (track b0) ev) |}
                     s) = Some (i, a)).
        apply (find_actor_set_actor_ne r s i a j _ b0); done.
  - rewrite decide_False by congruence. by rewrite Hsame.
Qed.

Lemma find_actor_send_at_hit r s j ev i a :
  find_actor r s = Some (i, a) -> processing a = true ->
  0 <= j -> Z.to_nat j = i ->
  find_actor r (send_at j ev s) =
  Some (i, {| ref := ref a; processing := true;
              pending := pending a ++ [ev]; track := track a |}).
Proof.
  intros Hf Hp H0 Hi. unfold send_at.
  destruct (0 <=? j) eqn:E; [|lia].
  rewrite (find_actor_send_to r s _ ev i a Hf Hp). by rewrite decide_True.
Qed.

Lemma find_actor_send_at_miss r s j ev i a :
  find_actor r s = Some (i, a) -> processing a = true ->
  j < 0 \/ Z.to_nat j <> i ->
  find_actor r (send_at j ev s) = Some (i, a).
Proof.
  intros Hf Hp Hj. unfold send_at.
  destruct (0 <=? j) eqn:E; [|exact Hf].
  rewrite (find_actor_send_to r s _ ev i a Hf Hp).
  rewrite decide_False by lia. rewrite app_nil_r, <- Hp. by destruct a.
Qed.

Lemma find_actor_send_at r s j ev i a :
  find_actor r s = Some (i, a) -> processing a = true ->
  exists p,
    (p = [] \/ p = [ev]) /\
    find_actor r (send_at j ev s) =
    Some (i, {| ref := ref a; processing := true;
                pending := pending a ++ p; track := track a |}).
Proof.
  intros Hf Hp. unfold send_at. destruct (0 <=? j).
  - rewrite (find_actor_send_to r s _ ev i a Hf Hp).
    destruct (decide (Z.to_nat j = i)); eauto.
  - exists []. split; [by left|].
    rewrite app_nil_r, <- Hp. rewrite Hf. by destruct a.
Qed.

(** *** A track has loaded *)

Lemma handleTrackLoaded_spec s k :
  let cur := currentTrackIdx (context s) in
  let n := len (trackActors (context s)) in
  step_spec s (handleTrackLoaded (TRACK_LOADED k) s) [] cur
    (if (k =? cur) && (cur + 1 <? n)
     then sent_at s (cur + 1) Track.PRELOAD else []).
Proof.
  intros cur n. unfold handleTrackLoaded. fold cur n.
  destruct (k =? cur); destruct (cur + 1 <? n); simpl;
    try apply spec_refl.
  by apply spec_send_at.
Qed.

Lemma loaded_send s k :
  mailbox s = [] ->
  send (TRACK_LOADED k) s = handleTrackLoaded (TRACK_LOADED k) s.
Proof.
  intros Hm. rewrite send_idle by done.
  assert (H : step s (TRACK_LOADED k) = handleTrackLoaded (TRACK_LOADED k) s)
    by (unfold step; by destruct (state s)).
  rewrite H. apply queue_flush_nil.
  destruct (handleTrackLoaded_spec s k) as (_ & _ & -> & _). by rewrite Hm.
Qed.

Lemma handleTrackLoaded_actor r s k i a :
  find_actor r s = Some (i, a) -> processing a = true ->
  exists p,
    (p = [] \/ p = [Track.PRELOAD]) /\
    find_actor r (handleTrackLoaded (TRACK_LOADED k) s) =
    Some (i, {| ref := ref a; processing := true;
                pending := pending a ++ p; track := track a |}).
Proof.
  intros Hf Hp.
  assert (Hsame : find_actor r s =
                  Some (i, {| ref := ref a; processing := true;
                              pending := pending a ++ [];
                              track := track a |})).
  { rewrite app_nil_r, <- Hp, Hf. by destruct a. }
  unfold handleTrackLoaded.
  destruct (k =? _); [|exists []; split; [by left | exact Hsame]].
  destruct (_ <? _); [|exists []; split; [by left | exact Hsame]].
  by apply find_actor_send_at.
Qed.

(** X23: when the decoded buffer arrives at an idle, loading
    track that the queue spawned with [onTrackLoaded], the track tells
    the queue, and the queue sends [PRELOAD] to the track after the
    current one exactly when the index the track was spawned with is the
    current index and the current track has a successor; it sends nothing
    otherwise.  The state and the index of the queue are unchanged, both
    mailboxes end empty, and the track holds the buffer. *)
Theorem when_a_track_has_loaded_the_queue_preloads_the_next_one :
  forall s r i a b,
    mailbox s = [] ->
    find_actor r s = Some (i, a) ->
    pending a = [] ->
    Track.audioSource (Track.value (track a)) = Track.loadingWebAudio ->
    Track.onTrackLoaded (Track.context (track a)) = true ->
    let cur := currentTrackIdx (context s) in
    let n := len (trackActors (context s)) in
    let s' := signal r (Track.WEBAUDIO_LOADED b) s in
    state s' = state s /\
    currentTrackIdx (context s') = cur /\
    mailbox s' = [] /\
    refs s' = refs s /\
    sends_of (trace s') =
      sends_of (trace s) ++
      (if (Track.idx (Track.context (track a)) =? cur) && (cur + 1 <? n)
       then sent_at s (cur + 1) Track.PRELOAD else []) /\
    exists a',
      find_actor r s' = Some (i, a') /\
      processing a' = false /\ pending a' = [] /\
      Track.audioBuffer (Track.context (track a')) = Some b.
Proof.
  intros s r i a b Hm Hf Hp Hsrc Hwired cur n s'. subst s'.
  pose proof (find_actor_Some _ _ _ _ Hf) as [Ha Hr].
  rewrite (signal_unfold _ _ _ _ _ Hf Hp).
  destruct (loaded_step_effects (world s) (track a) b Hsrc)
    as (rest & Hes & Hrest & Hsent & T1 & _ & T3).
  set (o := Track.step (world s) (track a) (Track.WEBAUDIO_LOADED b)) in *.
  rewrite Hes, Hwired. cbn [app fold_left].
  set (k := Track.idx (Track.context (track a))).
  set (a1 := {| ref := ref a; processing := true; pending := [];
                track := Track.machine o |}).
  set (s1 := with_world (Track.out_world o) (set_actor i a1 s)).
  change (absorb r s1 (Track.CallOnTrackLoaded k))
    with (send (TRACK_LOADED k)
            (observe [TrackEffect r (Track.CallOnTrackLoaded k)] s1)).
  set (s2 := observe [TrackEffect r (Track.CallOnTrackLoaded k)] s1).
  assert (S2 : step_spec s s2 [] cur []).
  { pose proof (spec_set_actor s i a a1 Ha eq_refl) as H1.
    pose proof (spec_then_observe s (set_actor i a1 s) [] cur []
                  [TrackEffect r (Track.CallOnTrackLoaded k)] eq_refl H1)
      as H2.
    exact H2. }
  assert (Hf2 : find_actor r s2 = Some (i, a1))
    by by apply (find_actor_set_actor r s i a a1).
  assert (Hm2 : mailbox s2 = []) by exact Hm.
  rewrite (loaded_send s2 k Hm2).
  set (s3 := handleTrackLoaded (TRACK_LOADED k) s2).
  pose proof (handleTrackLoaded_spec s2 k) as S3. fold s3 in S3.
  cbv zeta in S3.
  destruct (handleTrackLoaded_actor r s2 k i a1 Hf2 eq_refl)
    as (p & Hpq & Hf3).
  fold s3 in Hf3. cbn [ref pending track a1 app] in Hf3.
  set (a3 := {| ref := ref a; processing := true; pending := p;
                track := Track.machine o |}) in *.
  rewrite (absorb_mute r rest s3 i a3 Hf3 Hrest Hsent).
  set (s4 := observe (TrackEffect r <$> rest) s3).
  assert (Hf4 : find_actor r s4 = Some (i, a3)) by exact Hf3.
  destruct (run_track_quiet 7 r s4 i a3 Hf4) as [E _].
  { right. cbn [pending a3]. destruct Hpq as [->| ->]; by repeat constructor. }
  { cbn [pending a3]. destruct Hpq as [->| ->]; unfold rounds; simpl; lia. }
  rewrite E. cbn [ref pending track a3].
  set (fl := Track.flush 7 (world s4) (Track.machine o) p []).
  set (af := {| ref := ref a; processing := false; pending := [];
                track := Track.machine fl |}).
  assert (S4 : step_spec s3 s4 [] (currentTrackIdx (context s3)) [])
    by (apply spec_observe, sends_of_effects).
  pose proof (find_actor_Some _ _ _ _ Hf4) as [Ha4 _].
  pose proof (spec_set_actor s4 i a3 af Ha4 eq_refl) as S5.
  pose proof (spec_then_observe s4 (set_actor i af s4) [] _ []
                (TrackEffect r <$> Track.out_effects fl)
                (sends_of_effects _ _) S5) as S6.
  pose proof (spec_trans _ _ _ _ _ _ _ _ _ S2 S3) as S23.
  pose proof (spec_trans _ _ _ _ _ _ _ _ _ S23 S4) as S24.
  pose proof (spec_trans _ _ _ _ _ _ _ _ _ S24 S6)
    as (A1 & A2 & A3 & A4 & A5).
  cbn [app] in A3, A5. rewrite !app_nil_r in A5. rewrite Hm in A3.
  assert (R2 : refs s2 = refs s) by apply S2.
  assert (I2 : currentTrackIdx (context s2) = cur) by apply S2.
  assert (I3 : currentTrackIdx (context s3) = cur)
    by (destruct S3 as (_ & _ & _ & -> & _); exact I2).
  assert (I4 : currentTrackIdx (context s4) = cur) by exact I3.
  split; [exact A1|]. split; [rewrite <- I4; exact A4|].
  split; [exact A3|]. split; [exact A2|]. split.
  - etrans; [exact A5|]. f_equal.
    rewrite I2, (len_trackActors_refs _ _ R2).
    by rewrite (sent_at_refs _ _ _ _ R2).
  - exists af. split; [|split; [reflexivity|split; [reflexivity|]]].
    + exact (find_actor_set_actor r s4 i a3 af Hf4 eq_refl).
    + cbn [track af]. unfold fl.
      destruct (flush_both
                  (fun m => Track.audioBuffer (Track.context m) = Some b /\
                            Track.audioSource (Track.value m)
                            <> Track.loadingWebAudio)
                  (fun e => is_fetch e = false)
                  (keeps_buffer_step b) 7 (world s4) (Track.machine o)
                  p []) as [[H1 _] _]; [|constructor|exact H1].
      split; [exact T3|]. rewrite T1. discriminate.
Qed.

Lemma when_a_track_has_loaded_witness :
  exists i a,
    mailbox player3 = [] /\
    find_actor 0 player3 = Some (i, a) /\
    pending a = [] /\
    Track.audioSource (Track.value (track a)) = Track.loadingWebAudio /\
    Track.onTrackLoaded (Track.context (track a)) = true /\
    sends_of (trace (signal 0 (Track.WEBAUDIO_LOADED buffer100) player3)) =
      sends_of (trace player3) ++
      (if (Track.idx (Track.context (track a))
           =? currentTrackIdx (context player3))
          && (currentTrackIdx (context player3) + 1
              <? len (trackActors (context player3)))
       then sent_at player3 (currentTrackIdx (context player3) + 1)
                    Track.PRELOAD
       else []).
Proof.
  let v := eval vm_compute in (find_actor 0 player3) in
  lazymatch v with
  | Some (?i, ?a) =>
      exists i, a;
      assert (Hm : mailbox player3 = []) by (vm_compute; reflexivity);
      assert (Hf : find_actor 0 player3 = Some (i, a))
        by (vm_compute; reflexivity);
      assert (Hp : pending a = []) by reflexivity;
      assert (Hs : Track.audioSource (Track.value (track a))
                   = Track.loadingWebAudio) by reflexivity;
      assert (Hw : Track.onTrackLoaded (Track.context (track a)) = true)
        by reflexivity;
      split; [exact Hm|]; split; [exact Hf|]; split; [exact Hp|];
      split; [exact Hs|]; split; [exact Hw|];
      pose proof (when_a_track_has_loaded_the_queue_preloads_the_next_one
                    player3 0%nat i a buffer100 Hm Hf Hp Hs Hw) as H;
      cbv zeta in H; exact (proj1 (proj2 (proj2 (proj2 (proj2 H)))))
  end.
Defined.

(** *** A track has ended *)

Lemma ended_send_advance s :
  mailbox s = [] -> state s = playing ->
  currentTrackIdx (context s) + 1 < len (trackActors (context s)) ->
  send TRACK_ENDED s = autoAdvanceToNext TRACK_ENDED s.
Proof.
  intros Hm Hst Hlt. rewrite send_idle by done.
  assert (H : step s TRACK_ENDED = autoAdvanceToNext TRACK_ENDED s).
  { unfold step. rewrite Hst. cbn [on]. unfold isLastTrack.
    destruct (_ <=? _) eqn:E; [apply Z.leb_le in E; lia|]. reflexivity. }
  rewrite H. apply queue_flush_nil.
  destruct (autoAdvanceToNext_spec TRACK_ENDED s Hlt) as (_ & _ & -> & _).
  by rewrite Hm.
Qed.

Lemma ended_send_last s :
  mailbox s = [] -> state s = playing ->
  len (trackActors (context s)) - 1 <= currentTrackIdx (context s) ->
  send TRACK_ENDED s =
  with_state ended
    (if onEnded (context s) then observe [CallOnEnded] s else s).
Proof.
  intros Hm Hst Hlast. rewrite send_idle by done.
  assert (H : step s TRACK_ENDED =
              with_state ended
                (if onEnded (context s) then observe [CallOnEnded] s else s)).
  { unfold step. rewrite Hst. cbn [on]. unfold isLastTrack.
    destruct (_ <=? _) eqn:E; [reflexivity|]. apply Z.leb_gt in E. lia. }
  rewrite H. apply queue_flush_nil. by destruct (onEnded (context s)).
Qed.

Lemma ended_send_dropped s :
  mailbox s = [] -> state s <> playing -> send TRACK_ENDED s = s.
Proof.
  intros Hm Hst. apply dropped; [exact Hm|]. unfold step.
  destruct (state s); [congruence | reflexivity | reflexivity].
Qed.

(** Auto-advance, seen from the current track when it is the one that
    reported its end: [DEACTIVATE] waits in its mailbox. *)
Lemma autoAdvance_current_busy r s a ev :
  let cur := currentTrackIdx (context s) in
  0 <= cur ->
  find_actor r s = Some (Z.to_nat cur, a) -> processing a = true ->
  cur + 1 < len (trackActors (context s)) ->
  find_actor r (autoAdvanceToNext ev s) =
  Some (Z.to_nat cur,
        {| ref := ref a; processing := true;
           pending := pending a ++ [Track.DEACTIVATE]; track := track a |}).
Proof.
  intros cur H0 Hf Hp Hlt. unfold autoAdvanceToNext. fold cur.
  apply Z.ltb_lt in Hlt. rewrite Hlt.
  pose proof (find_actor_send_at_hit r s cur Track.DEACTIVATE _ a Hf Hp H0
                eq_refl) as H1.
  set (s1 := send_at cur Track.DEACTIVATE s) in *.
  set (a1 := {| ref := ref a; processing := true;
                pending := pending a ++ [Track.DEACTIVATE];
                track := track a |}) in *.
  assert (H2 : find_actor r (send_at (cur + 1) Track.ACTIVATE s1)
               = Some (Z.to_nat cur, a1)).
  { apply find_actor_send_at_miss; [exact H1 | reflexivity | lia]. }
  set (s2 := send_at (cur + 1) Track.ACTIVATE s1) in *.
  assert (H3 : find_actor r (send_at (cur + 1) Track.PLAY s2)
               = Some (Z.to_nat cur, a1)).
  { apply find_actor_send_at_miss; [exact H2 | reflexivity | lia]. }
  set (s3 := send_at (cur + 1) Track.PLAY s2) in *.
  assert (H4 : find_actor r
                 (if cur + 1 + 1 <? len (trackActors (context s))
                  then send_at (cur + 1 + 1) Track.PRELOAD s3 else s3)
               = Some (Z.to_nat cur, a1)).
  { destruct (cur + 1 + 1 <? len (trackActors (context s))); [|exact H3].
    apply find_actor_send_at_miss; [exact H3 | reflexivity | lia]. }
  destruct (onPlayNextTrack (context s)), (onStartNewTrack (context s));
    exact H4.
Qed.

(** The first transition of a playing track whose [ended] listener
    fires, up to the moment it calls [onTrackEnded]. *)
Lemma ended_signal r s i a :
  find_actor r s = Some (i, a) ->
  pending a = [] ->
  Track.playback (Track.value (track a)) = Track.playing ->
  Track.onTrackEnded (Track.context (track a)) = true ->
  let o := Track.step (world s) (track a) Track.ENDED in
  let a1 := {| ref := ref a; processing := true; pending := [];
               track := Track.machine o |} in
  let pre := match Track.progressAnimationFrame (Track.context (track a)) with
             | Some f => [Track.CancelAnimationFrame f]
             | None => []
             end in
  let call := Track.CallOnTrackEnded (Track.idx (Track.context (track a))) in
  let post := if Track.onEnded (Track.context (track a))
              then [Track.CallOnEnded] else [] in
  let s2 := observe ((TrackEffect r <$> pre) ++ [TrackEffect r call])
              (set_actor i a1 s) in
  signal r Track.ENDED s =
    run_track 7 r (fold_left (absorb r) post (send TRACK_ENDED s2)) /\
  step_spec s s2 [] (currentTrackIdx (context s)) [] /\
  find_actor r s2 = Some (i, a1) /\
  Forall (fun e => calls_queue e = false) post /\ Track.sent_of post = [].
Proof.
  intros Hf Hp Hplay Hwired o a1 pre call post s2.
  pose proof (find_actor_Some _ _ _ _ Hf) as [Ha Hr].
  destruct (ended_step_effects (world s) (track a) Hplay)
    as (Hes & _ & _ & _ & _ & _ & _ & Hw).
  fold o in Hes, Hw. rewrite Hwired in Hes. fold pre call post in Hes.
  assert (Hf1 : find_actor r (set_actor i a1 s) = Some (i, a1))
    by by apply (find_actor_set_actor r s i a a1).
  assert (Hpre : Forall (fun e => calls_queue e = false) pre /\
                 Track.sent_of pre = []).
  { subst pre. destruct (Track.progressAnimationFrame _);
      split; by repeat constructor. }
  assert (Hpost : Forall (fun e => calls_queue e = false) post /\
                  Track.sent_of post = []).
  { subst post. destruct (Track.onEnded _); split; by repeat constructor. }
  split; [|split; [|split; [|exact Hpost]]].
  - rewrite (signal_unfold _ _ _ _ _ Hf Hp). fold o a1. rewrite Hes, Hw.
    rewrite fold_left_app. cbn [app fold_left]. f_equal. f_equal.
    assert (Hww : with_world (world s) (set_actor i a1 s) = set_actor i a1 s)
      by (clear; open_system s; reflexivity).
    rewrite Hww.
    rewrite (absorb_mute r pre _ i a1 Hf1 (proj1 Hpre) (proj2 Hpre)).
    change (absorb r (observe (TrackEffect r <$> pre) (set_actor i a1 s))
              call)
      with (send TRACK_ENDED
              (observe [TrackEffect r call]
                 (observe (TrackEffect r <$> pre) (set_actor i a1 s)))).
    f_equal. subst s2. clear. open_system s. by rewrite app_assoc.
  - pose proof (spec_set_actor s i a a1 Ha eq_refl) as H1.
    apply spec_then_observe; [|exact H1].
    rewrite sends_of_app, sends_of_effects. reflexivity.
  - exact Hf1.
Qed.

(** The rest of the run of a track the queue has answered. *)
Lemma answered_run r s3 i a3 post :
  find_actor r s3 = Some (i, a3) ->
  Forall (fun e => calls_queue e = false) post -> Track.sent_of post = [] ->
  Forall (fun ev => quiet ev = true) (pending a3) ->
  (rounds (pending a3) < 7)%nat ->
  let fl := Track.flush 7 (world s3) (track a3) (pending a3) [] in
  let af := {| ref := ref a3; processing := false; pending := [];
               track := Track.machine fl |} in
  let s' := run_track 7 r (fold_left (absorb r) post s3) in
  s' = observe (TrackEffect r <$> Track.out_effects fl)
         (with_world (Track.out_world fl)
            (set_actor i af (observe (TrackEffect r <$> post) s3))) /\
  step_spec s3 s' [] (currentTrackIdx (context s3)) [] /\
  find_actor r s' = Some (i, af) /\
  (forall j, j <> i ->
     trackActors (context s') !! j = trackActors (context s3) !! j).
Proof.
  intros Hf Hpost1 Hpost2 Hq Hlt fl af s'. subst s'.
  pose proof (find_actor_Some _ _ _ _ Hf) as [Ha Hr].
  rewrite (absorb_mute r post s3 i a3 Hf Hpost1 Hpost2).
  set (s4 := observe (TrackEffect r <$> post) s3).
  assert (Hf4 : find_actor r s4 = Some (i, a3)) by exact Hf.
  destruct (run_track_quiet 7 r s4 i a3 Hf4 (or_intror Hq) Hlt) as [E _].
  rewrite E. fold fl af.
  change (world s4) with (world s3). fold fl. fold af.
  split; [reflexivity|]. split; [|split].
  - assert (S4 : step_spec s3 s4 [] (currentTrackIdx (context s3)) [])
      by (apply spec_observe, sends_of_effects).
    pose proof (spec_set_actor s4 i a3 af Ha eq_refl) as S5.
    pose proof (spec_then_observe s4 (set_actor i af s4) [] _ []
                  (TrackEffect r <$> Track.out_effects fl)
                  (sends_of_effects _ _) S5) as S6.
    pose proof (spec_trans _ _ _ _ _ _ _ _ _ S4 S6) as H.
    exact H.
  - exact (find_actor_set_actor r s4 i a3 af Hf4 eq_refl).
  - intros j Hj. cbn. by rewrite list_lookup_insert_ne.
Qed.


Lemma at_index_nat {A} (l : list A) i :
  0 <= i -> at_index l i = l !! Z.to_nat i.
Proof. intros H. unfold at_index. destruct (0 <=? i) eqn:E; [done | lia]. Qed.



(** X25: when the [ended] listener of a playing track that has
    the [onTrackEnded] closure of the queue fires (the tracks the queue
    was constructed with have it, the tracks added later do not) while the
    queue is playing with its index on the last track (or beyond), the
    queue goes to [ended] and sends nothing to any track: the
    track that ended is not deactivated and keeps its media element.  The
    [onEnded] function of the options is called once by the queue and once
    by the track, which was handed the same function, so twice when it is
    given.  The index stays, and both mailboxes end empty. *)
Theorem when_the_last_track_ends_the_queue_ends_and_tells_no_track :
  forall s r i a,
    let cur := currentTrackIdx (context s) in
    mailbox s = [] ->
    state s = playing ->
    len (trackActors (context s)) - 1 <= cur ->
    find_actor r s = Some (i, a) ->
    pending a = [] ->
    Track.playback (Track.value (track a)) = Track.playing ->
    Track.onTrackEnded (Track.context (track a)) = true ->
    let s' := signal r Track.ENDED s in
    state s' = ended /\
    currentTrackIdx (context s') = cur /\
    mailbox s' = [] /\
    refs s' = refs s /\
    sends_of (trace s') = sends_of (trace s) /\
    onEnded_calls (since s s') =
      ((if onEnded (context s) then 1 else 0) +
       (if Track.onEnded (Track.context (track a)) then 1 else 0))%nat /\
    exists a',
      find_actor r s' = Some (i, a') /\
      processing a' = false /\ pending a' = [] /\
      Track.playback (Track.value (track a')) = Track.paused /\
      Track.audio (Track.context (track a')) =
        Track.audio (Track.context (track a)).
Proof.
  intros s r i a cur Hm Hst Hlast Hf Hp Hplay Hwired s'. subst s'.
  pose proof (find_actor_Some _ _ _ _ Hf) as [Ha Hr].
  destruct (ended_signal r s _ a Hf Hp Hplay Hwired)
    as (E & S2 & Hf2 & Hpost1 & Hpost2).
  destruct (ended_step_effects (world s) (track a) Hplay)
    as (_ & T1 & _ & _ & _ & T5 & _).
  cbv zeta in E, S2, Hf2, Hpost1, Hpost2. rewrite E. clear E.
  set (o := Track.step (world s) (track a) Track.ENDED) in *.
  set (a1 := {| ref := ref a; processing := true; pending := [];
                track := Track.machine o |}) in *.
  set (pre := TrackEffect r <$> _) in *.
  set (call := TrackEffect r (Track.CallOnTrackEnded _)) in *.
  set (s2 := observe (pre ++ [call]) (set_actor i a1 s)) in *.
  set (post := if Track.onEnded (Track.context (track a))
               then [Track.CallOnEnded] else []) in *.
  assert (Hm2 : mailbox s2 = []) by exact Hm.
  assert (Hst2 : state s2 = playing) by exact Hst.
  assert (R2 : refs s2 = refs s) by apply S2.
  assert (Hlast2 : len (trackActors (context s2)) - 1
                   <= currentTrackIdx (context s2)).
  { rewrite (len_trackActors_refs _ _ R2). exact Hlast. }
  rewrite (ended_send_last s2 Hm2 Hst2 Hlast2).
  change (onEnded (context s2)) with (onEnded (context s)).
  set (told := if onEnded (context s) then [CallOnEnded] else []).
  assert (Hs3 : with_state ended
                  (if onEnded (context s) then observe [CallOnEnded] s2
                   else s2)
                = with_state ended (observe told s2)).
  { subst told. destruct (onEnded (context s)); [reflexivity|].
    clear. subst s2. open_system s. by rewrite app_nil_r. }
  rewrite Hs3. clear Hs3.
  set (s3 := with_state ended (observe told s2)).
  assert (Htold : sends_of told = [])
    by (subst told; by destruct (onEnded (context s))).
  assert (S3 : step_spec s2 (observe told s2) []
                 (currentTrackIdx (context s2)) [])
    by by apply spec_observe.
  assert (Hf3 : find_actor r s3 = Some (i, a1)) by exact Hf2.
  destruct (answered_run r s3 i a1 post Hf3 Hpost1 Hpost2)
    as (E & S4 & Hf4 & _).
  { constructor. }
  { unfold rounds. simpl. lia. }
  cbv zeta in E, S4, Hf4. cbn [ref pending track a1] in E, S4, Hf4.
  set (s' := run_track 7 r (fold_left (absorb r) post s3)) in *.
  destruct S2 as (A1 & A2 & A3 & A4 & A5).
  destruct S3 as (B1 & B2 & B3 & B4 & B5).
  destruct S4 as (C1 & C2 & C3 & C4 & C5).
  rewrite app_nil_r in A3, A5, B3, B5, C3, C5.
  split; [exact C1|]. split; [exact C4|].
  split; [rewrite C3; exact Hm|].
  split; [rewrite C2; exact A2|].
  split; [rewrite C5; etrans; [exact B5 | exact A5]|]. split.
  - assert (Htrace : trace s' =
                     trace s ++ pre ++ [call] ++ told ++
                     (TrackEffect r <$> post)).
    { rewrite E. cbn. rewrite app_nil_r, <- !app_assoc. reflexivity. }
    unfold since. rewrite Htrace, drop_app_length.
    unfold onEnded_calls. rewrite !List.filter_app, !length_app.
    assert (Hpre : List.filter is_onEnded_call pre = []).
    { subst pre. by destruct (Track.progressAnimationFrame _). }
    rewrite Hpre. subst told post call. cbn.
    destruct (onEnded (context s)), (Track.onEnded (Track.context (track a)));
      reflexivity.
  - eexists. split; [exact Hf4|]. split; [reflexivity|].
    split; [reflexivity|]. cbn. split; [exact T1 | exact T5].
Qed.

Lemma when_the_last_track_ends_witness :
  exists i a,
    mailbox player3_on_last = [] /\
    state player3_on_last = playing /\
    len (trackActors (context player3_on_last)) - 1
      <= currentTrackIdx (context player3_on_last) /\
    find_actor 2 player3_on_last = Some (i, a) /\
    pending a = [] /\
    Track.playback (Track.value (track a)) = Track.playing /\
    Track.onTrackEnded (Track.context (track a)) = true /\
    state (signal 2 Track.ENDED player3_on_last) = ended.
Proof.
  let v := eval vm_compute in (find_actor 2 player3_on_last) in
  lazymatch v with
  | Some (?i, ?a) =>
      exists i, a;
      assert (Hm : mailbox player3_on_last = []) by (vm_compute; reflexivity);
      assert (Hst : state player3_on_last = playing)
        by (vm_compute; reflexivity);
      assert (Hl : len (trackActors (context player3_on_last)) - 1
                   <= currentTrackIdx (context player3_on_last))
        by (vm_compute; intros H; discriminate H);
      assert (Hf : find_actor 2 player3_on_last = Some (i, a))
        by (vm_compute; reflexivity);
      assert (Hp : pending a = []) by reflexivity;
      assert (Hpl : Track.playback (Track.value (track a)) = Track.playing)
        by reflexivity;
      assert (Hw : Track.onTrackEnded (Track.context (track a)) = true)
        by reflexivity;
      split; [exact Hm|]; split; [exact Hst|]; split; [exact Hl|];
      split; [exact Hf|]; split; [exact Hp|]; split; [exact Hpl|];
      split; [exact Hw|];
      pose proof (when_the_last_track_ends_the_queue_ends_and_tells_no_track
                    player3_on_last 2%nat i a Hm Hst Hl Hf Hp Hpl Hw) as H;
      cbv zeta in H; exact (proj1 H)
  end.
Defined.

(** X26: when the [ended] listener of a playing track fires
    while the queue is paused or has ended (after a [gotoTrack] on a queue
    that had ended the queue is paused and the track plays), the
    [TRACK_ENDED] of the track is dropped: the queue stays as it is, keeps
    its index and sends nothing, so no track follows the one that ended. *)
Theorem a_track_that_ends_under_a_queue_that_is_not_playing_is_not_followed :
  forall s r i a,
    mailbox s = [] ->
    state s <> playing ->
    find_actor r s = Some (i, a) ->
    pending a = [] ->
    Track.playback (Track.value (track a)) = Track.playing ->
    Track.onTrackEnded (Track.context (track a)) = true ->
    let s' := signal r Track.ENDED s in
    state s' = state s /\
    currentTrackIdx (context s') = currentTrackIdx (context s) /\
    mailbox s' = [] /\
    refs s' = refs s /\
    sends_of (trace s') = sends_of (trace s) /\
    exists a',
      find_actor r s' = Some (i, a') /\
      processing a' = false /\ pending a' = [] /\
      Track.playback (Track.value (track a')) = Track.paused.
Proof.
  intros s r i a Hm Hst Hf Hp Hplay Hwired s'. subst s'.
  destruct (ended_signal r s _ a Hf Hp Hplay Hwired)
    as (E & S2 & Hf2 & Hpost1 & Hpost2).
  destruct (ended_step_effects (world s) (track a) Hplay)
    as (_ & T1 & _).
  cbv zeta in E, S2, Hf2, Hpost1, Hpost2. rewrite E. clear E.
  set (o := Track.step (world s) (track a) Track.ENDED) in *.
  set (a1 := {| ref := ref a; processing := true; pending := [];
                track := Track.machine o |}) in *.
  set (s2 := observe _ (set_actor i a1 s)) in *.
  set (post := if Track.onEnded (Track.context (track a))
               then [Track.CallOnEnded] else []) in *.
  assert (Hm2 : mailbox s2 = []) by exact Hm.
  assert (Hst2 : state s2 <> playing) by exact Hst.
  rewrite (ended_send_dropped s2 Hm2 Hst2).
  destruct (answered_run r s2 i a1 post Hf2 Hpost1 Hpost2)
    as (_ & S4 & Hf4 & _).
  { constructor. }
  { unfold rounds. simpl. lia. }
  cbv zeta in S4, Hf4. cbn [ref pending track a1] in S4, Hf4.
  pose proof (spec_trans _ _ _ _ _ _ _ _ _ S2 S4)
    as (A1 & A2 & A3 & A4 & A5).
  cbn [app] in A3, A5. rewrite app_nil_r in A3, A5. rewrite Hm in A3.
  split; [exact A1|]. split; [exact A4|]. split; [exact A3|].
  split; [exact A2|]. split; [exact A5|].
  eexists. split; [exact Hf4|]. split; [reflexivity|].
  split; [reflexivity|]. exact T1.
Qed.

Lemma a_track_that_ends_under_a_paused_queue_witness :
  exists i a,
    mailbox (Gapless.gotoTrack 1 true player3_ended) = [] /\
    state (Gapless.gotoTrack 1 true player3_ended) <> playing /\
    find_actor 1 (Gapless.gotoTrack 1 true player3_ended) = Some (i, a) /\
    pending a = [] /\
    Track.playback (Track.value (track a)) = Track.playing /\
    Track.onTrackEnded (Track.context (track a)) = true /\
    state (signal 1 Track.ENDED (Gapless.gotoTrack 1 true player3_ended))
      = state (Gapless.gotoTrack 1 true player3_ended).
Proof.
  let v := eval vm_compute in
    (find_actor 1 (Gapless.gotoTrack 1 true player3_ended)) in
  lazymatch v with
  | Some (?i, ?a) =>
      exists i, a;
      assert (Hm : mailbox (Gapless.gotoTrack 1 true player3_ended) = [])
        by (vm_compute; reflexivity);
      assert (Hst : state (Gapless.gotoTrack 1 true player3_ended)
                    <> playing)
        by (vm_compute; intros H; discriminate H);
      assert (Hf : find_actor 1 (Gapless.gotoTrack 1 true player3_ended)
                   = Some (i, a)) by (vm_compute; reflexivity);
      assert (Hp : pending a = []) by reflexivity;
      assert (Hpl : Track.playback (Track.value (track a)) = Track.playing)
        by reflexivity;
      assert (Hw : Track.onTrackEnded (Track.context (track a)) = true)
        by reflexivity;
      split; [exact Hm|]; split; [exact Hst|]; split; [exact Hf|];
      split; [exact Hp|]; split; [exact Hpl|]; split; [exact Hw|];
      pose proof
        (a_track_that_ends_under_a_queue_that_is_not_playing_is_not_followed
           (Gapless.gotoTrack 1 true player3_ended) 1%nat i a
           Hm Hst Hf Hp Hpl Hw) as H;
      cbv zeta in H; exact (proj1 H)
  end.
Defined.

(** ** Seeking, and a new player *)

(** X27: [seek(t)] on an idle queue that is playing or paused
    sends [SEEK t], with [t] as given, to the current track and to no
    other; the state and the index of the queue stay, an idle current
    track handles the event at once, and every other track is untouched.
    A queue that has ended ignores the call. *)
Theorem seek_reaches_the_current_track_only :
  forall s t,
    mailbox s = [] ->
    let cur := currentTrackIdx (context s) in
    let s' := Gapless.seek t s in
    (state s = ended -> s' = s) /\
    (state s <> ended ->
     state s' = state s /\
     currentTrackIdx (context s') = cur /\
     mailbox s' = [] /\
     refs s' = refs s /\
     sends_of (trace s') = sends_of (trace s) ++ sent_at s cur (Track.SEEK t) /\
     (forall a,
        at_index (trackActors (context s)) cur = Some a ->
        processing a = false ->
        at_index (trackActors (context s')) cur =
        Some {| ref := ref a; processing := false; pending := pending a;
                track := Track.machine
                           (Track.send (world s) (track a) (Track.SEEK t)) |})
     /\
     (forall j, j <> cur ->
        at_index (trackActors (context s')) j =
        at_index (trackActors (context s)) j)).
Proof.
  intros s t Hm cur s'. subst s'. unfold Gapless.seek. split.
  - intros Hst. apply dropped; [exact Hm|]. unfold step. by rewrite Hst.
  - intros Hst. rewrite send_idle by done.
    assert (Hs : step s (SEEK t) = send_at cur (Track.SEEK t) s).
    { unfold step. destruct (state s); [reflexivity | reflexivity | done]. }
    pose proof (spec_send_at cur (Track.SEEK t) s eq_refl)
      as (A1 & A2 & A3 & A4 & A5).
    rewrite app_nil_r in A3. rewrite Hm in A3.
    rewrite Hs, queue_flush_nil by exact A3.
    split; [exact A1|]. split; [exact A4|]. split; [exact A3|].
    split; [exact A2|]. split; [exact A5|]. split.
    + intros a Ha Hidle. by apply send_at_actor_idle.
    + intros j Hj. by apply send_at_actor_ne.
Qed.

Lemma seek_reaches_the_current_track_witness :
  mailbox player3 = [] /\
  state player3 <> ended /\
  sends_of (trace (Gapless.seek 5 player3)) =
    sends_of (trace player3) ++
    sent_at player3 (currentTrackIdx (context player3)) (Track.SEEK 5).
Proof.
  assert (Hm : mailbox player3 = []) by (vm_compute; reflexivity).
  assert (Hst : state player3 <> ended)
    by (vm_compute; intros H; discriminate H).
  split; [exact Hm|]. split; [exact Hst|].
  pose proof (seek_reaches_the_current_track_only player3 5%Q Hm) as H.
  cbv zeta in H. destruct H as (_ & H).
  destruct (H Hst) as (_ & _ & _ & _ & H5 & _). exact H5.
Defined.

(** The actors [spawnInitialTracks] creates, one by one. *)
Lemma spawn_each_actors c us :
  forall i s k a,
    (spawn_each c us i s).1 !! k = Some a ->
    exists u,
      us !! k = Some u /\
      a = {| ref := (next_ref s + k)%nat; processing := false; pending := [];
             track :=
               Track.initial (audioContext_available s)
                 {| Track.input_trackUrl := u;
                    Track.input_idx := i + Z.of_nat k;
                    Track.input_volume := volume c;
                    Track.input_webAudioIsDisabled := webAudioIsDisabled c;
                    Track.input_skipHEAD := None;
                    Track.input_metadata := None;
                    Track.input_onProgress := onProgress c;
                    Track.input_onEnded := onEnded c;
                    Track.input_onTrackLoaded := true;
                    Track.input_onTrackEnded := true |} |}.
Proof.
  induction us as [|u us IH]; intros i s k a H; [discriminate H|].
  simpl in H. unfold spawn in H.
  specialize (IH (i + 1) (with_next_ref (S (next_ref s)) s)).
  destruct (spawn_each c us (i + 1) (with_next_ref (S (next_ref s)) s))
    as [rest s1].
  destruct k as [|k]; simpl in H.
  - injection H as <-. exists u. split; [reflexivity|].
    by rewrite Nat.add_0_r, Z.add_0_r.
  - destruct (IH k a H) as (u' & Hu & ->). exists u'. split; [exact Hu|].
    simpl. f_equal; [lia|]. do 2 f_equal. lia.
Qed.

(** X28: a new player is paused on index 0 with volume 1 and an
    empty mailbox; it has one idle track actor per URL, in order, with the
    identities 0, 1, 2, ...; every track knows its position as its index,
    has the [onTrackLoaded] and [onTrackEnded] closures of the queue and
    the [onEnded], [onProgress] and [webAudioIsDisabled] of the options;
    and the only event sent so far is [PRELOAD], to the first track, if
    there is one. *)
Theorem a_new_player_is_paused_on_its_first_track_and_preloads_it :
  forall w avail options,
    let s := Gapless.create w avail options in
    state s = paused /\
    currentTrackIdx (context s) = 0 /\
    volume (context s) = 1%Q /\
    mailbox s = [] /\
    refs s = seq 0 (length (opt_tracks options)) /\
    urls s = opt_tracks options /\
    sends_of (trace s) =
      match opt_tracks options with
      | [] => []
      | _ :: _ => [(0%nat, Track.PRELOAD)]
      end /\
    forall k a,
      trackActors (context s) !! k = Some a ->
      processing a = false /\ pending a = [] /\
      Track.idx (Track.context (track a)) = Z.of_nat k /\
      Track.onTrackLoaded (Track.context (track a)) = true /\
      Track.onTrackEnded (Track.context (track a)) = true /\
      Track.onEnded (Track.context (track a)) = opt_onEnded options /\
      Track.onProgress (Track.context (track a)) = opt_onProgress options /\
      Track.webAudioIsDisabled (Track.context (track a)) =
        opt_webAudioIsDisabled options /\
      Track.audioContext (Track.context (track a)) = avail.
Proof.
  intros w avail options s. subst s. rewrite start_unfold.
  set (s0 := {| state := paused; context := initial_context options;
                mailbox := []; world := w; audioContext_available := avail;
                next_ref := 0; trace := [] |}).
  destruct (start_spawned w avail options)
    as ((W1 & _) & B1 & B2 & B3 & B4 & B5 & B6).
  fold s0 in W1, B1, B2, B3, B4, B5, B6.
  set (s1 := spawnInitialTracks XSTATE_INIT s0) in *.
  assert (Htrace : trace s1 = []).
  { subst s1. unfold spawnInitialTracks.
    pose proof (spawn_each_spec (context s0) (tracks (context s0)) 0 s0) as H.
    destruct (spawn_each (context s0) (tracks (context s0)) 0 s0)
      as [actors s'].
    destruct H as (_ & _ & _ & _ & _ & _ & H & _). exact H. }
  assert (Hactors : forall k a,
    trackActors (context s1) !! k = Some a ->
    processing a = false /\ pending a = [] /\
    constants (Track.context (track a)) =
      (default ""%string (opt_tracks options !! k), Z.of_nat k,
       opt_webAudioIsDisabled options,
       (opt_onProgress options, opt_onEnded options, true, true), avail)).
  { intros k a Hk. subst s1. unfold spawnInitialTracks in Hk.
    pose proof (spawn_each_actors (context s0) (tracks (context s0)) 0 s0 k a)
      as H.
    destruct (spawn_each (context s0) (tracks (context s0)) 0 s0)
      as [actors s'].
    destruct (H Hk) as (u & Hu & ->). simpl in Hu. simpl.
    repeat split. unfold constants. simpl. by rewrite Hu. }
  unfold loadCurrentTrack. rewrite B3.
  pose proof (spec_send_at 0 Track.PRELOAD s1 eq_refl)
    as (A1 & A2 & A3 & A4 & A5).
  rewrite app_nil_r in A3.
  split; [congruence|]. split; [congruence|].
  split; [by rewrite send_at_volume|].
  split; [congruence|]. split; [congruence|]. split; [|split].
  - rewrite <- B5, W1.
    rewrite (urls_cast s1), (urls_cast (send_at 0 Track.PRELOAD s1)).
    by rewrite (proj1 (cast_send_at 0 Track.PRELOAD s1)).
  - rewrite A5, Htrace. unfold ref_at. rewrite B4.
    destruct (opt_tracks options); reflexivity.
  - intros k a Hk.
    assert (Hgoal : processing a = false /\ pending a = [] /\
              constants (Track.context (track a)) =
                (default ""%string (opt_tracks options !! k), Z.of_nat k,
                 opt_webAudioIsDisabled options,
                 (opt_onProgress options, opt_onEnded options, true, true),
                 avail)).
    { destruct (decide (k = 0%nat)) as [->|Hne].
      - destruct (trackActors (context s1) !! 0%nat) as [a0|] eqn:H0.
        + destruct (Hactors 0%nat a0 H0) as (C1 & C2 & C3).
          change (send_at 0 Track.PRELOAD s1)
            with (send_to 0 Track.PRELOAD s1) in Hk.
          rewrite (send_to_actor_idle _ _ _ _ H0 C1) in Hk.
          injection Hk as <-. simpl. split; [reflexivity|].
          split; [exact C2|]. rewrite constants_send. exact C3.
        + change (send_at 0 Track.PRELOAD s1)
            with (send_to 0 Track.PRELOAD s1) in Hk.
          unfold send_to in Hk. rewrite H0 in Hk. congruence.
      - change (send_at 0 Track.PRELOAD s1)
          with (send_to 0 Track.PRELOAD s1) in Hk.
        rewrite send_to_actor_ne in Hk by done. by apply Hactors. }
    destruct Hgoal as (C1 & C2 & C3). unfold constants in C3.
    injection C3 as E1 E2 E3 E4 E5 E6 E7 E8.
    by repeat split.
Qed.

(** ** The index stays on a track *)

Lemma within_same s s' i :
  refs s' = refs s ->
  within (len (trackActors (context s))) i ->
  within (len (trackActors (context s'))) i.
Proof. intros R. by rewrite (len_trackActors_refs _ _ R). Qed.

Lemma on_a_track_spec s s' mb sent :
  step_spec s s' mb (currentTrackIdx (context s)) sent ->
  on_a_track s -> on_a_track s'.
Proof.
  intros (_ & R & _ & I & _) H. unfold on_a_track. rewrite I.
  by apply (within_same s).
Qed.

(** What one event does to the index, and what it leaves in the
    mailbox. *)
Lemma step_on_a_track s ev :
  on_a_track s -> goto_within s ev ->
  on_a_track (step s ev) /\
  exists mb,
    mailbox (step s ev) = mailbox s ++ mb /\
    Forall (goto_within (step s ev)) mb.
Proof.
  intros Hs Hev.
  pose proof Hs as [Hlo Hhi].
  set (cur := currentTrackIdx (context s)) in *.
  set (n := len (trackActors (context s))) in *.
  assert (Hspec : forall s' mb sent,
            s' = step s ev ->
            step_spec s s' mb cur sent ->
            Forall (goto_within s) mb ->
            on_a_track (step s ev) /\
            exists mb, mailbox (step s ev) = mailbox s ++ mb /\
                       Forall (goto_within (step s ev)) mb).
  { intros s' mb sent -> H Hmb. split; [by eapply on_a_track_spec|].
    exists mb. split; [apply H|].
    eapply Forall_impl; [exact Hmb|]. intros e He. destruct e; try exact I.
    simpl in *. apply (within_same s); [apply H | exact He]. }
  assert (Hcalm : forall target acts,
            on (state s) ev (context s) = Some (target, acts) ->
            Forall (fun a => calm a ev) acts ->
            on_a_track (step s ev) /\
            exists mb, mailbox (step s ev) = mailbox s ++ mb /\
                       Forall (goto_within (step s ev)) mb).
  { intros target acts Hon Hc.
    destruct (step_state_calm target acts ev s Hon Hc) as (_ & M & R & I).
    split.
    - unfold on_a_track. rewrite I. by apply (within_same s).
    - exists []. by rewrite app_nil_r. }
  assert (Hplain : step s ev = s ->
            on_a_track (step s ev) /\
            exists mb, mailbox (step s ev) = mailbox s ++ mb /\
                       Forall (goto_within (step s ev)) mb).
  { intros ->. split; [exact Hs|]. exists []. by rewrite app_nil_r. }
  destruct ev.
  - (* PLAY *)
    destruct (state s) eqn:E.
    + apply Hplain. unfold step. by rewrite E.
    + eapply Hcalm; [reflexivity | calm_list].
    + pose proof (spec_then_set_idx s s [] _ [] 0 (spec_refl s)) as H1.
      pose proof (spec_then_send_cur _ _ _ _ _ Track.ACTIVATE eq_refl H1)
        as H2.
      pose proof (spec_then_send_cur _ _ _ _ _ Track.PLAY eq_refl H2) as H3.
      pose proof (spec_then_notify _ _ _ _ _ PLAY H3)
        as (A1 & A2 & A3 & A4 & A5).
      assert (Hst : step s PLAY =
                    with_state playing
                      (notifyStartNewTrack PLAY
                         (playCurrentTrack PLAY
                            (activateCurrentTrack PLAY
                               (resetToFirstTrack PLAY s))))).
      { unfold step. rewrite E. reflexivity. }
      assert (Hi : currentTrackIdx (context (step s PLAY)) = 0)
        by (rewrite Hst; exact A4).
      assert (Hr : refs (step s PLAY) = refs s) by (rewrite Hst; exact A2).
      assert (Hb : mailbox (step s PLAY) = mailbox s ++ [])
        by (rewrite Hst; exact A3).
      split.
      * unfold on_a_track. rewrite Hi. apply (within_same s); [exact Hr|].
        unfold within. lia.
      * exists []. split; [exact Hb | constructor].
  - (* PAUSE *)
    destruct (state s) eqn:E;
      [eapply Hcalm; [reflexivity | calm_list] | | ];
      apply Hplain; unfold step; by rewrite E.
  - (* NEXT *)
    destruct (next_step_spec s) as [Hplay Hgoto].
    fold cur n in Hplay, Hgoto.
    assert (Hmb : Forall (goto_within s)
                    (if cur + 1 <? n then [GOTO (cur + 1) None; PLAY]
                     else []) /\
                  Forall (goto_within s)
                    (if cur + 1 <? n then [GOTO (cur + 1) None] else [])).
    { destruct (cur + 1 <? n) eqn:Hlt; [|by split].
      apply Z.ltb_lt in Hlt.
      assert (within n (cur + 1)) by (unfold within; lia).
      split.
      - apply Forall_cons_2; [exact H|]. apply Forall_cons_2; [exact I|].
        apply Forall_nil_2.
      - apply Forall_cons_2; [exact H|]. apply Forall_nil_2. }
    destruct (state s) eqn:E.
    + eapply Hspec; [reflexivity | exact (Hplay eq_refl) | apply Hmb].
    + eapply Hspec; [reflexivity | exact (Hgoto eq_refl) | apply Hmb].
    + apply Hplain. unfold step. by rewrite E.
  - (* PREVIOUS *)
    assert (Hw : within n (Z.max 0 (cur - 1))) by (unfold within; lia).
    destruct (state s) eqn:E;
      [| | apply Hplain; unfold step; by rewrite E];
      destruct (Qle_bool (current_position (context s)) 8) eqn:Hq.
    + destruct (previous_move_spec s Hq) as [H _].
      eapply Hspec; [| exact H |].
      * unfold step. by rewrite E.
      * apply Forall_cons_2; [exact Hw|]. apply Forall_cons_2; [exact I|].
        apply Forall_nil_2.
    + destruct (previous_restart_spec s Hq) as [H _].
      eapply Hspec; [| exact H | apply Forall_nil_2].
      unfold step. by rewrite E.
    + destruct (previous_move_spec s Hq) as [_ H].
      eapply Hspec; [| exact H |].
      * unfold step. by rewrite E.
      * apply Forall_cons_2; [exact Hw|]. apply Forall_nil_2.
    + destruct (previous_restart_spec s Hq) as [_ H].
      eapply Hspec; [| exact H | apply Forall_nil_2].
      unfold step. by rewrite E.
  - (* GOTO *)
    destruct (goto_step s index playImmediately) as (_ & M & R & I & _).
    split.
    + unfold on_a_track. rewrite I. by apply (within_same s).
    + exists []. by rewrite app_nil_r.
  - (* TRACK_ENDED *)
    destruct (state s) eqn:E; [| apply Hplain; unfold step; by rewrite E ..].
    destruct (isLastTrack (context s)) eqn:Hlast.
    + eapply Hcalm; [simpl; by rewrite Hlast | calm_list].
    + assert (Hlt : cur + 1 < n).
      { unfold isLastTrack in Hlast. apply Z.leb_gt in Hlast.
        fold cur n in Hlast. lia. }
      destruct (autoAdvanceToNext_spec TRACK_ENDED s Hlt)
        as (A1 & A2 & A3 & A4 & A5).
      assert (Hst : step s TRACK_ENDED = autoAdvanceToNext TRACK_ENDED s).
      { unfold step. rewrite E. simpl. by rewrite Hlast. }
      assert (Hi : currentTrackIdx (context (step s TRACK_ENDED)) = cur + 1)
        by (rewrite Hst; exact A4).
      assert (Hr : refs (step s TRACK_ENDED) = refs s)
        by (rewrite Hst; exact A2).
      assert (Hb : mailbox (step s TRACK_ENDED) = mailbox s ++ [])
        by (rewrite Hst; exact A3).
      split.
      * unfold on_a_track. rewrite Hi. apply (within_same s); [exact Hr|].
        unfold within. fold n. lia.
      * exists []. split; [exact Hb | constructor].
  - (* TRACK_LOADED *)
    destruct (state s) eqn:E; eapply Hcalm; try reflexivity; calm_list.
  - (* SEEK *)
    destruct (state s) eqn:E;
      [eapply Hcalm; [reflexivity | calm_list] ..
      | apply Hplain; unfold step; by rewrite E].
  - (* SET_VOLUME *)
    assert (Hst : step s (SET_VOLUME volume0) =
                  with_context (set_volume (clamp01 volume0)) s)
      by (unfold step; by destruct (state s)).
    rewrite Hst. split; [exact Hs|]. exists []. by rewrite app_nil_r.
  - (* ADD_TRACK *)
    rewrite add_step. split.
    + unfold on_a_track, within, addTrack, spawn, len. simpl.
      rewrite length_app. simpl.
      unfold within, len in Hlo, Hhi. fold cur in Hlo, Hhi |- *.
      subst n. unfold len in Hhi. lia.
    + exists []. by rewrite app_nil_r.
  - (* REMOVE_TRACK *)
    destruct (findIndex (trackActors (context s)) track0) as [index|] eqn:Hfi.
    + rewrite (remove_step _ _ _ Hfi).
      destruct (findIndex_Some _ _ _ Hfi) as [(a & Ha & _) _].
      assert (Hlen : len (delete index (trackActors (context s))) = n - 1).
      { unfold len. rewrite length_delete by eauto.
        apply lookup_lt_Some in Ha. subst n. unfold len. lia. }
      assert (Hn : 0 < n).
      { apply lookup_lt_Some in Ha. subst n. unfold len. lia. }
      split.
      * unfold on_a_track, within. simpl. rewrite Hlen. fold cur n.
        destruct (n - 1 <=? cur) eqn:E1; destruct (0 <? cur) eqn:E2; simpl;
          try apply Z.leb_le in E1; try apply Z.leb_gt in E1;
          try apply Z.ltb_lt in E2; try apply Z.ltb_ge in E2; lia.
      * exists []. by rewrite app_nil_r.
    + apply Hplain. unfold step.
      destruct (state s); cbn [on run_all fold_left]; unfold removeTrack;
        by rewrite Hfi.
  - (* INTERNAL_UPDATE_MEDIA_SESSION *)
    apply Hplain. unfold step. by destruct (state s).
  - (* XSTATE_INIT *)
    apply Hplain. unfold step. by destruct (state s).
Qed.

Lemma flush_on_a_track s :
  on_a_track s -> short (mailbox s) -> Forall (goto_within s) (mailbox s) ->
  on_a_track (flush 7 s) /\ mailbox (flush 7 s) = [].
Proof.
  intros Hs Hshort Hmb.
  destruct Hshort as [Hm|[(i & b & Hm)|(i & b & Hm)]].
  - rewrite queue_flush_nil by exact Hm. by split.
  - rewrite Hm in Hmb. inversion Hmb as [|? ? Hi _]; subst. simpl in Hi.
    rewrite (settle_goto _ _ _ _ Hm).
    destruct (goto_step (with_mailbox [] s) i b) as (_ & M & R & Ix & _).
    split; [|exact M].
    unfold on_a_track. rewrite Ix. by apply (within_same s).
  - rewrite Hm in Hmb. inversion Hmb as [|? ? Hi _]; subst. simpl in Hi.
    rewrite (queue_flush_cons _ _ _ _ Hm).
    destruct (goto_step (with_mailbox [PLAY] s) i b) as (_ & M & R & Ix & _).
    set (s2 := step (with_mailbox [PLAY] s) (GOTO i b)) in *.
    simpl in M.
    rewrite (queue_flush_cons _ _ _ _ M).
    assert (H2 : on_a_track (with_mailbox [] s2)).
    { unfold on_a_track.
      change (within (len (trackActors (context s2)))
                     (currentTrackIdx (context s2))).
      rewrite Ix. by apply (within_same s). }
    destruct (step_on_a_track (with_mailbox [] s2) PLAY H2 I) as [H3 _].
    pose proof (play_step_mailbox (with_mailbox [] s2)) as M3.
    rewrite queue_flush_nil by exact M3. by split.
Qed.

Lemma send_on_a_track s ev :
  on_a_track s -> mailbox s = [] -> goto_within s ev ->
  on_a_track (send ev s) /\ mailbox (send ev s) = [].
Proof.
  intros Hs Hm Hev. rewrite send_idle by exact Hm.
  destruct (step_on_a_track s ev Hs Hev) as (H1 & mb & H2 & H3).
  apply flush_on_a_track; [exact H1 | by apply step_mailbox |].
  rewrite H2, Hm. exact H3.
Qed.

Lemma set_actor_on_a_track s i a :
  on_a_track s -> on_a_track (set_actor i a s).
Proof.
  unfold on_a_track, len. simpl. by rewrite length_insert.
Qed.

Lemma happen_on_a_track s h :
  on_a_track s /\ mailbox s = [] -> in_range s h ->
  on_a_track (happen s h) /\ mailbox (happen s h) = [].
Proof.
  intros H Hh. destruct h as [ev| | |] eqn:Eh.
  - destruct H as [H1 H2]. apply send_on_a_track; [done | done |].
    by destruct ev.
  - rewrite <- Eh.
    apply (P_browser (fun s => on_a_track s /\ mailbox s = []));
      [| | | | by subst h | exact H].
    + intros s0 i a a' _ _ _ [A B]. split; [|exact B].
      by apply set_actor_on_a_track.
    + intros s0 os [A B]. by split.
    + intros s0 w [A B]. by split.
    + intros s0 e ev0 He [A B]. apply send_on_a_track; [done | done |].
      destruct e; try discriminate He; simpl in He; by simplify_eq.
  - rewrite <- Eh.
    apply (P_browser (fun s => on_a_track s /\ mailbox s = []));
      [| | | | by subst h | exact H].
    + intros s0 i a a' _ _ _ [A B]. split; [|exact B].
      by apply set_actor_on_a_track.
    + intros s0 os [A B]. by split.
    + intros s0 w [A B]. by split.
    + intros s0 e ev0 He [A B]. apply send_on_a_track; [done | done |].
      destruct e; try discriminate He; simpl in He; by simplify_eq.
  - rewrite <- Eh.
    apply (P_browser (fun s => on_a_track s /\ mailbox s = []));
      [| | | | by subst h | exact H].
    + intros s0 i a a' _ _ _ [A B]. split; [|exact B].
      by apply set_actor_on_a_track.
    + intros s0 os [A B]. by split.
    + intros s0 w [A B]. by split.
    + intros s0 e ev0 He [A B]. apply send_on_a_track; [done | done |].
      destruct e; try discriminate He; simpl in He; by simplify_eq.
Qed.

(** X29: as long as [gotoTrack] is only given indices of tracks
    the player has (or 0 when it has none), the current index of a player
    is always on one of its tracks (and is 0 when it has none), whatever
    else happens: commands, ends of tracks, loads, additions and
    removals. *)
Theorem the_index_stays_on_a_track :
  forall w avail options hs,
    all_in_range (Gapless.create w avail options) hs ->
    let s := player w avail options hs in
    0 <= currentTrackIdx (context s) /\
    (currentTrackIdx (context s) < len (trackActors (context s)) \/
     currentTrackIdx (context s) = 0 /\ trackActors (context s) = []).
Proof.
  intros w avail options hs Hall s.
  assert (H : on_a_track s /\ mailbox s = []).
  { subst s. unfold player.
    assert (H0 : on_a_track (Gapless.create w avail options) /\
                 mailbox (Gapless.create w avail options) = []).
    { split; [|apply start_well_cast].
      rewrite start_unfold.
      destruct (start_spawned w avail options) as (_ & _ & _ & B3 & _).
      unfold loadCurrentTrack.
      eapply on_a_track_spec; [by apply spec_send_at|].
      unfold on_a_track, within. rewrite B3. lia. }
    revert Hall H0. generalize (Gapless.create w avail options).
    induction hs as [|h hs IH]; intros s0 Hall H0; [exact H0|].
    destruct Hall as [Hh Hall]. simpl. apply IH; [exact Hall|].
    by apply happen_on_a_track. }
  destruct H as [[Hlo Hhi] _]. split; [exact Hlo|].
  destruct (trackActors (context s)) as [|a l] eqn:E.
  - right. unfold len in Hhi. simpl in Hhi. split; [lia | reflexivity].
  - left. unfold len in *. simpl in *. lia.
Qed.

Lemma the_index_stays_on_a_track_witness :
  all_in_range (Gapless.create w0 true (options ["a.mp3"; "b.mp3"]%string))
    [Command PLAY; Command (GOTO 1 (Some true)); Signal 1 Track.ENDED;
     Command (REMOVE_TRACK 1); Command NEXT; Command PREVIOUS] /\
  0 <= currentTrackIdx
         (context
            (player w0 true (options ["a.mp3"; "b.mp3"]%string)
               [Command PLAY; Command (GOTO 1 (Some true));
                Signal 1 Track.ENDED; Command (REMOVE_TRACK 1);
                Command NEXT; Command PREVIOUS])).
Proof.
  assert (H : all_in_range
                (Gapless.create w0 true (options ["a.mp3"; "b.mp3"]%string))
                [Command PLAY; Command (GOTO 1 (Some true));
                 Signal 1 Track.ENDED; Command (REMOVE_TRACK 1);
                 Command NEXT; Command PREVIOUS]).
  { vm_compute. repeat split; try (intros H; discriminate H). }
  split; [exact H|].
  pose proof (the_index_stays_on_a_track
                w0 true (options ["a.mp3"; "b.mp3"]%string) _ H) as H1.
  cbv zeta in H1. exact (proj1 H1).
Defined.

End QueueProps.

(** * The end of a track, seen from the queue *)

Module AdvanceClaims.
Import Queue Spec Props QueueFacts CommandFacts TrackProps QueueProps.

(** What a track in the middle of an event of its own is left with when
    the queue sends an event to an index. *)
Lemma find_actor_send_at_busy r s j ev i a :
  find_actor r s = Some (i, a) -> processing a = true ->
  find_actor r (send_at j ev s) =
  Some (i, {| ref := ref a; processing := true;
              pending := pending a ++
                         (if decide (0 <= j /\ Z.to_nat j = i) then [ev]
                          else []);
              track := track a |}).
Proof.
  intros Hf Hp. destruct (decide (0 <= j /\ Z.to_nat j = i)) as [[H0 Hi]|Hn].
  - by apply find_actor_send_at_hit.
  - rewrite (find_actor_send_at_miss r s j ev i a Hf Hp) by lia.
    destruct a as [ra pa qa ta]. simpl in *. subst pa.
    by rewrite app_nil_r.
Qed.

(** Auto-advance, seen from the track that reported its end: it is sent
    [DEACTIVATE] if it is the current one, [ACTIVATE] and [PLAY] if it is
    the next one, [PRELOAD] if it is the one after, and nothing
    otherwise. *)
Lemma autoAdvance_reporter r s i a ev :
  let cur := currentTrackIdx (context s) in
  find_actor r s = Some (i, a) -> processing a = true -> pending a = [] ->
  cur + 1 < len (trackActors (context s)) ->
  exists p,
    find_actor r (autoAdvanceToNext ev s) =
    Some (i, {| ref := ref a; processing := true; pending := p;
                track := track a |}) /\
    (p = [] \/ p = [Track.DEACTIVATE] \/ p = [Track.ACTIVATE; Track.PLAY] \/
     p = [Track.PRELOAD]).
Proof.
  intros cur Hf Hp Hq Hlt. unfold autoAdvanceToNext. fold cur.
  apply Z.ltb_lt in Hlt. rewrite Hlt.
  pose proof (find_actor_send_at_busy r s cur Track.DEACTIVATE i a Hf Hp)
    as H1.
  set (s1 := send_at cur Track.DEACTIVATE s) in *.
  pose proof (find_actor_send_at_busy r s1 (cur + 1) Track.ACTIVATE i _ H1
                eq_refl) as H2.
  set (s2 := send_at (cur + 1) Track.ACTIVATE s1) in *.
  pose proof (find_actor_send_at_busy r s2 (cur + 1) Track.PLAY i _ H2
                eq_refl) as H3.
  set (s3 := send_at (cur + 1) Track.PLAY s2) in *.
  pose proof (find_actor_send_at_busy r s3 (cur + 1 + 1) Track.PRELOAD i _ H3
                eq_refl) as H4.
  cbn [ref pending track] in H3, H4. rewrite Hq in H3, H4.
  assert (H5 : exists p,
             find_actor r
               (if cur + 1 + 1 <? len (trackActors (context s))
                then send_at (cur + 1 + 1) Track.PRELOAD s3 else s3) =
             Some (i, {| ref := ref a; processing := true; pending := p;
                         track := track a |}) /\
             (p = [] \/ p = [Track.DEACTIVATE] \/
              p = [Track.ACTIVATE; Track.PLAY] \/ p = [Track.PRELOAD])).
  { destruct (cur + 1 + 1 <? len (trackActors (context s)));
      [eexists; split; [exact H4|] | eexists; split; [exact H3|]];
      destruct (decide (0 <= cur /\ Z.to_nat cur = i)) as [[? ?]|?];
      destruct (decide (0 <= cur + 1 /\ Z.to_nat (cur + 1) = i)) as [[? ?]|?];
      try destruct (decide (0 <= cur + 1 + 1 /\ Z.to_nat (cur + 1 + 1) = i))
        as [[? ?]|?];
      simpl; auto; lia. }
  destruct H5 as (p & H5 & Hcases). exists p. split; [|exact Hcases].
  destruct (onPlayNextTrack (context s)), (onStartNewTrack (context s));
    exact H5.
Qed.

(** C3 (amended): when the [ended] listener of a playing track fires
    while the queue is playing, the track calls [onTrackEnded] and the
    queue acts on its current index, whichever track reported.  If the
    current index has a successor the queue stays [playing], sends
    [DEACTIVATE] to the track at the current index, [ACTIVATE] then [PLAY]
    to the next one, [PRELOAD] to the one after that if there is one, and
    makes the next index current.  If the current index is the last one
    (or beyond) the queue goes to [ended] and sends nothing, also when the
    track that ended has a successor.  The track that ended is the one
    that is sent [DEACTIVATE] exactly when it is the current one; it then
    ends paused with no media element and no buffer source node, and the
    next track, if it was idle, ends with its playback region in
    [playing].  In both cases the mailbox of the queue and the mailbox of
    the track end empty. *)
Theorem C3_track_end_advances_from_the_current_index :
  forall s r i a,
    let cur := currentTrackIdx (context s) in
    let n := len (trackActors (context s)) in
    mailbox s = [] ->
    state s = playing ->
    find_actor r s = Some (i, a) ->
    pending a = [] ->
    Track.playback (Track.value (track a)) = Track.playing ->
    Track.onTrackEnded (Track.context (track a)) = true ->
    let s' := signal r Track.ENDED s in
    mailbox s' = [] /\
    refs s' = refs s /\
    (exists a',
        find_actor r s' = Some (i, a') /\
        processing a' = false /\ pending a' = []) /\
    (cur + 1 < n ->
     state s' = playing /\
     currentTrackIdx (context s') = cur + 1 /\
     sends_of (trace s') =
       sends_of (trace s) ++
       sent_at s cur Track.DEACTIVATE ++
       sent_at s (cur + 1) Track.ACTIVATE ++
       sent_at s (cur + 1) Track.PLAY ++
       sent_at s (cur + 2) Track.PRELOAD) /\
    (n - 1 <= cur ->
     state s' = ended /\
     currentTrackIdx (context s') = cur /\
     sends_of (trace s') = sends_of (trace s)) /\
    (NoDup (refs s) ->
     (r, Track.DEACTIVATE) ∈ sent_at s cur Track.DEACTIVATE <->
     0 <= cur /\ Z.to_nat cur = i) /\
    (cur + 1 < n -> 0 <= cur -> Z.to_nat cur = i ->
     (exists a',
         find_actor r s' = Some (i, a') /\
         Track.playback (Track.value (track a')) = Track.paused /\
         Track.audio (Track.context (track a')) = None /\
         Track.bufferSourceNode (Track.context (track a')) = None) /\
     (forall a_next,
         at_index (trackActors (context s)) (cur + 1) = Some a_next ->
         processing a_next = false ->
         exists a',
           at_index (trackActors (context s')) (cur + 1) = Some a' /\
           ref a' = ref a_next /\
           Track.playback (Track.value (track a')) = Track.playing)).
Proof.
  intros s r i a cur n Hm Hst Hf Hp Hplay Hwired s'. subst s'.
  pose proof (find_actor_Some _ _ _ _ Hf) as [Ha Hr].
  assert (Hwho : NoDup (refs s) ->
                 (r, Track.DEACTIVATE) ∈ sent_at s cur Track.DEACTIVATE <->
                 0 <= cur /\ Z.to_nat cur = i).
  { intros Hnd.
    assert (Hi : refs s !! i = Some r).
    { unfold refs. by rewrite list_lookup_fmap, Ha, <- Hr. }
    unfold sent_at, ref_at, at_index. split.
    - destruct (0 <=? cur) eqn:E0; [|by intros H; apply elem_of_nil in H].
      apply Z.leb_le in E0.
      destruct (refs s !! Z.to_nat cur) as [r'|] eqn:E1;
        [|by intros H; apply elem_of_nil in H].
      intros H. apply list_elem_of_singleton in H. injection H as <-.
      split; [exact E0|]. by eapply NoDup_lookup.
    - intros [H0 <-]. apply Z.leb_le in H0. rewrite H0, Hi.
      by apply list_elem_of_singleton. }
  destruct (ended_signal r s _ a Hf Hp Hplay Hwired)
    as (E & S2 & Hf2 & Hpost1 & Hpost2).
  cbv zeta in E, S2, Hf2, Hpost1, Hpost2. rewrite E. clear E.
  set (o := Track.step (world s) (track a) Track.ENDED) in *.
  set (a1 := {| ref := ref a; processing := true; pending := [];
                track := Track.machine o |}) in *.
  set (s2 := observe _ (set_actor i a1 s)) in *.
  set (post := if Track.onEnded (Track.context (track a))
               then [Track.CallOnEnded] else []) in *.
  assert (Hm2 : mailbox s2 = []) by exact Hm.
  assert (Hst2 : state s2 = playing) by exact Hst.
  assert (R2 : refs s2 = refs s) by apply S2.
  assert (I2 : currentTrackIdx (context s2) = cur) by reflexivity.
  assert (L2 : len (trackActors (context s2)) = n)
    by apply (len_trackActors_refs _ _ R2).
  destruct (Z_lt_le_dec (cur + 1) n) as [Hlt|Hge].
  - (* the current index has a successor *)
    assert (Hlt2 : currentTrackIdx (context s2) + 1
                   < len (trackActors (context s2)))
      by (rewrite I2, L2; exact Hlt).
    rewrite (ended_send_advance s2 Hm2 Hst2 Hlt2).
    pose proof (autoAdvanceToNext_spec TRACK_ENDED s2 Hlt2) as S3.
    destruct (autoAdvance_reporter r s2 i a1 TRACK_ENDED Hf2 eq_refl eq_refl
                Hlt2) as (p & Hf3 & Hcases).
    set (s3 := autoAdvanceToNext TRACK_ENDED s2) in *.
    cbv zeta in S3. rewrite I2 in S3.
    set (a3 := {| ref := ref a1; processing := true; pending := p;
                  track := track a1 |}) in *.
    destruct (answered_run r s3 i a3 post Hf3 Hpost1 Hpost2)
      as (_ & S4 & Hf4 & Hothers).
    { destruct Hcases as [ -> | [ -> | [ -> | -> ]]]; by repeat constructor. }
    { destruct Hcases as [ -> | [ -> | [ -> | -> ]]]; unfold rounds; simpl; lia. }
    cbv zeta in S4, Hf4, Hothers.
    pose proof (spec_trans _ _ _ _ _ _ _ _ _ S2 S3) as S23.
    pose proof (spec_trans _ _ _ _ _ _ _ _ _ S23 S4)
      as (A1 & A2 & A3 & A4 & A5).
    cbn [app] in A3, A5. rewrite app_nil_r in A5. rewrite Hm in A3.
    assert (I3 : currentTrackIdx (context s3) = cur + 1) by apply S3.
    split; [exact A3|]. split; [exact A2|].
    split; [eexists; split; [exact Hf4 | by split]|].
    split; [|split; [intros Hlast; lia | split; [exact Hwho|]]].
    { intros _. split; [congruence|]. split; [congruence|].
      rewrite A5. f_equal. rewrite !(sent_at_refs _ _ _ _ R2).
      by replace (cur + 1 + 1) with (cur + 2) by lia. }
    intros _ H0 Hi. split.
    + (* the track that ended was the current one *)
      assert (Hf2' : find_actor r s2 = Some (Z.to_nat cur, a1))
        by (rewrite Hi; exact Hf2).
      pose proof (autoAdvance_current_busy r s2 a1 TRACK_ENDED H0 Hf2'
                    eq_refl Hlt2) as Hbusy.
      fold s3 in Hbusy. rewrite I2, Hi in Hbusy.
      assert (Ep : p = [Track.DEACTIVATE]).
      { rewrite Hbusy in Hf3. subst a3. injection Hf3 as Ep.
        symmetry. exact Ep. }
      subst a3. rewrite Ep in Hf4. cbn [ref pending track a1] in Hf4.
      assert (Hfl : Track.flush 7 (world s3) (Track.machine o)
                      [Track.DEACTIVATE] []
                    = Track.send (world s3) (Track.machine o)
                        Track.DEACTIVATE).
      { apply (flush_enough 5 2). apply TrackFacts.send_completes. }
      rewrite Hfl in Hf4.
      eexists. split; [exact Hf4|]. cbn [track].
      destruct (send_DEACTIVATE_releases (world s3) (Track.machine o))
        as (H1 & H2 & H3 & _). auto.
    + intros a_next Hnext Hidle.
      assert (Hcur2 : at_index (trackActors (context s2)) cur = Some a1).
      { rewrite at_index_nat by done. cbn. rewrite Hi.
        apply list_lookup_insert_eq. by eapply lookup_lt_Some. }
      assert (Hnext2 : at_index (trackActors (context s2)) (cur + 1)
                       = Some a_next).
      { rewrite at_index_nat by lia. cbn.
        rewrite list_lookup_insert_ne by lia.
        rewrite <- at_index_nat by lia. exact Hnext. }
      destruct (autoAdvanceToNext_actors TRACK_ENDED s2 a1 a_next Hcur2
                  Hnext2) as [_ B2].
      fold s3 in B2. rewrite I2 in B2.
      destruct (B2 Hidle) as (a' & C1 & C2 & C3).
      exists a'. split; [|by split].
      rewrite at_index_nat in C1 |- * by lia.
      rewrite Hothers by lia. exact C1.
  - (* the current index is the last one *)
    assert (Hlast2 : len (trackActors (context s2)) - 1
                     <= currentTrackIdx (context s2))
      by (rewrite I2, L2; lia).
    rewrite (ended_send_last s2 Hm2 Hst2 Hlast2).
    change (onEnded (context s2)) with (onEnded (context s)).
    set (told := if onEnded (context s) then [CallOnEnded] else []).
    assert (Hs3 : with_state ended
                    (if onEnded (context s) then observe [CallOnEnded] s2
                     else s2)
                  = with_state ended (observe told s2)).
    { subst told. destruct (onEnded (context s)); [reflexivity|].
      clear. subst s2. open_system s. by rewrite app_nil_r. }
    rewrite Hs3. clear Hs3.
    set (s3 := with_state ended (observe told s2)).
    assert (Htold : sends_of told = [])
      by (subst told; by destruct (onEnded (context s))).
    assert (S3 : step_spec s2 (observe told s2) []
                   (currentTrackIdx (context s2)) [])
      by by apply spec_observe.
    assert (Hf3 : find_actor r s3 = Some (i, a1)) by exact Hf2.
    destruct (answered_run r s3 i a1 post Hf3 Hpost1 Hpost2)
      as (_ & S4 & Hf4 & _).
    { constructor. }
    { unfold rounds. simpl. lia. }
    cbv zeta in S4, Hf4.
    destruct S2 as (A1 & A2 & A3 & A4 & A5).
    destruct S3 as (B1 & B2 & B3 & B4 & B5).
    destruct S4 as (C1 & C2 & C3 & C4 & C5).
    rewrite app_nil_r in A3, A5, B3, B5, C3, C5.
    split; [rewrite C3; exact Hm|].
    split; [rewrite C2; exact A2|].
    split; [eexists; split; [exact Hf4 | by split]|].
    split; [intros Hlt; lia|].
    split; [|split; [exact Hwho | intros Hlt; lia]].
    intros _. split; [exact C1|]. split; [exact C4|].
    rewrite C5. etrans; [exact B5 | exact A5].
Qed.

Lemma C3_witness :
  exists a,
    mailbox (Gapless.removeTrack 0
               (Gapless.gotoTrack 1 true (Gapless.play player3))) = [] /\
    state (Gapless.removeTrack 0
             (Gapless.gotoTrack 1 true (Gapless.play player3))) = playing /\
    find_actor 1 (Gapless.removeTrack 0
                    (Gapless.gotoTrack 1 true (Gapless.play player3)))
      = Some (0%nat, a) /\
    pending a = [] /\
    Track.playback (Track.value (track a)) = Track.playing /\
    Track.onTrackEnded (Track.context (track a)) = true /\
    len (trackActors
           (context (Gapless.removeTrack 0
                       (Gapless.gotoTrack 1 true (Gapless.play player3))))) - 1
      <= currentTrackIdx
           (context (Gapless.removeTrack 0
                       (Gapless.gotoTrack 1 true (Gapless.play player3)))) /\
    state (signal 1 Track.ENDED
             (Gapless.removeTrack 0
                (Gapless.gotoTrack 1 true (Gapless.play player3)))) = ended.
Proof.
  let v := eval vm_compute in
    (find_actor 1 (Gapless.removeTrack 0
                     (Gapless.gotoTrack 1 true (Gapless.play player3)))) in
  lazymatch v with
  | Some (_, ?a) =>
      exists a;
      set (s := Gapless.removeTrack 0
                  (Gapless.gotoTrack 1 true (Gapless.play player3)));
      assert (Hm : mailbox s = []) by (vm_compute; reflexivity);
      assert (Hst : state s = playing) by (vm_compute; reflexivity);
      assert (Hf : find_actor 1 s = Some (0%nat, a))
        by (vm_compute; reflexivity);
      assert (Hp : pending a = []) by reflexivity;
      assert (Hpl : Track.playback (Track.value (track a)) = Track.playing)
        by reflexivity;
      assert (Hw : Track.onTrackEnded (Track.context (track a)) = true)
        by reflexivity;
      assert (Hl : len (trackActors (context s)) - 1
                   <= currentTrackIdx (context s))
        by (vm_compute; intros H; discriminate H);
      split; [exact Hm|]; split; [exact Hst|]; split; [exact Hf|];
      split; [exact Hp|]; split; [exact Hpl|]; split; [exact Hw|];
      split; [exact Hl|];
      pose proof (C3_track_end_advances_from_the_current_index
                    s 1%nat 0%nat a Hm Hst Hf Hp Hpl Hw) as H;
      cbv zeta in H;
      exact (proj1 (proj1 (proj2 (proj2 (proj2 (proj2 H)))) Hl))
  end.
Defined.

(** The claim as stated fails when the track that ends is not the one at
    the current index.  In [[A; B; C]], [play()], [gotoTrack(1, true)] and
    [removeTrack(0)] leave [[B; C]] with [B] playing and the index still
    at 1, now on [C].  When [B] ends, the queue finds its index on the
    last track and goes to [ended]: [B] is not the last track, yet nothing
    is sent to any track and [C] is never played. *)
Lemma C3_a_track_with_a_successor_ends_the_queue :
  let s := Gapless.removeTrack 0
             (Gapless.gotoTrack 1 true (Gapless.play player3)) in
  let s' := signal 1 Track.ENDED s in
  let playbacks t :=
    (fun a => Track.playback (Track.value (track a)))
      <$> trackActors (context t) in
  state s = playing /\
  refs s = [1; 2]%nat /\
  currentTrackIdx (context s) = 1 /\
  playbacks s = [Track.playing; Track.paused] /\
  state s' = ended /\
  currentTrackIdx (context s') = 1 /\
  sends_of (trace s') = sends_of (trace s) /\
  playbacks s' = [Track.paused; Track.paused].
Proof. vm_compute. repeat split; reflexivity. Qed.

End AdvanceClaims.
